(** * STL slicer: cross-section extraction and path assembly

  A shallow embedding of [src/utils/BVHSlicer.ts] and
  [src/utils/StlSlicer.ts], with the worker of [src/workers/slicerWorker.ts]
  and its client [src/utils/slicerWorkerClient.ts].

  JavaScript [number]s are IEEE-754 binary64 values; they are modelled by
  Rocq's primitive [float]s, whose operations are the correctly rounded
  binary64 ones, so every definition below evaluates to the very value the
  TypeScript code computes.  Integer loop counters and array indices are
  kept as [nat]/[Z] and converted with [Number_of_Z] where the code mixes
  them with fractional arithmetic.

  Part I is the embedding: the numbers, the parts of three.js and
  three-mesh-bvh the two files call, the two files themselves, and the
  vocabulary and the concrete inputs of the theorems.  Part II holds the
  properties: the order of numbers, the rounding of the arithmetic (stated
  over the real numbers of the Standard Library), the edge test and the
  dedup of [BVHSlicer], the termination of the loops of [buildPaths], the
  paths it returns, the layers and progress reports of [sliceModel] with
  its loop counter, the traversal of the hierarchy, the point graph and
  its passes, and the messages of the worker. *)

From Stdlib Require Import ZArith Floats Lia Bool String.
From Stdlib Require Reals Lra.
From stdpp Require Import base option list gmap.

Set Warnings "-inexact-float".
Set Default Proof Using "Type".

(* ===================================================================== *)
(** * Part I: the embedding *)
(* ===================================================================== *)

(** ** JavaScript numbers and the [Math] functions the code calls *)

Module JsMath.

(** [Number(i)] for an integer [i]: the nearest binary64 value, ties to
    even.  Exact for [|i| <= 2^53]. *)
Definition Number_of_Z (i : Z) : float :=
  SF2Prim (binary_normalize prec emax i 0 false).

Definition Number_of_nat (i : nat) : float := Number_of_Z (Z.of_nat i).

(** The mathematical value of a finite, integer-valued number;
    [None] for [NaN], the infinities and fractional values. *)
Definition int_value (x : float) : option Z :=
  match Prim2SF x with
  | S754_zero _ => Some 0%Z
  | S754_finite s m e =>
      let M := cond_Zopp s (Zpos m) in
      if (0 <=? e)%Z then Some (M * 2 ^ e)%Z
      else if (M mod 2 ^ (- e) =? 0)%Z then Some (M / 2 ^ (- e))%Z else None
  | _ => None
  end.

(** [i < x] for an integer counter [i] (held exactly) and a number [x]:
    a comparison of mathematical values, false against [NaN]. *)
Definition int_lt (i : Z) (x : float) : bool :=
  match Prim2SF x with
  | S754_nan => false
  | S754_infinity s => negb s
  | S754_zero _ => (i <? 0)%Z
  | S754_finite s m e =>
      let M := cond_Zopp s (Zpos m) in
      if (0 <=? e)%Z then (i <? M * 2 ^ e)%Z
      else (i * 2 ^ (- e) <? M)%Z
  end.

Definition Math_abs (x : float) : float := abs x.
Definition Math_sqrt (x : float) : float := sqrt x.

(** [Math.max] / [Math.min] of two arguments: [NaN] if either is [NaN];
    [+0] is larger than [-0]. *)
Definition Math_max (a b : float) : float :=
  if is_nan a || is_nan b then nan
  else if (a <? b)%float then b
  else if (b <? a)%float then a
  else if get_sign a then b else a.

Definition Math_min (a b : float) : float :=
  if is_nan a || is_nan b then nan
  else if (a <? b)%float then a
  else if (b <? a)%float then b
  else if get_sign a then a else b.

Definition signed_zero (s : bool) : float := if s then neg_zero else zero.

(** [Math.ceil]: the smallest integer not below [x]; keeps [NaN], the
    infinities and the zeros; values in (-1, 0) give [-0]. *)
Definition Math_ceil (x : float) : float :=
  match Prim2SF x with
  | S754_finite s m e =>
      if (0 <=? e)%Z then x
      else
        let z := (- ((- cond_Zopp s (Zpos m)) / 2 ^ (- e)))%Z in
        if (z =? 0)%Z then signed_zero s else Number_of_Z z
  | _ => x
  end.

(** [Math.round]: the integer nearest to [x], ties towards +infinity. *)
Definition Math_round (x : float) : float :=
  match Prim2SF x with
  | S754_finite s m e =>
      if (0 <=? e)%Z then x
      else
        let k := (2 ^ (- e))%Z in
        let z := ((2 * cond_Zopp s (Zpos m) + k) / (2 * k))%Z in
        if (z =? 0)%Z then signed_zero s else Number_of_Z z
  | _ => x
  end.

Definition Math_PI : float := 3.141592653589793%float.

(** What [`${v}`] prints for a rounded number [v], up to injectivity: two
    rounded numbers print the same text iff they are the same integer
    ([-0] prints as ["0"]), both [NaN], or the same infinity. *)
Inductive NumText :=
| TInt (z : Z)
| TNaN
| TInfinity (negative : bool)
| TFraction (s : bool) (m : positive) (e : Z).

Definition to_text (v : float) : NumText :=
  match Prim2SF v with
  | S754_nan => TNaN
  | S754_infinity s => TInfinity s
  | S754_zero _ => TInt 0
  | S754_finite s m e =>
      match int_value v with
      | Some z => TInt z
      | None => TFraction s m e
      end
  end.

Global Instance NumText_eq_dec : EqDecision NumText.
Proof. solve_decision. Defined.

Global Instance NumText_countable : Countable NumText.
Proof.
  refine (inj_countable'
    (λ t, match t with
          | TInt z => inl z
          | TNaN => inr (inl ())
          | TInfinity s => inr (inr (inl s))
          | TFraction s m e => inr (inr (inr (s, m, e)))
          end)
    (λ c, match c with
          | inl z => TInt z
          | inr (inl _) => TNaN
          | inr (inr (inl s)) => TInfinity s
          | inr (inr (inr (s, m, e))) => TFraction s m e
          end) _).
  by intros [].
Defined.

(** *** The order of numbers

    [<] and [<=] on numbers read through a key: [None] for [NaN], else a
    triple ordered lexicographically; both zeros share one key. *)

Definition sf_key (x : spec_float) : option (Z * Z * Z) :=
  match x with
  | S754_nan => None
  | S754_zero _ => Some (0, 0, 0)%Z
  | S754_infinity s => Some (if s then (-2)%Z else 2%Z, 0%Z, 0%Z)
  | S754_finite s m e =>
      Some (if s then ((-1)%Z, (- e)%Z, Zneg m) else (1%Z, e, Zpos m))
  end.

Definition lex_lt (a b : Z * Z * Z) : Prop :=
  let '(a1, a2, a3) := a in
  let '(b1, b2, b3) := b in
  (a1 < b1 ∨ (a1 = b1 ∧ (a2 < b2 ∨ (a2 = b2 ∧ a3 < b3))))%Z.

Definition fkey (x : float) : option (Z * Z * Z) := sf_key (Prim2SF x).

Definition num_lt (x y : float) : Prop :=
  match fkey x, fkey y with
  | Some a, Some b => lex_lt a b
  | _, _ => False
  end.

Definition num_le (x y : float) : Prop :=
  match fkey x, fkey y with
  | Some a, Some b => lex_lt a b ∨ a = b
  | _, _ => False
  end.

(** *** Typed arrays

    What a [Float32Array] stores for a number: the nearest single-precision
    value, ties to even ([Math.fround]); values beyond the single-precision
    range become infinite, [NaN] and the zeros are kept. *)
Definition Math_fround (x : float) : float :=
  match Prim2SF x with
  | S754_finite s m e =>
      match binary_round 24 128 s m e with
      | S754_finite s' m' e' => SF2Prim (binary_round prec emax s' m' e')
      | r => SF2Prim r
      end
  | _ => x
  end.

(** What a [Uint32Array] stores for a non-negative integer: its value
    modulo [2^32]. *)
Definition ToUint32 (i : nat) : nat := Z.to_nat (Z.of_nat i mod 2 ^ 32).

End JsMath.

(** ** The parts of three.js the slicer uses

  [Vector2], [Vector3] and [Box3] with the methods called by the two
  source files, as three.js defines them. *)

Module Vector2.
Record t := mk { x : float; y : float }.

(** [distanceTo] is [Math.sqrt(dx*dx + dy*dy)]. *)
Definition distanceTo (p q : t) : float :=
  let dx := (x p - x q)%float in
  let dy := (y p - y q)%float in
  JsMath.Math_sqrt (dx * dx + dy * dy)%float.

(** Points are immutable values here, so [clone] is the identity. *)
Definition clone (p : t) : t := p.
End Vector2.

Module Vector3.
Record t := mk { x : float; y : float; z : float }.

Definition distanceTo (p q : t) : float :=
  let dx := (x p - x q)%float in
  let dy := (y p - y q)%float in
  let dz := (z p - z q)%float in
  JsMath.Math_sqrt (dx * dx + dy * dy + dz * dz)%float.

(** [lerpVectors(v1, v2, alpha)]: [v1 + (v2 - v1) * alpha] per coordinate. *)
Definition lerpVectors (v1 v2 : t) (alpha : float) : t :=
  mk (x v1 + (x v2 - x v1) * alpha)%float
     (y v1 + (y v2 - y v1) * alpha)%float
     (z v1 + (z v2 - z v1) * alpha)%float.

Definition length (v : t) : float :=
  JsMath.Math_sqrt (x v * x v + y v * y v + z v * z v)%float.
End Vector3.

Module Box3.
Record t := mk { min : Vector3.t; max : Vector3.t }.

Definition isEmpty (b : t) : bool :=
  (Vector3.x (max b) <? Vector3.x (min b))%float
  || (Vector3.y (max b) <? Vector3.y (min b))%float
  || (Vector3.z (max b) <? Vector3.z (min b))%float.

(** [getSize]: [max - min], or the zero vector for an empty box. *)
Definition getSize (b : t) : Vector3.t :=
  if isEmpty b then Vector3.mk 0 0 0
  else Vector3.mk (Vector3.x (max b) - Vector3.x (min b))%float
                  (Vector3.y (max b) - Vector3.y (min b))%float
                  (Vector3.z (max b) - Vector3.z (min b))%float.
End Box3.

Inductive Axis := AxisX | AxisY | AxisZ.

(** [THREE.BufferGeometry], reduced to the two attributes the slicer reads:
  the flat position buffer and the optional triangle index list. *)
Record BufferGeometry := {
positionAttr : option (list float);
indexAttr : option (list nat)
}.

(** [positionAttribute.count]: the number of vertices in the flat buffer. *)
Definition positionCount (positions : list float) : nat := length positions / 3.

(** The identity index [0, 1, ..., count-1] pushed when a geometry has none. *)
Definition identityIndices (count : nat) : list nat := seq 0 count.

(** ** three-mesh-bvh: the bounding-volume hierarchy and [shapecast]

  The tree is whatever [new MeshBVH(geometry)] built; [shapecast] descends
  into a node only when [intersectsBounds] accepts its box and hands every
  triangle of a reached leaf to [intersectsTriangle]. *)
Record Triangle := { tri_a : Vector3.t; tri_b : Vector3.t; tri_c : Vector3.t }.

Inductive MeshBVH :=
| BVHLeaf (box : Box3.t) (tris : list Triangle)
| BVHNode (box : Box3.t) (left right : MeshBVH).

Fixpoint shapecast {A : Type} (bvh : MeshBVH) (intersectsBounds : Box3.t → bool)
  (intersectsTriangle : Triangle → option A) : list A :=
match bvh with
| BVHLeaf box tris =>
    if intersectsBounds box then omap intersectsTriangle tris else []
| BVHNode box l r =>
    if intersectsBounds box
    then shapecast l intersectsBounds intersectsTriangle
         ++ shapecast r intersectsBounds intersectsTriangle
    else []
end.

(** ** BVHSlicer.ts *)

Module BVHSlicer.

Record t := mk { bvh : MeshBVH; geometry : BufferGeometry }.

(** [geometry.setIndex(0..count-1)] when the geometry has positions but no
    index, as the constructor does before building the hierarchy. *)
Definition ensureIndex (g : BufferGeometry) : BufferGeometry :=
  match indexAttr g, positionAttr g with
  | None, Some positions =>
      {| positionAttr := positionAttr g;
         indexAttr := Some (identityIndices (positionCount positions)) |}
  | _, _ => g
  end.

(** [new BVHSlicer(geometry)]; [MeshBVH_new] stands for the constructor of
    three-mesh-bvh. *)
Definition create (MeshBVH_new : BufferGeometry → MeshBVH) (g : BufferGeometry) : t :=
  let g' := ensureIndex g in
  {| bvh := MeshBVH_new g'; geometry := g' |}.

Definition EDGE_EPS : float := 1e-12%float.

Definition axisCoord (axis : Axis) (v : Vector3.t) : float :=
  match axis with
  | AxisX => Vector3.x v
  | AxisY => Vector3.y v
  | AxisZ => Vector3.z v
  end.

(** The guard of [checkEdge]:
    [(a <= position && b >= position) || (a >= position && b <= position)]. *)
Definition straddles (a b position : float) : bool :=
  ((a <=? position)%float && (position <=? b)%float)
  || ((position <=? a)%float && (b <=? position)%float).

(** The clamped interpolation parameter
    [Math.max(0, Math.min(1, (position - a) / denom))]. *)
Definition clampedT (a denom position : float) : float :=
  JsMath.Math_max 0 (JsMath.Math_min 1 ((position - a) / denom)%float).

(** [checkEdge(start, end)]: the point pushed onto [intersectionPoints],
    if any. *)
Definition checkEdge (position : float) (axis : Axis)
    (start end_ : Vector3.t) : option Vector3.t :=
  let a := axisCoord axis start in
  let b := axisCoord axis end_ in
  if straddles a b position then
    let denom := (b - a)%float in
    if (JsMath.Math_abs denom <? EDGE_EPS)%float then None
    else Some (Vector3.lerpVectors start end_ (clampedT a denom position))
  else None.

(** [intersectionPoints] after the three [checkEdge] calls. *)
Definition rawIntersections (position : float) (axis : Axis)
    (tri : Triangle) : list Vector3.t :=
  let v1 := tri_a tri in
  let v2 := tri_b tri in
  let v3 := tri_c tri in
  option_list (checkEdge position axis v1 v2)
  ++ option_list (checkEdge position axis v2 v3)
  ++ option_list (checkEdge position axis v3 v1).

(** One step of the dedup loop: [points[j]] joins [deduped] unless it is
    within [EDGE_EPS] of a point already kept. *)
Definition dedupStep (deduped : list Vector3.t) (p : Vector3.t) : list Vector3.t :=
  if existsb (λ existing, (Vector3.distanceTo p existing <? EDGE_EPS)%float) deduped
  then deduped else deduped ++ [p].

Definition dedupPoints (points : list Vector3.t) : list Vector3.t :=
  match points with
  | [] => []
  | p0 :: rest => foldl dedupStep [p0] rest
  end.

(** The body of [intersectsTriangle]: the segment pushed onto
    [intersectedEdges], if any (the callback itself always returns
    [false], so the traversal never stops early). *)
Definition intersectsTriangle (position : float) (axis : Axis)
    (tri : Triangle) : option (list Vector3.t) :=
  let intersectionPoints := rawIntersections position axis tri in
  if (length intersectionPoints =? 2)%nat then Some intersectionPoints
  else if (length intersectionPoints =? 3)%nat then
    let deduped := dedupPoints intersectionPoints in
    if (length deduped =? 2)%nat then Some deduped else None
  else None.

Definition intersectsBounds (position : float) (axis : Axis) (box : Box3.t) : bool :=
  let axisMin := axisCoord axis (Box3.min box) in
  let axisMax := axisCoord axis (Box3.max box) in
  (axisMin <=? position)%float && (position <=? axisMax)%float.

Definition sliceAtPlane (s : t) (position : float) (axis : Axis)
    : list (list Vector3.t) :=
  match positionAttr (geometry s), indexAttr (geometry s) with
  | Some _, Some _ =>
      shapecast (bvh s) (intersectsBounds position axis)
                (intersectsTriangle position axis)
  | _, _ => []
  end.

End BVHSlicer.

(** ** Control flow shared by the loops of StlSlicer.ts

    A [while] loop is a body that either continues or breaks with the next
    state, run for at most [fuel] iterations; [None] means the iterations
    ran out before the loop broke.  Every use below comes with a proof that
    the fuel it passes is enough. *)

Inductive LoopStep (S : Type) :=
| Continue (s : S)
| Break (s : S).
Arguments Continue {S} s.
Arguments Break {S} s.

Fixpoint while_loop {S : Type} (fuel : nat) (body : S → LoopStep S) (s : S)
    : option S :=
  match fuel with
  | O => None
  | Datatypes.S fuel' =>
      match body s with
      | Break s' => Some s'
      | Continue s' => while_loop fuel' body s'
      end
  end.

(** A [for ... of] loop whose body may run a [while_loop]. *)
Fixpoint for_each {S A : Type} (body : A → S → option S) (items : list A) (s : S)
    : option S :=
  match items with
  | [] => Some s
  | a :: rest => s' ← body a s; for_each body rest s'
  end.

(** [Array.prototype.sort(compare)]: a stable sort; [compare a b] is
    negative when [a] goes first. *)
Fixpoint sort_insert {A : Type} (compare : A → A → Z) (a : A) (sorted : list A)
    : list A :=
  match sorted with
  | [] => [a]
  | b :: rest =>
      if (compare a b <? 0)%Z then a :: b :: rest
      else b :: sort_insert compare a rest
  end.

Definition sort_by {A : Type} (compare : A → A → Z) (l : list A) : list A :=
  foldl (λ sorted a, sort_insert compare a sorted) [] l.

(** ** StlSlicer.ts *)

Module StlSlicer.

Record PathBounds := {
  minX : float;
  maxX : float;
  minY : float;
  maxY : float
}.

Definition Path := list Vector2.t.

Record LayerData := {
  index : nat;
  paths : list Path;
  z : float;
  bounds : PathBounds
}.

Definition zeroBounds : PathBounds :=
  {| minX := 0; maxX := 0; minY := 0; maxY := 0 |}.

Definition initialBounds : PathBounds :=
  {| minX := infinity; maxX := neg_infinity;
     minY := infinity; maxY := neg_infinity |}.

(** The four [if]s run for one point of the scan. *)
Definition boundsStep (acc : PathBounds) (point : Vector2.t) : PathBounds :=
  {| minX := if (Vector2.x point <? minX acc)%float then Vector2.x point else minX acc;
     maxX := if (maxX acc <? Vector2.x point)%float then Vector2.x point else maxX acc;
     minY := if (Vector2.y point <? minY acc)%float then Vector2.y point else minY acc;
     maxY := if (maxY acc <? Vector2.y point)%float then Vector2.y point else maxY acc |}.

Definition scanBounds (paths : list Path) : PathBounds :=
  foldl (λ acc path, foldl boundsStep acc path) initialBounds paths.

Definition computePathBounds (paths : list Path) : PathBounds :=
  let acc := scanBounds paths in
  if (minX acc =? infinity)%float then zeroBounds else acc.

(** *** convertTo2D

    The guard of [convertTo2D] inspects values that the static types rule
    out: a missing point and coordinates that are not numbers.  [JsValue]
    keeps just that distinction. *)
Inductive JsValue :=
| JsNumber (v : float)
| JsNotNumber.

Record RawPoint := { raw_x : JsValue; raw_y : JsValue; raw_z : JsValue }.

Definition ofVector3 (v : Vector3.t) : RawPoint :=
  {| raw_x := JsNumber (Vector3.x v);
     raw_y := JsNumber (Vector3.y v);
     raw_z := JsNumber (Vector3.z v) |}.

Definition convertTo2D (point : option RawPoint) (axis : Axis) : Vector2.t :=
  match point with
  | Some {| raw_x := JsNumber px; raw_y := JsNumber py; raw_z := JsNumber pz |} =>
      match axis with
      | AxisX => Vector2.mk py pz
      | AxisY => Vector2.mk px pz
      | AxisZ => Vector2.mk px py
      end
  | _ => Vector2.mk 0 0
  end.

(** *** Scale-aware tolerances *)

Definition safeDiag (diagonal : float) : float := JsMath.Math_max diagonal 1e-10.
Definition TOLERANCE (diagonal : float) : float := (safeDiag diagonal * 1e-5)%float.
Definition ZERO_LENGTH_TOL (diagonal : float) : float := (safeDiag diagonal * 1e-6)%float.
Definition MIN_PATH_LENGTH (diagonal : float) : float := (safeDiag diagonal * 1e-3)%float.
Definition FALLBACK_RADIUS (diagonal : float) : float := (safeDiag diagonal * 1e-4)%float.

(** *** Segments: the 2D projections of the intersected edges *)

Definition Segment : Type := Vector2.t * Vector2.t.

Definition segmentOfEdge (axis : Axis) (zeroTol : float) (edge : list Vector3.t)
    : option Segment :=
  match edge with
  | [e0; e1] =>
      let p1 := convertTo2D (Some (ofVector3 e0)) axis in
      let p2 := convertTo2D (Some (ofVector3 e1)) axis in
      if (zeroTol <? Vector2.distanceTo p1 p2)%float then Some (p1, p2) else None
  | _ => None
  end.

Definition segmentsOfEdges (axis : Axis) (zeroTol : float)
    (edges : list (list Vector3.t)) : list Segment :=
  omap (segmentOfEdge axis zeroTol) edges.


Definition segmentEnd (seg : Segment) (endIdx : bool) : Vector2.t :=
  if endIdx then snd seg else fst seg.

(** *** The point graph *)

Record Node := {
  position : Vector2.t;
  connections : list nat;
  used : bool
}.

Definition PointKey : Type := JsMath.NumText * JsMath.NumText.

Record Graph := {
  nodes : list Node;
  nodeMap : gmap PointKey nat
}.

Definition getPointKey (tol : float) (point : Vector2.t) : PointKey :=
  (JsMath.to_text (JsMath.Math_round (Vector2.x point / tol)%float),
   JsMath.to_text (JsMath.Math_round (Vector2.y point / tol)%float)).

Definition getNodeIndex (tol : float) (g : Graph) (point : Vector2.t) : nat * Graph :=
  let key := getPointKey tol point in
  match nodeMap g !! key with
  | Some i => (i, g)
  | None =>
      let index := length (nodes g) in
      (index,
       {| nodes := nodes g ++ [{| position := Vector2.clone point;
                                  connections := []; used := false |}];
          nodeMap := <[key := index]> (nodeMap g) |})
  end.

(** [connections.add(j)]: a [Set] iterates in insertion order. *)
Definition addConnection (j : nat) (n : Node) : Node :=
  {| position := position n;
     connections := if bool_decide (j ∈ connections n) then connections n
                    else connections n ++ [j];
     used := used n |}.

Definition setUsed (u : bool) (n : Node) : Node :=
  {| position := position n; connections := connections n; used := u |}.

Definition addSegment (tol : float) (g : Graph) (seg : Segment) : Graph :=
  let '(i1, g1) := getNodeIndex tol g (fst seg) in
  let '(i2, g2) := getNodeIndex tol g1 (snd seg) in
  if (i1 =? i2)%nat then g2
  else {| nodes := alter (addConnection i1) i2 (alter (addConnection i2) i1 (nodes g2));
          nodeMap := nodeMap g2 |}.

Definition buildGraph (tol : float) (segments : list Segment) : Graph :=
  foldl (addSegment tol) {| nodes := []; nodeMap := ∅ |} segments.

(** [nodes[idx]].  Every index the code reads was produced by
    [getNodeIndex], so the default is never reached; it is marked used so
    that it could never be picked as a continuation. *)
Definition nodeAt (nodes : list Node) (idx : nat) : Node :=
  default {| position := Vector2.mk 0 0; connections := []; used := true |}
          (nodes !! idx).

Definition markAll (u : bool) (indices : list nat) (nodes : list Node) : list Node :=
  foldl (λ ns idx, alter (setUsed u) idx ns) nodes indices.

(** How a call ends: with a value, with a thrown [Error], or still running
    when the iterations allowed to its loops are used up. *)
Inductive Outcome (A : Type) :=
| Returned (a : A)
| Thrown (message : string)
| OutOfFuel.
Arguments Returned {A} a.
Arguments Thrown {A} message.
Arguments OutOfFuel {A}.

(** *** Path building

    [Math.atan2] is only specified up to an implementation-chosen
    approximation, so it is a parameter of everything that traces the
    graph. *)

Section PathBuilding.

Variable Math_atan2 : float → float → float.

(** The turning-angle scan of [chooseBestConnection] over the candidates. *)
Definition bestAngleStep (cur : Vector2.t) (nodes : list Node) (inAngle : float)
    (best : option nat * float) (candIdx : nat) : option nat * float :=
  let cand := position (nodeAt nodes candIdx) in
  let outAngle := Math_atan2 (Vector2.y cand - Vector2.y cur)%float
                             (Vector2.x cand - Vector2.x cur)%float in
  let diff := JsMath.Math_abs (outAngle - inAngle)%float in
  let diff := if (JsMath.Math_PI <? diff)%float
              then (2 * JsMath.Math_PI - diff)%float else diff in
  if (diff <? snd best)%float then (Some candIdx, diff) else best.

Definition chooseBestConnection (nodes : list Node) (prevIdx : option nat)
    (currentIdx : nat) (exclude : list nat) : option nat :=
  let current := nodeAt nodes currentIdx in
  let candidates :=
    filter (λ connIdx, connIdx ∉ exclude) (connections current) in
  match candidates with
  | [] => None
  | [only] => Some only
  | first :: _ =>
      match prevIdx with
      | None => Some first
      | Some prevI =>
          let prev := position (nodeAt nodes prevI) in
          let cur := position current in
          let inAngle := Math_atan2 (Vector2.y cur - Vector2.y prev)%float
                                    (Vector2.x cur - Vector2.x prev)%float in
          fst (foldl (bestAngleStep cur nodes inAngle) (None, infinity) candidates)
      end
  end.

(** **** First pass: [findContours] *)

(** The comparator handed to [sort]: degree-1 nodes first, then degree-2,
    then the rest, each group by index. *)
Definition startCompare (nodes : list Node) (a b : nat) : Z :=
  let da := length (connections (nodeAt nodes a)) in
  let db := length (connections (nodeAt nodes b)) in
  if (da =? 1)%nat && negb (db =? 1)%nat then (-1)%Z
  else if (db =? 1)%nat && negb (da =? 1)%nat then 1%Z
  else if (da =? 2)%nat && negb (db =? 2)%nat then (-1)%Z
  else if (db =? 2)%nat && negb (da =? 2)%nat then 1%Z
  else (Z.of_nat a - Z.of_nat b)%Z.

Definition startOrder (nodes : list Node) : list nat :=
  sort_by (startCompare nodes) (seq 0 (length nodes)).

(** The variables of one trace: the node array (for the [used] marks), the
    path, the indices behind it, and the running length. *)
Record Trace := {
  tr_nodes : list Node;
  tr_path : Path;
  tr_indices : list nat;
  tr_current : nat;
  tr_prev : option nat;
  tr_complete : bool;
  tr_length : float
}.

(** One iteration of [while (!complete)]. *)
Definition traceStep (nSegments startIdx : nat) (t : Trace) : LoopStep Trace :=
  let usedSet := filter (λ idx, idx ≠ startIdx) (tr_indices t) in
  match chooseBestConnection (tr_nodes t) (tr_prev t) (tr_current t) usedSet with
  | None => Break t
  | Some nextIdx =>
      if (nextIdx =? startIdx)%nat then
        Break {| tr_nodes := tr_nodes t; tr_path := tr_path t;
                 tr_indices := tr_indices t; tr_current := tr_current t;
                 tr_prev := tr_prev t; tr_complete := true;
                 tr_length :=
                   (tr_length t
                    + Vector2.distanceTo
                        (position (nodeAt (tr_nodes t) (tr_current t)))
                        (position (nodeAt (tr_nodes t) startIdx)))%float |}
      else
        let point := Vector2.clone (position (nodeAt (tr_nodes t) nextIdx)) in
        let t' :=
          {| tr_nodes := alter (setUsed true) nextIdx (tr_nodes t);
             tr_path := tr_path t ++ [point];
             tr_indices := tr_indices t ++ [nextIdx];
             tr_current := nextIdx;
             tr_prev := Some (tr_current t);
             tr_complete := false;
             tr_length :=
               match last (tr_path t) with
               | Some before => (tr_length t + Vector2.distanceTo point before)%float
               | None => tr_length t
               end |} in
        (* Safety check *)
        if (nSegments * 2 <? length (tr_path t'))%nat then Break t' else Continue t'
  end.

(** What follows the loop: keep the path, closing it when the trace came
    back to its start, or release its nodes. *)
Definition finishTrace (tol minLen : float) (acc : list Path) (t : Trace)
    : list Node * list Path :=
  if (3 <=? length (tr_path t))%nat && (minLen <? tr_length t)%float then
    let path :=
      match tr_complete t, head (tr_path t), last (tr_path t) with
      | true, Some first, Some final =>
          if (tol <? Vector2.distanceTo first final)%float
          then tr_path t ++ [Vector2.clone first] else tr_path t
      | _, _, _ => tr_path t
      end in
    (tr_nodes t, acc ++ [path])
  else (markAll false (tr_indices t) (tr_nodes t), acc).

Definition traceFrom (tol minLen : float) (nSegments : nat) (startIdx : nat)
    (st : list Node * list Path) : option (list Node * list Path) :=
  let '(nodes, acc) := st in
  if used (nodeAt nodes startIdx) then Some st
  else if (2 <? length (connections (nodeAt nodes startIdx)))%nat then Some st
  else
    t ← while_loop (nSegments * 2 + 1) (traceStep nSegments startIdx)
          {| tr_nodes := alter (setUsed true) startIdx nodes;
             tr_path := [Vector2.clone (position (nodeAt nodes startIdx))];
             tr_indices := [startIdx];
             tr_current := startIdx;
             tr_prev := None;
             tr_complete := false;
             tr_length := 0 |};
    Some (finishTrace tol minLen acc t).

Definition findContours (tol minLen : float) (nSegments : nat)
    (st : list Node * list Path) : option (list Node * list Path) :=
  for_each (traceFrom tol minLen nSegments) (startOrder (fst st)) st.

(** **** Second pass: [handleRemainingSegments] *)

(** The scan of [findBestNextNode]; [None] as best score stands for
    [Infinity]. *)
Definition bestNextStep (nodes : list Node) (visited : list nat)
    (best : option nat * option nat) (nextIdx : nat) : option nat * option nat :=
  if bool_decide (nextIdx ∈ visited) then best
  else if used (nodeAt nodes nextIdx) then best
  else
    let score := length (connections (nodeAt nodes nextIdx)) in
    match snd best with
    | Some bestScore =>
        if (score <? bestScore)%nat then (Some nextIdx, Some score) else best
    | None => (Some nextIdx, Some score)
    end.

Definition findBestNextNode (nodes : list Node) (currentIdx : nat)
    (visited : list nat) : option nat :=
  fst (foldl (bestNextStep nodes visited) (None, None)
             (connections (nodeAt nodes currentIdx))).

(** The variables of one extension ([forward...] or [backward...]). *)
Record Extension := {
  ex_visited : list nat;
  ex_path : Path;
  ex_idx : nat;
  ex_length : float
}.

Definition extendStep (nodes : list Node) (forward : bool) (e : Extension)
    : LoopStep Extension :=
  match findBestNextNode nodes (ex_idx e) (ex_visited e) with
  | None => Break e
  | Some nextIdx =>
      let point := Vector2.clone (position (nodeAt nodes nextIdx)) in
      Continue
        {| ex_visited := ex_visited e ++ [nextIdx];
           ex_path := if forward then ex_path e ++ [point] else point :: ex_path e;
           ex_idx := nextIdx;
           ex_length :=
             (ex_length e
              + Vector2.distanceTo (position (nodeAt nodes nextIdx))
                                   (position (nodeAt nodes (ex_idx e))))%float |}
  end.

(** How an accepted path of the second pass is pushed: as it is when its
    ends already coincide, closed when the end nodes are connected in the
    graph, open otherwise. *)
Definition closeIfConnected (tol : float) (g : Graph) (nodes : list Node)
    (fullPath : Path) : Path :=
  match head fullPath, last fullPath with
  | Some first, Some final =>
      if (Vector2.distanceTo first final <? tol)%float then fullPath
      else
        match nodeMap g !! getPointKey tol first, nodeMap g !! getPointKey tol final with
        | Some startNodeIdx, Some endNodeIdx =>
            if bool_decide (endNodeIdx ∈ connections (nodeAt nodes startNodeIdx))
            then fullPath ++ [Vector2.clone first]
            else fullPath
        | _, _ => fullPath
        end
  | _, _ => fullPath
  end.

Definition finishExtension (tol minLen : float) (g : Graph)
    (st : list Node * list Path) (fwd bwd : Extension)
    : list Node * list Path :=
  let '(nodes, acc) := st in
  let fullPath := ex_path bwd ++ ex_path fwd in
  if (3 <=? length fullPath)%nat && (minLen <? ex_length bwd)%float then
    let nodes' := markAll true (ex_visited bwd) (markAll true (ex_visited fwd) nodes) in
    (nodes', acc ++ [closeIfConnected tol g nodes' fullPath])
  else st.

Definition extendFrom (tol minLen : float) (g : Graph) (i : nat)
    (st : list Node * list Path) : option (list Node * list Path) :=
  let '(nodes, acc) := st in
  if used (nodeAt nodes i) then Some st
  else
    fwd ← while_loop (S (length nodes)) (extendStep nodes true)
            {| ex_visited := [i];
               ex_path := [Vector2.clone (position (nodeAt nodes i))];
               ex_idx := i; ex_length := 0 |};
    bwd ← while_loop (S (length nodes)) (extendStep nodes false)
            {| ex_visited := [i]; ex_path := [];
               ex_idx := i; ex_length := ex_length fwd |};
    Some (finishExtension tol minLen g st fwd bwd).

Definition handleRemainingSegments (tol minLen : float) (g : Graph)
    (st : list Node * list Path) : option (list Node * list Path) :=
  let remaining := filter (λ node, used node = false) (fst st) in
  if (length remaining =? 0)%nat then Some st
  else for_each (extendFrom tol minLen g) (seq 0 (length (fst st))) st.

(** **** Fallback: chaining whole segments *)

Record ClosestMatch := { segIdx : nat; endIdx : bool }.

(** The inner [for (const endIdx of [0, 1])] of [findClosestSegment]. *)
Definition closestEndStep (point : Vector2.t) (i : nat) (seg : Segment)
    (best : option ClosestMatch * float) (e : bool) : option ClosestMatch * float :=
  let dist := Vector2.distanceTo point (segmentEnd seg e) in
  if (dist <? snd best)%float then (Some {| segIdx := i; endIdx := e |}, dist)
  else best.

Definition closestSegStep (point : Vector2.t) (excludeSet : list nat)
    (best : option ClosestMatch * float) (entry : nat * Segment)
    : option ClosestMatch * float :=
  let '(i, seg) := entry in
  if bool_decide (i ∈ excludeSet) then best
  else foldl (closestEndStep point i seg) best [false; true].

Definition findClosestSegment (radius : float) (segments : list Segment)
    (point : Vector2.t) (excludeSet : list nat) : option ClosestMatch :=
  fst (foldl (closestSegStep point excludeSet) (None, radius)
             (imap (λ i seg, (i, seg)) segments)).

Record Chain := { ch_path : Path; ch_used : list nat }.

(** One iteration of a [while (extended)] loop; [atTail] tells the forward
    loop from the backward one. *)
Definition chainStep (radius : float) (segments : list Segment) (atTail : bool)
    (c : Chain) : LoopStep Chain :=
  match (if atTail then last (ch_path c) else head (ch_path c)) with
  | None => Break c
  | Some anchor =>
      match findClosestSegment radius segments anchor (ch_used c) with
      | None => Break c
      | Some m =>
          match segments !! segIdx m with
          | None => Break c
          | Some seg =>
              (* walk the segment from the matched end to the other end *)
              let other := Vector2.clone (segmentEnd seg (negb (endIdx m))) in
              Continue
                {| ch_path := if atTail then ch_path c ++ [other]
                              else other :: ch_path c;
                   ch_used := ch_used c ++ [segIdx m] |}
          end
      end
  end.

Definition chainFrom (radius : float) (segments : list Segment) (entry : nat * Segment)
    (st : list nat * list Path) : option (list nat * list Path) :=
  let '(i, seg) := entry in
  let '(usedSegments, acc) := st in
  if bool_decide (i ∈ usedSegments) then Some st
  else
    fwd ← while_loop (S (length segments)) (chainStep radius segments true)
            {| ch_path := [Vector2.clone (fst seg); Vector2.clone (snd seg)];
               ch_used := usedSegments ++ [i] |};
    bwd ← while_loop (S (length segments)) (chainStep radius segments false) fwd;
    Some (ch_used bwd,
          if (3 <=? length (ch_path bwd))%nat then acc ++ [ch_path bwd] else acc).

Definition chainSegments (radius : float) (segments : list Segment)
    : option (list Path) :=
  snd <$> for_each (chainFrom radius segments)
                   (imap (λ i seg, (i, seg)) segments) ([], []).

(** **** Final cleanup *)

Definition finalCleanup (tol : float) (path : Path) : Path :=
  if (length path <? 3)%nat then path
  else
    match head path, last path with
    | Some first, Some final =>
        let gap := Vector2.distanceTo first final in
        if (0 <? gap)%float && (gap <=? tol)%float
        then path ++ [Vector2.clone first] else path
    | _, _ => path
    end.

(** **** buildPaths *)

(** The paths found on the graph by the first and the second pass. *)
Definition graphPaths (segments : list Segment) (diagonal : float)
    : option (list Path) :=
  let tol := TOLERANCE diagonal in
  let minLen := MIN_PATH_LENGTH diagonal in
  let g := buildGraph tol segments in
  st1 ← findContours tol minLen (length segments) (nodes g, []);
  st2 ← handleRemainingSegments tol minLen g st1;
  Some (snd st2).

(** The paths before the final cleanup: those of the graph, or, when there
    are none, those of the fallback. *)
Definition tracePaths (segments : list Segment) (diagonal : float)
    : option (list Path) :=
  found ← graphPaths segments diagonal;
  if (length found =? 0)%nat
  then chainSegments (FALLBACK_RADIUS diagonal) segments
  else Some found.

Definition buildPaths (edges : list (list Vector3.t)) (axis : Axis)
    (diagonal : float) : option (list Path) :=
  if (length edges =? 0)%nat then Some []
  else
    let segments := segmentsOfEdges axis (ZERO_LENGTH_TOL diagonal) edges in
    if (length segments =? 0)%nat then Some []
    else map (finalCleanup (TOLERANCE diagonal)) <$> tracePaths segments diagonal.

(** *** The slicer object and [sliceModel] *)

(** The fields of the class.  [bvhSlicer] keeps a reference to the very
    geometry object held in [geometry], so only the hierarchy is stored
    here and the slicer is rebuilt around the shared geometry on use. *)
Record t := mk {
  geometry : option BufferGeometry;
  boundingBox : option Box3.t;
  bvhSlicer : option MeshBVH
}.

(** [loadSTL], from the parsed file on: [parsed] is what [STLLoader.parse]
    returned and [computedBox] the box three.js computes for it
    ([computeBoundingBox], with [setFromObject] as the fallback). *)
Definition loadSTL (MeshBVH_new : BufferGeometry → MeshBVH)
    (parsed : BufferGeometry) (computedBox : Box3.t) : t :=
  (* Ensure the geometry has indices - STLLoader doesn't always create them *)
  let geo :=
    match indexAttr parsed with
    | Some _ => parsed
    | None =>
        match positionAttr parsed with
        | Some positions =>
            {| positionAttr := positionAttr parsed;
               indexAttr := Some (identityIndices (positionCount positions)) |}
        | None => parsed
        end
    end in
  let slicer := BVHSlicer.create MeshBVH_new geo in
  {| geometry := Some (BVHSlicer.geometry slicer);
     boundingBox := Some computedBox;
     bvhSlicer := Some (BVHSlicer.bvh slicer) |}.

Definition loadFromBuffers (MeshBVH_new : BufferGeometry → MeshBVH)
    (positionArray : list float) (indexArray : list nat)
    (boundingBoxMin boundingBoxMax : Vector3.t) : t :=
  let geo := {| positionAttr := Some positionArray; indexAttr := Some indexArray |} in
  let slicer := BVHSlicer.create MeshBVH_new geo in
  {| geometry := Some (BVHSlicer.geometry slicer);
     boundingBox := Some (Box3.mk boundingBoxMin boundingBoxMax);
     bvhSlicer := Some (BVHSlicer.bvh slicer) |}.

Definition createSlice (s : t) (position : float) (axis : Axis)
    : Outcome (list Path) :=
  match geometry s, bvhSlicer s with
  | Some geo, Some tree =>
      let intersectedEdges :=
        BVHSlicer.sliceAtPlane (BVHSlicer.mk tree geo) position axis in
      match boundingBox s with
      | Some box =>
          let diagonal := Vector3.length (Box3.getSize box) in
          match buildPaths intersectedEdges axis diagonal with
          | Some paths => Returned paths
          | None => OutOfFuel
          end
      | None => Thrown "TypeError: this.boundingBox is null"
      end
  | _, _ => Thrown "No model loaded"
  end.

(** The slicing range along the axis. *)
Definition axisRange (axis : Axis) (box : Box3.t) : float * float :=
  (BVHSlicer.axisCoord axis (Box3.min box), BVHSlicer.axisCoord axis (Box3.max box)).

Definition calculatedLayerCount (totalHeight layerThickness : float) : float :=
  JsMath.Math_max 2 (JsMath.Math_ceil (totalHeight / layerThickness)%float).

Definition adjustedLayerThickness (totalHeight count : float) : float :=
  (totalHeight / (count - 1))%float.

(** The counter [i] as a number, and [i + 1]: the counter holds an integer
    of at most [2^53], which [Number] gives exactly, and there the
    binary64 sum [i + 1] is [Number(i + 1)]. *)
Definition slicePosition (start adjusted : float) (i : nat) : float :=
  (start + JsMath.Number_of_nat i * adjusted)%float.

Definition progressValue (count : float) (i : nat) : float :=
  (JsMath.Number_of_nat (i + 1) / count * 100)%float.

(** [i++].  The counter [i] of the loop is a number that only ever holds an
    integer, from 0 on; it is kept here by that integer, and incremented as
    the code increments it, by the binary64 sum [i + 1].  The sum is exact
    below [2^53]; at [2^53] it rounds back to [2^53] and the counter no
    longer advances. *)
Definition increment (i : nat) : nat :=
  match JsMath.int_value (JsMath.Number_of_nat i + 1)%float with
  | Some next => Z.to_nat next
  | None => i
  end.

(** [for (let i = 0; i < calculatedLayerCount; i++)], from iteration [i]
    on.  [progress] lists the arguments [onProgress] was called with, in
    call order; [onProgress] tells whether a callback was passed. *)
Fixpoint sliceLayers (fuel : nat) (s : t) (axis : Axis) (start adjusted count : float)
    (onProgress : bool) (i : nat) (layers : list LayerData) (progress : list float)
    : Outcome (list LayerData * list float) :=
  if JsMath.int_lt (Z.of_nat i) count then
    match fuel with
    | O => OutOfFuel
    | S fuel' =>
        let z := slicePosition start adjusted i in
        match createSlice s z axis with
        | Returned paths =>
            sliceLayers fuel' s axis start adjusted count onProgress (increment i)
              (layers ++ [{| index := i; paths := paths; z := z;
                             bounds := computePathBounds paths |}])
              (if onProgress then progress ++ [progressValue count i] else progress)
        | Thrown message => Thrown message
        | OutOfFuel => OutOfFuel
        end
    end
  else Returned (layers, progress).

(** The result of a run: the slicer afterwards, the layers returned and the
    progress reports made. *)
Record Run := {
  run_slicer : t;
  run_layers : list LayerData;
  run_progress : list float
}.

Definition sliceModel (fuel : nat) (s : t) (axis : Axis) (layerThickness : float)
    (onProgress : bool) : Outcome Run :=
  match geometry s, boundingBox s with
  | Some geo, Some box =>
      match positionAttr geo with
      | None => Thrown "Invalid geometry: missing position attribute"
      | Some position =>
          (* If no indices, create them *)
          let geo' :=
            match indexAttr geo with
            | Some _ => geo
            | None => {| positionAttr := positionAttr geo;
                         indexAttr := Some (identityIndices (positionCount position)) |}
            end in
          let s' := {| geometry := Some geo'; boundingBox := boundingBox s;
                       bvhSlicer := bvhSlicer s |} in
          match indexAttr geo' with
          | None => Thrown "Failed to create geometry indices"
          | Some _ =>
              let '(start, end_) := axisRange axis box in
              let totalHeight := (end_ - start)%float in
              let count := calculatedLayerCount totalHeight layerThickness in
              let adjusted := adjustedLayerThickness totalHeight count in
              match sliceLayers fuel s' axis start adjusted count onProgress 0 [] [] with
              | Returned (layers, progress) =>
                  Returned {| run_slicer := s'; run_layers := layers;
                              run_progress := progress |}
              | Thrown message => Thrown message
              | OutOfFuel => OutOfFuel
              end
          end
      end
  | _, _ => Thrown "No model loaded"
  end.

End PathBuilding.
(** *** The getters *)

Definition getGeometry (s : t) : option BufferGeometry := geometry s.

Definition getBoundingBox (s : t) : option Box3.t := boundingBox s.

Record Dimensions := { width : float; height : float; depth : float }.

Definition getDimensions (s : t) : option Dimensions :=
  match boundingBox s with
  | None => None
  | Some box =>
      let size := Box3.getSize box in
      Some {| width := Vector3.x size; height := Vector3.y size;
              depth := Vector3.z size |}
  end.


End StlSlicer.
(** ** workers/slicerWorker.ts

  The worker answers one request by posting messages: a [progress] message
  from the callback handed to [sliceModel], then the [result], or an
  [error] when the run threw.  A message list is in posting order. *)

Module SlicerWorker.
Import StlSlicer.

Record SlicerWorkerRequest := {
  positionArray : list float;
  indexArray : list nat;
  boundingBoxMin : float * float * float;
  boundingBoxMax : float * float * float;
  axis : Axis;
  layerThickness : float;
  sliceId : float
}.

(** A layer with its [Vector2] points turned into plain [{x, y}] objects. *)
Record SerializedLayer := {
  s_index : nat;
  s_paths : list (list (float * float));
  s_z : float;
  s_bounds : PathBounds
}.

Inductive SlicerWorkerMessage :=
| MsgProgress (sliceId : float) (percent : float)
| MsgResult (sliceId : float) (layers : list SerializedLayer)
| MsgError (sliceId : float) (message : string).

Definition messageId (msg : SlicerWorkerMessage) : float :=
  match msg with
  | MsgProgress sliceId _ | MsgResult sliceId _ | MsgError sliceId _ => sliceId
  end.

(** [new THREE.Vector3(...triple)] *)
Definition vectorOf (triple : float * float * float) : Vector3.t :=
  let '(x, y, z) := triple in Vector3.mk x y z.

Definition serializeLayer (layer : LayerData) : SerializedLayer :=
  {| s_index := index layer;
     s_z := z layer;
     s_bounds := bounds layer;
     s_paths := map (λ path, map (λ pt, (Vector2.x pt, Vector2.y pt)) path)
                    (paths layer) |}.

Section Worker.

Variable Math_atan2 : float → float → float.
Variable MeshBVH_new : BufferGeometry → MeshBVH.

(** [self.onmessage]: the messages posted for a request, [None] while the
    run has not ended.  An exception leaves [sliceModel] before the first
    layer is done (its own checks precede the loop, and the check of
    [createSlice] does not depend on the position), so no progress message
    precedes an error message. *)
Definition onmessage (fuel : nat) (request : SlicerWorkerRequest)
    : option (list SlicerWorkerMessage) :=
  let slicer :=
    loadFromBuffers MeshBVH_new (positionArray request) (indexArray request)
                    (vectorOf (boundingBoxMin request))
                    (vectorOf (boundingBoxMax request)) in
  match sliceModel Math_atan2 fuel slicer (axis request) (layerThickness request)
                   true with
  | Returned run =>
      Some (map (MsgProgress (sliceId request)) (run_progress run)
            ++ [MsgResult (sliceId request) (map serializeLayer (run_layers run))])
  | Thrown message => Some [MsgError (sliceId request) message]
  | OutOfFuel => None
  end.

End Worker.

End SlicerWorker.

(** ** utils/slicerWorkerClient.ts

  The worker is the one of [SlicerWorker]: its messages are those of
  [onmessage].  A failure to start or to run the worker script itself,
  which the browser reports through [worker.onerror], is not modelled. *)

Module SlicerWorkerClient.
Import StlSlicer SlicerWorker.

(** How the promise of a handle has been settled. *)
Inductive Settled :=
| Resolved (layers : list LayerData)
| Rejected (message : string).

(** What the main thread has seen of one [sliceInWorker] call: the values
    [onProgress] was called with, the promise (not settled: [None]), and
    whether the worker has been terminated. *)
Record Handle := {
  reported : list float;
  promise : option Settled;
  terminated : bool
}.

(** The request posted to the worker: copies of the position buffer as a
    [Float32Array] and of the index as a [Uint32Array], the identity index
    when the geometry has none.  Reading [posAttr.array] of a geometry
    without positions is a [TypeError]. *)
Definition request (geometry : BufferGeometry) (boundingBox : Box3.t) (axis : Axis)
    (layerThickness : float) (sliceId : float) : Outcome SlicerWorkerRequest :=
  match positionAttr geometry with
  | None => Thrown "TypeError: posAttr is undefined"
  | Some array =>
      let positionArray := map JsMath.Math_fround array in
      let indexArray :=
        match indexAttr geometry with
        | Some idx => map JsMath.ToUint32 idx
        | None => map JsMath.ToUint32 (seq 0 (positionCount array))
        end in
      Returned
        {| positionArray := positionArray;
           indexArray := indexArray;
           boundingBoxMin := (Vector3.x (Box3.min boundingBox),
                              Vector3.y (Box3.min boundingBox),
                              Vector3.z (Box3.min boundingBox));
           boundingBoxMax := (Vector3.x (Box3.max boundingBox),
                              Vector3.y (Box3.max boundingBox),
                              Vector3.z (Box3.max boundingBox));
           SlicerWorker.axis := axis;
           SlicerWorker.layerThickness := layerThickness;
           SlicerWorker.sliceId := sliceId |}
  end.

(** Plain objects back to [THREE.Vector2]. *)
Definition deserializeLayer (layer : SerializedLayer) : LayerData :=
  {| index := s_index layer;
     z := s_z layer;
     bounds := s_bounds layer;
     paths := map (λ path, map (λ pt, Vector2.mk (fst pt) (snd pt)) path)
                  (s_paths layer) |}.

(** [worker.onmessage] for one message.  A terminated worker delivers
    nothing more. *)
Definition receive (sliceId : float) (onProgress : bool) (h : Handle)
    (msg : SlicerWorkerMessage) : Handle :=
  if terminated h then h
  else if negb (messageId msg =? sliceId)%float then h
  else
    match msg with
    | MsgProgress _ percent =>
        {| reported := if onProgress then reported h ++ [percent] else reported h;
           promise := promise h; terminated := terminated h |}
    | MsgResult _ layers =>
        {| reported := reported h;
           promise := Some (Resolved (map deserializeLayer layers));
           terminated := true |}
    | MsgError _ message =>
        {| reported := reported h;
           promise := Some (Rejected message);
           terminated := true |}
    end.

Section Client.

Variable Math_atan2 : float → float → float.
Variable MeshBVH_new : BufferGeometry → MeshBVH.

(** [sliceInWorker], with the worker run to its end and its messages
    delivered in order: [None] while the worker is still running. *)
Definition sliceInWorker (fuel : nat) (geometry : BufferGeometry)
    (boundingBox : Box3.t) (axis : Axis) (layerThickness : float)
    (sliceId : float) (onProgress : bool) : Outcome (option Handle) :=
  match request geometry boundingBox axis layerThickness sliceId with
  | Returned req =>
      Returned
        (foldl (receive sliceId onProgress)
               {| reported := []; promise := None; terminated := false |}
         <$> onmessage Math_atan2 MeshBVH_new fuel req)
  | Thrown message => Thrown message
  | OutOfFuel => OutOfFuel
  end.

End Client.

End SlicerWorkerClient.


(** ** Vocabulary of the properties *)

(** The length of the polyline through the points of a path, summed from
    its first point on, each step measured from the new point back to the
    one before, as the traces accumulate it. *)
Fixpoint polylineFrom (len : float) (before : Vector2.t) (rest : StlSlicer.Path)
    : float :=
  match rest with
  | [] => len
  | p :: rest' => polylineFrom (len + Vector2.distanceTo p before)%float p rest'
  end.

Definition polylineLength (path : StlSlicer.Path) : float :=
  match path with
  | [] => 0%float
  | p0 :: rest => polylineFrom 0 p0 rest
  end.

(** The polyline length plus the closing step from the last point back to
    the first. *)
Definition ringLength (path : StlSlicer.Path) : float :=
  match head path, last path with
  | Some first, Some final =>
      (polylineLength path + Vector2.distanceTo final first)%float
  | _, _ => 0%float
  end.

(** [point] is an end of a segment whose index lies in group [g]. *)
Definition endOfGroup (segments : list StlSlicer.Segment) (group : nat → bool)
    (g : bool) (point : Vector2.t) : Prop :=
  ∃ i seg e, segments !! i = Some seg ∧ group i = g
             ∧ point = StlSlicer.segmentEnd seg e.

(** No end of a segment of one group is strictly within [radius] of an end
    of a segment of the other group. *)
Definition groupsApart (radius : float) (segments : list StlSlicer.Segment)
    (group : nat → bool) : Prop :=
  ∀ i j si sj ei ej,
    segments !! i = Some si → segments !! j = Some sj → group i ≠ group j →
    (Vector2.distanceTo (StlSlicer.segmentEnd si ei) (StlSlicer.segmentEnd sj ej)
     <? radius)%float = false.


(** ** Vocabulary of the theorems of Part II *)

Module Vocabulary.
Import JsMath BVHSlicer StlSlicer.

(** [x] is not negative: it is [NaN], a zero, or positive. *)
Definition not_negative (x : spec_float) : Prop :=
  match x with
  | S754_finite true _ _ | S754_infinity true => False
  | _ => True
  end.

(** No point of the list is within [EDGE_EPS] of an earlier one. *)
Definition separated (pts : list Vector3.t) : Prop :=
  ∀ i j p q, i < j → pts !! i = Some p → pts !! j = Some q →
    (Vector3.distanceTo q p <? EDGE_EPS)%float = false.

(** Every point of [raw] is kept or within [EDGE_EPS] of a kept point. *)
Definition covered (raw kept : list Vector3.t) : Prop :=
  ∀ p, p ∈ raw →
    p ∈ kept ∨ ∃ e, e ∈ kept ∧ (Vector3.distanceTo p e <? EDGE_EPS)%float = true.

(** What [findClosestSegment] promises about a match: the segment is not
    excluded and its matched end lies strictly within the radius. *)
Definition closeMatch (radius : float) (segments : list Segment) (point : Vector2.t)
    (excludeSet : list nat) (m : ClosestMatch) : Prop :=
  (segIdx m ∉ excludeSet)
  ∧ ∃ seg, segments !! segIdx m = Some seg
           ∧ (Vector2.distanceTo point (segmentEnd seg (endIdx m)) <? radius)%float = true.

Definition usedOk (n : nat) (usedSegments : list nat) : Prop :=
  NoDup usedSegments ∧ Forall (λ i, i < n) usedSegments.

Definition atLeast3 (paths : list Path) : Prop :=
  Forall (λ path : Path, 3 ≤ length path) paths.

Definition oneGroup (segments : list Segment) (group : nat → bool) (path : Path)
    : Prop :=
  ∃ g, Forall (endOfGroup segments group g) path.

(** A number that is neither [NaN] nor infinite. *)
Definition finiteNumber (x : float) : Prop :=
  (neg_infinity <? x)%float = true ∧ (x <? infinity)%float = true.

Definition finitePoint (p : Vector2.t) : Prop :=
  finiteNumber (Vector2.x p) ∧ finiteNumber (Vector2.y p).

(** [lo] is the least and [hi] the greatest of the numbers [xs]. *)
Definition leastOf (lo : float) (xs : list float) : Prop :=
  lo ∈ xs ∧ ∀ x, x ∈ xs → (lo <=? x)%float = true.

Definition greatestOf (hi : float) (xs : list float) : Prop :=
  hi ∈ xs ∧ ∀ x, x ∈ xs → (x <=? hi)%float = true.

(** The slicer holds a geometry with positions, a bounding box and a
    hierarchy: a model has been loaded. *)
Definition loaded (s : StlSlicer.t) : Prop :=
  (∃ geo positions, geometry s = Some geo ∧ positionAttr geo = Some positions)
  ∧ is_Some (boundingBox s) ∧ is_Some (bvhSlicer s).

(** What layer [i] of a run is. *)
Definition layerOf (Math_atan2 : float → float → float) (s : StlSlicer.t)
    (axis : Axis) (start adjusted : float)
    (i : nat) (layer : LayerData) : Prop :=
  index layer = i
  ∧ z layer = slicePosition start adjusted i
  ∧ createSlice Math_atan2 s (z layer) axis = Returned (paths layer)
  ∧ bounds layer = computePathBounds (paths layer).

(** The length a trace of the first pass has accumulated: that of its
    polyline, plus the closing step when the trace came back to its start. *)
Definition tracedLength (complete : bool) (traced : Path) : float :=
  if complete then ringLength traced else polylineLength traced.

(** [p] is a trace that passed the test of the first pass, as pushed:
    as traced, or with its first point appended when it is a closed loop. *)
Definition acceptedTrace (minLen : float) (p : Path) : Prop :=
  ∃ traced complete,
    3 ≤ length traced
    ∧ (minLen <? tracedLength complete traced)%float = true
    ∧ (p = traced
       ∨ (complete = true
          ∧ ∃ first, head traced = Some first ∧ p = traced ++ [first])).

(** The length a two-way extension of the second pass has accumulated:
    step by step along the forward points, then step by step along the
    backward points, both from the start point. *)
Definition twoWayLength (start : Vector2.t) (forward backward : Path) : float :=
  polylineFrom (polylineFrom 0 start forward) start backward.

(** [p] is a two-way extension that passed the test of the second pass, as
    pushed: the backward points reversed, the start point and the forward
    points, possibly with the first point appended. *)
Definition acceptedExtension (minLen : float) (p : Path) : Prop :=
  ∃ start forward backward,
    let fullPath := reverse backward ++ start :: forward in
    3 ≤ length fullPath
    ∧ (minLen <? twoWayLength start forward backward)%float = true
    ∧ (p = fullPath
       ∨ ∃ first, head fullPath = Some first ∧ p = fullPath ++ [first]).

(** [p] was pushed by one of the two passes over the graph. *)
Definition accepted (minLen : float) (p : Path) : Prop :=
  acceptedTrace minLen p ∨ acceptedExtension minLen p.

(** What holds of a trace of the first pass while its loop runs: its length
    is that of its path, which leads from the start node to the current
    one. *)
Definition tracing (startIdx : nat) (t : Trace) : Prop :=
  tr_complete t = false
  ∧ tr_length t = polylineLength (tr_path t)
  ∧ head (tr_path t) = Some (position (nodeAt (tr_nodes t) startIdx))
  ∧ last (tr_path t) = Some (position (nodeAt (tr_nodes t) (tr_current t))).

(** A number that is a zero or finite and not zero, read on its
    specification value. *)
Definition finiteSF (f : spec_float) : Prop :=
  match f with
  | S754_zero _ | S754_finite _ _ _ => True
  | _ => False
  end.

(** *** The hierarchy and the triangles *)

(** The triangles stored in a hierarchy, in traversal order. *)
Fixpoint trianglesOfBVH (bvh : MeshBVH) : list Triangle :=
  match bvh with
  | BVHLeaf _ tris => tris
  | BVHNode _ l r => trianglesOfBVH l ++ trianglesOfBVH r
  end.

Definition vertexInBox (box : Box3.t) (v : Vector3.t) : bool :=
  forallb (λ axis, (axisCoord axis (Box3.min box) <=? axisCoord axis v)%float
                   && (axisCoord axis v <=? axisCoord axis (Box3.max box))%float)
          [AxisX; AxisY; AxisZ].

Definition triangleInBox (box : Box3.t) (tri : Triangle) : bool :=
  vertexInBox box (tri_a tri) && vertexInBox box (tri_b tri)
  && vertexInBox box (tri_c tri).

(** Every box of the hierarchy contains the triangles stored beneath it. *)
Fixpoint boxesBound (bvh : MeshBVH) : bool :=
  match bvh with
  | BVHLeaf box tris => forallb (triangleInBox box) tris
  | BVHNode box l r =>
      forallb (triangleInBox box) (trianglesOfBVH l ++ trianglesOfBVH r)
      && boxesBound l && boxesBound r
  end.

(** The coordinates [a] and [b] lie strictly on one side of the plane. *)
Definition sameSide (position a b : float) : bool :=
  ((a <? position)%float && (b <? position)%float)
  || ((position <? a)%float && (position <? b)%float).

(** The coordinates [a] and [b] lie strictly on opposite sides of the
    plane. *)
Definition crosses (position a b : float) : bool :=
  ((a <? position)%float && (position <? b)%float)
  || ((b <? position)%float && (position <? a)%float).

(** The point [checkEdge] interpolates on an edge that passes its tests. *)
Definition crossing (position : float) (axis : Axis) (start end_ : Vector3.t)
    : Vector3.t :=
  let a := axisCoord axis start in
  let b := axisCoord axis end_ in
  Vector3.lerpVectors start end_ (clampedT a (b - a) position).

(** The edge is long enough along the axis to pass the guard on the
    denominator. *)
Definition longEnough (axis : Axis) (start end_ : Vector3.t) : bool :=
  negb (Math_abs (axisCoord axis end_ - axisCoord axis start) <? EDGE_EPS)%float.

(** *** The point graph *)

(** The two structures of the graph describe one numbering of the nodes,
    and the connections are in range, irreflexive, symmetric and free of
    duplicates; no node is marked used. *)
Definition consistent (tol : float) (g : Graph) : Prop :=
  (∀ i n, nodes g !! i = Some n → nodeMap g !! getPointKey tol (position n) = Some i)
  ∧ (∀ key i, nodeMap g !! key = Some i →
       ∃ n, nodes g !! i = Some n ∧ getPointKey tol (position n) = key)
  ∧ (∀ i n j, nodes g !! i = Some n → j ∈ connections n →
       j ≠ i ∧ ∃ m, nodes g !! j = Some m ∧ i ∈ connections m)
  ∧ (∀ i n, nodes g !! i = Some n → NoDup (connections n) ∧ used n = false).

(** The ends of segment [seg] fall on the nodes [i] and [j]. *)
Definition joins (tol : float) (g : Graph) (seg : Segment) (i j : nat) : Prop :=
  nodeMap g !! getPointKey tol (fst seg) = Some i
  ∧ nodeMap g !! getPointKey tol (snd seg) = Some j.

(** The graph is the one of the segments: every node lies at an end of a
    segment, every segment joins two nodes, connected unless they are one
    node, and every connection is a segment. *)
Definition graphOf (tol : float) (segments : list Segment) (g : Graph) : Prop :=
  (∀ i n, nodes g !! i = Some n →
     ∃ seg e, seg ∈ segments ∧ position n = segmentEnd seg e)
  ∧ (∀ seg, seg ∈ segments →
       ∃ i j, joins tol g seg i j
              ∧ (i ≠ j → j ∈ connections (nodeAt (nodes g) i)))
  ∧ (∀ i n j, nodes g !! i = Some n → j ∈ connections n →
       ∃ seg, seg ∈ segments ∧ (joins tol g seg i j ∨ joins tol g seg j i)).

(** Every node lies at a point with property [P], and its connections are
    indices of nodes. *)
Definition nodesAt (P : Vector2.t → Prop) (nodes : list Node) : Prop :=
  ∀ i n, nodes !! i = Some n →
    P (position n) ∧ ∀ j, j ∈ connections n → j < length nodes.

(** The state of a pass over the graph: nodes at points with property [P]
    and paths made of such points. *)
Definition pathsAt (P : Vector2.t → Prop) (st : list Node * list Path) : Prop :=
  nodesAt P (fst st) ∧ Forall (Forall P) (snd st).

(** [p] is the projection of a point of one of the edges. *)
Definition projected (edges : list (list Vector3.t)) (axis : Axis) (p : Vector2.t)
    : Prop :=
  ∃ edge v, edge ∈ edges ∧ v ∈ edge ∧ p = convertTo2D (Some (ofVector3 v)) axis.

(** The class of a start node: nodes with one connection, then nodes with
    two, then the others. *)
Definition startClass (nodes : list Node) (a : nat) : nat :=
  let d := length (connections (nodeAt nodes a)) in
  if (d =? 1)%nat then 0 else if (d =? 2)%nat then 1 else 2.

(** [a] goes before [b] among the start nodes. *)
Definition startsBefore (nodes : list Node) (a b : nat) : Prop :=
  startClass nodes a < startClass nodes b
  ∨ (startClass nodes a = startClass nodes b ∧ a < b).

(** Every element of the list is related to all those after it. *)
Definition inOrder {A : Type} (R : A → A → Prop) (l : list A) : Prop :=
  ∀ i j a b, i < j → l !! i = Some a → l !! j = Some b → R a b.

(** *** The fallback *)

(** No end of a segment outside [excludeSet] is strictly nearer to [point]
    than [bound]. *)
Definition noneNearer (segments : list Segment) (point : Vector2.t)
    (excludeSet : list nat) (bound : float) : Prop :=
  ∀ i seg e, segments !! i = Some seg → i ∉ excludeSet →
    (Vector2.distanceTo point (segmentEnd seg e) <? bound)%float = false.

(** The number of segments the chains have walked: a chain of [n] points
    has walked [n - 1] segments. *)
Definition segmentsWalked (paths : list Path) : nat :=
  sum_list_with (λ path : Path, length path - 1) paths.

(** What holds of a chain started when [used0] were the used segments: it
    has used one segment for its first two points and one for each further
    point. *)
Definition chainCount (used0 : list nat) (c : Chain) : Prop :=
  length (ch_used c) + 1 = length used0 + length (ch_path c)
  ∧ 2 ≤ length (ch_path c).

(** *** Typed arrays *)

(** The buffers of the geometry hold what typed arrays hold:
    single-precision positions and 32-bit indices. *)
Definition typedBuffers (geometry : BufferGeometry) : Prop :=
  (∀ positions, positionAttr geometry = Some positions →
     Forall (λ x, Math_fround x = x) positions)
  ∧ (∀ idx, indexAttr geometry = Some idx → Forall (λ i, ToUint32 i = i) idx).

(** Each point of the path is related to the next one. *)
Definition stepwise (R : Vector2.t → Vector2.t → Prop) (path : list Vector2.t)
    : Prop :=
  ∀ k p q, path !! k = Some p → path !! S k = Some q → R p q.

(** The keys of [p] and [q] are those of the two ends of one segment. *)
Definition joined (tol : float) (segments : list Segment) (p q : Vector2.t) : Prop :=
  ∃ seg, seg ∈ segments
    ∧ ((getPointKey tol p = getPointKey tol (fst seg)
        ∧ getPointKey tol q = getPointKey tol (snd seg))
       ∨ (getPointKey tol p = getPointKey tol (snd seg)
          ∧ getPointKey tol q = getPointKey tol (fst seg))).

(** The node array still has the shape of the graph of the segments:
    connected nodes lie at points joined by a segment, and every key of the
    map is the key of the node it names. *)
Definition linked (tol : float) (segments : list Segment) (g : Graph)
    (nodes : list Node) : Prop :=
  (∀ i j, j ∈ connections (nodeAt nodes i) →
     joined tol segments (position (nodeAt nodes i)) (position (nodeAt nodes j)))
  ∧ (∀ key s, nodeMap g !! key = Some s →
       getPointKey tol (position (nodeAt nodes s)) = key).

(** What holds of a trace of the first pass while its loop runs. *)
Definition following (tol : float) (segments : list Segment) (g : Graph)
    (startIdx : nat) (t : Trace) : Prop :=
  linked tol segments g (tr_nodes t)
  ∧ stepwise (joined tol segments) (tr_path t)
  ∧ tr_complete t = false
  ∧ head (tr_path t) = Some (position (nodeAt (tr_nodes t) startIdx))
  ∧ last (tr_path t) = Some (position (nodeAt (tr_nodes t) (tr_current t))).

(** What holds of a trace of the first pass when its loop has ended. *)
Definition followed (tol : float) (segments : list Segment) (g : Graph)
    (t : Trace) : Prop :=
  linked tol segments g (tr_nodes t)
  ∧ stepwise (joined tol segments) (tr_path t)
  ∧ (tr_complete t = true →
     ∀ first final, head (tr_path t) = Some first → last (tr_path t) = Some final →
       joined tol segments final first).

(** The state of a pass over the graph. *)
Definition pathsFollow (tol : float) (segments : list Segment) (g : Graph)
    (st : list Node * list Path) : Prop :=
  linked tol segments g (fst st) ∧ Forall (stepwise (joined tol segments)) (snd st).

(** No two points of the path have the same key. *)
Definition distinctPoints (tol : float) (path : list Vector2.t) : Prop :=
  NoDup (map (getPointKey tol) path).

(** A path that passes through no point twice, apart from a last point that
    closes it on its first. *)
Definition simplePath (tol : float) (path : list Vector2.t) : Prop :=
  distinctPoints tol path
  ∨ ∃ body first, path = body ++ [first] ∧ head body = Some first
                  ∧ distinctPoints tol body.

(** There are [n] nodes, no two of them at points with the same key, and
    their connections are indices of nodes. *)
Definition distinctNodes (tol : float) (n : nat) (nodes : list Node) : Prop :=
  length nodes = n
  ∧ (∀ i j, i < n → j < n →
       getPointKey tol (position (nodeAt nodes i))
       = getPointKey tol (position (nodeAt nodes j)) → i = j)
  ∧ (∀ i j, j ∈ connections (nodeAt nodes i) → j < n).

(** What holds of a trace of the first pass: its path is made of the points
    of its indices, which are indices of nodes, hold the start and hold no
    index twice. *)
Definition visiting (tol : float) (n startIdx : nat) (t : Trace) : Prop :=
  distinctNodes tol n (tr_nodes t)
  ∧ NoDup (tr_indices t)
  ∧ Forall (λ i, i < n) (tr_indices t)
  ∧ startIdx ∈ tr_indices t
  ∧ tr_path t = map (λ i, position (nodeAt (tr_nodes t) i)) (tr_indices t).

(** [x] lies between [a] and [b], in either order. *)
Definition between (a b x : float) : bool :=
  ((a <=? x)%float && (x <=? b)%float) || ((b <=? x)%float && (x <=? a)%float).

(** Every coordinate of [p] lies between those of [u] and [v]: [p] is in
    the box spanned by [u] and [v], as every point of the segment from [u]
    to [v] is. *)
Definition withinBox (u v p : Vector3.t) : bool :=
  between (Vector3.x u) (Vector3.x v) (Vector3.x p)
  && between (Vector3.y u) (Vector3.y v) (Vector3.y p)
  && between (Vector3.z u) (Vector3.z v) (Vector3.z p).

(** The three differences of coordinates are zeros or finite: none
    overflows. *)
Definition finiteSpan (u v : Vector3.t) : Prop :=
  finiteSF (Prim2SF (Vector3.x v - Vector3.x u))
  ∧ finiteSF (Prim2SF (Vector3.y v - Vector3.y u))
  ∧ finiteSF (Prim2SF (Vector3.z v - Vector3.z u)).

(** The point the interpolation reaches at the far end of the edge:
    [u + (v - u)] on each coordinate. *)
Definition lerpEnd (u v : Vector3.t) : Vector3.t :=
  Vector3.mk (Vector3.x u + (Vector3.x v - Vector3.x u))
             (Vector3.y u + (Vector3.y v - Vector3.y u))
             (Vector3.z u + (Vector3.z v - Vector3.z u)).

(** [u + (v - u)] gives [v] on each coordinate, as it does whenever the
    subtraction is exact. *)
Definition reachesEnd (u v : Vector3.t) : bool :=
  (Vector3.x (lerpEnd u v) =? Vector3.x v)%float
  && (Vector3.y (lerpEnd u v) =? Vector3.y v)%float
  && (Vector3.z (lerpEnd u v) =? Vector3.z v)%float.

End Vocabulary.

(** ** The real value of a number and the rounding of a real

    Vocabulary for the theorems on the arithmetic: the real number a finite
    binary64 value stands for, and what it means for a value to be the
    rounding (to nearest, ties to even) of a positive real.  A real [x] is
    located at exponent [e] by a mantissa [m] and a [location] telling whether
    [x / 2^e] is [m], below, at or above [m + 1/2]. *)

Module RealValue.
Import Reals JsMath.

(** [2^e] *)
Definition bpow (e : Z) : R := powerRZ 2 e.

(** [x / 2^e] *)
Definition scaled (x : R) (e : Z) : R := (x * bpow (- e))%R.

Definition inside (x : R) (m e : Z) (l : location) : Prop :=
  let y := scaled x e in
  match l with
  | loc_Exact => y = IZR m
  | loc_Inexact Lt => (IZR m < y < IZR m + / 2)%R
  | loc_Inexact Eq => y = (IZR m + / 2)%R
  | loc_Inexact Gt => (IZR m + / 2 < y < IZR m + 1)%R
  end.

(** The location of [x] at the exponent binary64 gives its magnitude: a
    mantissa below [2^53], of 53 bits unless the exponent is the least. *)
Definition canon (x : R) (c t : Z) (l : location) : Prop :=
  inside x t c l ∧ (0 ≤ t < 2 ^ 53)%Z ∧ (2 ^ 52 ≤ t ∨ c = -1074)%Z ∧ (-1074 ≤ c)%Z.

(** The number with mantissa [r] (at most [2^53]) at exponent [c]. *)
Definition pack (c r : Z) : spec_float :=
  if (r =? 0)%Z then S754_zero false
  else if (r =? 2 ^ 53)%Z then
    if (c + 1 <=? 971)%Z then S754_finite false (2 ^ 52) (c + 1)
    else S754_infinity false
  else if (c <=? 971)%Z then S754_finite false (Z.to_pos r) c
  else S754_infinity false.

(** [f] is the rounding of [x]. *)
Definition rounds (x : R) (f : spec_float) : Prop :=
  ∃ c t l, canon x c t l ∧ f = pack c (round_nearest_even t l).

(** The real value of a finite number. *)
Definition B2R (f : spec_float) : R :=
  match f with
  | S754_finite s m e => (IZR (cond_Zopp s (Zpos m)) * bpow e)%R
  | _ => 0%R
  end.

(** The key of [pack c r] in the order of numbers. *)
Definition pack_key (c r : Z) : Z * Z * Z :=
  if (r =? 0)%Z then (0, 0, 0)%Z
  else if (r =? 2 ^ 53)%Z then
    if (c + 1 <=? 971)%Z then (1, c + 1, 2 ^ 52)%Z else (2, 0, 0)%Z
  else if (c <=? 971)%Z then (1, c, r)%Z
  else (2, 0, 0)%Z.

Definition loc_rank (l : location) : Z :=
  match l with
  | loc_Exact => 0
  | loc_Inexact Lt => 1
  | loc_Inexact Eq => 2
  | loc_Inexact Gt => 3
  end.

(** [f] is the rounding of [x], of either sign: a negative [x] rounds to
    the opposite of the rounding of [- x], and 0 to either zero. *)
Definition roundsS (x : R) (f : spec_float) : Prop :=
  rounds x f ∨ ((x <= 0)%R ∧ ∃ g, rounds (- x) g ∧ f = SFopp g).

(** The key of the opposite number. *)
Definition neg_key (k : Z * Z * Z) : Z * Z * Z :=
  let '(a, b, c) := k in (- a, - b, - c)%Z.

End RealValue.

(** ** Concrete inputs used by the examples of Part II *)

Module Examples.

Definition edge (x1 x2 : float) : list Vector3.t :=
  [Vector3.mk x1 0 0; Vector3.mk x2 0 0].

(** Two short collinear edges, 0.05 apart, in a model of diagonal 1000:
    merge tolerance 0.01, minimum path length 1, fallback radius 0.1. *)
Definition two_short_edges : list (list Vector3.t) :=
  [edge 0 0.2; edge 0.25 0.45].

(** The same pair twice, the second copy 10 units away. *)
Definition two_far_pairs : list (list Vector3.t) :=
  [edge 0 0.2; edge 0.25 0.45; edge 10 10.2; edge 10.25 10.45].


Definition v3 : float → float → float → Vector3.t := Vector3.mk.

(** The vertex buffer is a [Float32Array]: every coordinate the slicer reads
    is a single-precision value, that is a zero or a binary64 value whose
    mantissa has its low 29 bits clear and whose exponent is in the
    single-precision range. *)
Definition single_precision (x : float) : bool :=
  match Prim2SF x with
  | S754_zero _ => true
  | S754_finite _ m e =>
      (Zpos m mod 2 ^ 29 =? 0)%Z && (-178 <=? e)%Z && (e <=? 75)%Z
  | _ => false
  end.

Definition coordinates (vertices : list Vector3.t) : list float :=
  flat_map (λ v, [Vector3.x v; Vector3.y v; Vector3.z v]) vertices.

Definition corners (tri : Triangle) : list Vector3.t :=
  [tri_a tri; tri_b tri; tri_c tri].

(** A triangle with one vertex on the plane [z = 0] and the other two on
    opposite sides of it. *)
Definition touching : Triangle :=
  {| tri_a := v3 0 0 0; tri_b := v3 1 0 1; tri_c := v3 0 1 (-1) |}.

(** The same situation for a sliver of width [2^-43]: the far edge crosses
    the plane [2^-44] (5.7e-14) away from the touched vertex. *)
Definition needle : Triangle :=
  {| tri_a := v3 0 0 0; tri_b := v3 1.1368683772161603e-13 0 1;
     tri_c := v3 0 0 (-1) |}.

(** The same situation at a large scale: the touched vertex, at
    [x = 2^-38] (3.6e-12), is reached from a vertex at [x = 100000]. *)
Definition far_reaching : Triangle :=
  {| tri_a := v3 3.637978807091713e-12 0 0; tri_b := v3 50000 5 1;
     tri_c := v3 100000 1 (-1) |}.

(** A cube of side 100 as a loaded model: 8 vertices, 12 triangles, and a
    hierarchy made of one leaf. *)
Definition cube_vertices : list Vector3.t :=
  [v3 0 0 0; v3 100 0 0; v3 100 100 0; v3 0 100 0;
   v3 0 0 100; v3 100 0 100; v3 100 100 100; v3 0 100 100].

Definition cube_index : list nat :=
  [0; 2; 1;  0; 3; 2;  4; 5; 6;  4; 6; 7;  0; 1; 5;  0; 5; 4;
   1; 2; 6;  1; 6; 5;  2; 3; 7;  2; 7; 6;  3; 0; 4;  3; 4; 7].

Fixpoint trianglesOf (vertices : list Vector3.t) (index : list nat) : list Triangle :=
  match index with
  | a :: b :: c :: rest =>
      match vertices !! a, vertices !! b, vertices !! c with
      | Some va, Some vb, Some vc =>
          {| tri_a := va; tri_b := vb; tri_c := vc |} :: trianglesOf vertices rest
      | _, _, _ => trianglesOf vertices rest
      end
  | _ => []
  end.

Definition cube_box : Box3.t := Box3.mk (v3 0 0 0) (v3 100 100 100).

Definition cube_bvh : MeshBVH :=
  BVHLeaf cube_box (trianglesOf cube_vertices cube_index).

Definition cube_geometry : BufferGeometry :=
  {| positionAttr := Some (coordinates cube_vertices);
     indexAttr := Some cube_index |}.

Definition cube : StlSlicer.t :=
  StlSlicer.mk (Some cube_geometry) (Some cube_box) (Some cube_bvh).

(** The request the client posts for the cube sliced along z with layer
    thickness 25, and a constructor that builds the hierarchy of the cube. *)
Definition cube_request : SlicerWorker.SlicerWorkerRequest :=
  {| SlicerWorker.positionArray := coordinates cube_vertices;
     SlicerWorker.indexArray := cube_index;
     SlicerWorker.boundingBoxMin := (0, 0, 0)%float;
     SlicerWorker.boundingBoxMax := (100, 100, 100)%float;
     SlicerWorker.axis := AxisZ;
     SlicerWorker.layerThickness := 25;
     SlicerWorker.sliceId := 1 |}.

Definition cube_bvh_new (geometry : BufferGeometry) : MeshBVH := cube_bvh.

(** An angle function for runs on axis-parallel outlines: on the
    directions (d, 0), (-d, 0), (0, d) and (0, -d) with d > 0 it gives the
    angle [Math.atan2] gives. *)
Definition axis_atan2 (y x : float) : float :=
  if (0 <? x)%float then 0%float
  else if (x <? 0)%float then JsMath.Math_PI
  else if (0 <? y)%float then (JsMath.Math_PI / 2)%float
  else if (y <? 0)%float then (- (JsMath.Math_PI / 2))%float
  else 0%float.

Definition edge2 (x1 y1 x2 y2 : float) : list Vector3.t :=
  [Vector3.mk x1 y1 0; Vector3.mk x2 y2 0].

(** The four sides of a square of side 10 in the plane z = 0. *)
Definition square_edges : list (list Vector3.t) :=
  [edge2 0 0 10 0; edge2 10 0 10 10; edge2 10 10 0 10; edge2 0 10 0 0].



End Examples.

(* ===================================================================== *)
(** * Part II: properties *)
(* ===================================================================== *)

(** ** Comparisons of numbers *)

Module FloatOrder.
Import JsMath Vocabulary.

Lemma SFcompare_key x y :
  SFcompare x y =
  match sf_key x, sf_key y with
  | Some a, Some b =>
      let '(a1, a2, a3) := a in
      let '(b1, b2, b3) := b in
      Some (match (a1 ?= b1)%Z with
            | Eq => match (a2 ?= b2)%Z with
                    | Eq => (a3 ?= b3)%Z
                    | c => c
                    end
            | c => c
            end)
  | _, _ => None
  end.
Proof.
  destruct x as [[]|[]| |[] mx ex], y as [[]|[]| |[] my ey]; simpl; try reflexivity.
  cbn. rewrite Z.compare_opp, (Z.compare_antisym ex ey).
  by destruct (ex ?= ey)%Z.
Qed.

Lemma lex_cases (a b : Z * Z * Z) :
  let '(a1, a2, a3) := a in
  let '(b1, b2, b3) := b in
  match (a1 ?= b1)%Z with
  | Eq => match (a2 ?= b2)%Z with
          | Eq => (a3 ?= b3)%Z
          | c => c
          end
  | c => c
  end = Lt ↔ lex_lt a b.
Proof.
  destruct a as [[a1 a2] a3], b as [[b1 b2] b3]; simpl.
  destruct (Z.compare_spec a1 b1), (Z.compare_spec a2 b2), (Z.compare_spec a3 b3);
    split; intros; try discriminate; try reflexivity; lia.
Qed.

Lemma lex_cases_eq (a b : Z * Z * Z) :
  let '(a1, a2, a3) := a in
  let '(b1, b2, b3) := b in
  match (a1 ?= b1)%Z with
  | Eq => match (a2 ?= b2)%Z with
          | Eq => (a3 ?= b3)%Z
          | c => c
          end
  | c => c
  end = Eq ↔ a = b.
Proof.
  destruct a as [[a1 a2] a3], b as [[b1 b2] b3]; simpl.
  destruct (Z.compare_spec a1 b1), (Z.compare_spec a2 b2), (Z.compare_spec a3 b3);
    split; intros Heq; try discriminate; try reflexivity;
    try (injection Heq; intros); try (f_equal; [f_equal|]); lia.
Qed.

Lemma ltb_lt x y : (x <? y)%float = true ↔ num_lt x y.
Proof.
  rewrite FloatAxioms.ltb_spec. unfold SFltb, num_lt, fkey. rewrite SFcompare_key.
  destruct (sf_key (Prim2SF x)) as [a|], (sf_key (Prim2SF y)) as [b|]; try (split; [discriminate|tauto]).
  pose proof (lex_cases a b) as H. destruct a as [[a1 a2] a3], b as [[b1 b2] b3].
  rewrite <- H. clear H.
  match goal with |- context [?c = Lt] => destruct c end; split; congruence.
Qed.

Lemma leb_le x y : (x <=? y)%float = true ↔ num_le x y.
Proof.
  rewrite FloatAxioms.leb_spec. unfold SFleb, num_le, fkey. rewrite SFcompare_key.
  destruct (sf_key (Prim2SF x)) as [a|], (sf_key (Prim2SF y)) as [b|]; try (split; [discriminate|tauto]).
  pose proof (lex_cases a b) as H. pose proof (lex_cases_eq a b) as H'.
  destruct a as [[a1 a2] a3], b as [[b1 b2] b3].
  rewrite <- H, <- H'. clear H H'.
  match goal with |- context [?c = Lt] => destruct c end;
    split; intros Hc; try tauto; try discriminate.
  destruct Hc; discriminate.
Qed.

Lemma eqb_eq x y : (x =? y)%float = true ↔ ∃ a, fkey x = Some a ∧ fkey y = Some a.
Proof.
  rewrite FloatAxioms.eqb_spec. unfold SFeqb, fkey. rewrite SFcompare_key.
  destruct (sf_key (Prim2SF x)) as [a|], (sf_key (Prim2SF y)) as [b|];
    try (split; [discriminate|intros (?&?&?); discriminate]).
  pose proof (lex_cases_eq a b) as H'.
  destruct a as [[a1 a2] a3], b as [[b1 b2] b3].
  split.
  - intros H. exists (a1, a2, a3). split; [done|]. f_equal. symmetry. apply H'.
    clear H'. revert H.
    match goal with |- context [?c = Eq] => destruct c end; congruence.
  - intros (c & Ha & Hb).
    assert ((a1, a2, a3) = (b1, b2, b3)) as E by congruence.
    apply H' in E. by rewrite E.
Qed.

Lemma is_nan_key x : is_nan x = true ↔ fkey x = None.
Proof.
  unfold is_nan. rewrite negb_true_iff.
  split.
  - intros H. destruct (fkey x) as [a|] eqn:E; [|done].
    assert ((x =? x)%float = true) as H' by (apply eqb_eq; eauto). congruence.
  - intros H. destruct (x =? x)%float eqn:E; [|done].
    apply eqb_eq in E as (a & E & _). congruence.
Qed.

Lemma is_nan_false x : is_nan x = false ↔ ∃ a, fkey x = Some a.
Proof.
  rewrite <- not_true_iff_false, is_nan_key.
  destruct (fkey x); split; intros H; eauto; try congruence. by destruct H.
Qed.

Lemma ltb_false x y : (x <? y)%float = false ↔ ¬ num_lt x y.
Proof. rewrite <- not_true_iff_false, ltb_lt. tauto. Qed.

Lemma leb_false x y : (x <=? y)%float = false ↔ ¬ num_le x y.
Proof. rewrite <- not_true_iff_false, leb_le. tauto. Qed.

(** Turns every comparison of floats in sight into a statement about keys. *)
Ltac float_keys :=
  repeat match goal with
  | H : (_ <? _)%float = true |- _ => apply ltb_lt in H
  | H : (_ <? _)%float = false |- _ => apply ltb_false in H
  | H : (_ <=? _)%float = true |- _ => apply leb_le in H
  | H : (_ <=? _)%float = false |- _ => apply leb_false in H
  | H : is_nan _ = false |- _ => apply is_nan_false in H as [? H]
  | H : is_nan _ = true |- _ => apply is_nan_key in H
  | |- (_ <? _)%float = true => apply ltb_lt
  | |- (_ <? _)%float = false => apply ltb_false
  | |- (_ <=? _)%float = true => apply leb_le
  | |- (_ <=? _)%float = false => apply leb_false
  | |- is_nan _ = false => apply is_nan_false
  | |- is_nan _ = true => apply is_nan_key
  end.

Lemma triple_eq (a b c a' b' c' : Z) :
  (a, b, c) = (a', b', c') ↔ a = a' ∧ b = b' ∧ c = c'.
Proof. split; [intros [= -> -> ->]; done | intros (-> & -> & ->); done]. Qed.

Ltac float_order :=
  float_keys; unfold num_lt, num_le, lex_lt in *;
  repeat match goal with
  | |- context [fkey ?x] =>
      let k := fresh "k" in set (k := fkey x) in *; clearbody k
  | H : context [fkey ?x] |- _ =>
      let k := fresh "k" in set (k := fkey x) in *; clearbody k
  end;
  repeat match goal with
  | k : option (Z * Z * Z) |- _ => destruct k as [[[? ?] ?]|]
  end;
  repeat match goal with
  | H : Some _ = Some _ |- _ => injection H as H
  | H : None = Some _ |- _ => discriminate H
  | H : Some _ = None |- _ => discriminate H
  | H : False |- _ => destruct H
  | H : ∃ _, _ |- _ => destruct H as [? H]
  end;
  try (eexists; reflexivity); try done;
  rewrite ?triple_eq in *; try lia.

Lemma lt_le x y : num_lt x y → num_le x y.
Proof. unfold num_lt, num_le. destruct (fkey x), (fkey y); tauto. Qed.

Lemma ltb_leb x y : (x <? y)%float = true → (x <=? y)%float = true.
Proof. rewrite ltb_lt, leb_le. apply lt_le. Qed.

Lemma ltb_trans x y z :
  (x <? y)%float = true → (y <? z)%float = true → (x <? z)%float = true.
Proof. intros. float_order. Qed.

Lemma ltb_leb_trans x y z :
  (x <? y)%float = true → (y <=? z)%float = true → (x <? z)%float = true.
Proof. intros. float_order. Qed.

Lemma leb_ltb_trans x y z :
  (x <=? y)%float = true → (y <? z)%float = true → (x <? z)%float = true.
Proof. intros. float_order. Qed.

Lemma leb_trans x y z :
  (x <=? y)%float = true → (y <=? z)%float = true → (x <=? z)%float = true.
Proof. intros. float_order. Qed.

Lemma leb_total x y :
  is_nan x = false → is_nan y = false → (x <? y)%float = false → (y <=? x)%float = true.
Proof. intros. float_order. Qed.

Lemma leb_refl x : is_nan x = false → (x <=? x)%float = true.
Proof. intros. float_order. Qed.

Lemma ltb_irrefl x : (x <? x)%float = false.
Proof. float_order. Qed.

Lemma ltb_not_nan_l x y : (x <? y)%float = true → is_nan x = false.
Proof. intros. float_order. Qed.

Lemma ltb_not_nan_r x y : (x <? y)%float = true → is_nan y = false.
Proof. intros. float_order. Qed.

Lemma leb_not_nan_l x y : (x <=? y)%float = true → is_nan x = false.
Proof. intros. float_order. Qed.

Lemma leb_not_nan_r x y : (x <=? y)%float = true → is_nan y = false.
Proof. intros. float_order. Qed.

End FloatOrder.

(** ** Facts about the arithmetic of numbers *)

Module FloatFacts.
Import JsMath FloatOrder Vocabulary.

Lemma sub_self (x : float) :
  Prim2SF (x - x) = S754_zero false ∨ Prim2SF (x - x) = S754_nan.
Proof.
  rewrite sub_spec. destruct (Prim2SF x) as [[]|[]| |s m e]; simpl; auto.
  left. unfold SF64sub, SFsub. rewrite Z.sub_diag. reflexivity.
Qed.

Lemma distanceTo_self (p : Vector2.t) :
  Prim2SF (Vector2.distanceTo p p) = S754_zero false
  ∨ Prim2SF (Vector2.distanceTo p p) = S754_nan.
Proof.
  unfold Vector2.distanceTo, Math_sqrt.
  rewrite sqrt_spec, add_spec, !mul_spec.
  destruct (sub_self (Vector2.x p)) as [-> | ->], (sub_self (Vector2.y p)) as [-> | ->];
    vm_compute; auto.
Qed.

Lemma ltb_zero_false (x : float) :
  (x <? 0)%float = false ↔ not_negative (Prim2SF x).
Proof.
  rewrite <- not_true_iff_false, ltb_lt. unfold num_lt, fkey.
  replace (Prim2SF 0) with (S754_zero false) by reflexivity.
  destruct (Prim2SF x) as [[]|[]| |[] m e]; simpl; split; try tauto; try lia.
  all: intros H; apply H; lia.
Qed.

Lemma binary_round_aux_sign (s : bool) (m e : Z) (l : location) :
  match binary_round_aux prec emax s m e l with
  | S754_zero s' | S754_finite s' _ _ | S754_infinity s' => s' = s
  | S754_nan => True
  end.
Proof.
  unfold binary_round_aux.
  destruct (shr_fexp _ _ _ _ _) as [mrs' e'].
  destruct (shr_fexp _ _ _ _ _) as [mrs'' e''].
  destruct (shr_m mrs''); [done | | done].
  by destruct (_ <=? _)%Z.
Qed.


Lemma int_lt_value (i : Z) (count : float) (n : Z) :
  int_value count = Some n → int_lt i count = (i <? n)%Z.
Proof.
  unfold int_value, int_lt.
  destruct (Prim2SF count) as [s|s| |s m e]; try discriminate.
  - by intros [= <-].
  - destruct (0 <=? e)%Z eqn:He; [by intros [= <-]|].
    destruct (_ =? 0)%Z eqn:Hmod; [|discriminate]. intros [= <-].
    apply Z.leb_gt in He. apply Z.eqb_eq in Hmod.
    assert (0 < 2 ^ (- e))%Z as Hpos by (apply Z.pow_pos_nonneg; lia).
    set (M := cond_Zopp s (Z.pos m)) in *. set (k := (2 ^ (- e))%Z) in *.
    assert (M = k * (M / k))%Z as HM by (apply Z.div_exact; [lia | done]).
    destruct (Z.ltb_spec i (M / k)), (Z.ltb_spec (i * k) M); try done; nia.
Qed.

End FloatFacts.

(** ** Rounding to nearest is monotone

    [Number], [/] and [*] on positive numbers return the rounding of the
    exact result, and the rounding is monotone and keeps the numbers of the
    format.  The proofs follow the operational specification of the
    primitive floats ([SpecFloat]). *)

Module Rounding.
Import Reals Lra JsMath FloatOrder Vocabulary RealValue.

Lemma bpow_pos (e : Z) : (0 < bpow e)%R.
Proof. apply powerRZ_lt. lra. Qed.

Lemma bpow_add (a b : Z) : bpow (a + b) = (bpow a * bpow b)%R.
Proof. apply powerRZ_add. lra. Qed.

Lemma bpow_opp (e : Z) : bpow (- e) = (/ bpow e)%R.
Proof. apply powerRZ_neg'. Qed.

Lemma bpow_1 : bpow 1 = 2%R.
Proof. apply powerRZ_1. Qed.

Lemma bpow_0 : bpow 0 = 1%R.
Proof. reflexivity. Qed.

Lemma bpow_IZR (k : Z) : (0 ≤ k)%Z → bpow k = IZR (2 ^ k).
Proof.
  intros Hk. unfold bpow. destruct k as [|p|p]; [reflexivity| |lia].
  symmetry. apply (Zpower_pos_powerRZ 2 p).
Qed.

Lemma bpow_le (a b : Z) : (a ≤ b)%Z → (bpow a <= bpow b)%R.
Proof.
  intros Hab. replace b with (a + (b - a))%Z by lia. rewrite bpow_add.
  rewrite (bpow_IZR (b - a)) by lia.
  assert (1 <= IZR (2 ^ (b - a)))%R as H1.
  { apply IZR_le. pose proof (Z.pow_pos_nonneg 2 (b - a)). lia. }
  pose proof (bpow_pos a). nra.
Qed.

Lemma bpow_lt (a b : Z) : (a < b)%Z → (2 * bpow a <= bpow b)%R.
Proof.
  intros Hab. pose proof (bpow_le (a + 1) b ltac:(lia)) as H.
  rewrite bpow_add, bpow_1 in H. lra.
Qed.

Lemma scaled_shift (x : R) (e k : Z) :
  scaled x (e + k) = (scaled x e * bpow (- k))%R.
Proof.
  unfold scaled. replace (- (e + k))%Z with (- e + - k)%Z by lia.
  rewrite bpow_add. ring.
Qed.

Lemma scaled_succ (x : R) (e : Z) : scaled x (e + 1) = (scaled x e / 2)%R.
Proof. rewrite scaled_shift, bpow_opp, bpow_1. reflexivity. Qed.

Lemma scaled_pos (x : R) (e : Z) : (0 <= x)%R → (0 <= scaled x e)%R.
Proof. intros Hx. unfold scaled. pose proof (bpow_pos (- e)). nra. Qed.

Lemma scaled_le (x y : R) (e : Z) : (x <= y)%R → (scaled x e <= scaled y e)%R.
Proof. intros Hx. unfold scaled. pose proof (bpow_pos (- e)). nra. Qed.

(** the bounds of a located value *)
Lemma inside_bounds (x : R) (m e : Z) (l : location) :
  inside x m e l → (IZR m <= scaled x e < IZR m + 1)%R.
Proof. unfold inside. destruct l as [|[]]; cbv zeta; lra. Qed.

(** digits *)
Lemma digits2_pos_bounds (p : positive) :
  (2 ^ (Zpos (digits2_pos p) - 1) ≤ Zpos p < 2 ^ Zpos (digits2_pos p))%Z.
Proof.
  induction p as [p IH|p IH|]; cbn [digits2_pos].
  - rewrite Pos2Z.inj_succ.
    replace (Z.succ (Zpos (digits2_pos p)) - 1)%Z with (Z.succ (Zpos (digits2_pos p) - 1)) by lia.
    rewrite !Z.pow_succ_r by lia. lia.
  - rewrite Pos2Z.inj_succ.
    replace (Z.succ (Zpos (digits2_pos p)) - 1)%Z with (Z.succ (Zpos (digits2_pos p) - 1)) by lia.
    rewrite !Z.pow_succ_r by lia. lia.
  - cbn. lia.
Qed.

Lemma Zdigits2_bounds (m : Z) :
  (0 < m)%Z → (0 < Zdigits2 m ∧ 2 ^ (Zdigits2 m - 1) ≤ m < 2 ^ Zdigits2 m)%Z.
Proof.
  intros Hm. destruct m as [|p|p]; try lia. cbn [Zdigits2].
  split; [lia | apply digits2_pos_bounds].
Qed.

Lemma Zdigits2_unique (m d : Z) :
  (2 ^ (d - 1) ≤ m < 2 ^ d)%Z → (0 < d)%Z → Zdigits2 m = d.
Proof.
  intros Hm Hd.
  assert (0 < m)%Z as Hpos by (pose proof (Z.pow_pos_nonneg 2 (d - 1)); lia).
  destruct (Zdigits2_bounds m Hpos) as (Hd' & Hlo & Hhi).
  destruct (Z.lt_trichotomy (Zdigits2 m) d) as [Hlt | [Heq | Hgt]]; [|done|].
  - assert (2 ^ Zdigits2 m ≤ 2 ^ (d - 1))%Z by (apply Z.pow_le_mono_r; lia). lia.
  - assert (2 ^ d ≤ 2 ^ (Zdigits2 m - 1))%Z by (apply Z.pow_le_mono_r; lia). lia.
Qed.


(** shifting a mantissa right *)
Lemma shr_1_spec (m : Z) (r s : bool) :
  (0 ≤ m)%Z →
  shr_1 {| shr_m := m; shr_r := r; shr_s := s |}
  = {| shr_m := m / 2; shr_r := Z.odd m; shr_s := r || s |}.
Proof.
  intros Hm. destruct m as [|p|p]; [reflexivity| |lia].
  destruct p as [p|p|]; cbn [shr_1].
  - f_equal. apply (Z.div_unique _ _ _ 1); lia.
  - f_equal. apply (Z.div_unique _ _ _ 0); lia.
  - reflexivity.
Qed.

Lemma loc_of_record (m : Z) (l : location) :
  loc_of_shr_record (shr_record_of_loc m l) = l
  ∧ shr_m (shr_record_of_loc m l) = m.
Proof. by destruct l as [|[]]. Qed.

Lemma shr_1_inside (x : R) (rec : shr_record) (e : Z) :
  (0 ≤ shr_m rec)%Z →
  inside x (shr_m rec) e (loc_of_shr_record rec) →
  shr_m (shr_1 rec) = (shr_m rec / 2)%Z
  ∧ inside x (shr_m (shr_1 rec)) (e + 1) (loc_of_shr_record (shr_1 rec)).
Proof.
  destruct rec as [m r s]. cbn [shr_m]. intros Hm Hin.
  rewrite shr_1_spec by done. cbn [shr_m]. split; [done|].
  pose proof (Z.div_mod m 2 ltac:(lia)) as Hdm.
  pose proof (Zmod_odd m) as Hodd.
  unfold inside in *. rewrite scaled_succ. cbv zeta in *.
  set (k := (m / 2)%Z) in *. set (y := scaled x e) in *.
  destruct (Z.odd m).
  - assert (IZR m = 2 * IZR k + 1)%R as HIm
      by (rewrite Hdm at 1; rewrite Hodd, plus_IZR, mult_IZR; reflexivity).
    destruct r, s; cbn [loc_of_shr_record orb] in *; lra.
  - assert (IZR m = 2 * IZR k)%R as HIm
      by (rewrite Hdm at 1; rewrite Hodd, plus_IZR, mult_IZR; lra).
    destruct r, s; cbn [loc_of_shr_record orb] in *; lra.
Qed.

Lemma iter_pos_shr_1 (x : R) (p : positive) :
  ∀ (rec : shr_record) (e : Z),
    (0 ≤ shr_m rec)%Z →
    inside x (shr_m rec) e (loc_of_shr_record rec) →
    shr_m (SpecFloat.iter_pos shr_1 p rec) = (shr_m rec / 2 ^ Zpos p)%Z
    ∧ inside x (shr_m (SpecFloat.iter_pos shr_1 p rec)) (e + Zpos p)
             (loc_of_shr_record (SpecFloat.iter_pos shr_1 p rec)).
Proof.
  induction p as [p IH|p IH|]; intros rec e Hm Hin; cbn [SpecFloat.iter_pos];
    try (assert (0 < 2 ^ Zpos p)%Z as Hpp by (apply Z.pow_pos_nonneg; lia)).
  - destruct (shr_1_inside x rec e Hm Hin) as [H1 H1'].
    assert (0 ≤ shr_m (shr_1 rec))%Z as Hm1 by (rewrite H1; apply Z.div_pos; lia).
    destruct (IH _ _ Hm1 H1') as [H2 H2'].
    assert (0 ≤ shr_m (SpecFloat.iter_pos shr_1 p (shr_1 rec)))%Z as Hm2
      by (rewrite H2; apply Z.div_pos; lia).
    destruct (IH _ _ Hm2 H2') as [H3 H3'].
    split.
    + rewrite H3, H2, H1. change (Zpos p~1) with (2 * Zpos p + 1)%Z.
      rewrite Z.pow_add_r, Z.pow_1_r by lia.
      replace (2 * Zpos p)%Z with (Zpos p + Zpos p)%Z by lia.
      rewrite Z.pow_add_r by lia.
      rewrite !Z.div_div by lia. f_equal. lia.
    + replace (e + Zpos p~1)%Z with (e + 1 + Zpos p + Zpos p)%Z by lia. done.
  - destruct (IH _ _ Hm Hin) as [H2 H2'].
    assert (0 ≤ shr_m (SpecFloat.iter_pos shr_1 p rec))%Z as Hm2
      by (rewrite H2; apply Z.div_pos; lia).
    destruct (IH _ _ Hm2 H2') as [H3 H3'].
    split.
    + rewrite H3, H2. change (Zpos p~0) with (2 * Zpos p)%Z.
      replace (2 * Zpos p)%Z with (Zpos p + Zpos p)%Z by lia.
      rewrite Z.pow_add_r by lia.
      rewrite !Z.div_div by lia. reflexivity.
    + replace (e + Zpos p~0)%Z with (e + Zpos p + Zpos p)%Z by lia. done.
  - destruct (shr_1_inside x rec e Hm Hin) as [H1 H1']. by rewrite Z.pow_1_r.
Qed.

Lemma shr_inside (x : R) (rec : shr_record) (e n : Z) :
  (0 ≤ shr_m rec)%Z → (0 ≤ n)%Z →
  inside x (shr_m rec) e (loc_of_shr_record rec) →
  snd (shr rec e n) = (e + n)%Z
  ∧ shr_m (fst (shr rec e n)) = (shr_m rec / 2 ^ n)%Z
  ∧ inside x (shr_m (fst (shr rec e n))) (e + n) (loc_of_shr_record (fst (shr rec e n))).
Proof.
  intros Hm Hn Hin. destruct n as [|p|p]; [| |lia]; cbn [shr fst snd].
  - rewrite Z.add_0_r, Z.pow_0_r, Z.div_1_r. done.
  - split; [done|]. by apply iter_pos_shr_1.
Qed.

Lemma fexp_eq (d : Z) : fexp prec emax d = Z.max (d - 53) (-1074).
Proof. reflexivity. Qed.

Lemma shr_fexp_inside (x : R) (m e : Z) (l : location) :
  (0 ≤ m)%Z → inside x m e l → (e ≤ fexp prec emax (Zdigits2 m + e))%Z →
  ∃ rec', shr_fexp prec emax m e l = (rec', fexp prec emax (Zdigits2 m + e))
          ∧ shr_m rec' = (m / 2 ^ (fexp prec emax (Zdigits2 m + e) - e))%Z
          ∧ inside x (shr_m rec') (fexp prec emax (Zdigits2 m + e)) (loc_of_shr_record rec').
Proof.
  intros Hm Hin He. unfold shr_fexp.
  destruct (loc_of_record m l) as [Hl Hrm].
  set (rec := shr_record_of_loc m l) in *.
  set (n := (fexp prec emax (Zdigits2 m + e) - e)%Z).
  destruct (shr_inside x rec e n) as (H1 & H2 & H3);
    [by rewrite Hrm | lia | by rewrite Hrm, Hl |].
  exists (fst (shr rec e n)).
  replace (e + n)%Z with (fexp prec emax (Zdigits2 m + e)) in * by lia.
  rewrite Hrm in H2. split; [|done].
  destruct (shr rec e n) as [a b]. cbn in *. by subst b.
Qed.

Lemma shr_fexp_canon (x : R) (m e : Z) (l : location) :
  (0 ≤ m)%Z → inside x m e l → (e ≤ fexp prec emax (Zdigits2 m + e))%Z →
  ∃ rec' c, shr_fexp prec emax m e l = (rec', c)
            ∧ canon x c (shr_m rec') (loc_of_shr_record rec').
Proof.
  intros Hm Hin He.
  destruct (shr_fexp_inside x m e l Hm Hin He) as (rec' & Heq & Ht & Hin').
  exists rec', (fexp prec emax (Zdigits2 m + e)). split; [done|].
  split; [done|]. rewrite Ht. clear Heq Ht Hin' Hin.
  rewrite fexp_eq in *.
  set (d := Zdigits2 m) in *.
  destruct (Z.eq_dec m 0%Z) as [-> | Hne].
  { cbn in d. subst d. rewrite Z.div_0_l by (apply Z.pow_nonzero; lia). lia. }
  destruct (Zdigits2_bounds m ltac:(lia)) as (Hd & Hlo & Hhi). fold d in Hd, Hlo, Hhi.
  set (n := (Z.max (d + e - 53) (-1074) - e)%Z) in *.
  assert (0 ≤ n)%Z as Hn by lia.
  assert (0 < 2 ^ n)%Z as Hpn by (apply Z.pow_pos_nonneg; lia).
  split; [split|split].
  - apply Z.div_pos; lia.
  - apply Z.div_lt_upper_bound; [done|].
    destruct (Z.le_gt_cases d 53) as [Hle|Hgt].
    + assert (2 ^ d ≤ 2 ^ 53)%Z by (apply Z.pow_le_mono_r; lia). nia.
    + assert (d - 53 ≤ n)%Z by lia.
      assert (2 ^ (d - 53) ≤ 2 ^ n)%Z by (apply Z.pow_le_mono_r; lia).
      assert (2 ^ d = 2 ^ (d - 53) * 2 ^ 53)%Z
        by (rewrite <- Z.pow_add_r by lia; f_equal; lia).
      nia.
  - destruct (Z.le_gt_cases (-1074) (d + e - 53)) as [Hle|Hgt]; [left|right; lia].
    assert (n = d - 53)%Z as -> by lia.
    apply Z.div_le_lower_bound; [done|].
    assert (2 ^ (d - 1) = 2 ^ (d - 53) * 2 ^ 52)%Z
      by (rewrite <- Z.pow_add_r by lia; f_equal; lia).
    lia.
  - lia.
Qed.


(** *** Canonical locations are ordered as the values they locate *)

Lemma canon_order (x y : R) (c t : Z) (l : location) (c' t' : Z) (l' : location) :
  canon x c t l → canon y c' t' l' → (x <= y)%R →
  (c < c')%Z
  ∨ (c = c' ∧ (t < t')%Z)
  ∨ (c = c' ∧ t = t' ∧ (loc_rank l ≤ loc_rank l')%Z).
Proof.
  intros (Hin & Ht & Hn & Hc) (Hin' & Ht' & Hn' & Hc') Hxy.
  pose proof (inside_bounds _ _ _ _ Hin) as Hb.
  pose proof (inside_bounds _ _ _ _ Hin') as Hb'.
  destruct (Z.lt_trichotomy c c') as [Hlt | [<- | Hgt]]; [by left | |].
  - right. pose proof (scaled_le x y c Hxy) as Hs.
    assert (t < t' + 1)%Z as Hle by (apply lt_IZR; rewrite plus_IZR; lra).
    destruct (Z.eq_dec t t') as [<- | Hne]; [right | left; split; [done | lia]].
    split; [done|]. split; [done|].
    unfold inside in Hin, Hin'. cbv zeta in *.
    destruct l as [|[]], l' as [|[]]; cbn [loc_rank]; try lia; exfalso; lra.
  - exfalso.
    assert (2 ^ 52 ≤ t)%Z as Hbig by lia.
    apply IZR_le in Hbig.
    assert (IZR (t' + 1) <= IZR (2 ^ 53))%R as Hsmall by (apply IZR_le; lia).
    rewrite plus_IZR in Hsmall.
    change (2 ^ 52)%Z with 4503599627370496%Z in Hbig.
    change (2 ^ 53)%Z with 9007199254740992%Z in Hsmall.
    pose proof (scaled_le x y c' Hxy) as Hs.
    replace c' with (c + (c' - c))%Z in Hs at 1 by lia.
    rewrite scaled_shift in Hs.
    pose proof (bpow_lt 0 (- (c' - c)) ltac:(lia)) as Hp. rewrite bpow_0 in Hp.
    nra.
Qed.

Lemma loc_rank_inj (l l' : location) : loc_rank l = loc_rank l' → l = l'.
Proof. destruct l as [|[]], l' as [|[]]; cbn; intros; congruence || lia. Qed.

Lemma canon_unique (x : R) (c t : Z) (l : location) (c' t' : Z) (l' : location) :
  canon x c t l → canon x c' t' l' → c = c' ∧ t = t' ∧ l = l'.
Proof.
  intros H H'.
  pose proof (canon_order x x c t l c' t' l' H H' ltac:(lra)) as H1.
  pose proof (canon_order x x c' t' l' c t l H' H ltac:(lra)) as H2.
  assert (c = c' ∧ t = t' ∧ loc_rank l = loc_rank l') as (-> & -> & Hr) by lia.
  by apply loc_rank_inj in Hr as ->.
Qed.

(** *** The result of [binary_round_aux] *)

Lemma round_nearest_even_cases (t : Z) (l : location) :
  round_nearest_even t l = t ∨ round_nearest_even t l = (t + 1)%Z.
Proof. destruct l as [|[]]; cbn; auto. destruct (Z.even t); auto. Qed.

Lemma round_nearest_even_mono (t : Z) (l l' : location) :
  (loc_rank l ≤ loc_rank l')%Z →
  (round_nearest_even t l ≤ round_nearest_even t l')%Z.
Proof.
  destruct l as [|[]], l' as [|[]]; cbn; try lia; destruct (Z.even t); lia.
Qed.

Lemma finish_round (c r : Z) :
  (0 ≤ r ≤ 2 ^ 53)%Z → (2 ^ 52 ≤ r ∨ c = -1074)%Z → (-1074 ≤ c)%Z →
  (let '(mrs, e) := shr_fexp prec emax r c loc_Exact in
   match shr_m mrs with
   | Z0 => S754_zero false
   | Zpos m => if (e <=? emax - prec)%Z then S754_finite false m e
               else S754_infinity false
   | Zneg _ => S754_nan
   end) = pack c r.
Proof.
  intros Hr Hn Hc. unfold pack.
  destruct (Z.eqb_spec r 0) as [-> | Hr0].
  { assert (c = -1074)%Z as -> by lia. reflexivity. }
  destruct (Z.eqb_spec r (2 ^ 53)) as [-> | Hr53].
  { unfold shr_fexp.
    replace (fexp prec emax (Zdigits2 (2 ^ 53) + c) - c)%Z with 1%Z
      by (change (Zdigits2 (2 ^ 53)) with 54%Z; rewrite fexp_eq; lia).
    reflexivity. }
  unfold shr_fexp.
  replace (fexp prec emax (Zdigits2 r + c) - c)%Z with 0%Z.
  { cbn [shr shr_record_of_loc shr_m]. destruct r as [|p|p]; try lia.
    by rewrite Pos2Z.id. }
  rewrite fexp_eq.
  destruct (Zdigits2_bounds r ltac:(lia)) as (Hd & Hlo & Hhi).
  destruct (Z.le_gt_cases (2 ^ 52) r) as [Hbig | Hsmall].
  - rewrite (Zdigits2_unique r 53) by lia. lia.
  - assert (Zdigits2 r ≤ 52)%Z; [|lia].
    destruct (Z.le_gt_cases (Zdigits2 r) 52) as [|Hgt]; [done|].
    assert (2 ^ 52 ≤ 2 ^ (Zdigits2 r - 1))%Z by (apply Z.pow_le_mono_r; lia). lia.
Qed.

Lemma binary_round_aux_rounds (x : R) (m e : Z) (l : location) :
  (0 ≤ m)%Z → inside x m e l → (e ≤ fexp prec emax (Zdigits2 m + e))%Z →
  rounds x (binary_round_aux prec emax false m e l).
Proof.
  intros Hm Hin He.
  destruct (shr_fexp_canon x m e l Hm Hin He) as (rec' & c & Heq & Hcanon).
  exists c, (shr_m rec'), (loc_of_shr_record rec'). split; [done|].
  unfold binary_round_aux. rewrite Heq.
  destruct Hcanon as (_ & Ht & Hn & Hc).
  apply finish_round; [| |done];
    destruct (round_nearest_even_cases (shr_m rec') (loc_of_shr_record rec')) as [-> | ->];
    lia.
Qed.

(** *** Rounding is monotone *)

Lemma sf_key_pack (c r : Z) : (0 ≤ r)%Z → sf_key (pack c r) = Some (pack_key c r).
Proof.
  intros Hr. unfold pack, pack_key.
  destruct (r =? 0)%Z eqn:E0; [done|]. apply Z.eqb_neq in E0.
  destruct (r =? 2 ^ 53)%Z; [by destruct (c + 1 <=? 971)%Z|].
  destruct (c <=? 971)%Z; [|done]. cbn. by rewrite Z2Pos.id by lia.
Qed.

Lemma lex_le_intro (a1 a2 a3 b1 b2 b3 : Z) :
  (a1 < b1 ∨ (a1 = b1 ∧ (a2 < b2 ∨ (a2 = b2 ∧ a3 ≤ b3))))%Z →
  lex_lt (a1, a2, a3) (b1, b2, b3) ∨ (a1, a2, a3) = (b1, b2, b3).
Proof.
  intros H. destruct (Z.eq_dec a3 b3) as [-> | Hne].
  - destruct (Z.eq_dec a2 b2) as [-> | Hne2].
    + destruct (Z.eq_dec a1 b1) as [-> | Hne1]; [by right|]. left. cbn. lia.
    + left. cbn. lia.
  - left. cbn. lia.
Qed.

Lemma pack_key_mono (c r c' r' : Z) :
  (0 ≤ r ≤ 2 ^ 53)%Z → (0 ≤ r' ≤ 2 ^ 53)%Z →
  (2 ^ 52 ≤ r' ∨ c' = -1074)%Z → (-1074 ≤ c)%Z →
  (c < c' ∨ (c = c' ∧ r ≤ r'))%Z →
  lex_lt (pack_key c r) (pack_key c' r') ∨ pack_key c r = pack_key c' r'.
Proof.
  intros Hr Hr' Hn' Hc Hle. unfold pack_key.
  change (2 ^ 53)%Z with 9007199254740992%Z in *.
  change (2 ^ 52)%Z with 4503599627370496%Z in *.
  destruct (Z.eqb_spec r 0), (Z.eqb_spec r' 0),
    (Z.eqb_spec r 9007199254740992), (Z.eqb_spec r' 9007199254740992),
    (Z.leb_spec (c + 1) 971), (Z.leb_spec (c' + 1) 971),
    (Z.leb_spec c 971), (Z.leb_spec c' 971);
    try lia; apply lex_le_intro; lia.
Qed.

Lemma rounds_mono (x y : R) (f g : spec_float) :
  rounds x f → rounds y g → (x <= y)%R →
  ∃ a b, sf_key f = Some a ∧ sf_key g = Some b ∧ (lex_lt a b ∨ a = b).
Proof.
  intros (c & t & l & Hc & ->) (c' & t' & l' & Hc' & ->) Hxy.
  pose proof (canon_order x y c t l c' t' l' Hc Hc' Hxy) as Hord.
  destruct Hc as (_ & Ht & Hn & Hcm), Hc' as (_ & Ht' & Hn' & Hcm').
  pose proof (round_nearest_even_cases t l) as Hr.
  pose proof (round_nearest_even_cases t' l') as Hr'.
  eexists _, _. split; [apply sf_key_pack; lia|]. split; [apply sf_key_pack; lia|].
  apply pack_key_mono; try lia.
  destruct Hord as [Hlt | [[-> Hlt] | (-> & -> & Hrank)]]; [lia | right; lia |].
  right. split; [done|]. by apply round_nearest_even_mono.
Qed.

(** *** Rounding keeps the numbers of the format *)

Lemma valid_bounds (m : positive) (e : Z) :
  valid_binary (S754_finite false m e) = true →
  (0 < Zpos m < 2 ^ 53)%Z ∧ (2 ^ 52 ≤ Zpos m ∨ e = -1074)%Z
  ∧ (-1074 ≤ e ≤ 971)%Z.
Proof.
  cbn [valid_binary]. unfold bounded, canonical_mantissa. intros H.
  apply andb_true_iff in H as [H1 H2]. apply Z.eqb_eq in H1. apply Z.leb_le in H2.
  change (emax - prec)%Z with 971%Z in H2. rewrite fexp_eq in H1.
  pose proof (digits2_pos_bounds m) as [Hlo Hhi].
  set (d := Zpos (digits2_pos m)) in *.
  assert (d ≤ 53)%Z as Hd by lia.
  assert (2 ^ d ≤ 2 ^ 53)%Z by (apply Z.pow_le_mono_r; lia).
  split; [lia|]. split; [|lia].
  destruct (Z.eq_dec e (-1074)%Z) as [|Hne]; [by right | left].
  assert (d = 53)%Z as Hd53 by lia. rewrite Hd53 in Hlo. exact Hlo.
Qed.

Lemma canon_of_valid (m : positive) (e : Z) :
  valid_binary (S754_finite false m e) = true →
  canon (B2R (S754_finite false m e)) e (Zpos m) loc_Exact
  ∧ pack e (Zpos m) = S754_finite false m e.
Proof.
  intros Hv. destruct (valid_bounds m e Hv) as (Hm & Hn & He). split.
  - split; [|lia]. unfold inside, scaled, B2R. cbn [cond_Zopp].
    rewrite Rmult_assoc, <- bpow_add, Z.add_opp_diag_r, bpow_0. lra.
  - unfold pack. destruct (Z.eqb_spec (Zpos m) 0); [lia|].
    destruct (Z.eqb_spec (Zpos m) (2 ^ 53)); [lia|].
    destruct (Z.leb_spec e 971); [|lia]. by rewrite Pos2Z.id.
Qed.

Lemma rounds_representable (m : positive) (e : Z) (f : spec_float) :
  valid_binary (S754_finite false m e) = true →
  rounds (B2R (S754_finite false m e)) f → f = S754_finite false m e.
Proof.
  intros Hv (c & t & l & Hc & ->).
  destruct (canon_of_valid m e Hv) as [Hc' Hp].
  destruct (canon_unique _ _ _ _ _ _ _ Hc Hc') as (-> & -> & ->). exact Hp.
Qed.


Lemma rounds_valid (x : R) (f : spec_float) : rounds x f → valid_binary f = true.
Proof.
  intros (c & t & l & (_ & Ht & Hn & Hc) & ->).
  pose proof (round_nearest_even_cases t l) as Hr.
  set (r := round_nearest_even t l) in *.
  unfold pack.
  destruct (Z.eqb_spec r 0); [done|].
  destruct (Z.eqb_spec r (2 ^ 53)).
  { destruct (Z.leb_spec (c + 1) 971); [|done].
    cbn [valid_binary]. unfold bounded, canonical_mantissa.
    apply andb_true_iff. split; [apply Z.eqb_eq | apply Z.leb_le; change (emax - prec)%Z with 971%Z; lia].
    change (Zpos (digits2_pos (2 ^ 52))) with 53%Z. rewrite fexp_eq. lia. }
  destruct (Z.leb_spec c 971); [|done].
  cbn [valid_binary]. unfold bounded, canonical_mantissa.
  apply andb_true_iff. split; [apply Z.eqb_eq | apply Z.leb_le; change (emax - prec)%Z with 971%Z; lia].
  assert (0 < r)%Z as Hpos by lia.
  change (Zpos (digits2_pos (Z.to_pos r))) with (Zdigits2 (Zpos (Z.to_pos r))).
  rewrite Z2Pos.id by done. rewrite fexp_eq.
  destruct (Zdigits2_bounds r Hpos) as (Hd & Hlo & Hhi).
  destruct (Z.le_gt_cases (2 ^ 52) r) as [Hbig | Hsmall].
  - rewrite (Zdigits2_unique r 53) by lia. lia.
  - assert (Zdigits2 r ≤ 52)%Z; [|lia].
    destruct (Z.le_gt_cases (Zdigits2 r) 52) as [|Hgt]; [done|].
    assert (2 ^ 52 ≤ 2 ^ (Zdigits2 r - 1))%Z by (apply Z.pow_le_mono_r; lia). lia.
Qed.

(** *** [Number], [/] and [*] round the exact result *)

Lemma iter_xO (d mx : positive) :
  Zpos (Pos.iter xO mx d) = (Zpos mx * 2 ^ Zpos d)%Z.
Proof.
  induction d as [|d IH] using Pos.peano_ind.
  - cbn [Pos.iter]. rewrite Z.pow_1_r. lia.
  - rewrite Pos.iter_succ, Pos2Z.inj_succ, Z.pow_succ_r by lia.
    rewrite Pos2Z.inj_xO, IH. lia.
Qed.

Lemma shl_align_spec (mx : positive) (ex ex' : Z) :
  snd (shl_align mx ex ex') = Z.min ex ex'
  ∧ Zpos (fst (shl_align mx ex ex'))
    = (Zpos mx * 2 ^ (ex - snd (shl_align mx ex ex')))%Z.
Proof.
  unfold shl_align. destruct (ex' - ex)%Z as [|d|d] eqn:E; cbn [fst snd].
  - rewrite Z.sub_diag, Z.pow_0_r. lia.
  - rewrite Z.sub_diag, Z.pow_0_r. lia.
  - split; [lia|]. rewrite iter_xO. f_equal. f_equal. lia.
Qed.

Lemma Zdigits2_shift (m k : Z) :
  (0 < m)%Z → (0 ≤ k)%Z → Zdigits2 (m * 2 ^ k) = (Zdigits2 m + k)%Z.
Proof.
  intros Hm Hk. destruct (Zdigits2_bounds m Hm) as (Hd & Hlo & Hhi).
  assert (0 < 2 ^ k)%Z by (apply Z.pow_pos_nonneg; lia).
  apply Zdigits2_unique; [|lia].
  replace (Zdigits2 m + k - 1)%Z with (Zdigits2 m - 1 + k)%Z by lia.
  rewrite !Z.pow_add_r by lia. nia.
Qed.

Lemma binary_round_rounds (mx : positive) (ex : Z) :
  rounds (IZR (Zpos mx) * bpow ex) (binary_round prec emax false mx ex).
Proof.
  unfold binary_round.
  pose proof (shl_align_spec mx ex (fexp prec emax (Zpos (digits2_pos mx) + ex)))
    as [Hez Hmz].
  destruct (shl_align mx ex _) as [mz ez]. cbn [fst snd] in Hez, Hmz.
  apply binary_round_aux_rounds; [lia| |].
  - unfold inside, scaled. rewrite Hmz, mult_IZR, <- bpow_IZR by lia.
    rewrite !Rmult_assoc, <- !bpow_add. f_equal; f_equal; lia.
  - rewrite Hmz, Zdigits2_shift by lia. cbn [Zdigits2].
    replace (Zpos (digits2_pos mx) + (ex - ez) + ez)%Z
      with (Zpos (digits2_pos mx) + ex)%Z by lia.
    lia.
Qed.

Lemma Number_of_Z_rounds (n : Z) :
  (0 < n)%Z → rounds (IZR n) (Prim2SF (Number_of_Z n)).
Proof.
  intros Hn. destruct n as [|p|p]; try lia.
  pose proof (binary_round_rounds p 0) as H.
  rewrite bpow_0, Rmult_1_r in H.
  unfold Number_of_Z. cbn [binary_normalize].
  rewrite FloatAxioms.Prim2SF_SF2Prim; [done | by eapply rounds_valid].
Qed.

Lemma mul_rounds (a b : float) (ma mb : positive) (ea eb : Z) :
  Prim2SF a = S754_finite false ma ea → Prim2SF b = S754_finite false mb eb →
  rounds (B2R (Prim2SF a) * B2R (Prim2SF b)) (Prim2SF (a * b)).
Proof.
  intros Ha Hb. rewrite FloatAxioms.mul_spec.
  pose proof (FloatAxioms.Prim2SF_valid a) as Hva.
  pose proof (FloatAxioms.Prim2SF_valid b) as Hvb.
  rewrite Ha in *. rewrite Hb in *.
  destruct (valid_bounds _ _ Hva) as (Hma & Hna & Hea).
  destruct (valid_bounds _ _ Hvb) as (Hmb & Hnb & Heb).
  unfold SF64mul. cbn [SFmul xorb B2R cond_Zopp].
  apply binary_round_aux_rounds; [lia| |].
  - unfold inside, scaled. rewrite Pos2Z.inj_mul, mult_IZR.
    replace (- (ea + eb))%Z with (- ea + - eb)%Z by lia. rewrite bpow_add.
    transitivity (IZR (Zpos ma) * IZR (Zpos mb)
                  * ((bpow ea * bpow (- ea)) * (bpow eb * bpow (- eb))))%R; [ring|].
    rewrite <- !bpow_add, !Z.add_opp_diag_r, bpow_0. ring.
  - rewrite fexp_eq, Pos2Z.inj_mul.
    destruct (Zdigits2_bounds (Zpos ma * Zpos mb) ltac:(lia)) as (Hd & Hlo & Hhi).
    set (d := Zdigits2 (Zpos ma * Zpos mb)) in *.
    destruct (Z.le_gt_cases 53 d) as [|Hsmall]; [lia|].
    assert (2 ^ d ≤ 2 ^ 52)%Z by (apply Z.pow_le_mono_r; lia).
    assert (Zpos ma * Zpos mb < 2 ^ 52)%Z as Hprod by lia.
    assert (ea = -1074 ∧ eb = -1074)%Z by nia. lia.
Qed.

Lemma new_location_spec (m2 r : Z) :
  (0 ≤ r < m2)%Z →
  match new_location m2 r with
  | loc_Exact => r = 0%Z
  | loc_Inexact Lt => (0 < r ∧ 2 * r < m2)%Z
  | loc_Inexact Eq => (2 * r = m2)%Z
  | loc_Inexact Gt => (m2 < 2 * r)%Z
  end.
Proof.
  intros Hr. unfold new_location, new_location_even, new_location_odd.
  pose proof (Zmod_even m2) as He. pose proof (Z.div_mod m2 2 ltac:(lia)) as Hdm.
  destruct (Z.even m2); destruct (Z.eqb_spec r 0); try done.
  - destruct (Z.compare_spec (2 * r) m2); lia.
  - destruct (Z.compare_spec (2 * r + 1) m2); lia.
Qed.

Lemma div_rounds (a b : float) (ma mb : positive) (ea eb : Z) :
  Prim2SF a = S754_finite false ma ea → Prim2SF b = S754_finite false mb eb →
  rounds (B2R (Prim2SF a) / B2R (Prim2SF b)) (Prim2SF (a / b)).
Proof.
  intros Ha Hb. rewrite FloatAxioms.div_spec. rewrite Ha, Hb.
  unfold SF64div. cbn [SFdiv xorb B2R cond_Zopp].
  unfold SFdiv_core_binary.
  set (m1 := Zpos ma). set (m2 := Zpos mb).
  set (d1 := Zdigits2 m1). set (d2 := Zdigits2 m2).
  set (e' := Z.min (fexp prec emax (d1 + ea - (d2 + eb))) (ea - eb)).
  set (s := (ea - eb - e')%Z).
  assert (0 ≤ s)%Z as Hs by lia.
  set (m' := match s with Zpos _ => Z.shiftl m1 s | Z0 => m1 | Zneg _ => 0%Z end).
  assert (m' = m1 * 2 ^ s)%Z as Hm'.
  { unfold m'. destruct s as [|p|p] eqn:Es; [rewrite Z.pow_0_r; lia | | lia].
    by rewrite Z.shiftl_mul_pow2. }
  clearbody m'.
  pose proof (Z_div_mod m' m2 ltac:(lia)) as Hdiv.
  destruct (Z.div_eucl m' m2) as [q r]. destruct Hdiv as [Hqr Hr].
  assert (0 < 2 ^ s)%Z as Hps by (apply Z.pow_pos_nonneg; lia).
  assert (0 ≤ q)%Z as Hq by nia.
  apply binary_round_aux_rounds; [done| |].
  - (* the location *)
    assert (scaled (IZR m1 * bpow ea / (IZR m2 * bpow eb)) e'
            = IZR q + IZR r / IZR m2)%R as Hy.
    { unfold scaled.
      assert (0 < IZR m2)%R as Hm2 by (apply IZR_lt; lia).
      pose proof (bpow_pos eb) as Hpb.
      assert (bpow ea = bpow eb * bpow s * bpow e')%R as ->
        by (rewrite <- !bpow_add; f_equal; lia).
      rewrite (bpow_IZR s) by lia.
      assert (IZR m1 * IZR (2 ^ s) = IZR m2 * IZR q + IZR r)%R as Hqr'
        by (rewrite <- !mult_IZR, <- plus_IZR; f_equal; lia).
      pose proof (bpow_pos e') as Hpe.
      rewrite bpow_opp. field_simplify; [|lra|lra].
      replace (IZR m1 * IZR (2 ^ s))%R with (IZR m2 * IZR q + IZR r)%R.
      field. lra. }
    pose proof (new_location_spec m2 r Hr) as Hloc.
    assert (0 < IZR m2)%R as Hm2 by (apply IZR_lt; lia).
    unfold inside. rewrite Hy.
    assert (∀ u v : Z, (u < v)%Z → (IZR u < IZR v)%R) as Hlt by (intros; by apply IZR_lt).
    destruct (new_location m2 r) as [|[]]; cbv beta iota zeta in Hloc |- *.
    + subst r. lra.
    + assert (IZR r / IZR m2 = / 2)%R; [|lra].
      rewrite <- Hloc, mult_IZR. field. 
      assert (0 < 2 * r)%Z as Hrp by lia. apply Hlt in Hrp. rewrite mult_IZR in Hrp. lra.
    + destruct Hloc as [H1 H2]. apply Hlt in H1, H2. rewrite mult_IZR in H2.
      split.
      * assert (0 < IZR r / IZR m2)%R by (apply Rdiv_lt_0_compat; lra). lra.
      * assert (IZR r / IZR m2 < / 2)%R; [|lra].
        apply (Rmult_lt_reg_r (IZR m2)); [done|]. field_simplify; lra.
    + apply Hlt in Hloc. rewrite mult_IZR in Hloc.
      destruct Hr as [_ Hr]. apply Hlt in Hr.
      split.
      * assert (/ 2 < IZR r / IZR m2)%R; [|lra].
        apply (Rmult_lt_reg_r (IZR m2)); [done|]. field_simplify; lra.
      * assert (IZR r / IZR m2 < 1)%R; [|lra].
        apply (Rmult_lt_reg_r (IZR m2)); [done|]. field_simplify; lra.
  - (* the precision *)
    rewrite fexp_eq. unfold e' at 1. rewrite fexp_eq.
    destruct (Zdigits2_bounds m1 ltac:(lia)) as (Hd1 & Hlo1 & Hhi1).
    destruct (Zdigits2_bounds m2 ltac:(lia)) as (Hd2 & Hlo2 & Hhi2).
    fold d1 in Hd1, Hlo1, Hhi1. fold d2 in Hd2, Hlo2, Hhi2.
    assert (d1 - d2 + s ≤ Zdigits2 q)%Z as Hdq; [|lia].
    destruct (Z.le_gt_cases (d1 - d2 + s) 0) as [Hneg | Hposk].
    { destruct (Z.eq_dec q 0%Z) as [-> | Hq0]; [change (Zdigits2 0) with 0%Z; lia|].
      destruct (Zdigits2_bounds q ltac:(lia)) as (Hdq & _). lia. }
    set (k := (d1 - 1 + s - d2)%Z).
    assert (0 ≤ k)%Z as Hk by lia.
    assert (2 ^ (d1 - 1) * 2 ^ s = 2 ^ k * 2 ^ d2)%Z as Hpow
      by (rewrite <- !Z.pow_add_r by lia; f_equal; lia).
    assert (0 < 2 ^ k)%Z by (apply Z.pow_pos_nonneg; lia).
    assert (2 ^ k ≤ q)%Z as Hqk by nia.
    destruct (Zdigits2_bounds q ltac:(lia)) as (Hdq & Hloq & Hhiq).
    destruct (Z.le_gt_cases (k + 1) (Zdigits2 q)) as [|Hgt]; [lia|].
    assert (2 ^ Zdigits2 q ≤ 2 ^ k)%Z by (apply Z.pow_le_mono_r; lia). lia.
Qed.

(** *** The operations on finite numbers never return [NaN] *)

Lemma iter_pos_inv {A : Type} (P : A → Prop) (f : A → A) (p : positive) :
  (∀ y, P y → P (f y)) → ∀ x, P x → P (SpecFloat.iter_pos f p x).
Proof.
  intros Hf. induction p as [p IH|p IH|]; intros x Hx; cbn [SpecFloat.iter_pos]; auto.
Qed.

Lemma shr_1_nonneg (rec : shr_record) : (0 ≤ shr_m rec)%Z → (0 ≤ shr_m (shr_1 rec))%Z.
Proof.
  destruct rec as [m r s]. cbn [shr_m]. intros Hm.
  rewrite shr_1_spec by done. cbn [shr_m]. apply Z.div_pos; lia.
Qed.

Lemma shr_fexp_nonneg (m e : Z) (l : location) :
  (0 ≤ m)%Z → (0 ≤ shr_m (fst (shr_fexp prec emax m e l)))%Z.
Proof.
  intros Hm. unfold shr_fexp, shr.
  destruct (loc_of_record m l) as [_ Hrm].
  destruct (_ - e)%Z as [|p|p]; cbn [fst]; try by rewrite Hrm.
  apply iter_pos_inv; [apply shr_1_nonneg | by rewrite Hrm].
Qed.

Lemma binary_round_aux_not_nan (sx : bool) (m e : Z) (l : location) :
  (0 ≤ m)%Z → binary_round_aux prec emax sx m e l ≠ S754_nan.
Proof.
  intros Hm. unfold binary_round_aux.
  pose proof (shr_fexp_nonneg m e l Hm) as H1.
  destruct (shr_fexp prec emax m e l) as [mrs' e']. cbn [fst] in H1.
  assert (0 ≤ round_nearest_even (shr_m mrs') (loc_of_shr_record mrs'))%Z as Hr
    by (destruct (round_nearest_even_cases (shr_m mrs') (loc_of_shr_record mrs'))
          as [-> | ->]; lia).
  pose proof (shr_fexp_nonneg _ e' loc_Exact Hr) as H2.
  destruct (shr_fexp prec emax _ e' loc_Exact) as [mrs'' e'']. cbn [fst] in H2.
  destruct (shr_m mrs'') as [|p|p]; [done | | lia].
  by destruct (_ <=? _)%Z.
Qed.

Lemma binary_normalize_not_nan (m e : Z) (s : bool) :
  binary_normalize prec emax m e s ≠ S754_nan.
Proof.
  destruct m as [|p|p]; cbn [binary_normalize]; [done | |];
    unfold binary_round; destruct (shl_align _ _ _) as [mz ez];
    apply binary_round_aux_not_nan; lia.
Qed.

Lemma SFsub_not_nan (x y : spec_float) :
  finiteSF x → finiteSF y → SFsub prec emax x y ≠ S754_nan.
Proof.
  destruct x as [sx|sx| |sx mx ex], y as [sy|sy| |sy my ey]; try done; intros _ _.
  - by destruct sx, sy.
  - apply binary_normalize_not_nan.
Qed.

Lemma SFsub_finite (x y : spec_float) :
  finiteSF (SFsub prec emax x y) → finiteSF x ∧ finiteSF y.
Proof.
  destruct x as [sx|sx| |sx mx ex], y as [sy|sy| |sy my ey]; try done;
    destruct sx, sy; done.
Qed.

Lemma SFdiv_not_nan (x : spec_float) (sy : bool) (my : positive) (ey : Z) :
  x ≠ S754_nan → SFdiv prec emax x (S754_finite sy my ey) ≠ S754_nan.
Proof.
  destruct x as [sx|sx| |sx mx ex]; try done. intros _. cbn [SFdiv].
  unfold SFdiv_core_binary.
  set (s := (ex - ey - _)%Z).
  set (m' := match s with Zpos _ => Z.shiftl (Zpos mx) s | Z0 => Zpos mx | Zneg _ => 0%Z end).
  assert (0 ≤ m')%Z as Hm'.
  { unfold m'. destruct s; [lia | | lia]. apply Z.shiftl_nonneg. lia. }
  pose proof (Z_div_mod m' (Zpos my) ltac:(lia)) as Hdiv.
  destruct (Z.div_eucl m' (Zpos my)) as [q r]. destruct Hdiv as [Hqr Hr].
  apply binary_round_aux_not_nan. nia.
Qed.

Lemma is_nan_Prim2SF (x : float) : is_nan x = false ↔ Prim2SF x ≠ S754_nan.
Proof.
  rewrite is_nan_false. unfold fkey.
  destruct (Prim2SF x) as [s|s| |s m e]; cbn; split; intros H; eauto; try done.
  by destruct H.
Qed.

Lemma Math_min_not_nan (a b : float) :
  is_nan a = false → is_nan b = false → is_nan (Math_min a b) = false.
Proof.
  intros Ha Hb. unfold Math_min. rewrite Ha, Hb. cbn [orb].
  destruct (a <? b)%float; [done|]. destruct (b <? a)%float; [done|].
  by destruct (get_sign a).
Qed.

Lemma Math_max_not_nan (a b : float) :
  is_nan a = false → is_nan b = false → is_nan (Math_max a b) = false.
Proof.
  intros Ha Hb. unfold Math_max. rewrite Ha, Hb. cbn [orb].
  destruct (a <? b)%float; [done|]. destruct (b <? a)%float; [done|].
  by destruct (get_sign a).
Qed.

End Rounding.

(** ** The arithmetic of the progress reports *)

Module Progress.
Import Reals Lra JsMath RealValue Rounding FloatOrder FloatFacts StlSlicer.

Lemma B2R_pos (m : positive) (e : Z) : (0 < B2R (S754_finite false m e))%R.
Proof.
  cbn [B2R cond_Zopp]. apply Rmult_lt_0_compat; [apply IZR_lt; lia | apply bpow_pos].
Qed.

Lemma key_le_B2R (m : positive) (e : Z) (m' : positive) (e' : Z) :
  valid_binary (S754_finite false m e) = true →
  valid_binary (S754_finite false m' e') = true →
  lex_lt (1, e, Zpos m)%Z (1, e', Zpos m')%Z
  ∨ (1, e, Zpos m)%Z = (1, e', Zpos m')%Z →
  (B2R (S754_finite false m e) <= B2R (S754_finite false m' e'))%R.
Proof.
  intros Hv Hv' Hle.
  destruct (valid_bounds _ _ Hv) as (Hm & Hn & He).
  destruct (valid_bounds _ _ Hv') as (Hm' & Hn' & He').
  cbn [B2R cond_Zopp].
  assert (e < e' ∨ (e = e' ∧ Zpos m ≤ Zpos m'))%Z as [Hlt | [-> Hmm]].
  { destruct Hle as [Hlt | Heq]; [cbn in Hlt; lia | injection Heq; lia]. }
  - pose proof (bpow_lt e e' Hlt) as Hb. pose proof (bpow_pos e) as Hp.
    assert (IZR (Zpos m) <= IZR (2 ^ 53))%R as H1 by (apply IZR_le; lia).
    assert (IZR (2 ^ 52) <= IZR (Zpos m'))%R as H2 by (apply IZR_le; lia).
    change (2 ^ 53)%Z with 9007199254740992%Z in H1.
    change (2 ^ 52)%Z with 4503599627370496%Z in H2.
    assert (0 < IZR (Zpos m))%R as H0 by (apply IZR_lt; lia).
    nra.
  - apply Rmult_le_compat_r; [pose proof (bpow_pos e'); lra | by apply IZR_le].
Qed.

Lemma sf_key_positive (f : spec_float) (e m : Z) :
  sf_key f = Some (1, e, m)%Z → ∃ p, f = S754_finite false p e ∧ m = Zpos p.
Proof.
  destruct f as [s|s| |s p e0]; cbn; try discriminate.
  - destruct s; discriminate.
  - destruct s; [discriminate|]. intros [= <- <-]. eauto.
Qed.

Lemma rounds_shape (x : R) (f : spec_float) :
  rounds x f →
  f = S754_zero false ∨ f = S754_infinity false ∨ ∃ m e, f = S754_finite false m e.
Proof.
  intros (c & t & l & _ & ->). unfold pack.
  repeat (match goal with |- context [if ?b then _ else _] => destruct b end); eauto.
Qed.

Lemma rounds_of_valid (m : positive) (e : Z) :
  valid_binary (S754_finite false m e) = true →
  rounds (B2R (S754_finite false m e)) (S754_finite false m e).
Proof.
  intros Hv. destruct (canon_of_valid m e Hv) as [Hc Hp].
  exists e, (Zpos m), loc_Exact. split; [done|]. by rewrite <- Hp.
Qed.

Lemma Prim2SF_inj (x y : float) : Prim2SF x = Prim2SF y → x = y.
Proof.
  intros H. rewrite <- (FloatAxioms.SF2Prim_Prim2SF x), <- (FloatAxioms.SF2Prim_Prim2SF y).
  by rewrite H.
Qed.

Lemma Prim2SF_one : Prim2SF 1 = S754_finite false 4503599627370496 (-52).
Proof. reflexivity. Qed.

Lemma B2R_one : B2R (S754_finite false 4503599627370496 (-52)) = 1%R.
Proof.
  cbn [B2R cond_Zopp].
  replace (bpow (-52)) with (/ bpow 52)%R by (symmetry; apply (bpow_opp 52)).
  rewrite (bpow_IZR 52) by lia.
  change (2 ^ 52)%Z with 4503599627370496%Z. lra.
Qed.

Lemma rounds_one (f : spec_float) : rounds 1 f → f = Prim2SF 1.
Proof.
  intros H. rewrite Prim2SF_one. apply rounds_representable; [reflexivity|].
  by rewrite B2R_one.
Qed.

(** *** Numbers that are integers *)

Lemma int_value_B2R (c : float) (z : Z) :
  int_value c = Some z → (0 < z)%Z →
  ∃ m e, Prim2SF c = S754_finite false m e ∧ B2R (Prim2SF c) = IZR z.
Proof.
  unfold int_value. destruct (Prim2SF c) as [s|s| |s m e]; try discriminate.
  { intros [= <-]. lia. }
  destruct (Z.leb_spec 0 e) as [He | He].
  - intros [= <-] Hz. destruct s; cbn [cond_Zopp] in *.
    { assert (0 < 2 ^ e)%Z by (apply Z.pow_pos_nonneg; lia). nia. }
    exists m, e. split; [done|]. cbn [B2R cond_Zopp].
    by rewrite mult_IZR, bpow_IZR.
  - assert (0 < 2 ^ (- e))%Z as Hk by (apply Z.pow_pos_nonneg; lia).
    destruct (Z.eqb_spec (cond_Zopp s (Zpos m) mod 2 ^ (- e)) 0) as [Hmod|]; [|discriminate].
    intros [= <-] Hz.
    pose proof (Z.div_exact (cond_Zopp s (Zpos m)) (2 ^ (- e)) ltac:(lia)) as [_ Hex].
    specialize (Hex Hmod).
    destruct s; cbn [cond_Zopp] in *; [nia|].
    exists m, e. split; [done|]. cbn [B2R cond_Zopp].
    rewrite Hex at 1. rewrite mult_IZR, <- (bpow_IZR (- e)) by lia.
    rewrite (Rmult_comm (bpow (- e))), Rmult_assoc, <- bpow_add.
    replace (- e + e)%Z with 0%Z by lia. rewrite bpow_0. lra.
Qed.

Lemma Number_of_Z_int_value (c : float) (z : Z) :
  int_value c = Some z → (0 < z)%Z → Number_of_Z z = c.
Proof.
  intros Hc Hz. destruct (int_value_B2R c z Hc Hz) as (m & e & Hsf & HB).
  pose proof (Number_of_Z_rounds z Hz) as Hr. rewrite <- HB, Hsf in Hr.
  apply Prim2SF_inj. rewrite Hsf. apply rounds_representable; [|done].
  rewrite <- Hsf. apply FloatAxioms.Prim2SF_valid.
Qed.

Lemma div_self (c : float) (m : positive) (e : Z) :
  Prim2SF c = S754_finite false m e → (c / c)%float = 1%float.
Proof.
  intros Hc. pose proof (div_rounds c c m m e e Hc Hc) as Hr.
  apply Prim2SF_inj. apply rounds_one.
  replace 1%R with (B2R (Prim2SF c) / B2R (Prim2SF c))%R; [done|].
  rewrite Hc. pose proof (B2R_pos m e). by field; lra.
Qed.


Lemma binary_round_aux_flip (m e : Z) (l : location) :
  binary_round_aux prec emax true m e l
  = SFopp (binary_round_aux prec emax false m e l).
Proof.
  unfold binary_round_aux.
  destruct (shr_fexp _ _ _ _ _) as [mrs' e'].
  destruct (shr_fexp _ _ _ _ _) as [mrs'' e''].
  destruct (shr_m mrs''); [done | | done].
  by destruct (_ <=? _)%Z.
Qed.

Lemma Prim2SF_Number_of_Z_neg (p : positive) :
  Prim2SF (Number_of_Z (Zneg p)) = SFopp (Prim2SF (Number_of_Z (Zpos p))).
Proof.
  unfold Number_of_Z. cbn [binary_normalize].
  assert (binary_round prec emax true p 0 = SFopp (binary_round prec emax false p 0))
    as Hflip.
  { unfold binary_round. destruct (shl_align _ _ _) as [mz ez].
    apply binary_round_aux_flip. }
  pose proof (rounds_valid _ _ (binary_round_rounds p 0)) as Hv.
  rewrite Hflip, !FloatAxioms.Prim2SF_SF2Prim; [done | done |].
  by destruct (binary_round prec emax false p 0).
Qed.

Lemma Number_of_Z_integral (z : Z) :
  (0 < z)%Z →
  match Prim2SF (Number_of_Z z) with
  | S754_finite _ _ _ | S754_zero _ => is_Some (int_value (Number_of_Z z))
  | _ => True
  end.
Proof.
  intros Hz. unfold int_value.
  destruct (Number_of_Z_rounds z Hz) as (c & t & l & (Hin & Ht & Hn & Hc) & ->).
  pose proof (round_nearest_even_cases t l) as Hr.
  unfold pack.
  destruct (Z.eqb_spec (round_nearest_even t l) 0); [by eauto|].
  destruct (Z.leb_spec 0 c) as [Hc0 | Hc0].
  { destruct (Z.eqb_spec (round_nearest_even t l) (2 ^ 53)).
    - destruct (c + 1 <=? 971)%Z; [|done].
      destruct (Z.leb_spec 0 (c + 1)); [by eauto | lia].
    - destruct (c <=? 971)%Z; [|done].
      destruct (Z.leb_spec 0 c); [by eauto | lia]. }
  assert (0 < 2 ^ (- c))%Z as Hk by (apply Z.pow_pos_nonneg; lia).
  assert (scaled (IZR z) c = IZR (z * 2 ^ (- c))) as Hs
    by (unfold scaled; by rewrite mult_IZR, bpow_IZR by lia).
  pose proof (inside_bounds _ _ _ _ Hin) as Hb. rewrite Hs in Hb.
  assert (t = z * 2 ^ (- c))%Z as Htz.
  { destruct Hb as [Hb1 Hb2]. apply le_IZR in Hb1.
    rewrite <- plus_IZR in Hb2. apply lt_IZR in Hb2. lia. }
  assert (l = loc_Exact) as ->.
  { unfold inside in Hin. rewrite Hs, <- Htz in Hin.
    destruct l as [|[]]; cbv zeta in Hin; [done | exfalso; lra ..]. }
  cbn [round_nearest_even] in *.
  destruct (Z.eqb_spec t (2 ^ 53)); [lia|].
  destruct (c <=? 971)%Z; [|done].
  destruct (Z.leb_spec 0 c); [lia|]. cbn [cond_Zopp].
  rewrite Z2Pos.id by lia. rewrite Htz, Z.mod_mul by lia. cbn. eauto.
Qed.

Lemma Prim2SF_two : Prim2SF 2 = S754_finite false 4503599627370496 (-51).
Proof. reflexivity. Qed.

Lemma Math_max_2_cases (c : float) :
  Math_max 2 c = nan ∨ Math_max 2 c = 2%float
  ∨ (Math_max 2 c = c ∧ (2 <? c)%float = true).
Proof.
  unfold Math_max. destruct (is_nan 2 || is_nan c); [by left|].
  destruct (2 <? c)%float; [by right; right|].
  destruct (c <? 2)%float; [by right; left|]. by right; left.
Qed.

Lemma Math_ceil_integral (v : float) :
  (2 <? Math_ceil v)%float = true →
  match Prim2SF (Math_ceil v) with
  | S754_finite _ _ _ | S754_zero _ => is_Some (int_value (Math_ceil v))
  | _ => True
  end.
Proof.
  unfold Math_ceil. destruct (Prim2SF v) as [s|s| |s m e] eqn:Hv.
  - intros _. rewrite Hv. unfold int_value. rewrite Hv. eauto.
  - intros _. by rewrite Hv.
  - intros _. by rewrite Hv.
  - destruct (Z.leb_spec 0 e) as [He | He].
    { intros _. rewrite Hv. unfold int_value. rewrite Hv.
      destruct (Z.leb_spec 0 e); [eauto | lia]. }
    set (z := (- (- cond_Zopp s (Z.pos m) / 2 ^ (- e)))%Z).
    destruct (Z.eqb_spec z 0) as [Hz0 | Hz0].
    { intros _. destruct s; cbn; eauto. }
    destruct z as [|p|p] eqn:Ez; [done | |].
    + intros _. by apply Number_of_Z_integral.
    + intros Hlt. exfalso. apply ltb_lt in Hlt. unfold num_lt, fkey in Hlt.
      rewrite Prim2SF_two, Prim2SF_Number_of_Z_neg in Hlt.
      destruct (rounds_shape _ _ (Number_of_Z_rounds (Zpos p) ltac:(lia)))
        as [H | [H | (m' & e' & H)]]; rewrite H in Hlt; cbn in Hlt; lia.
Qed.

Lemma count_integral (q T : float) :
  match Prim2SF (calculatedLayerCount q T) with
  | S754_finite _ _ _ | S754_zero _ => is_Some (int_value (calculatedLayerCount q T))
  | _ => True
  end.
Proof.
  unfold calculatedLayerCount.
  destruct (Math_max_2_cases (Math_ceil (q / T))) as [-> | [-> | [-> Hlt]]].
  - done.
  - rewrite Prim2SF_two. by eexists.
  - by apply Math_ceil_integral.
Qed.

Lemma count_from_tests (q T : float) (n : Z) :
  int_lt (n - 1) (calculatedLayerCount q T) = true →
  int_lt n (calculatedLayerCount q T) = false →
  int_value (calculatedLayerCount q T) = Some n.
Proof.
  pose proof (count_integral q T) as Hint.
  set (count := calculatedLayerCount q T) in *. intros H1 H2.
  assert (is_Some (int_value count)) as [z Hz].
  { unfold int_lt in H1, H2.
    destruct (Prim2SF count) as [s|s| |s m e]; try done. by destruct s. }
  rewrite (int_lt_value _ _ _ Hz) in H1. rewrite (int_lt_value _ _ _ Hz) in H2.
  apply Z.ltb_lt in H1. apply Z.ltb_ge in H2. rewrite Hz. f_equal. lia.
Qed.

(** *** The progress values *)

Lemma leb_of_keys (x y : float) (a b : Z * Z * Z) :
  sf_key (Prim2SF x) = Some a → sf_key (Prim2SF y) = Some b →
  lex_lt a b ∨ a = b → (x <=? y)%float = true.
Proof. intros Ha Hb Hab. apply leb_le. unfold num_le, fkey. by rewrite Ha, Hb. Qed.

Lemma rounds_finite_between (x : R) (f : spec_float) (mc : positive) (ec : Z) :
  rounds x f → (1 <= x)%R →
  valid_binary (S754_finite false mc ec) = true →
  (x <= B2R (S754_finite false mc ec))%R →
  ∃ m e, f = S754_finite false m e.
Proof.
  intros Hr H1 Hv Hx.
  assert (rounds 1 (Prim2SF 1)) as Hone
    by (rewrite Prim2SF_one, <- B2R_one; by apply rounds_of_valid).
  destruct (rounds_mono _ _ _ _ Hone Hr H1) as (a & b & Ha & Hb & Hab).
  destruct (rounds_mono _ _ _ _ Hr (rounds_of_valid mc ec Hv) Hx)
    as (b' & k & Hb' & Hk & Hbk).
  rewrite Hb in Hb'. injection Hb' as <-.
  rewrite Prim2SF_one in Ha. cbn in Ha, Hk. injection Ha as <-. injection Hk as <-.
  destruct (rounds_shape _ _ Hr) as [-> | [-> | Hf]]; [| |done].
  - cbn in Hb. injection Hb as <-. exfalso. destruct Hab as [H|H]; [cbn in H; lia | done].
  - cbn in Hb. injection Hb as <-. exfalso. destruct Hbk as [H|H]; [cbn in H; lia | done].
Qed.

Lemma rounds_at_most_one (x : R) (f : spec_float) :
  rounds x f → (x <= 1)%R →
  f = S754_zero false ∨ ∃ m e, f = S754_finite false m e.
Proof.
  intros Hr H1.
  assert (rounds 1 (Prim2SF 1)) as Hone
    by (rewrite Prim2SF_one, <- B2R_one; by apply rounds_of_valid).
  destruct (rounds_mono _ _ _ _ Hr Hone H1) as (a & b & Ha & Hb & Hab).
  rewrite Prim2SF_one in Hb. cbn in Hb. injection Hb as <-.
  destruct (rounds_shape _ _ Hr) as [-> | [-> | Hf]]; [by left | | by right].
  cbn in Ha. injection Ha as <-. exfalso. destruct Hab as [H|H]; [cbn in H; lia | done].
Qed.

Lemma rounds_le_B2R (x y : R) (m : positive) (e : Z) (m' : positive) (e' : Z) :
  rounds x (S754_finite false m e) → rounds y (S754_finite false m' e') →
  (x <= y)%R →
  (B2R (S754_finite false m e) <= B2R (S754_finite false m' e'))%R.
Proof.
  intros Hx Hy Hxy.
  destruct (rounds_mono _ _ _ _ Hx Hy Hxy) as (a & b & Ha & Hb & Hab).
  cbn in Ha, Hb. injection Ha as <-. injection Hb as <-.
  apply key_le_B2R; [by eapply rounds_valid | by eapply rounds_valid | done].
Qed.

Lemma rounds_key_not_negative (x : R) (f : spec_float) :
  rounds x f → ∃ k, sf_key f = Some k ∧ (lex_lt (0, 0, 0)%Z k ∨ (0, 0, 0)%Z = k).
Proof.
  intros Hr. destruct (rounds_shape _ _ Hr) as [-> | [-> | (m & e & ->)]];
    eexists; (split; [reflexivity|]); [by right | left; cbn; lia ..].
Qed.

Lemma Prim2SF_100 : Prim2SF 100 = S754_finite false 7036874417766400 (-46).
Proof. reflexivity. Qed.

Lemma progress_monotone (count : float) (z a b : Z) :
  int_value count = Some z → (1 ≤ a)%Z → (a ≤ b)%Z → (b ≤ z)%Z →
  (Number_of_Z a / count * 100 <=? Number_of_Z b / count * 100)%float = true.
Proof.
  intros Hcount Ha Hab Hbz.
  destruct (int_value_B2R count z Hcount ltac:(lia)) as (mc & ec & Hc & HBc).
  pose proof (FloatAxioms.Prim2SF_valid count) as Hvc. rewrite Hc in Hvc, HBc.
  pose proof (Number_of_Z_rounds a ltac:(lia)) as HrA.
  pose proof (Number_of_Z_rounds b ltac:(lia)) as HrB.
  assert (1 <= IZR a)%R as Ha1 by (apply IZR_le; lia).
  assert (IZR a <= IZR b)%R as Hab' by (by apply IZR_le).
  assert (IZR b <= IZR z)%R as Hbz' by (by apply IZR_le).
  destruct (rounds_finite_between _ _ mc ec HrA Ha1 Hvc ltac:(lra)) as (ma & ea & HA).
  destruct (rounds_finite_between _ _ mc ec HrB ltac:(lra) Hvc ltac:(lra))
    as (mb & eb & HB).
  rewrite HA in HrA. rewrite HB in HrB.
  pose proof (rounds_le_B2R _ _ _ _ _ _ HrA HrB Hab') as HAB.
  pose proof (rounds_of_valid mc ec Hvc) as Hrc.
  pose proof (rounds_le_B2R _ _ _ _ _ _ HrB Hrc ltac:(lra)) as HBC.
  pose proof (B2R_pos ma ea) as HApos. pose proof (B2R_pos mc ec) as HCpos.
  (* the quotients *)
  pose proof (div_rounds _ _ _ _ _ _ HA Hc) as Hqa.
  pose proof (div_rounds _ _ _ _ _ _ HB Hc) as Hqb.
  rewrite HA, Hc in Hqa. rewrite HB, Hc in Hqb.
  set (C := B2R (S754_finite false mc ec)) in *.
  set (XA := B2R (S754_finite false ma ea)) in *.
  set (XB := B2R (S754_finite false mb eb)) in *.
  assert (0 < / C)%R as Hinv by (by apply Rinv_0_lt_compat).
  assert (XA / C <= XB / C)%R as Hq by (unfold Rdiv; nra).
  assert (XB / C <= 1)%R as Hq1.
  { unfold Rdiv. replace 1%R with (C * / C)%R by (field; lra). nra. }
  assert (0 <= XA / C)%R as Hq0 by (unfold Rdiv; nra).
  destruct (rounds_mono _ _ _ _ Hqa Hqb Hq) as (ka & kb & Hka & Hkb & Hkab).
  pose proof (mul_spec (Number_of_Z a / count) 100) as Hpa.
  pose proof (mul_spec (Number_of_Z b / count) 100) as Hpb.
  destruct (rounds_at_most_one _ _ Hqb Hq1) as [Hzb | (mqb & eqb & Hfb)];
    destruct (rounds_at_most_one _ _ Hqa ltac:(lra)) as [Hza | (mqa & eqa & Hfa)].
  - (* both quotients are zero *)
    rewrite Hza in Hpa. rewrite Hzb in Hpb. rewrite Prim2SF_100 in Hpa, Hpb.
    cbn in Hpa, Hpb.
    eapply leb_of_keys; [by rewrite Hpa | by rewrite Hpb | by right].
  - (* a positive quotient before a zero one: impossible *)
    exfalso. rewrite Hfa in Hka. rewrite Hzb in Hkb. cbn in Hka, Hkb.
    injection Hka as <-. injection Hkb as <-.
    destruct Hkab as [H|H]; [cbn in H; lia | done].
  - (* zero, then positive *)
    rewrite Hza in Hpa. rewrite Prim2SF_100 in Hpa. cbn in Hpa.
    pose proof (mul_rounds _ _ _ _ _ _ Hfb Prim2SF_100) as Hrb.
    destruct (rounds_key_not_negative _ _ Hrb) as (k & Hk & Hk0).
    eapply leb_of_keys; [by rewrite Hpa | exact Hk | exact Hk0].
  - (* both positive *)
    pose proof (mul_rounds _ _ _ _ _ _ Hfa Prim2SF_100) as Hra.
    pose proof (mul_rounds _ _ _ _ _ _ Hfb Prim2SF_100) as Hrb.
    rewrite Hfa in Hqa. rewrite Hfb in Hqb.
    pose proof (rounds_le_B2R _ _ _ _ _ _ Hqa Hqb Hq) as Hqq.
    rewrite <- Hfa, <- Hfb in Hqq.
    pose proof (B2R_pos 7036874417766400 (-46)) as H100.
    rewrite <- Prim2SF_100 in H100.
    destruct (rounds_mono _ _ _ _ Hra Hrb ltac:(nra)) as (pa & pb & Hpa' & Hpb' & Hpab).
    eapply leb_of_keys; [exact Hpa' | exact Hpb' | exact Hpab].
Qed.

Lemma progress_final (count : float) (z : Z) :
  int_value count = Some z → (0 < z)%Z →
  (Number_of_Z z / count * 100)%float = 100%float.
Proof.
  intros Hcount Hz.
  destruct (int_value_B2R count z Hcount Hz) as (mc & ec & Hc & _).
  rewrite (Number_of_Z_int_value count z Hcount Hz), (div_self count mc ec Hc).
  reflexivity.
Qed.

End Progress.

(** ** Rounding of sums, differences and products of either sign *)

Module SignedRounding.
Import Reals Lra JsMath RealValue Rounding Progress FloatOrder FloatFacts Vocabulary.

Lemma rounds_nonneg (x : R) (f : spec_float) : rounds x f → (0 <= x)%R.
Proof.
  intros (c & t & l & (Hin & Ht & _) & _).
  apply inside_bounds in Hin as [Hlo _].
  assert (0 <= IZR t)%R as H0 by (apply IZR_le; lia).
  unfold scaled in Hlo. pose proof (bpow_pos (- c)) as Hp.
  destruct (Rle_or_lt 0 x) as [|Hneg]; [done|]. exfalso. nra.
Qed.

Lemma rounds_0 : rounds 0 (S754_zero false).
Proof.
  exists (-1074)%Z, 0%Z, loc_Exact. split; [|reflexivity].
  split; [|lia]. unfold inside, scaled. cbv zeta. lra.
Qed.

Lemma rounds_unique (x : R) (f g : spec_float) : rounds x f → rounds x g → f = g.
Proof.
  intros (c & t & l & Hc & ->) (c' & t' & l' & Hc' & ->).
  by destruct (canon_unique _ _ _ _ _ _ _ Hc Hc') as (-> & -> & ->).
Qed.

Lemma rounds_zero (f : spec_float) : rounds 0 f → f = S754_zero false.
Proof. intros H. exact (rounds_unique _ _ _ H rounds_0). Qed.

Lemma roundsS_zero (s : bool) : roundsS 0 (S754_zero s).
Proof.
  destruct s; [right | left; apply rounds_0].
  split; [lra|]. exists (S754_zero false). rewrite Ropp_0. split; [apply rounds_0 | done].
Qed.

Lemma sf_key_opp (g : spec_float) : sf_key (SFopp g) = neg_key <$> sf_key g.
Proof.
  destruct g as [s|s| |s m e]; cbn; try done.
  - by destruct s.
  - destruct s; cbn; [|done]. by rewrite Z.opp_involutive.
Qed.

Lemma lex_neg (a b : Z * Z * Z) :
  lex_lt a b ∨ a = b → lex_lt (neg_key b) (neg_key a) ∨ neg_key b = neg_key a.
Proof.
  destruct a as [[a1 a2] a3], b as [[b1 b2] b3]. cbn.
  rewrite !triple_eq. intros H. lia.
Qed.

Lemma roundsS_mono (x y : R) (f g : spec_float) :
  roundsS x f → roundsS y g → (x <= y)%R →
  ∃ a b, sf_key f = Some a ∧ sf_key g = Some b ∧ (lex_lt a b ∨ a = b).
Proof.
  intros [Hf | (Hx & f' & Hf & ->)] [Hg | (Hy & g' & Hg & ->)] Hxy.
  - by eapply rounds_mono.
  - pose proof (rounds_nonneg _ _ Hf) as H0.
    assert (x = 0)%R as -> by lra. assert (y = 0)%R as -> by lra.
    rewrite Ropp_0 in Hg. apply rounds_zero in Hf as ->. apply rounds_zero in Hg as ->.
    exists (0, 0, 0)%Z, (0, 0, 0)%Z. cbn. auto.
  - pose proof (rounds_nonneg _ _ Hg) as H0.
    destruct (rounds_key_not_negative _ _ Hf) as (k & Hk & Hk0).
    destruct (rounds_key_not_negative _ _ Hg) as (k' & Hk' & Hk0').
    exists (neg_key k), k'. rewrite sf_key_opp, Hk. split; [done|]. split; [done|].
    destruct k as [[k1 k2] k3], k' as [[k1' k2'] k3']. cbn in *.
    rewrite !triple_eq in *. lia.
  - assert (- y <= - x)%R as Hle by lra.
    destruct (rounds_mono _ _ _ _ Hg Hf Hle) as (a & b & Ha & Hb & Hab).
    exists (neg_key b), (neg_key a). rewrite !sf_key_opp, Ha, Hb.
    split; [done|]. split; [done|]. by apply lex_neg.
Qed.

Lemma B2R_SFopp (g : spec_float) : B2R (SFopp g) = (- B2R g)%R.
Proof.
  destruct g as [s|s| |s m e]; cbn [SFopp B2R]; try lra.
  destruct s; cbn [negb cond_Zopp]; rewrite ?opp_IZR; ring.
Qed.

Lemma valid_binary_sign (s s' : bool) (m : positive) (e : Z) :
  valid_binary (S754_finite s m e) = valid_binary (S754_finite s' m e).
Proof. reflexivity. Qed.

Lemma roundsS_of_valid (f : spec_float) :
  valid_binary f = true → finiteSF f → roundsS (B2R f) f.
Proof.
  destruct f as [s|s| |s m e]; try done; intros Hv _.
  - apply roundsS_zero.
  - destruct s.
    + right. pose proof (B2R_pos m e) as Hp.
      assert (B2R (S754_finite true m e) = - B2R (S754_finite false m e))%R as ->.
      { change (S754_finite true m e) with (SFopp (S754_finite false m e)).
        apply B2R_SFopp. }
      split; [lra|]. exists (S754_finite false m e). rewrite Ropp_involutive.
      split; [by apply rounds_of_valid | done].
    + left. by apply rounds_of_valid.
Qed.

Lemma binary_round_flip (mx : positive) (ex : Z) :
  binary_round prec emax true mx ex = SFopp (binary_round prec emax false mx ex).
Proof.
  unfold binary_round. destruct (shl_align _ _ _) as [mz ez].
  apply binary_round_aux_flip.
Qed.

Lemma binary_normalize_roundsS (m e : Z) (szero : bool) :
  roundsS (IZR m * bpow e) (binary_normalize prec emax m e szero).
Proof.
  destruct m as [|p|p]; cbn [binary_normalize].
  - rewrite Rmult_0_l. apply roundsS_zero.
  - left. apply binary_round_rounds.
  - right. pose proof (bpow_pos e) as Hp.
    assert (IZR (Zneg p) = - IZR (Zpos p))%R as ->
      by (change (Zneg p) with (- Zpos p)%Z; apply opp_IZR).
    assert (0 < IZR (Zpos p))%R by (apply IZR_lt; lia).
    split; [nra|]. exists (binary_round prec emax false p e).
    split; [|apply binary_round_flip].
    replace (- (- IZR (Zpos p) * bpow e))%R with (IZR (Zpos p) * bpow e)%R by lra.
    apply binary_round_rounds.
Qed.

Lemma aligned_value (s : bool) (m : positive) (e ez : Z) :
  (ez ≤ e)%Z →
  (IZR (cond_Zopp s (Zpos (fst (shl_align m e ez)))) * bpow ez)%R
  = B2R (S754_finite s m e).
Proof.
  intros Hez. destruct (shl_align_spec m e ez) as [Hsnd Hfst].
  rewrite Hsnd, Z.min_r in Hfst by done.
  cbn [B2R].
  assert (IZR (Zpos (fst (shl_align m e ez))) * bpow ez = IZR (Zpos m) * bpow e)%R as H.
  { rewrite Hfst, mult_IZR, <- bpow_IZR by lia.
    rewrite Rmult_assoc, <- bpow_add. do 2 f_equal. lia. }
  destruct s; cbn [cond_Zopp]; [|done].
  rewrite !opp_IZR. lra.
Qed.

Lemma SFadd_roundsS (x y : spec_float) :
  valid_binary x = true → valid_binary y = true → finiteSF x → finiteSF y →
  roundsS (B2R x + B2R y) (SFadd prec emax x y).
Proof.
  intros Hvx Hvy Hx Hy.
  destruct x as [sx|sx| |sx mx ex]; try done;
    destruct y as [sy|sy| |sy my ey]; try done.
  - cbn [B2R SFadd]. rewrite Rplus_0_l.
    destruct sx, sy; apply roundsS_zero.
  - cbn [SFadd]. replace (B2R (S754_zero sx)) with 0%R by done. rewrite Rplus_0_l.
    by apply roundsS_of_valid.
  - cbn [SFadd]. replace (B2R (S754_zero sy)) with 0%R by done. rewrite Rplus_0_r.
    by apply roundsS_of_valid.
  - cbn [SFadd]. cbv zeta.
    rewrite <- (aligned_value sx mx ex (Z.min ex ey)) by lia.
    rewrite <- (aligned_value sy my ey (Z.min ex ey)) by lia.
    rewrite <- Rmult_plus_distr_r, <- plus_IZR.
    apply binary_normalize_roundsS.
Qed.

Lemma SFsub_roundsS (x y : spec_float) :
  valid_binary x = true → valid_binary y = true → finiteSF x → finiteSF y →
  roundsS (B2R x - B2R y) (SFsub prec emax x y).
Proof.
  intros Hvx Hvy Hx Hy.
  destruct x as [sx|sx| |sx mx ex]; try done;
    destruct y as [sy|sy| |sy my ey]; try done.
  - cbn [B2R SFsub]. rewrite Rminus_0_r.
    destruct sx, sy; apply roundsS_zero.
  - cbn [SFsub]. replace (B2R (S754_zero sx)) with 0%R by done.
    replace (0 - B2R (S754_finite sy my ey))%R
      with (B2R (SFopp (S754_finite sy my ey))) by (rewrite B2R_SFopp; lra).
    by apply roundsS_of_valid.
  - cbn [SFsub]. replace (B2R (S754_zero sy)) with 0%R by done. rewrite Rminus_0_r.
    by apply roundsS_of_valid.
  - cbn [SFsub]. cbv zeta.
    rewrite <- (aligned_value sx mx ex (Z.min ex ey)) by lia.
    rewrite <- (aligned_value sy my ey (Z.min ex ey)) by lia.
    rewrite <- Rmult_minus_distr_r, <- minus_IZR.
    apply binary_normalize_roundsS.
Qed.

Lemma SFmul_roundsS (x y : spec_float) :
  valid_binary x = true → valid_binary y = true → finiteSF x → finiteSF y →
  roundsS (B2R x * B2R y) (SFmul prec emax x y).
Proof.
  intros Hvx Hvy Hx Hy.
  destruct x as [sx|sx| |sx mx ex]; try done;
    destruct y as [sy|sy| |sy my ey]; try done;
    try (cbn [B2R SFmul]; rewrite ?Rmult_0_l, ?Rmult_0_r; apply roundsS_zero).
  cbn [SFmul].
  set (a := SF2Prim (S754_finite false mx ex)).
  set (b := SF2Prim (S754_finite false my ey)).
  assert (Prim2SF a = S754_finite false mx ex) as Ha
    by (apply FloatAxioms.Prim2SF_SF2Prim; exact Hvx).
  assert (Prim2SF b = S754_finite false my ey) as Hb
    by (apply FloatAxioms.Prim2SF_SF2Prim; exact Hvy).
  pose proof (mul_rounds a b mx my ex ey Ha Hb) as Hr.
  rewrite FloatAxioms.mul_spec, Ha, Hb in Hr. unfold SF64mul in Hr. cbn [SFmul xorb] in Hr.
  pose proof (B2R_pos mx ex) as Hpx. pose proof (B2R_pos my ey) as Hpy.
  assert (B2R (S754_finite true mx ex) = - B2R (S754_finite false mx ex))%R as Hnx
    by (change (S754_finite true mx ex) with (SFopp (S754_finite false mx ex));
        apply B2R_SFopp).
  assert (B2R (S754_finite true my ey) = - B2R (S754_finite false my ey))%R as Hny
    by (change (S754_finite true my ey) with (SFopp (S754_finite false my ey));
        apply B2R_SFopp).
  destruct sx, sy; cbn [xorb]; rewrite ?Hnx, ?Hny.
  - left. by replace (- B2R (S754_finite false mx ex) * - B2R (S754_finite false my ey))%R
      with (B2R (S754_finite false mx ex) * B2R (S754_finite false my ey))%R by lra.
  - right. split; [nra|]. eexists. split; [|apply binary_round_aux_flip].
    by replace (- (- B2R (S754_finite false mx ex) * B2R (S754_finite false my ey)))%R
      with (B2R (S754_finite false mx ex) * B2R (S754_finite false my ey))%R by lra.
  - right. split; [nra|]. eexists. split; [|apply binary_round_aux_flip].
    by replace (- (B2R (S754_finite false mx ex) * - B2R (S754_finite false my ey)))%R
      with (B2R (S754_finite false mx ex) * B2R (S754_finite false my ey))%R by lra.
  - by left.
Qed.

(** The operations on numbers. *)
Lemma add_roundsS (a b : float) :
  finiteSF (Prim2SF a) → finiteSF (Prim2SF b) →
  roundsS (B2R (Prim2SF a) + B2R (Prim2SF b)) (Prim2SF (a + b)).
Proof.
  intros Ha Hb. rewrite FloatAxioms.add_spec.
  apply SFadd_roundsS; try done; apply FloatAxioms.Prim2SF_valid.
Qed.

Lemma sub_roundsS (a b : float) :
  finiteSF (Prim2SF a) → finiteSF (Prim2SF b) →
  roundsS (B2R (Prim2SF a) - B2R (Prim2SF b)) (Prim2SF (a - b)).
Proof.
  intros Ha Hb. rewrite FloatAxioms.sub_spec.
  apply SFsub_roundsS; try done; apply FloatAxioms.Prim2SF_valid.
Qed.

Lemma mul_roundsS (a b : float) :
  finiteSF (Prim2SF a) → finiteSF (Prim2SF b) →
  roundsS (B2R (Prim2SF a) * B2R (Prim2SF b)) (Prim2SF (a * b)).
Proof.
  intros Ha Hb. rewrite FloatAxioms.mul_spec.
  apply SFmul_roundsS; try done; apply FloatAxioms.Prim2SF_valid.
Qed.

Lemma roundsS_self (a : float) :
  finiteSF (Prim2SF a) → roundsS (B2R (Prim2SF a)) (Prim2SF a).
Proof. intros Ha. apply roundsS_of_valid; [apply FloatAxioms.Prim2SF_valid | done]. Qed.

(** The order of the keys is the order of the values. *)
Lemma key_le_value (x y : spec_float) (a b : Z * Z * Z) :
  valid_binary x = true → valid_binary y = true → finiteSF x → finiteSF y →
  sf_key x = Some a → sf_key y = Some b → lex_lt a b ∨ a = b →
  (B2R x <= B2R y)%R.
Proof.
  intros Hvx Hvy Hx Hy Ha Hb Hab.
  destruct x as [sx|sx| |sx mx ex]; try done;
    destruct y as [sy|sy| |sy my ey]; try done.
  - pose proof (B2R_pos my ey) as Hp.
    destruct sy.
    + exfalso. cbn in Ha, Hb. injection Ha as <-. injection Hb as <-.
      destruct Hab as [H|H]; [cbn in H; lia | done].
    + cbn [B2R] in *. lra.
  - pose proof (B2R_pos mx ex) as Hp.
    destruct sx.
    + change (S754_finite true mx ex) with (SFopp (S754_finite false mx ex)).
      rewrite B2R_SFopp. cbn [B2R] in *. lra.
    + exfalso. cbn in Ha, Hb. injection Ha as <-. injection Hb as <-.
      destruct Hab as [H|H]; [cbn in H; lia | done].
  - pose proof (B2R_pos mx ex) as Hpx. pose proof (B2R_pos my ey) as Hpy.
    cbn in Ha, Hb.
    destruct sx, sy; injection Ha as <-; injection Hb as <-.
    + change (S754_finite true mx ex) with (SFopp (S754_finite false mx ex)).
      change (S754_finite true my ey) with (SFopp (S754_finite false my ey)).
      rewrite !B2R_SFopp.
      assert (B2R (S754_finite false my ey) <= B2R (S754_finite false mx ex))%R; [|lra].
      apply key_le_B2R; [done | done |].
      destruct Hab as [H|H]; [left; cbn in *; lia | right; injection H; intros; f_equal; [f_equal|]; lia].
    + change (S754_finite true mx ex) with (SFopp (S754_finite false mx ex)).
      rewrite B2R_SFopp. lra.
    + exfalso. destruct Hab as [H|H]; [cbn in H; lia | done].
    + by apply key_le_B2R.
Qed.

Lemma leb_value (a b : float) :
  finiteSF (Prim2SF a) → finiteSF (Prim2SF b) → (a <=? b)%float = true →
  (B2R (Prim2SF a) <= B2R (Prim2SF b))%R.
Proof.
  intros Ha Hb Hab. apply leb_le in Hab. unfold num_le, fkey in Hab.
  destruct (sf_key (Prim2SF a)) as [ka|] eqn:Hka; [|done].
  destruct (sf_key (Prim2SF b)) as [kb|] eqn:Hkb; [|done].
  eapply key_le_value; eauto; apply FloatAxioms.Prim2SF_valid.
Qed.

Lemma roundsS_leb (x y : R) (a b : float) :
  roundsS x (Prim2SF a) → roundsS y (Prim2SF b) → (x <= y)%R → (a <=? b)%float = true.
Proof.
  intros Ha Hb Hxy.
  destruct (roundsS_mono _ _ _ _ Ha Hb Hxy) as (ka & kb & Hka & Hkb & Hk).
  by eapply leb_of_keys.
Qed.

(** A number between two finite numbers is finite. *)
Lemma finite_between (lo hi x : float) :
  finiteSF (Prim2SF lo) → finiteSF (Prim2SF hi) →
  (lo <=? x)%float = true → (x <=? hi)%float = true → finiteSF (Prim2SF x).
Proof.
  intros Hlo Hhi H1 H2. apply leb_le in H1, H2. unfold num_le, fkey in *.
  destruct (Prim2SF lo) as [s1|s1| |s1 m1 e1]; try done;
    destruct (Prim2SF hi) as [s2|s2| |s2 m2 e2]; try done;
    destruct (Prim2SF x) as [s|s| |s m e]; try done; exfalso;
    cbn in H1, H2; destruct s; try destruct s1; try destruct s2; cbn in *;
    rewrite ?triple_eq in *; lia.
Qed.

(** *** Interpolation stays between its two ends *)

Lemma lerp_between (s e t : float) :
  finiteSF (Prim2SF (e - s)) →
  (0 <=? t)%float = true → (t <=? 1)%float = true →
  let c := (s + (e - s) * t)%float in
  let far := (s + (e - s))%float in
  ((s <=? c)%float = true ∧ (c <=? far)%float = true)
  ∨ ((far <=? c)%float = true ∧ (c <=? s)%float = true).
Proof.
  intros Hd Ht0 Ht1 c far.
  pose proof Hd as Hse. rewrite FloatAxioms.sub_spec in Hse.
  apply SFsub_finite in Hse as [He Hs].
  assert (finiteSF (Prim2SF 0)) as H0 by done.
  assert (finiteSF (Prim2SF 1)) as H1 by done.
  pose proof (finite_between 0 1 t H0 H1 Ht0 Ht1) as Ht.
  pose proof (leb_value 0 t H0 Ht Ht0) as HT0.
  pose proof (leb_value t 1 Ht H1 Ht1) as HT1.
  change (B2R (Prim2SF 0)) with 0%R in HT0.
  rewrite Prim2SF_one, B2R_one in HT1.
  set (D := B2R (Prim2SF (e - s))) in *.
  set (T := B2R (Prim2SF t)) in *.
  set (S := B2R (Prim2SF s)) in *.
  pose proof (mul_roundsS (e - s) t Hd Ht) as Hm. fold D T in Hm.
  pose proof (roundsS_self (e - s) Hd) as Hdd. fold D in Hdd.
  pose proof (roundsS_zero false) as Hz. change (S754_zero false) with (Prim2SF 0) in Hz.
  pose proof (roundsS_self s Hs) as Hss. fold S in Hss.
  pose proof (add_roundsS s (e - s) Hs Hd) as Hfar. fold S D in Hfar.
  destruct (Rle_or_lt 0 D) as [HD | HD].
  - assert (0 <= D * T <= D)%R as [Hlo Hhi] by nra.
    pose proof (roundsS_leb _ _ _ _ Hz Hm Hlo) as Hk1.
    pose proof (roundsS_leb _ _ _ _ Hm Hdd Hhi) as Hk2.
    pose proof (finite_between 0 (e - s) _ H0 Hd Hk1 Hk2) as Hmf.
    pose proof (leb_value _ _ H0 Hmf Hk1) as HM0.
    pose proof (leb_value _ _ Hmf Hd Hk2) as HM1.
    change (B2R (Prim2SF 0)) with 0%R in HM0. fold D in HM1.
    pose proof (add_roundsS s ((e - s) * t) Hs Hmf) as Hc. fold S in Hc.
    left. split.
    + eapply roundsS_leb; [exact Hss | exact Hc | lra].
    + eapply roundsS_leb; [exact Hc | exact Hfar | lra].
  - assert (D <= D * T <= 0)%R as [Hlo Hhi] by nra.
    pose proof (roundsS_leb _ _ _ _ Hdd Hm Hlo) as Hk1.
    pose proof (roundsS_leb _ _ _ _ Hm Hz Hhi) as Hk2.
    pose proof (finite_between (e - s) 0 _ Hd H0 Hk1 Hk2) as Hmf.
    pose proof (leb_value _ _ Hd Hmf Hk1) as HM0.
    pose proof (leb_value _ _ Hmf H0 Hk2) as HM1.
    change (B2R (Prim2SF 0)) with 0%R in HM1. fold D in HM0.
    pose proof (add_roundsS s ((e - s) * t) Hs Hmf) as Hc. fold S in Hc.
    right. split.
    + eapply roundsS_leb; [exact Hfar | exact Hc | lra].
    + eapply roundsS_leb; [exact Hc | exact Hss | lra].
Qed.

End SignedRounding.

(** ** The loop counter of [sliceModel] *)

Module Counter.
Import Reals Lra JsMath RealValue Rounding Progress FloatOrder FloatFacts Vocabulary
  StlSlicer SignedRounding.

(** An integer below [2^53] is a number. *)
Lemma canon_int (z : Z) :
  (0 < z < 2 ^ 53)%Z →
  canon (IZR z) (Zdigits2 z - 53) (z * 2 ^ (53 - Zdigits2 z)) loc_Exact.
Proof.
  intros Hz. destruct (Zdigits2_bounds z ltac:(lia)) as (Hd & Hlo & Hhi).
  set (d := Zdigits2 z) in *.
  assert (d ≤ 53)%Z as Hd53.
  { destruct (Z.le_gt_cases d 53) as [|Hgt]; [done|].
    assert (2 ^ 53 ≤ 2 ^ (d - 1))%Z by (apply Z.pow_le_mono_r; lia). lia. }
  assert (0 < 2 ^ (53 - d))%Z as Hk by (apply Z.pow_pos_nonneg; lia).
  assert (2 ^ (d - 1) * 2 ^ (53 - d) = 2 ^ 52)%Z as H52
    by (rewrite <- Z.pow_add_r by lia; f_equal; lia).
  assert (2 ^ d * 2 ^ (53 - d) = 2 ^ 53)%Z as H53
    by (rewrite <- Z.pow_add_r by lia; f_equal; lia).
  split; [|split; [nia | split; [left; nia | lia]]].
  unfold inside, scaled. rewrite mult_IZR, <- bpow_IZR by lia.
  do 2 f_equal. lia.
Qed.

Lemma Prim2SF_Number_of_Z (z : Z) :
  (0 < z < 2 ^ 53)%Z →
  Prim2SF (Number_of_Z z)
  = S754_finite false (Z.to_pos (z * 2 ^ (53 - Zdigits2 z))) (Zdigits2 z - 53).
Proof.
  intros Hz. pose proof (canon_int z Hz) as Hc.
  pose proof (Number_of_Z_rounds z ltac:(lia)) as Hr.
  assert (rounds (IZR z)
            (pack (Zdigits2 z - 53)
                  (round_nearest_even (z * 2 ^ (53 - Zdigits2 z)) loc_Exact))) as Hr'
    by (eexists _, _, _; split; [exact Hc | reflexivity]).
  rewrite (rounds_unique _ _ _ Hr Hr'). cbn [round_nearest_even].
  destruct Hc as (_ & Ht & Hn & Hcm).
  destruct (Zdigits2_bounds z ltac:(lia)) as (Hd & Hlo & Hhi).
  assert (Zdigits2 z ≤ 53)%Z as Hd53.
  { destruct (Z.le_gt_cases (Zdigits2 z) 53) as [|Hgt]; [done|].
    assert (2 ^ 53 ≤ 2 ^ (Zdigits2 z - 1))%Z by (apply Z.pow_le_mono_r; lia). lia. }
  unfold pack.
  destruct (Z.eqb_spec (z * 2 ^ (53 - Zdigits2 z)) 0) as [H0|_].
  { assert (0 < 2 ^ (53 - Zdigits2 z))%Z by (apply Z.pow_pos_nonneg; lia). nia. }
  destruct (Z.eqb_spec (z * 2 ^ (53 - Zdigits2 z)) (2 ^ 53)); [lia|].
  destruct (Z.leb_spec (Zdigits2 z - 53) 971); [done | lia].
Qed.

Lemma int_value_Number_of_Z (z : Z) :
  (0 ≤ z ≤ 2 ^ 53)%Z → int_value (Number_of_Z z) = Some z.
Proof.
  intros Hz.
  destruct (Z.eq_dec z 0) as [-> | Hz0]; [reflexivity|].
  destruct (Z.eq_dec z (2 ^ 53)) as [-> | Hz53]; [vm_compute; reflexivity|].
  unfold int_value. rewrite Prim2SF_Number_of_Z by lia.
  destruct (Zdigits2_bounds z ltac:(lia)) as (Hd & Hlo & Hhi).
  assert (Zdigits2 z ≤ 53)%Z as Hd53.
  { destruct (Z.le_gt_cases (Zdigits2 z) 53) as [|Hgt]; [done|].
    assert (2 ^ 53 ≤ 2 ^ (Zdigits2 z - 1))%Z by (apply Z.pow_le_mono_r; lia). lia. }
  assert (0 < 2 ^ (53 - Zdigits2 z))%Z as Hk by (apply Z.pow_pos_nonneg; lia).
  cbn [cond_Zopp]. rewrite Z2Pos.id by nia.
  destruct (Z.leb_spec 0 (Zdigits2 z - 53)) as [He | He].
  - assert (Zdigits2 z = 53)%Z as -> by lia. cbn. f_equal. lia.
  - replace (- (Zdigits2 z - 53))%Z with (53 - Zdigits2 z)%Z by lia.
    rewrite Z.mod_mul by lia. cbn [Z.eqb]. by rewrite Z.div_mul by lia.
Qed.

Lemma Number_of_Z_value (z : Z) :
  (0 ≤ z ≤ 2 ^ 53)%Z →
  finiteSF (Prim2SF (Number_of_Z z)) ∧ B2R (Prim2SF (Number_of_Z z)) = IZR z.
Proof.
  intros Hz. destruct (Z.eq_dec z 0) as [-> | Hz0].
  { split; [done|]. reflexivity. }
  destruct (int_value_B2R (Number_of_Z z) z) as (m & e & Hm & HB);
    [by apply int_value_Number_of_Z | lia |].
  split; [by rewrite Hm | done].
Qed.

(** Adding 1 to a counter below [2^53] is exact. *)
Lemma Number_of_Z_succ (z : Z) :
  (0 ≤ z < 2 ^ 53)%Z → (Number_of_Z z + 1)%float = Number_of_Z (z + 1).
Proof.
  intros Hz. destruct (Number_of_Z_value z ltac:(lia)) as [Hfin Hval].
  assert (finiteSF (Prim2SF 1)) as H1 by done.
  pose proof (add_roundsS (Number_of_Z z) 1 Hfin H1) as Hadd.
  rewrite Hval, Prim2SF_one, B2R_one in Hadd.
  rewrite <- (plus_IZR z 1) in Hadd.
  assert (0 < IZR (z + 1))%R as Hpos by (apply IZR_lt; lia).
  destruct Hadd as [Hadd | [Hneg _]]; [|lra].
  pose proof (Number_of_Z_rounds (z + 1) ltac:(lia)) as Hr.
  apply Prim2SF_inj. exact (rounds_unique _ _ _ Hadd Hr).
Qed.

Lemma increment_below (i : nat) :
  (Z.of_nat i < 2 ^ 53)%Z → increment i = S i.
Proof.
  intros Hi. unfold increment, Number_of_nat.
  rewrite Number_of_Z_succ by lia. rewrite int_value_Number_of_Z by lia. lia.
Qed.

(** At [2^53] the sum rounds back to [2^53]: the counter stalls. *)
Lemma increment_stalls (i : nat) :
  Z.of_nat i = (2 ^ 53)%Z → increment i = i.
Proof.
  intros Hi. unfold increment, Number_of_nat. rewrite Hi.
  assert (int_value (Number_of_Z (2 ^ 53) + 1) = Some (2 ^ 53)%Z) as ->
    by (vm_compute; reflexivity).
  rewrite <- Hi. apply Nat2Z.id.
Qed.

(** [i + 1] in binary64 is the number of the integer [i + 1] for every
    value the counter takes. *)
Lemma counter_plus_one (i : nat) :
  (Z.of_nat i ≤ 2 ^ 53)%Z → (Number_of_nat i + 1)%float = Number_of_nat (i + 1).
Proof.
  intros Hi. unfold Number_of_nat. rewrite Nat2Z.inj_add.
  destruct (Z.eq_dec (Z.of_nat i) (2 ^ 53)) as [-> | Hne]; [reflexivity|].
  apply Number_of_Z_succ. lia.
Qed.

Lemma increment_bounded (i : nat) :
  (Z.of_nat i ≤ 2 ^ 53)%Z → (Z.of_nat (increment i) ≤ 2 ^ 53)%Z.
Proof.
  intros Hi. destruct (Z.eq_dec (Z.of_nat i) (2 ^ 53)) as [He | Hne].
  - by rewrite increment_stalls.
  - rewrite increment_below by lia. lia.
Qed.

End Counter.

(** ** BVHSlicer: the edge test and the vertex-touching dedup *)

Module BVHSlicerProps.
Import JsMath FloatOrder Rounding BVHSlicer Vocabulary SignedRounding.

Lemma fkey_zero : fkey 0 = Some (0, 0, 0)%Z.
Proof. reflexivity. Qed.

Lemma fkey_one : fkey 1 = Some (1, -52, 4503599627370496)%Z.
Proof. reflexivity. Qed.

(** [Math.max(0, Math.min(1, q))] lies in [0, 1] unless it is [NaN]. *)
Lemma clamp_bounds (q : float) :
  let t := Math_max 0 (Math_min 1 q) in
  is_nan t = false → (0 <=? t)%float = true ∧ (t <=? 1)%float = true.
Proof.
  pose proof fkey_zero as K0. pose proof fkey_one as K1.
  unfold Math_max, Math_min.
  replace (is_nan 0) with false by reflexivity.
  replace (is_nan 1) with false by reflexivity.
  replace (get_sign 0) with false by reflexivity.
  replace (get_sign 1) with false by reflexivity.
  cbn [orb].
  destruct (is_nan q) eqn:Hq; [intros [=]|].
  assert (∀ r, r = q ∨ r = 1%float →
            (r <=? 1)%float = true →
            is_nan (if is_nan r then nan
                    else if (0 <? r)%float then r
                    else if (r <? 0)%float then 0%float else 0%float) = false →
            (0 <=? (if is_nan r then nan
                    else if (0 <? r)%float then r
                    else if (r <? 0)%float then 0%float else 0%float))%float = true
            ∧ ((if is_nan r then nan
                else if (0 <? r)%float then r
                else if (r <? 0)%float then 0%float else 0%float) <=? 1)%float = true)
    as Hmax.
  { intros r _ Hr1. destruct (is_nan r) eqn:Hr; [intros [=]|]. intros _.
    destruct (0 <? r)%float eqn:E0.
    - split; [by apply ltb_leb | done].
    - by destruct (r <? 0)%float. }
  destruct (1 <? q)%float eqn:E1.
  - apply Hmax; [by right | done].
  - assert ((q <=? 1)%float = true) as Hq1 by (apply leb_total; done).
    destruct (q <? 1)%float; apply Hmax; auto.
Qed.

Lemma is_nan_abs (x : float) : is_nan (abs x) = is_nan x.
Proof.
  apply eq_true_iff_eq. rewrite !is_nan_key. unfold fkey.
  rewrite abs_spec. by destruct (Prim2SF x).
Qed.

Lemma not_below_eps (d : float) :
  is_nan d = false →
  (Math_abs d <? EDGE_EPS)%float = false ↔ (EDGE_EPS <=? Math_abs d)%float = true.
Proof.
  intros Hd. unfold Math_abs.
  assert (is_nan (abs d) = false) as Ha by (by rewrite is_nan_abs).
  split; intros H.
  - apply leb_total; done.
  - float_order.
Qed.

Lemma straddled_finite (a b position : float) :
  straddles a b position = true →
  finiteSF (Prim2SF a) → finiteSF (Prim2SF b) → finiteSF (Prim2SF position).
Proof.
  unfold straddles. rewrite !FloatAxioms.leb_spec. unfold SFleb.
  destruct (Prim2SF a) as [sa|sa| |sa ma ea], (Prim2SF b) as [sb|sb| |sb mb eb];
    try done;
    destruct (Prim2SF position) as [sp|sp| |sp mp ep]; try done;
    intros H _ _; exfalso; revert H; cbn;
    repeat match goal with s : bool |- _ => destruct s end; cbn; done.
Qed.

Lemma clamped_is_number (a b position : float) :
  straddles a b position = true →
  (Math_abs (b - a) <? EDGE_EPS)%float = false →
  finiteSF (Prim2SF (b - a)) →
  is_nan (clampedT a (b - a) position) = false.
Proof.
  intros Hs Heps Hfin.
  pose proof Hfin as Hab. rewrite FloatAxioms.sub_spec in Hab.
  apply SFsub_finite in Hab as [Hb Ha].
  pose proof (straddled_finite a b position Hs Ha Hb) as Hp.
  assert (∃ s m e, Prim2SF (b - a) = S754_finite s m e) as (s & m & e & Hd).
  { destruct (Prim2SF (b - a)) as [sd|sd| |sd md ed] eqn:Hd; try done; [|eauto].
    exfalso. unfold Math_abs in Heps.
    rewrite FloatAxioms.ltb_spec, FloatAxioms.abs_spec, Hd in Heps. done. }
  assert (is_nan ((position - a) / (b - a)) = false) as Hq.
  { apply is_nan_Prim2SF. rewrite FloatAxioms.div_spec, Hd.
    apply SFdiv_not_nan. rewrite FloatAxioms.sub_spec. by apply SFsub_not_nan. }
  unfold clampedT. apply Math_max_not_nan; [done|].
  by apply Math_min_not_nan.
Qed.

Lemma between_lerp (s e t : float) :
  finiteSF (Prim2SF (e - s)) →
  (0 <=? t)%float = true → (t <=? 1)%float = true →
  between s (s + (e - s)) (s + (e - s) * t) = true.
Proof.
  intros Hd H0 H1. unfold between.
  destruct (lerp_between s e t Hd H0 H1) as [[-> ->] | [-> ->]]; [done|].
  apply orb_true_r.
Qed.

Lemma eqb_leb_r (a b x : float) :
  (a =? b)%float = true → (x <=? a)%float = (x <=? b)%float.
Proof.
  intros Hab. apply eqb_eq in Hab as (k & Ha & Hb).
  apply eq_true_iff_eq. rewrite !leb_le. unfold num_le. by rewrite Ha, Hb.
Qed.

Lemma eqb_leb_l (a b x : float) :
  (a =? b)%float = true → (a <=? x)%float = (b <=? x)%float.
Proof.
  intros Hab. apply eqb_eq in Hab as (k & Ha & Hb).
  apply eq_true_iff_eq. rewrite !leb_le. unfold num_le. by rewrite Ha, Hb.
Qed.

Lemma between_eqb (a b b' x : float) :
  (b =? b')%float = true → between a b x = between a b' x.
Proof.
  intros Hb. unfold between.
  by rewrite (eqb_leb_r b b' x Hb), (eqb_leb_l b b' x Hb).
Qed.

(** A denominator that is [NaN] needs a plane at infinity. *)
Lemma straddled_denominator (a b position : float) :
  straddles a b position = true → finiteSF (Prim2SF position) →
  is_nan (b - a) = false.
Proof.
  intros Hs Hp. apply is_nan_Prim2SF. rewrite FloatAxioms.sub_spec.
  unfold straddles in Hs. rewrite !FloatAxioms.leb_spec in Hs. unfold SFleb in Hs.
  destruct (Prim2SF a) as [sa|sa| |sa ma ea], (Prim2SF b) as [sb|sb| |sb mb eb];
    destruct (Prim2SF position) as [sp|sp| |sp mp ep]; try done;
    try (by apply SFsub_not_nan);
    repeat match goal with s : bool |- _ => destruct s end; cbn in Hs |- *;
    rewrite ?andb_false_r in Hs; done.
Qed.

Lemma finiteSpan_axis (axis : Axis) (u v : Vector3.t) :
  finiteSpan u v → finiteSF (Prim2SF (axisCoord axis v - axisCoord axis u)).
Proof. intros (Hx & Hy & Hz). by destruct axis. Qed.

(** C4. [checkEdge] produces a point exactly when the two endpoint
    coordinates straddle (or touch) the plane and the absolute value of the
    denominator is not below [EDGE_EPS = 1e-12], which for a denominator
    that is a number, as it is for every finite plane position, means at
    least [EDGE_EPS].  The point produced is [start + (end - start) * t] on
    each coordinate, in binary64, at the clamped parameter [t], and [t],
    whenever it is a number, satisfies [0 <= t <= 1]; it is a number
    whenever the denominator is finite.  When no difference of coordinates
    overflows, every coordinate of the point lies between that of [start]
    and [start + (end - start)], the value the interpolation reaches at
    [t = 1]: the point is in the box spanned by the two endpoints whenever
    that value is [end], as it is when the subtractions are exact. *)
Theorem checkEdge_guarded_and_clamped (position : float) (axis : Axis)
    (start end_ : Vector3.t) :
  let a := axisCoord axis start in
  let b := axisCoord axis end_ in
  let denom := (b - a)%float in
  let t := Math_max 0 (Math_min 1 ((position - a) / denom)%float) in
  (is_Some (checkEdge position axis start end_)
   ↔ (((a <=? position)%float && (position <=? b)%float)
      || ((position <=? a)%float && (b <=? position)%float)) = true
     ∧ (Math_abs denom <? EDGE_EPS)%float = false)
  ∧ (is_nan denom = false ∨ finiteSF (Prim2SF position) →
     (is_Some (checkEdge position axis start end_)
      ↔ (((a <=? position)%float && (position <=? b)%float)
         || ((position <=? a)%float && (b <=? position)%float)) = true
        ∧ (EDGE_EPS <=? Math_abs denom)%float = true))
  ∧ (∀ p, checkEdge position axis start end_ = Some p →
       p = Vector3.mk
             (Vector3.x start + (Vector3.x end_ - Vector3.x start) * t)
             (Vector3.y start + (Vector3.y end_ - Vector3.y start) * t)
             (Vector3.z start + (Vector3.z end_ - Vector3.z start) * t)
       ∧ (is_nan t = false → (0 <=? t)%float = true ∧ (t <=? 1)%float = true)
       ∧ (finiteSF (Prim2SF denom) →
          (0 <=? t)%float = true ∧ (t <=? 1)%float = true)
       ∧ (finiteSpan start end_ →
          withinBox start (lerpEnd start end_) p = true
          ∧ (reachesEnd start end_ = true → withinBox start end_ p = true))).
Proof.
  intros a b denom t.
  assert (is_Some (checkEdge position axis start end_)
          ↔ straddles a b position = true
            ∧ (Math_abs denom <? EDGE_EPS)%float = false) as Hiff.
  { unfold checkEdge. fold a b. fold denom.
    destruct (straddles a b position); [|split; [intros [? [=]] | intros [[=] _]]].
    destruct (Math_abs denom <? EDGE_EPS)%float;
      [split; [intros [? [=]] | intros [_ [=]]] | split; eauto]. }
  split; [exact Hiff|]. split.
  - intros Hd. rewrite Hiff. fold (straddles a b position).
    destruct (straddles a b position) eqn:Hs; [|split; intros [[=] _]].
    assert (is_nan denom = false) as Hnan
      by (destruct Hd as [Hd | Hp]; [done | by apply (straddled_denominator a b position)]).
    by rewrite (not_below_eps denom Hnan).
  - intros p Hp. unfold checkEdge in Hp. fold a b in Hp. fold denom in Hp.
    destruct (straddles a b position) eqn:Hs; [|discriminate].
    destruct (Math_abs denom <? EDGE_EPS)%float eqn:Heps; [discriminate|].
    injection Hp as <-. fold (clampedT a denom position). fold t.
    change (clampedT a denom position) with t.
    split; [reflexivity|]. split; [apply clamp_bounds|].
    assert (finiteSF (Prim2SF denom) →
            (0 <=? t)%float = true ∧ (t <=? 1)%float = true) as Hclamp.
    { intros Hfin. apply clamp_bounds. by apply clamped_is_number. }
    split; [exact Hclamp|].
    intros Hspan.
    destruct (Hclamp (finiteSpan_axis axis start end_ Hspan)) as [H0 H1].
    destruct Hspan as (Hx & Hy & Hz).
    pose proof (between_lerp _ _ t Hx H0 H1) as Bx.
    pose proof (between_lerp _ _ t Hy H0 H1) as By.
    pose proof (between_lerp _ _ t Hz H0 H1) as Bz.
    split.
    + unfold withinBox, lerpEnd, Vector3.lerpVectors. cbn [Vector3.x Vector3.y Vector3.z].
      by rewrite Bx, By, Bz.
    + unfold reachesEnd, lerpEnd. cbn [Vector3.x Vector3.y Vector3.z].
      intros Hreach. apply andb_true_iff in Hreach as [Hreach Ez].
      apply andb_true_iff in Hreach as [Ex Ey].
      unfold withinBox, Vector3.lerpVectors. cbn [Vector3.x Vector3.y Vector3.z].
      rewrite <- (between_eqb _ _ _ _ Ex), <- (between_eqb _ _ _ _ Ey),
        <- (between_eqb _ _ _ _ Ez).
      by rewrite Bx, By, Bz.
Qed.

(** An emitted point need not lie on the edge, and a denominator need not
    be at least [1e-12] for a point to be emitted.  An edge from
    (2^126, 0, -1) to (2^66, 0, 0) met by the plane z = 0 yields the point
    (0, 0, 0), whose x lies outside the edge, since the difference of the
    two x coordinates rounds to -2^126.  And with both ends and the plane
    at infinity the denominator is [NaN], which is not at least [1e-12],
    yet a point is produced. *)
Lemma checkEdge_leaves_the_edge :
  (checkEdge 0 AxisZ (Vector3.mk 0x1p+126 0 (-1)) (Vector3.mk 0x1p+66 0 0)
   = Some (Vector3.mk 0 0 0)
   ∧ withinBox (Vector3.mk 0x1p+126 0 (-1)) (Vector3.mk 0x1p+66 0 0)
               (Vector3.mk 0 0 0) = false)
  ∧ (checkEdge infinity AxisZ (Vector3.mk 0 0 infinity) (Vector3.mk 1 0 infinity)
     = Some (Vector3.mk nan nan nan)
     ∧ (EDGE_EPS <=? Math_abs (infinity - infinity))%float = false).
Proof. vm_compute. done. Qed.

Lemma checkEdge_guarded_and_clamped_witness :
  checkEdge 25 AxisZ (Vector3.mk 100 0 0) (Vector3.mk 100 0 100)
  = Some (Vector3.mk 100 0 25)
  ∧ finiteSpan (Vector3.mk 100 0 0) (Vector3.mk 100 0 100)
  ∧ reachesEnd (Vector3.mk 100 0 0) (Vector3.mk 100 0 100) = true
  ∧ withinBox (Vector3.mk 100 0 0) (Vector3.mk 100 0 100) (Vector3.mk 100 0 25) = true.
Proof.
  assert (finiteSpan (Vector3.mk 100 0 0) (Vector3.mk 100 0 100)) as Hspan
    by (repeat split).
  split; [reflexivity|]. split; [exact Hspan|]. split; [reflexivity|].
  destruct (checkEdge_guarded_and_clamped 25 AxisZ (Vector3.mk 100 0 0)
              (Vector3.mk 100 0 100)) as (_ & _ & Hpoint).
  destruct (Hpoint (Vector3.mk 100 0 25) eq_refl) as (_ & _ & _ & Hbox).
  apply (Hbox Hspan). reflexivity.
Defined.

(** *** The dedup of three raw points *)

Lemma dedupStep_spec (kept : list Vector3.t) (p : Vector3.t) :
  (dedupStep kept p = kept
   ∧ ∃ e, e ∈ kept ∧ (Vector3.distanceTo p e <? EDGE_EPS)%float = true)
  ∨ (dedupStep kept p = kept ++ [p]
     ∧ ∀ e, e ∈ kept → (Vector3.distanceTo p e <? EDGE_EPS)%float = false).
Proof.
  unfold dedupStep.
  destruct (existsb _ kept) eqn:E.
  - left. split; [done|]. apply existsb_exists in E as (e & He & Hd).
    exists e. by rewrite list_elem_of_In.
  - right. split; [done|]. intros e He.
    apply not_true_iff_false. intros Hd. apply not_true_iff_false in E.
    apply E, existsb_exists. exists e. by rewrite <- list_elem_of_In.
Qed.

Lemma separated_snoc (kept : list Vector3.t) (p : Vector3.t) :
  separated kept →
  (∀ e, e ∈ kept → (Vector3.distanceTo p e <? EDGE_EPS)%float = false) →
  separated (kept ++ [p]).
Proof.
  intros Hs Hp i j a b Hij Ha Hb.
  apply lookup_app_Some in Hb as [Hb | [Hlen Hb]].
  - apply lookup_app_Some in Ha as [Ha | [Hlen _]].
    + by apply (Hs i j).
    + apply lookup_lt_Some in Hb. lia.
  - apply list_lookup_singleton_Some in Hb as [Hj <-].
    apply lookup_app_Some in Ha as [Ha | [Hlen' _]]; [|lia].
    apply Hp. by eapply list_elem_of_lookup_2.
Qed.

Lemma dedup_fold (rest seen kept : list Vector3.t) :
  separated kept → kept ⊆ seen → covered seen kept → kept ≠ [] →
  let result := foldl dedupStep kept rest in
  separated result ∧ result ⊆ seen ++ rest ∧ covered (seen ++ rest) result
  ∧ head result = head kept.
Proof.
  revert seen kept. induction rest as [|p rest IH]; intros seen kept Hs Hsub Hc Hne.
  - simpl. rewrite app_nil_r. done.
  - simpl. replace (seen ++ p :: rest) with ((seen ++ [p]) ++ rest)
      by (by rewrite <- app_assoc).
    destruct (dedupStep_spec kept p) as [[-> (e & He & Hd)] | [-> Hfar]].
    + apply IH; auto.
      * intros x Hx. apply elem_of_app. left. by apply Hsub.
      * intros x Hx. apply elem_of_app in Hx as [Hx | Hx]; [by apply Hc|].
        apply list_elem_of_singleton in Hx as ->. right. eauto.
    + replace (head kept) with (head (kept ++ [p])) by (by destruct kept).
      apply IH.
      * by apply separated_snoc.
      * intros x Hx. apply elem_of_app in Hx as [Hx | Hx]; apply elem_of_app; auto.
      * intros x Hx. apply elem_of_app in Hx as [Hx | Hx].
        -- destruct (Hc x Hx) as [Hk | (e & He & Hd)].
           ++ left. apply elem_of_app; auto.
           ++ right. exists e. split; [apply elem_of_app; auto | done].
        -- left. apply elem_of_app; auto.
      * by destruct kept.
Qed.

Lemma dedupPoints_spec (raw : list Vector3.t) :
  separated (dedupPoints raw) ∧ dedupPoints raw ⊆ raw
  ∧ covered raw (dedupPoints raw) ∧ head (dedupPoints raw) = head raw.
Proof.
  destruct raw as [|p0 rest]; simpl.
  - split; [|split; [done|split; [|done]]].
    + intros i j p q _ Hp. by rewrite lookup_nil in Hp.
    + intros p Hp. by apply not_elem_of_nil in Hp.
  - change (head (p0 :: rest)) with (head [p0]).
    change (p0 :: rest) with ([p0] ++ rest). apply dedup_fold; try done.
    + intros i j p q Hij Hp Hq. apply list_lookup_singleton_Some in Hp as [-> _].
      apply list_lookup_singleton_Some in Hq as [-> _]. lia.
    + intros p Hp. by left.
Qed.

(** C3 (as amended).  When a triangle yields three raw intersection points
    they are deduplicated pairwise with [EDGE_EPS]: the first point is kept,
    every kept point is a raw point, no kept point is within [EDGE_EPS] of an
    earlier kept one, and every raw point is kept or within [EDGE_EPS] of a
    kept one.  If exactly two points are left they are emitted as the
    segment; if a single point is left the triangle contributes nothing. *)
Theorem vertex_touching_dedup (position : float) (axis : Axis) (tri : Triangle) :
  length (rawIntersections position axis tri) = 3 →
  let raw := rawIntersections position axis tri in
  let deduped := dedupPoints raw in
  (length deduped = 2 → intersectsTriangle position axis tri = Some deduped)
  ∧ (length deduped = 1 → intersectsTriangle position axis tri = None)
  ∧ separated deduped ∧ deduped ⊆ raw ∧ covered raw deduped
  ∧ head deduped = head raw.
Proof.
  intros Hraw. cbv zeta.
  split; [|split; [|apply dedupPoints_spec]].
  - intros Hd. unfold intersectsTriangle. rewrite Hraw. cbn [Nat.eqb].
    by rewrite Hd.
  - intros Hd. unfold intersectsTriangle. rewrite Hraw. cbn [Nat.eqb].
    by rewrite Hd.
Qed.

(** The theorem at the triangle [touching]: three raw points, two of them
    the touched vertex, and the segment from that vertex to the crossing of
    the far edge is emitted. *)
Lemma vertex_touching_dedup_witness :
  length (rawIntersections 0 AxisZ Examples.touching) = 3
  ∧ intersectsTriangle 0 AxisZ Examples.touching
    = Some [Vector3.mk 0 0 0; Vector3.mk 0.5 0.5 0].
Proof.
  split; [reflexivity|].
  destruct (vertex_touching_dedup 0 AxisZ Examples.touching eq_refl) as [H _].
  exact (H eq_refl).
Defined.

(** C3 (as stated) fails: the sliver [needle], whose coordinates are
    single-precision values, yields three raw intersection points, all
    within [EDGE_EPS] of the touched vertex; a single point is left and no
    segment is emitted for the triangle. *)
Lemma needle_yields_no_segment :
  forallb Examples.single_precision
          (Examples.coordinates (Examples.corners Examples.needle)) = true
  ∧ length (rawIntersections 0 AxisZ Examples.needle) = 3
  ∧ dedupPoints (rawIntersections 0 AxisZ Examples.needle) = [Vector3.mk 0 0 0]
  ∧ intersectsTriangle 0 AxisZ Examples.needle = None.
Proof. repeat split; reflexivity. Qed.

(** At a large scale the two copies of the touched vertex differ by
    rounding in [lerpVectors]: the edge that ends at the vertex is
    interpolated at [t = 1] as [100000 + (2^-38 - 100000) * 1], which is 0
    and not [2^-38].  The two copies are 3.6e-12 apart, the dedup keeps all
    three points, and the triangle is dropped although it meets the plane
    along 75 000 units. *)
Example far_reaching_dropped :
  forallb Examples.single_precision
          (Examples.coordinates (Examples.corners Examples.far_reaching)) = true
  ∧ rawIntersections 0 AxisZ Examples.far_reaching
    = [Vector3.mk 3.637978807091713e-12 0 0; Vector3.mk 75000 3 0; Vector3.mk 0 0 0]
  ∧ length (dedupPoints (rawIntersections 0 AxisZ Examples.far_reaching)) = 3
  ∧ intersectsTriangle 0 AxisZ Examples.far_reaching = None.
Proof. repeat split; reflexivity. Qed.

End BVHSlicerProps.

(** ** Loops: invariants and termination *)

Section Loops.
Context {S : Type}.

(** A loop that stops establishes, at its exit, whatever its breaking
    iterations establish from an invariant. *)
Lemma while_loop_inv (P Q : S → Prop) (body : S → LoopStep S) (fuel : nat) (s r : S) :
  P s →
  (∀ s s', P s → body s = Continue s' → P s') →
  (∀ s s', P s → body s = Break s' → Q s') →
  while_loop fuel body s = Some r → Q r.
Proof.
  intros Hs Hcont Hbreak. revert s Hs.
  induction fuel as [|fuel IH]; intros s Hs Hr; [discriminate|].
  simpl in Hr. destruct (body s) as [s'|s'] eqn:Hb.
  - eapply IH; [|exact Hr]. eauto.
  - injection Hr as <-. eauto.
Qed.

(** A loop whose continuing iterations decrease a measure stops within as
    many iterations as the measure allows. *)
Lemma while_loop_terminates (P : S → Prop) (mu : S → nat) (body : S → LoopStep S)
    (fuel : nat) (s : S) :
  P s →
  (∀ s s', P s → body s = Continue s' → P s' ∧ mu s' < mu s) →
  mu s < fuel →
  is_Some (while_loop fuel body s).
Proof.
  intros Hs Hstep. revert s Hs.
  induction fuel as [|fuel IH]; intros s Hs Hmu; [lia|].
  simpl. destruct (body s) as [s'|s'] eqn:Hb; [|eauto].
  destruct (Hstep s s' Hs Hb) as [Hs' Hlt]. apply IH; [done | lia].
Qed.

End Loops.

Section ForEach.
Context {S A : Type}.

Lemma for_each_inv (P : S → Prop) (body : A → S → option S) (items : list A) (s r : S) :
  P s →
  (∀ a s s', a ∈ items → P s → body a s = Some s' → P s') →
  for_each body items s = Some r → P r.
Proof.
  revert s. induction items as [|a items IH]; intros s Hs Hbody Hr.
  - by injection Hr as <-.
  - simpl in Hr. destruct (body a s) as [s'|] eqn:Hb; [|discriminate]. simpl in Hr.
    eapply IH; [|  |exact Hr].
    + eapply Hbody; [left | exact Hs | exact Hb].
    + intros a' s1 s2 Ha'. apply Hbody. by right.
Qed.

Lemma for_each_total (P : S → Prop) (body : A → S → option S) (items : list A) (s : S) :
  P s →
  (∀ a s, a ∈ items → P s → ∃ s', body a s = Some s' ∧ P s') →
  is_Some (for_each body items s).
Proof.
  revert s. induction items as [|a items IH]; intros s Hs Hbody; [by eexists|].
  simpl. destruct (Hbody a s) as (s' & -> & Hs'); [left | done |]. simpl.
  apply IH; [done|]. intros a' s1 Ha'. apply Hbody. by right.
Qed.

End ForEach.

(** A duplicate-free list of indices below [n] has at most [n] entries. *)
Lemma NoDup_bounded_length (l : list nat) (n : nat) :
  NoDup l → Forall (λ i, i < n) l → length l ≤ n.
Proof.
  intros Hnd Hlt.
  transitivity (length (seq 0 n)); [|by rewrite length_seq].
  apply submseteq_length, NoDup_submseteq; [done|].
  intros i Hi. apply elem_of_seq. rewrite Forall_forall in Hlt. 
  specialize (Hlt i Hi). lia.
Qed.

(** ** StlSlicer: the loops of [buildPaths] stop *)

Module Termination.
Import JsMath FloatOrder StlSlicer Vocabulary.

Section WithAtan2.
Variable Math_atan2 : float → float → float.

(** *** First pass *)

Lemma traceStep_continue (nSegments startIdx : nat) (t t' : Trace) :
  traceStep Math_atan2 nSegments startIdx t = Continue t' →
  length (tr_path t') = Datatypes.S (length (tr_path t))
  ∧ length (tr_path t') ≤ nSegments * 2.
Proof.
  unfold traceStep.
  destruct (chooseBestConnection _ _ _ _ _) as [nextIdx|]; [|discriminate].
  destruct (nextIdx =? startIdx)%nat; [discriminate|]. cbn [tr_path].
  destruct (nSegments * 2 <? _)%nat eqn:E; [discriminate|].
  intros [= <-]. cbn [tr_path]. rewrite length_app in *. simpl in *.
  apply Nat.ltb_ge in E. lia.
Qed.

Lemma trace_loop_stops (nSegments startIdx : nat) (t : Trace) :
  length (tr_path t) = 1 →
  is_Some (while_loop (nSegments * 2 + 1)
                      (traceStep Math_atan2 nSegments startIdx) t).
Proof.
  intros Hlen.
  apply (while_loop_terminates (λ _, True)
           (λ t, nSegments * 2 + 1 - length (tr_path t))); [done | | lia].
  intros s s' _ Hstep. apply traceStep_continue in Hstep. split; [done | lia].
Qed.

Lemma traceFrom_total (tol minLen : float) (nSegments startIdx : nat)
    (st : list Node * list Path) :
  is_Some (traceFrom Math_atan2 tol minLen nSegments startIdx st).
Proof.
  unfold traceFrom. destruct st as [nodes acc].
  destruct (used _); [by eexists|].
  destruct (2 <? _)%nat; [by eexists|].
  destruct (trace_loop_stops nSegments startIdx
    {| tr_nodes := alter (setUsed true) startIdx nodes;
       tr_path := [Vector2.clone (position (nodeAt nodes startIdx))];
       tr_indices := [startIdx]; tr_current := startIdx; tr_prev := None;
       tr_complete := false; tr_length := 0 |} eq_refl) as [t ->].
  by eexists.
Qed.

Lemma findContours_total (tol minLen : float) (nSegments : nat)
    (st : list Node * list Path) :
  is_Some (findContours Math_atan2 tol minLen nSegments st).
Proof.
  unfold findContours. apply (for_each_total (λ _, True)); [done|].
  intros a s _ _. destruct (traceFrom_total tol minLen nSegments a s) as [s' ->].
  eauto.
Qed.

End WithAtan2.

(** *** Second pass *)

Lemma nodeAt_unused_lt (nodes : list Node) (i : nat) :
  used (nodeAt nodes i) = false → i < length nodes.
Proof.
  unfold nodeAt. destruct (nodes !! i) eqn:E; [|discriminate].
  intros _. by eapply lookup_lt_Some.
Qed.

Lemma bestNext_fold (nodes : list Node) (visited conns : list nat)
    (best : option nat * option nat) (nx : nat) :
  (∀ b, fst best = Some b → (b ∉ visited) ∧ used (nodeAt nodes b) = false) →
  fst (foldl (bestNextStep nodes visited) best conns) = Some nx →
  (nx ∉ visited) ∧ used (nodeAt nodes nx) = false.
Proof.
  revert best. induction conns as [|c conns IH]; intros best Hbest; [apply Hbest|].
  simpl. apply IH. unfold bestNextStep.
  case_bool_decide as Hv; [done|].
  destruct (used (nodeAt nodes c)) eqn:Hu; [done|].
  destruct (snd best) as [bestScore|].
  - destruct (_ <? bestScore)%nat; [|done]. by intros b [= <-].
  - by intros b [= <-].
Qed.

Lemma findBestNextNode_Some (nodes : list Node) (cur : nat) (visited : list nat) (nx : nat) :
  findBestNextNode nodes cur visited = Some nx →
  (nx ∉ visited) ∧ nx < length nodes.
Proof.
  intros H. apply bestNext_fold in H as [Hv Hu]; [|intros b [=]].
  split; [done | by apply nodeAt_unused_lt].
Qed.

Lemma extendStep_continue (nodes : list Node) (forward : bool) (e e' : Extension) :
  extendStep nodes forward e = Continue e' →
  ∃ nx, ex_visited e' = ex_visited e ++ [nx] ∧ (nx ∉ ex_visited e) ∧ nx < length nodes.
Proof.
  unfold extendStep.
  destruct (findBestNextNode _ _ _) as [nx|] eqn:E; [|discriminate].
  intros [= <-]. exists nx. split; [done|]. by apply findBestNextNode_Some in E.
Qed.

Lemma extend_loop_stops (nodes : list Node) (forward : bool) (e : Extension) (i : nat) :
  ex_visited e = [i] → i < length nodes →
  is_Some (while_loop (Datatypes.S (length nodes)) (extendStep nodes forward) e).
Proof.
  intros Hv Hi.
  apply (while_loop_terminates
           (λ e, NoDup (ex_visited e) ∧ Forall (λ i, i < length nodes) (ex_visited e))
           (λ e, length nodes - length (ex_visited e))).
  - rewrite Hv. split; [apply NoDup_singleton | by apply Forall_singleton].
  - intros s s' [Hnd Hlt] Hstep.
    apply extendStep_continue in Hstep as (nx & Hv' & Hnx & Hlen).
    assert (NoDup (ex_visited s') ∧ Forall (λ i, i < length nodes) (ex_visited s'))
      as [Hnd' Hlt'].
    { rewrite Hv'. split.
      - apply NoDup_app. split; [done|]. split; [|apply NoDup_singleton].
        intros x Hx Hx'. apply list_elem_of_singleton in Hx' as ->. done.
      - apply Forall_app. split; [done | by apply Forall_singleton]. }
    split; [done|].
    pose proof (NoDup_bounded_length _ _ Hnd' Hlt') as Hle.
    rewrite Hv', length_app in *. simpl in *. lia.
  - rewrite Hv. simpl. lia.
Qed.

Lemma extendFrom_total (tol minLen : float) (g : Graph) (i : nat)
    (st : list Node * list Path) :
  is_Some (extendFrom tol minLen g i st).
Proof.
  unfold extendFrom. destruct st as [nodes acc].
  destruct (used (nodeAt nodes i)) eqn:Hu; [by eexists|].
  apply nodeAt_unused_lt in Hu.
  destruct (extend_loop_stops nodes true
    {| ex_visited := [i]; ex_path := [Vector2.clone (position (nodeAt nodes i))];
       ex_idx := i; ex_length := 0 |} i eq_refl Hu) as [fwd ->].
  cbn [mbind option_bind].
  destruct (extend_loop_stops nodes false
    {| ex_visited := [i]; ex_path := []; ex_idx := i; ex_length := ex_length fwd |}
    i eq_refl Hu) as [bwd ->]. cbn [mbind option_bind].
  by eexists.
Qed.

Lemma handleRemainingSegments_total (tol minLen : float) (g : Graph)
    (st : list Node * list Path) :
  is_Some (handleRemainingSegments tol minLen g st).
Proof.
  unfold handleRemainingSegments.
  destruct (_ =? 0)%nat; [by eexists|].
  apply (for_each_total (λ _, True)); [done|].
  intros a s _ _. destruct (extendFrom_total tol minLen g a s) as [s' ->]. eauto.
Qed.

(** *** Fallback *)

Lemma closest_fold (radius : float) (segments : list Segment) (point : Vector2.t)
    (excludeSet : list nat) (entries : list (nat * Segment))
    (best : option ClosestMatch * float) :
  (∀ i seg, (i, seg) ∈ entries → segments !! i = Some seg) →
  (snd best = radius ∨ (snd best <? radius)%float = true) →
  (∀ m, fst best = Some m → closeMatch radius segments point excludeSet m) →
  ∀ m, fst (foldl (closestSegStep point excludeSet) best entries) = Some m →
       closeMatch radius segments point excludeSet m.
Proof.
  revert best. induction entries as [|[i seg] entries IH]; intros best Hent Hd Hbest;
    [exact Hbest|].
  simpl. 
  assert (segments !! i = Some seg) as Hseg by (apply Hent; left).
  assert (∀ i' seg', (i', seg') ∈ entries → segments !! i' = Some seg') as Hent'
    by (intros; apply Hent; by right).
  case_bool_decide as Hex; [by apply IH|].
  assert (∀ (b : option ClosestMatch * float) (e : bool),
            (snd b = radius ∨ (snd b <? radius)%float = true) →
            (∀ m, fst b = Some m → closeMatch radius segments point excludeSet m) →
            (snd (closestEndStep point i seg b e) = radius
             ∨ (snd (closestEndStep point i seg b e) <? radius)%float = true)
            ∧ (∀ m, fst (closestEndStep point i seg b e) = Some m →
                    closeMatch radius segments point excludeSet m)) as Hstep.
  { intros b e Hb Hm. unfold closestEndStep.
    destruct (_ <? snd b)%float eqn:E; [|done].
    assert ((Vector2.distanceTo point (segmentEnd seg e) <? radius)%float = true) as Hr.
    { destruct Hb as [<- | Hb]; [done | by eapply ltb_trans]. }
    split; [by right|]. intros m [= <-]. split; [done|]. eauto. }
  simpl.
  destruct (Hstep best false Hd Hbest) as [Hd1 Hb1].
  destruct (Hstep _ true Hd1 Hb1) as [Hd2 Hb2].
  by apply IH.
Qed.

Lemma findClosestSegment_Some (radius : float) (segments : list Segment)
    (point : Vector2.t) (excludeSet : list nat) (m : ClosestMatch) :
  findClosestSegment radius segments point excludeSet = Some m →
  closeMatch radius segments point excludeSet m.
Proof.
  unfold findClosestSegment. apply closest_fold.
  - intros i seg Hin. apply elem_of_lookup_imap in Hin as (i' & seg' & [= -> ->] & H).
    done.
  - by left.
  - intros m' [=].
Qed.

Lemma chainStep_continue (radius : float) (segments : list Segment) (atTail : bool)
    (c c' : Chain) :
  chainStep radius segments atTail c = Continue c' →
  ∃ anchor m seg,
    (if atTail then last (ch_path c) else head (ch_path c)) = Some anchor
    ∧ closeMatch radius segments anchor (ch_used c) m
    ∧ segments !! segIdx m = Some seg
    ∧ ch_used c' = ch_used c ++ [segIdx m]
    ∧ ch_path c' = (if atTail
                    then ch_path c ++ [segmentEnd seg (negb (endIdx m))]
                    else segmentEnd seg (negb (endIdx m)) :: ch_path c).
Proof.
  unfold chainStep.
  destruct (if atTail then _ else _) as [anchor|]; [|discriminate].
  destruct (findClosestSegment _ _ _ _) as [m|] eqn:E; [|discriminate].
  destruct (segments !! segIdx m) as [seg|] eqn:Hs; [|discriminate].
  intros [= <-]. exists anchor, m, seg. cbn [ch_used ch_path].
  apply findClosestSegment_Some in E. done.
Qed.

Lemma usedOk_snoc (n i : nat) (usedSegments : list nat) :
  usedOk n usedSegments → i ∉ usedSegments → i < n → usedOk n (usedSegments ++ [i]).
Proof.
  intros [Hnd Hlt] Hi Hn. split.
  - apply NoDup_app. split; [done|]. split; [|apply NoDup_singleton].
    intros x Hx Hx'. apply list_elem_of_singleton in Hx' as ->. done.
  - apply Forall_app. split; [done | by apply Forall_singleton].
Qed.

Lemma chainStep_usedOk (radius : float) (segments : list Segment) (atTail : bool)
    (c c' : Chain) :
  usedOk (length segments) (ch_used c) →
  chainStep radius segments atTail c = Continue c' →
  usedOk (length segments) (ch_used c').
Proof.
  intros Hok Hstep.
  apply chainStep_continue in Hstep as (anchor & m & seg & _ & [Hm _] & Hs & -> & _).
  apply usedOk_snoc; [done | done | by eapply lookup_lt_Some].
Qed.

Lemma chainStep_break_used (radius : float) (segments : list Segment) (atTail : bool)
    (c c' : Chain) :
  chainStep radius segments atTail c = Break c' → c' = c.
Proof.
  unfold chainStep.
  destruct (if atTail then _ else _) as [anchor|]; [|by intros [= <-]].
  destruct (findClosestSegment _ _ _ _) as [m|]; [|by intros [= <-]].
  destruct (segments !! segIdx m); [discriminate | by intros [= <-]].
Qed.

Lemma chain_loop_stops (radius : float) (segments : list Segment) (atTail : bool)
    (c : Chain) :
  usedOk (length segments) (ch_used c) → ch_used c ≠ [] →
  is_Some (while_loop (Datatypes.S (length segments))
                      (chainStep radius segments atTail) c).
Proof.
  intros Hok Hne.
  apply (while_loop_terminates
           (λ c, usedOk (length segments) (ch_used c))
           (λ c, length segments - length (ch_used c))); [done| |].
  - intros s s' Hs Hstep.
    pose proof (chainStep_usedOk _ _ _ _ _ Hs Hstep) as Hs'. split; [done|].
    destruct Hs' as [Hnd' Hlt'].
    pose proof (NoDup_bounded_length _ _ Hnd' Hlt') as Hle.
    apply chainStep_continue in Hstep as (_ & m & _ & _ & _ & _ & Hu & _).
    rewrite Hu, length_app in *. simpl in *. lia.
  - destruct (ch_used c); [done|]. simpl. lia.
Qed.

Lemma chain_loop_usedOk (radius : float) (segments : list Segment) (atTail : bool)
    (fuel : nat) (c r : Chain) :
  usedOk (length segments) (ch_used c) →
  while_loop fuel (chainStep radius segments atTail) c = Some r →
  usedOk (length segments) (ch_used r).
Proof.
  intros Hok.
  apply (while_loop_inv (λ c, usedOk (length segments) (ch_used c))
                        (λ c, usedOk (length segments) (ch_used c))); [done| |].
  - intros s s' Hs Hstep. by eapply chainStep_usedOk.
  - intros s s' Hs Hstep. by apply chainStep_break_used in Hstep as ->.
Qed.

Lemma chain_loop_grows (radius : float) (segments : list Segment) (atTail : bool)
    (fuel : nat) (c r : Chain) :
  ch_used c ≠ [] →
  while_loop fuel (chainStep radius segments atTail) c = Some r →
  ch_used r ≠ [].
Proof.
  intros Hne.
  apply (while_loop_inv (λ c, ch_used c ≠ []) (λ c, ch_used c ≠ [])); [done| |].
  - intros s s' Hs Hstep.
    apply chainStep_continue in Hstep as (_ & m & _ & _ & _ & _ & -> & _).
    by destruct (ch_used s).
  - intros s s' Hs Hstep. by apply chainStep_break_used in Hstep as ->.
Qed.

Lemma chainFrom_total (radius : float) (segments : list Segment)
    (entry : nat * Segment) (st : list nat * list Path) :
  entry ∈ imap (λ i seg, (i, seg)) segments →
  usedOk (length segments) (fst st) →
  ∃ st', chainFrom radius segments entry st = Some st'
         ∧ usedOk (length segments) (fst st').
Proof.
  intros Hin Hok. destruct entry as [i seg], st as [usedSegments acc].
  apply elem_of_lookup_imap in Hin as (i' & seg' & [= <- <-] & Hs).
  unfold chainFrom. case_bool_decide as Hi; [eauto|].
  set (c0 := {| ch_path := [Vector2.clone (fst seg); Vector2.clone (snd seg)];
                ch_used := usedSegments ++ [i] |}).
  assert (usedOk (length segments) (ch_used c0)) as Hok0
    by (apply usedOk_snoc; [done | done | by eapply lookup_lt_Some]).
  assert (ch_used c0 ≠ []) as Hne0 by (simpl; by destruct usedSegments).
  destruct (chain_loop_stops radius segments true c0 Hok0 Hne0) as [fwd Hf].
  rewrite Hf. cbn [mbind option_bind].
  pose proof (chain_loop_grows _ _ _ _ _ _ Hne0 Hf) as Hne1.
  pose proof (chain_loop_usedOk _ _ _ _ _ _ Hok0 Hf) as Hok1.
  destruct (chain_loop_stops radius segments false fwd Hok1 Hne1) as [bwd Hb].
  rewrite Hb. cbn [mbind option_bind].
  pose proof (chain_loop_grows _ _ _ _ _ _ Hne1 Hb) as Hne2.
  pose proof (chain_loop_usedOk _ _ _ _ _ _ Hok1 Hb) as Hok2.
  eexists. split; [reflexivity | done].
Qed.

Lemma chainSegments_total (radius : float) (segments : list Segment) :
  is_Some (chainSegments radius segments).
Proof.
  unfold chainSegments.
  destruct (for_each_total (λ st, usedOk (length segments) (fst st))
              (chainFrom radius segments)
              (imap (λ i seg, (i, seg)) segments) ([], [])) as [st ->].
  - split; [apply NoDup_nil_2 | apply Forall_nil_2].
  - intros a s Ha Hs. by apply chainFrom_total.
  - by eexists.
Qed.

(** *** buildPaths always returns *)

Section WithAtan2.
Variable Math_atan2 : float → float → float.

Lemma graphPaths_total (segments : list Segment) (diagonal : float) :
  is_Some (graphPaths Math_atan2 segments diagonal).
Proof.
  unfold graphPaths.
  destruct (findContours_total Math_atan2 (TOLERANCE diagonal)
              (MIN_PATH_LENGTH diagonal) (length segments)
              (nodes (buildGraph (TOLERANCE diagonal) segments), [])) as [st1 ->].
  cbn [mbind option_bind].
  destruct (handleRemainingSegments_total (TOLERANCE diagonal)
              (MIN_PATH_LENGTH diagonal)
              (buildGraph (TOLERANCE diagonal) segments) st1) as [st2 ->].
  by eexists.
Qed.

Lemma tracePaths_total (segments : list Segment) (diagonal : float) :
  is_Some (tracePaths Math_atan2 segments diagonal).
Proof.
  unfold tracePaths.
  destruct (graphPaths_total segments diagonal) as [found ->].
  cbn [mbind option_bind].
  destruct (_ =? 0)%nat; [apply chainSegments_total | by eexists].
Qed.

Theorem buildPaths_total (edges : list (list Vector3.t)) (axis : Axis)
    (diagonal : float) :
  is_Some (buildPaths Math_atan2 edges axis diagonal).
Proof.
  unfold buildPaths.
  destruct (_ =? 0)%nat; [by eexists|].
  destruct (_ =? 0)%nat; [by eexists|].
  destruct (tracePaths_total
              (segmentsOfEdges axis (ZERO_LENGTH_TOL diagonal) edges) diagonal)
    as [ps ->].
  by eexists.
Qed.

End WithAtan2.

End Termination.

(** ** StlSlicer: the paths that [buildPaths] returns *)

Module PathProps.
Import JsMath FloatOrder StlSlicer Termination Vocabulary.

Lemma atLeast3_snoc (paths : list Path) (path : Path) :
  atLeast3 paths → 3 ≤ length path → atLeast3 (paths ++ [path]).
Proof. intros. apply Forall_app. split; [done | by apply Forall_singleton]. Qed.

(** *** The acceptance tests *)

(** After a trace of the first pass: the path is pushed, closed when the
    trace came back to its start and the gap exceeds the tolerance, if it has
    at least 3 points and its length exceeds the minimum; else nothing is
    pushed and the nodes of the trace are unmarked. *)
Lemma finishTrace_spec (tol minLen : float) (acc : list Path) (t : Trace) :
  ((3 <=? length (tr_path t))%nat && (minLen <? tr_length t)%float = true →
   ∃ path, finishTrace tol minLen acc t = (tr_nodes t, acc ++ [path])
           ∧ (path = tr_path t
              ∨ ∃ first, tr_complete t = true ∧ head (tr_path t) = Some first
                         ∧ path = tr_path t ++ [first]))
  ∧ ((3 <=? length (tr_path t))%nat && (minLen <? tr_length t)%float = false →
     finishTrace tol minLen acc t
     = (markAll false (tr_indices t) (tr_nodes t), acc)).
Proof.
  unfold finishTrace. split; intros ->; [|done].
  eexists. split; [reflexivity|].
  destruct (tr_complete t); [|by left].
  destruct (head (tr_path t)) as [first|]; [|by left].
  destruct (last (tr_path t)) as [final|]; [|by left].
  destruct (tol <? _)%float; [|by left]. right. by exists first.
Qed.

Lemma closeIfConnected_cases (tol : float) (g : Graph) (nodes : list Node)
    (fullPath : Path) :
  closeIfConnected tol g nodes fullPath = fullPath
  ∨ ∃ first, head fullPath = Some first
             ∧ closeIfConnected tol g nodes fullPath = fullPath ++ [first].
Proof.
  unfold closeIfConnected.
  destruct (head fullPath) as [first|]; [|by left].
  destruct (last fullPath) as [final|]; [|by left].
  destruct (_ <? tol)%float; [by left|].
  destruct (nodeMap g !! _) as [i|]; [|by left].
  destruct (nodeMap g !! _) as [j|]; [|by left].
  case_bool_decide; [|by left]. right. by exists first.
Qed.

(** After the two extensions of the second pass: the combined path is
    pushed, and the nodes visited are marked, if it has at least 3 points and
    the length walked exceeds the minimum; else nothing changes. *)
Lemma finishExtension_spec (tol minLen : float) (g : Graph)
    (st : list Node * list Path) (fwd bwd : Extension) :
  let fullPath := ex_path bwd ++ ex_path fwd in
  let marked := markAll true (ex_visited bwd) (markAll true (ex_visited fwd) (fst st)) in
  ((3 <=? length fullPath)%nat && (minLen <? ex_length bwd)%float = true →
   finishExtension tol minLen g st fwd bwd
   = (marked, snd st ++ [closeIfConnected tol g marked fullPath]))
  ∧ ((3 <=? length fullPath)%nat && (minLen <? ex_length bwd)%float = false →
     finishExtension tol minLen g st fwd bwd = st).
Proof.
  destruct st as [nodes acc]. unfold finishExtension. cbn [fst snd].
  split; intros ->; done.
Qed.

(** *** Every returned path has at least 3 points *)

#[local] Opaque finishTrace finishExtension.

Section WithAtan2.
Variable Math_atan2 : float → float → float.

Lemma traceFrom_atLeast3 (tol minLen : float) (nSegments startIdx : nat)
    (st st' : list Node * list Path) :
  atLeast3 (snd st) →
  traceFrom Math_atan2 tol minLen nSegments startIdx st = Some st' →
  atLeast3 (snd st').
Proof.
  intros Hst. unfold traceFrom. destruct st as [nodes acc].
  destruct (used _); [by intros [= <-]|].
  destruct (2 <? _)%nat; [by intros [= <-]|].
  destruct (while_loop _ _ _) as [t|]; [|discriminate].
  cbn [mbind option_bind]. intros [= <-].
  destruct ((3 <=? length (tr_path t))%nat && (minLen <? tr_length t)%float) eqn:E.
  - destruct (proj1 (finishTrace_spec tol minLen acc t) E) as (path & -> & Hpath).
    apply andb_true_iff in E as [E _]. apply Nat.leb_le in E.
    apply atLeast3_snoc; [done|].
    destruct Hpath as [-> | (first & _ & _ & ->)]; [done|].
    rewrite length_app. lia.
  - by rewrite (proj2 (finishTrace_spec tol minLen acc t) E).
Qed.

Lemma findContours_atLeast3 (tol minLen : float) (nSegments : nat)
    (st st' : list Node * list Path) :
  atLeast3 (snd st) →
  findContours Math_atan2 tol minLen nSegments st = Some st' →
  atLeast3 (snd st').
Proof.
  intros Hst. apply (for_each_inv (λ st, atLeast3 (snd st))); [done|].
  intros a s s' _. apply traceFrom_atLeast3.
Qed.

End WithAtan2.

Lemma extendFrom_atLeast3 (tol minLen : float) (g : Graph) (i : nat)
    (st st' : list Node * list Path) :
  atLeast3 (snd st) →
  extendFrom tol minLen g i st = Some st' →
  atLeast3 (snd st').
Proof.
  intros Hst. unfold extendFrom. destruct st as [nodes acc].
  destruct (used _); [by intros [= <-]|].
  destruct (while_loop _ _ _) as [fwd|]; [|discriminate]. cbn [mbind option_bind].
  destruct (while_loop _ _ _) as [bwd|]; [|discriminate]. cbn [mbind option_bind].
  intros [= <-].
  destruct ((3 <=? length (ex_path bwd ++ ex_path fwd))%nat
            && (minLen <? ex_length bwd)%float) eqn:E.
  - rewrite (proj1 (finishExtension_spec tol minLen g (nodes, acc) fwd bwd) E).
    cbn [fst snd]. apply andb_true_iff in E as [E _]. apply Nat.leb_le in E.
    apply atLeast3_snoc; [done|].
    destruct (closeIfConnected_cases tol g
                (markAll true (ex_visited bwd) (markAll true (ex_visited fwd) nodes))
                (ex_path bwd ++ ex_path fwd)) as [-> | (first & _ & ->)]; [done|].
    rewrite length_app. lia.
  - by rewrite (proj2 (finishExtension_spec tol minLen g (nodes, acc) fwd bwd) E).
Qed.

Lemma handleRemainingSegments_atLeast3 (tol minLen : float) (g : Graph)
    (st st' : list Node * list Path) :
  atLeast3 (snd st) →
  handleRemainingSegments tol minLen g st = Some st' →
  atLeast3 (snd st').
Proof.
  intros Hst. unfold handleRemainingSegments.
  destruct (_ =? 0)%nat; [by intros [= <-]|].
  apply (for_each_inv (λ st, atLeast3 (snd st))); [done|].
  intros a s s' _. apply extendFrom_atLeast3.
Qed.

Lemma chainFrom_atLeast3 (radius : float) (segments : list Segment)
    (entry : nat * Segment) (st st' : list nat * list Path) :
  atLeast3 (snd st) →
  chainFrom radius segments entry st = Some st' →
  atLeast3 (snd st').
Proof.
  intros Hst. unfold chainFrom. destruct entry as [i seg], st as [usedSegments acc].
  case_bool_decide; [by intros [= <-]|].
  destruct (while_loop _ _ _) as [fwd|]; [|discriminate]. cbn [mbind option_bind].
  destruct (while_loop _ _ _) as [bwd|]; [|discriminate]. cbn [mbind option_bind].
  intros Heq. injection Heq as <-. cbn [snd].
  destruct (length (ch_path bwd)) as [|[|[|n]]] eqn:E; try done.
  apply atLeast3_snoc; [done | lia].
Qed.

Lemma chainSegments_atLeast3 (radius : float) (segments : list Segment)
    (paths : list Path) :
  chainSegments radius segments = Some paths → atLeast3 paths.
Proof.
  unfold chainSegments.
  destruct (for_each _ _ _) as [st|] eqn:E; [|discriminate].
  intros [= <-]. revert E.
  apply (for_each_inv (λ st, atLeast3 (snd st))); [apply Forall_nil_2|].
  intros a s s' _. apply chainFrom_atLeast3.
Qed.

Lemma finalCleanup_length (tol : float) (path : Path) :
  length path ≤ length (finalCleanup tol path).
Proof.
  unfold finalCleanup.
  destruct (_ <? 3)%nat; [done|].
  destruct (head path); [|done]. destruct (last path); [|done].
  destruct (_ && _); [|done]. rewrite length_app. lia.
Qed.

(** *** The paths of the graph passes have passed the length test *)

Lemma position_nodeAt_setUsed (u : bool) (i j : nat) (nodes : list Node) :
  position (nodeAt (alter (setUsed u) i nodes) j) = position (nodeAt nodes j).
Proof.
  unfold nodeAt. rewrite list_lookup_alter.
  destruct (decide (i = j)) as [-> | Hne]; destruct (nodes !! j); reflexivity.
Qed.

Lemma polylineFrom_snoc (rest : Path) (len : float) (before p : Vector2.t) :
  polylineFrom len before (rest ++ [p])
  = (polylineFrom len before rest
     + Vector2.distanceTo p (default before (last rest)))%float.
Proof.
  revert len before. induction rest as [|q rest IH]; intros len before; [done|].
  cbn [app polylineFrom]. rewrite IH. f_equal. f_equal.
  destruct rest as [|q' rest]; [done|]. rewrite last_cons_cons.
  destruct (last (q' :: rest)) eqn:E; [done|]. by apply last_None in E.
Qed.

Lemma polylineLength_snoc (path : Path) (before p : Vector2.t) :
  last path = Some before →
  polylineLength (path ++ [p])
  = (polylineLength path + Vector2.distanceTo p before)%float.
Proof.
  destruct path as [|first rest]; [done|]. intros Hl.
  cbn [app polylineLength]. rewrite polylineFrom_snoc. f_equal. f_equal.
  destruct rest as [|q rest]; [by injection Hl as -> |].
  rewrite last_cons_cons in Hl. by rewrite Hl.
Qed.

Section WithAtan2.
Variable Math_atan2 : float → float → float.

Lemma traceStep_length (nSegments startIdx : nat) (t : Trace) :
  tracing startIdx t →
  match traceStep Math_atan2 nSegments startIdx t with
  | Continue t' => tracing startIdx t'
  | Break t' => tr_length t' = tracedLength (tr_complete t') (tr_path t')
  end.
Proof.
  intros (Hc & Hlen & Hhead & Hlast). unfold traceStep.
  destruct (chooseBestConnection _ _ _ _ _) as [nextIdx|];
    [|by rewrite Hc].
  destruct (nextIdx =? startIdx)%nat.
  { cbn [tr_length tr_complete tr_path tracedLength]. unfold ringLength.
    by rewrite Hhead, Hlast, Hlen. }
  set (point := Vector2.clone (position (nodeAt (tr_nodes t) nextIdx))).
  assert (tracing startIdx
            {| tr_nodes := alter (setUsed true) nextIdx (tr_nodes t);
               tr_path := tr_path t ++ [point];
               tr_indices := tr_indices t ++ [nextIdx];
               tr_current := nextIdx;
               tr_prev := Some (tr_current t);
               tr_complete := false;
               tr_length :=
                 match last (tr_path t) with
                 | Some before => (tr_length t + Vector2.distanceTo point before)%float
                 | None => tr_length t
                 end |}) as Ht'.
  { split; [done|]. cbn [tr_length tr_path tr_nodes tr_current].
    rewrite !position_nodeAt_setUsed. split; [|split].
    - rewrite Hlast. by rewrite (polylineLength_snoc _ _ _ Hlast), Hlen.
    - destruct (tr_path t); [done|]. exact Hhead.
    - by rewrite last_snoc. }
  destruct (_ <? _)%nat; [|exact Ht'].
  destruct Ht' as (Hc' & Hlen' & _). by rewrite Hc'.
Qed.

Lemma traceFrom_accepted (tol minLen : float) (nSegments startIdx : nat)
    (st st' : list Node * list Path) :
  Forall (acceptedTrace minLen) (snd st) →
  traceFrom Math_atan2 tol minLen nSegments startIdx st = Some st' →
  Forall (acceptedTrace minLen) (snd st').
Proof.
  intros Hst. unfold traceFrom. destruct st as [nodes acc].
  destruct (used _); [by intros [= <-]|].
  destruct (2 <? _)%nat; [by intros [= <-]|].
  destruct (while_loop _ _ _) as [t|] eqn:Hloop; [|discriminate].
  cbn [mbind option_bind]. intros [= <-].
  assert (tr_length t = tracedLength (tr_complete t) (tr_path t)) as Hlen.
  { revert Hloop.
    apply (while_loop_inv (tracing startIdx)
             (λ t, tr_length t = tracedLength (tr_complete t) (tr_path t))).
    - split; [done|]. split; [done|]. cbn [tr_path tr_nodes tr_current head last].
      by rewrite position_nodeAt_setUsed.
    - intros s s' Hs Hstep. pose proof (traceStep_length nSegments startIdx s Hs) as H.
      by rewrite Hstep in H.
    - intros s s' Hs Hstep. pose proof (traceStep_length nSegments startIdx s Hs) as H.
      by rewrite Hstep in H. }
  destruct ((3 <=? length (tr_path t))%nat && (minLen <? tr_length t)%float) eqn:E.
  - destruct (proj1 (finishTrace_spec tol minLen acc t) E) as (path & -> & Hpath).
    apply andb_true_iff in E as [E3 EL]. apply Nat.leb_le in E3.
    apply Forall_app. split; [done|]. apply Forall_singleton.
    exists (tr_path t), (tr_complete t). split; [done|]. split; [by rewrite <- Hlen|].
    destruct Hpath as [-> | (first & Hc & Hh & ->)]; [by left|]. right. eauto.
  - by rewrite (proj2 (finishTrace_spec tol minLen acc t) E).
Qed.

Lemma findContours_accepted (tol minLen : float) (nSegments : nat)
    (st st' : list Node * list Path) :
  Forall (acceptedTrace minLen) (snd st) →
  findContours Math_atan2 tol minLen nSegments st = Some st' →
  Forall (acceptedTrace minLen) (snd st').
Proof.
  intros Hst. apply (for_each_inv (λ st, Forall (acceptedTrace minLen) (snd st))); [done|].
  intros a s s' _. apply traceFrom_accepted.
Qed.

End WithAtan2.

Lemma extend_forward_length (nodes : list Node) (i : nat) (fuel : nat) (fwd : Extension) :
  while_loop fuel (extendStep nodes true)
    {| ex_visited := [i]; ex_path := [Vector2.clone (position (nodeAt nodes i))];
       ex_idx := i; ex_length := 0 |} = Some fwd →
  ∃ forward,
    ex_path fwd = position (nodeAt nodes i) :: forward
    ∧ ex_length fwd = polylineFrom 0 (position (nodeAt nodes i)) forward.
Proof.
  set (start := position (nodeAt nodes i)).
  set (F := λ e : Extension,
         ∃ forward, ex_path e = start :: forward
                    ∧ ex_length e = polylineFrom 0 start forward
                    ∧ last (start :: forward) = Some (position (nodeAt nodes (ex_idx e)))).
  intros Hloop.
  assert (F fwd) as (forward & H1 & H2 & _); [|eauto].
  revert Hloop. apply (while_loop_inv F F).
  - exists []. by repeat split.
  - intros e e' (forward & Hp & Hl & Hlast). unfold extendStep.
    destruct (findBestNextNode _ _ _) as [nextIdx|]; [|discriminate].
    intros [= <-]. exists (forward ++ [position (nodeAt nodes nextIdx)]).
    cbn [ex_path ex_length ex_idx]. rewrite Hp. split; [done|]. split.
    + rewrite polylineFrom_snoc, Hl. f_equal. f_equal.
      destruct forward as [|q forward]; [by injection Hlast as -> |].
      rewrite last_cons_cons in Hlast. by rewrite Hlast.
    + by rewrite app_comm_cons, last_snoc.
  - intros e e' He. unfold extendStep.
    destruct (findBestNextNode _ _ _) as [nextIdx|]; [discriminate|].
    by intros [= <-].
Qed.

Lemma extend_backward_length (nodes : list Node) (i : nat) (len0 : float)
    (fuel : nat) (bwd : Extension) :
  while_loop fuel (extendStep nodes false)
    {| ex_visited := [i]; ex_path := []; ex_idx := i; ex_length := len0 |} = Some bwd →
  ∃ backward,
    ex_path bwd = reverse backward
    ∧ ex_length bwd = polylineFrom len0 (position (nodeAt nodes i)) backward.
Proof.
  set (start := position (nodeAt nodes i)).
  set (B := λ e : Extension,
         ∃ backward, ex_path e = reverse backward
                     ∧ ex_length e = polylineFrom len0 start backward
                     ∧ last (start :: backward) = Some (position (nodeAt nodes (ex_idx e)))).
  intros Hloop.
  assert (B bwd) as (backward & H1 & H2 & _); [|eauto].
  revert Hloop. apply (while_loop_inv B B).
  - exists []. by repeat split.
  - intros e e' (backward & Hp & Hl & Hlast). unfold extendStep.
    destruct (findBestNextNode _ _ _) as [nextIdx|]; [|discriminate].
    intros [= <-]. exists (backward ++ [position (nodeAt nodes nextIdx)]).
    cbn [ex_path ex_length ex_idx]. rewrite Hp. split; [by rewrite reverse_snoc|]. split.
    + rewrite polylineFrom_snoc, Hl. f_equal. f_equal.
      destruct backward as [|q backward]; [by injection Hlast as -> |].
      rewrite last_cons_cons in Hlast. by rewrite Hlast.
    + by rewrite app_comm_cons, last_snoc.
  - intros e e' He. unfold extendStep.
    destruct (findBestNextNode _ _ _) as [nextIdx|]; [discriminate|].
    by intros [= <-].
Qed.

Lemma extendFrom_accepted (tol minLen : float) (g : Graph) (i : nat)
    (st st' : list Node * list Path) :
  Forall (accepted minLen) (snd st) →
  extendFrom tol minLen g i st = Some st' →
  Forall (accepted minLen) (snd st').
Proof.
  intros Hst. unfold extendFrom. destruct st as [nodes acc].
  destruct (used _); [by intros [= <-]|].
  destruct (while_loop _ _ _) as [fwd|] eqn:Hfwd; [|discriminate].
  cbn [mbind option_bind].
  destruct (while_loop _ (extendStep nodes false) _) as [bwd|] eqn:Hbwd; [|discriminate].
  cbn [mbind option_bind]. intros [= <-].
  destruct (extend_forward_length _ _ _ _ Hfwd) as (forward & Hpf & Hlf).
  destruct (extend_backward_length _ _ _ _ _ Hbwd) as (backward & Hpb & Hlb).
  destruct ((3 <=? length (ex_path bwd ++ ex_path fwd))%nat
            && (minLen <? ex_length bwd)%float) eqn:E.
  - rewrite (proj1 (finishExtension_spec tol minLen g (nodes, acc) fwd bwd) E).
    cbn [fst snd]. apply andb_true_iff in E as [E3 EL]. apply Nat.leb_le in E3.
    apply Forall_app. split; [done|]. apply Forall_singleton. right.
    exists (position (nodeAt nodes i)), forward, backward. cbv zeta.
    rewrite <- Hpb, <- Hpf. split; [done|]. split.
    + unfold twoWayLength. by rewrite <- Hlf, <- Hlb.
    + match goal with |- context [closeIfConnected ?a ?b ?c ?d] =>
        destruct (closeIfConnected_cases a b c d) as [-> | (first & Hh & ->)]
      end; [by left | right; eauto].
  - by rewrite (proj2 (finishExtension_spec tol minLen g (nodes, acc) fwd bwd) E).
Qed.

Lemma handleRemainingSegments_accepted (tol minLen : float) (g : Graph)
    (st st' : list Node * list Path) :
  Forall (accepted minLen) (snd st) →
  handleRemainingSegments tol minLen g st = Some st' →
  Forall (accepted minLen) (snd st').
Proof.
  intros Hst. unfold handleRemainingSegments.
  destruct (_ =? 0)%nat; [by intros [= <-]|].
  apply (for_each_inv (λ st, Forall (accepted minLen) (snd st))); [done|].
  intros a s s' _. apply extendFrom_accepted.
Qed.

Lemma graphPaths_accepted (atan2 : float → float → float) (segments : list Segment)
    (diagonal : float) (found : list Path) :
  graphPaths atan2 segments diagonal = Some found →
  Forall (accepted (MIN_PATH_LENGTH diagonal)) found.
Proof.
  unfold graphPaths.
  destruct (findContours _ _ _ _ _) as [st1|] eqn:E1; [|discriminate].
  cbn [mbind option_bind].
  destruct (handleRemainingSegments _ _ _ _) as [st2|] eqn:E2; [|discriminate].
  intros Heq. injection Heq as <-.
  eapply handleRemainingSegments_accepted; [|exact E2].
  eapply Forall_impl; [|intros p Hp; left; exact Hp].
  eapply findContours_accepted; [|exact E1]. apply Forall_nil_2.
Qed.

Lemma graphPaths_nil (atan2 : float → float → float) (diagonal : float) :
  graphPaths atan2 [] diagonal = Some [].
Proof. reflexivity. Qed.

Lemma buildPaths_of_graphPaths (atan2 : float → float → float)
    (edges : list (list Vector3.t)) (axis : Axis) (diagonal : float)
    (found : list Path) :
  graphPaths atan2 (segmentsOfEdges axis (ZERO_LENGTH_TOL diagonal) edges) diagonal
  = Some found →
  found ≠ [] →
  buildPaths atan2 edges axis diagonal
  = Some (map (finalCleanup (TOLERANCE diagonal)) found).
Proof.
  intros Hfound Hne. unfold buildPaths.
  destruct edges as [|edge edges].
  { rewrite graphPaths_nil in Hfound. congruence. }
  cbn [length Nat.eqb].
  destruct (segmentsOfEdges axis (ZERO_LENGTH_TOL diagonal) (edge :: edges))
    as [|seg segments] eqn:Hsegs.
  { rewrite graphPaths_nil in Hfound. congruence. }
  cbn [length Nat.eqb]. unfold tracePaths. rewrite Hfound. cbn [mbind option_bind].
  destruct found as [|p found]; [done|]. reflexivity.
Qed.

Section WithAtan2.
Variable Math_atan2 : float → float → float.

Lemma graphPaths_atLeast3 (segments : list Segment) (diagonal : float)
    (found : list Path) :
  graphPaths Math_atan2 segments diagonal = Some found → atLeast3 found.
Proof.
  unfold graphPaths.
  destruct (findContours _ _ _ _ _) as [st1|] eqn:E1; [|discriminate].
  cbn [mbind option_bind].
  destruct (handleRemainingSegments _ _ _ _) as [st2|] eqn:E2; [|discriminate].
  intros Heq. injection Heq as <-.
  eapply handleRemainingSegments_atLeast3; [|exact E2].
  eapply findContours_atLeast3; [|exact E1]. apply Forall_nil_2.
Qed.

Lemma tracePaths_atLeast3 (segments : list Segment) (diagonal : float)
    (produced : list Path) :
  tracePaths Math_atan2 segments diagonal = Some produced → atLeast3 produced.
Proof.
  unfold tracePaths.
  destruct (graphPaths _ _ _) as [found|] eqn:E; [|discriminate].
  cbn [mbind option_bind].
  destruct (_ =? 0)%nat.
  - apply chainSegments_atLeast3.
  - intros Heq. injection Heq as <-. by eapply graphPaths_atLeast3.
Qed.

(** [buildPaths] returns the cleaned-up paths of [tracePaths], or no path at
    all when there is no edge or no segment long enough. *)
Lemma buildPaths_produced (edges : list (list Vector3.t)) (axis : Axis)
    (diagonal : float) (paths : list Path) :
  buildPaths Math_atan2 edges axis diagonal = Some paths →
  ∃ produced,
    paths = map (finalCleanup (TOLERANCE diagonal)) produced
    ∧ (produced = []
       ∨ tracePaths Math_atan2
           (segmentsOfEdges axis (ZERO_LENGTH_TOL diagonal) edges) diagonal
         = Some produced).
Proof.
  unfold buildPaths.
  destruct (_ =? 0)%nat; [intros [= <-]; exists []; auto|].
  destruct (_ =? 0)%nat; [intros [= <-]; exists []; auto|].
  destruct (tracePaths _ _ _) as [produced|]; [|discriminate].
  intros Heq. injection Heq as <-. exists produced. auto.
Qed.

Lemma buildPaths_atLeast3 (edges : list (list Vector3.t)) (axis : Axis)
    (diagonal : float) (paths : list Path) :
  buildPaths Math_atan2 edges axis diagonal = Some paths → atLeast3 paths.
Proof.
  intros H. apply buildPaths_produced in H as (produced & -> & Hp).
  assert (atLeast3 produced) as H3.
  { destruct Hp as [-> | Hp]; [apply Forall_nil_2 | by eapply tracePaths_atLeast3]. }
  apply Forall_fmap. eapply Forall_impl; [exact H3|].
  intros path Hlen. simpl in *.
  pose proof (finalCleanup_length (TOLERANCE diagonal) path). lia.
Qed.

(** C2 (as amended).  [buildPaths] always returns, and every path it
    returns has at least 3 points.  Every path found by the two passes over
    the graph has passed the length test: it is a trace of at least 3 points
    whose polyline length (plus the closing step when the trace came back to
    its start) exceeds [MIN_PATH_LENGTH], or a two-way extension of at least
    3 points whose length, accumulated forward and then backward, exceeds
    it; and when these passes find a path, [buildPaths] returns what they
    found, each path after the final cleanup.  A trace of the first pass is
    pushed only if it has at least 3 points and its accumulated length
    exceeds [MIN_PATH_LENGTH]; otherwise nothing is pushed and the nodes of
    the trace are unmarked.  A two-way extension of the second pass is pushed
    under the same test and otherwise leaves nodes and paths as they were. *)
Theorem buildPaths_paths_have_3_points (edges : list (list Vector3.t))
    (axis : Axis) (diagonal : float) :
  (∃ paths, buildPaths Math_atan2 edges axis diagonal = Some paths
            ∧ Forall (λ path : Path, 3 ≤ length path) paths)
  ∧ (∀ found,
       graphPaths Math_atan2 (segmentsOfEdges axis (ZERO_LENGTH_TOL diagonal) edges)
                  diagonal = Some found →
       Forall (accepted (MIN_PATH_LENGTH diagonal)) found
       ∧ (found ≠ [] →
          buildPaths Math_atan2 edges axis diagonal
          = Some (map (finalCleanup (TOLERANCE diagonal)) found)))
  ∧ (∀ (acc : list Path) (t : Trace),
       let viable := (3 <=? length (tr_path t))%nat
                     && (MIN_PATH_LENGTH diagonal <? tr_length t)%float in
       (viable = true →
        ∃ path, finishTrace (TOLERANCE diagonal) (MIN_PATH_LENGTH diagonal) acc t
                = (tr_nodes t, acc ++ [path])
                ∧ 3 ≤ length path)
       ∧ (viable = false →
          finishTrace (TOLERANCE diagonal) (MIN_PATH_LENGTH diagonal) acc t
          = (markAll false (tr_indices t) (tr_nodes t), acc)))
  ∧ (∀ (g : Graph) (st : list Node * list Path) (fwd bwd : Extension),
       let fullPath := ex_path bwd ++ ex_path fwd in
       let viable := (3 <=? length fullPath)%nat
                     && (MIN_PATH_LENGTH diagonal <? ex_length bwd)%float in
       (viable = true →
        ∃ nodes' path,
          finishExtension (TOLERANCE diagonal) (MIN_PATH_LENGTH diagonal) g st fwd bwd
          = (nodes', snd st ++ [path])
          ∧ 3 ≤ length path)
       ∧ (viable = false →
          finishExtension (TOLERANCE diagonal) (MIN_PATH_LENGTH diagonal) g st fwd bwd
          = st)).
Proof.
  split; [|split; [|split]].
  - destruct (buildPaths_total Math_atan2 edges axis diagonal) as [paths H].
    exists paths. split; [done | by eapply buildPaths_atLeast3].
  - intros found Hfound. split; [by eapply graphPaths_accepted|].
    by apply buildPaths_of_graphPaths.
  - intros acc t viable. split; intros E.
    + destruct (proj1 (finishTrace_spec (TOLERANCE diagonal)
                         (MIN_PATH_LENGTH diagonal) acc t) E) as (path & -> & Hp).
      exists path. split; [done|].
      apply andb_true_iff in E as [E _]. apply Nat.leb_le in E.
      destruct Hp as [-> | (first & _ & _ & ->)]; [done|]. rewrite length_app. lia.
    + exact (proj2 (finishTrace_spec _ _ acc t) E).
  - intros g st fwd bwd fullPath viable. split; intros E.
    + rewrite (proj1 (finishExtension_spec _ _ g st fwd bwd) E).
      eexists _, _. split; [reflexivity|].
      apply andb_true_iff in E as [E _]. apply Nat.leb_le in E.
      match goal with |- context [closeIfConnected ?a ?b ?c ?d] =>
        destruct (closeIfConnected_cases a b c d) as [-> | (first & _ & ->)]
      end; [done|]. rewrite length_app. fold fullPath. lia.
    + exact (proj2 (finishExtension_spec _ _ g st fwd bwd) E).
Qed.

End WithAtan2.

(** C2 (as stated) fails in the fallback, which keeps any chain of at least
    3 points: for the two short edges, whatever [Math.atan2] is, the graph
    passes find nothing and [buildPaths] returns the single path
    (0,0) (0.2,0) (0.45,0), whose length 0.45 (0.9 once closed) does not
    exceed the minimum path length 1. *)
Lemma fallback_path_below_minimum :
  (∀ atan2, buildPaths atan2 Examples.two_short_edges AxisZ 1000
            = Some [[Vector2.mk 0 0; Vector2.mk 0.2 0; Vector2.mk 0.45 0]])
  ∧ (MIN_PATH_LENGTH 1000
     <? polylineLength [Vector2.mk 0 0; Vector2.mk 0.2 0; Vector2.mk 0.45 0])%float
    = false
  ∧ (MIN_PATH_LENGTH 1000
     <? ringLength [Vector2.mk 0 0; Vector2.mk 0.2 0; Vector2.mk 0.45 0])%float
    = false.
Proof.
  split; [|split]; [intros atan2 | |]; vm_compute; reflexivity.
Qed.

(** *** The fallback never bridges a gap wider than its radius *)

Section Groups.
Variable radius : float.
Variable segments : list Segment.
Variable group : nat → bool.
Hypothesis apart : groupsApart radius segments group.

Lemma chainStep_group (atTail : bool) (g : bool) (c c' : Chain) :
  Forall (endOfGroup segments group g) (ch_path c) →
  chainStep radius segments atTail c = Continue c' →
  Forall (endOfGroup segments group g) (ch_path c').
Proof using apart.
  intros Hc Hstep.
  apply chainStep_continue in Hstep
    as (anchor & m & seg & Hanchor & [_ (seg' & Hs' & Hnear)] & Hs & _ & ->).
  assert (seg' = seg) as -> by congruence.
  assert (endOfGroup segments group g anchor) as (i & si & ei & Hsi & Hgi & ->).
  { rewrite Forall_forall in Hc. apply Hc.
    destruct atTail; [by apply last_Some_elem_of | by apply head_Some_elem_of]. }
  assert (group (segIdx m) = g) as Hg.
  { destruct (decide (group (segIdx m) = g)) as [|Hne]; [done|]. exfalso.
    assert (group i ≠ group (segIdx m)) as Hne' by congruence.
    pose proof (apart i (segIdx m) si seg ei (endIdx m) Hsi Hs Hne') as Hfar.
    congruence. }
  assert (endOfGroup segments group g (segmentEnd seg (negb (endIdx m)))) as Hnew
    by (by exists (segIdx m), seg, (negb (endIdx m))).
  destruct atTail.
  - apply Forall_app. split; [done | by apply Forall_singleton].
  - by apply Forall_cons.
Qed.

Lemma chain_loop_group (atTail : bool) (g : bool) (fuel : nat) (c r : Chain) :
  Forall (endOfGroup segments group g) (ch_path c) →
  while_loop fuel (chainStep radius segments atTail) c = Some r →
  Forall (endOfGroup segments group g) (ch_path r).
Proof using apart.
  intros Hc.
  apply (while_loop_inv (λ c, Forall (endOfGroup segments group g) (ch_path c))
                        (λ c, Forall (endOfGroup segments group g) (ch_path c)));
    [done| |].
  - intros s s' Hs Hstep. by eapply chainStep_group.
  - intros s s' Hs Hstep. by apply chainStep_break_used in Hstep as ->.
Qed.

Lemma chainFrom_group (entry : nat * Segment) (st st' : list nat * list Path) :
  entry ∈ imap (λ i seg, (i, seg)) segments →
  Forall (oneGroup segments group) (snd st) →
  chainFrom radius segments entry st = Some st' →
  Forall (oneGroup segments group) (snd st').
Proof using apart.
  intros Hin Hst. destruct entry as [i seg], st as [usedSegments acc].
  apply elem_of_lookup_imap in Hin as (i' & seg' & [= <- <-] & Hs).
  unfold chainFrom. case_bool_decide; [by intros [= <-]|].
  destruct (while_loop _ (chainStep radius segments true) _) as [fwd|] eqn:Hf;
    [|discriminate].
  cbn [mbind option_bind].
  destruct (while_loop _ (chainStep radius segments false) _) as [bwd|] eqn:Hb;
    [|discriminate].
  cbn [mbind option_bind].
  intros Heq. injection Heq as <-. cbn [snd].
  assert (Forall (endOfGroup segments group (group i)) (ch_path bwd)) as Hg.
  { eapply chain_loop_group; [|exact Hb]. eapply chain_loop_group; [|exact Hf].
    cbn [ch_path]. apply Forall_cons. split; [by exists i, seg, false|].
    apply Forall_singleton. by exists i, seg, true. }
  destruct (length (ch_path bwd)) as [|[|[|n]]]; try done.
  apply Forall_app. split; [done|]. apply Forall_singleton. by exists (group i).
Qed.

Lemma chainSegments_group (paths : list Path) :
  chainSegments radius segments = Some paths → Forall (oneGroup segments group) paths.
Proof using apart.
  unfold chainSegments.
  destruct (for_each _ _ _) as [st|] eqn:E; [|discriminate].
  intros [= <-]. revert E.
  apply (for_each_inv (λ st, Forall (oneGroup segments group) (snd st))); [apply Forall_nil_2|].
  intros a s s' Ha. by apply chainFrom_group.
Qed.

Lemma finalCleanup_group (tol : float) (path : Path) :
  oneGroup segments group path → oneGroup segments group (finalCleanup tol path).
Proof.
  intros [g Hg]. exists g. unfold finalCleanup.
  destruct (_ <? 3)%nat; [done|].
  destruct (head path) as [first|] eqn:Hh; [|done]. destruct (last path); [|done].
  destruct (_ && _); [|done].
  apply Forall_app. split; [done|]. apply Forall_singleton.
  rewrite Forall_forall in Hg. apply Hg. by apply head_Some_elem_of.
Qed.

End Groups.

Section WithAtan2.
Variable Math_atan2 : float → float → float.

(** C5.  The fallback runs only when the graph passes found no path.  In it
    a segment is taken only if it is unused and one of its ends lies strictly
    within [FALLBACK_RADIUS] of the point searched from, and a chain grows
    only by such a segment found from its tail (forward loop) or its head
    (backward loop), by that segment's other end.  Hence, when the segments
    fall into two groups with no end of one strictly within the radius of an
    end of the other, every path returned consists of ends of segments of
    one group only. *)
Theorem fallback_never_bridges (edges : list (list Vector3.t)) (axis : Axis)
    (diagonal : float) :
  let segments := segmentsOfEdges axis (ZERO_LENGTH_TOL diagonal) edges in
  let radius := FALLBACK_RADIUS diagonal in
  (∀ found, graphPaths Math_atan2 segments diagonal = Some found → found ≠ [] →
     tracePaths Math_atan2 segments diagonal = Some found)
  ∧ (graphPaths Math_atan2 segments diagonal = Some [] →
     tracePaths Math_atan2 segments diagonal = chainSegments radius segments)
  ∧ (∀ point excludeSet m,
       findClosestSegment radius segments point excludeSet = Some m →
       (segIdx m ∉ excludeSet)
       ∧ ∃ seg, segments !! segIdx m = Some seg
                ∧ (Vector2.distanceTo point (segmentEnd seg (endIdx m)) <? radius)%float
                  = true)
  ∧ (∀ atTail c c',
       chainStep radius segments atTail c = Continue c' →
       ∃ anchor m seg,
         (if atTail then last (ch_path c) else head (ch_path c)) = Some anchor
         ∧ (segIdx m ∉ ch_used c)
         ∧ segments !! segIdx m = Some seg
         ∧ (Vector2.distanceTo anchor (segmentEnd seg (endIdx m)) <? radius)%float = true
         ∧ ch_used c' = ch_used c ++ [segIdx m]
         ∧ ch_path c' = (if atTail
                         then ch_path c ++ [segmentEnd seg (negb (endIdx m))]
                         else segmentEnd seg (negb (endIdx m)) :: ch_path c))
  ∧ (∀ group,
       groupsApart radius segments group →
       graphPaths Math_atan2 segments diagonal = Some [] →
       ∃ paths, buildPaths Math_atan2 edges axis diagonal = Some paths
                ∧ Forall (λ path, ∃ g, Forall (endOfGroup segments group g) path) paths).
Proof.
  intros segments radius. repeat split.
  - intros found Hf Hne. unfold tracePaths. rewrite Hf. cbn [mbind option_bind].
    by destruct found.
  - intros Hf. unfold tracePaths. by rewrite Hf.
  - by apply findClosestSegment_Some in H as [? ?].
  - by apply findClosestSegment_Some in H as [? ?].
  - intros atTail c c' Hstep.
    apply chainStep_continue in Hstep
      as (anchor & m & seg & Ha & [Hm (seg' & Hs' & Hnear)] & Hs & Hu & Hp).
    assert (seg' = seg) as -> by congruence.
    exists anchor, m, seg. done.
  - intros group Hapart Hf.
    destruct (buildPaths_total Math_atan2 edges axis diagonal) as [paths H].
    exists paths. split; [done|].
    apply buildPaths_produced in H as (produced & -> & Hp).
    apply Forall_fmap.
    assert (Forall (oneGroup segments group) produced) as Hg.
    { destruct Hp as [-> | Hp]; [apply Forall_nil_2|].
      fold segments in Hp. unfold tracePaths in Hp. rewrite Hf in Hp.
      cbn in Hp. by eapply chainSegments_group. }
    eapply Forall_impl; [exact Hg|]. intros path Hpath.
    by apply (finalCleanup_group segments group).
Qed.

End WithAtan2.

(** The theorem at two pairs of short edges 10 units apart (radius 0.1):
    the graph passes find nothing, the groups are apart, and the fallback
    returns one path per pair. *)
Lemma fallback_never_bridges_witness :
  let segments := segmentsOfEdges AxisZ (ZERO_LENGTH_TOL 1000) Examples.two_far_pairs in
  let group := λ i, (2 <=? i)%nat in
  groupsApart (FALLBACK_RADIUS 1000) segments group
  ∧ (∀ atan2,
       graphPaths atan2 segments 1000 = Some []
       ∧ buildPaths atan2 Examples.two_far_pairs AxisZ 1000
         = Some [[Vector2.mk 0 0; Vector2.mk 0.2 0; Vector2.mk 0.45 0];
                 [Vector2.mk 10 0; Vector2.mk 10.2 0; Vector2.mk 10.45 0]]
       ∧ ∃ paths, buildPaths atan2 Examples.two_far_pairs AxisZ 1000 = Some paths
                  ∧ Forall (λ path, ∃ g, Forall (endOfGroup segments group g) path)
                           paths).
Proof.
  intros segments group.
  assert (groupsApart (FALLBACK_RADIUS 1000) segments group) as Hapart.
  { intros i j si sj ei ej Hi Hj Hg.
    destruct i as [|[|[|[|i]]]]; try discriminate Hi;
      destruct j as [|[|[|[|j]]]]; try discriminate Hj;
      try (exfalso; apply Hg; reflexivity);
      vm_compute in Hi, Hj; injection Hi as <-; injection Hj as <-;
      destruct ei, ej; vm_compute; reflexivity. }
  split; [exact Hapart|]. intros atan2.
  assert (graphPaths atan2 segments 1000 = Some []) as Hg
    by (vm_compute; reflexivity).
  split; [exact Hg|]. split; [vm_compute; reflexivity|].
  exact (proj2 (proj2 (proj2 (proj2
           (fallback_never_bridges atan2 Examples.two_far_pairs AxisZ 1000))))
           group Hapart Hg).
Defined.

(** *** Closure: the final pass and the second pass *)






Section WithAtan2.
Variable Math_atan2 : float → float → float.


End WithAtan2.

End PathProps.

(** ** StlSlicer: the bounds and [sliceModel] *)

Module SliceProps.
Import JsMath FloatOrder StlSlicer Termination Vocabulary FloatFacts Counter.

(** *** computePathBounds *)

Lemma scanBounds_concat (paths : list Path) :
  scanBounds paths = foldl boundsStep initialBounds (concat paths).
Proof.
  unfold scanBounds. generalize initialBounds.
  induction paths as [|path paths IH]; intros acc; [done|].
  simpl. by rewrite foldl_app, IH.
Qed.

Lemma computePathBounds_no_points (paths : list Path) :
  concat paths = [] → computePathBounds paths = zeroBounds.
Proof.
  intros H. unfold computePathBounds. rewrite scanBounds_concat, H. reflexivity.
Qed.

Lemma fkey_infinity : fkey infinity = Some (2, 0, 0)%Z.
Proof. reflexivity. Qed.

Lemma fkey_neg_infinity : fkey neg_infinity = Some (-2, 0, 0)%Z.
Proof. reflexivity. Qed.

Lemma running_min (xs seen : list float) (m : float) :
  Forall finiteNumber xs →
  (m = infinity ∧ seen = []) ∨ leastOf m seen →
  let r := foldl (λ m x, if (x <? m)%float then x else m) m xs in
  (r = infinity ∧ seen ++ xs = []) ∨ leastOf r (seen ++ xs).
Proof.
  revert seen m. induction xs as [|x xs IH]; intros seen m Hfin Hm.
  - simpl. by rewrite app_nil_r.
  - apply Forall_cons in Hfin as [[Hx1 Hx2] Hfin]. simpl.
    replace (seen ++ x :: xs) with ((seen ++ [x]) ++ xs) by (by rewrite <- app_assoc).
    apply IH; [done|]. right.
    destruct Hm as [[-> ->] | [Hin Hle]].
    + rewrite Hx2. split; [by left|]. intros y Hy.
      apply list_elem_of_singleton in Hy as ->. float_order.
    + destruct (x <? m)%float eqn:E.
      * split; [apply elem_of_app; right; by left|]. intros y Hy.
        apply elem_of_app in Hy as [Hy | Hy].
        -- specialize (Hle y Hy). float_order.
        -- apply list_elem_of_singleton in Hy as ->. float_order.
      * split; [apply elem_of_app; by left|]. intros y Hy.
        apply elem_of_app in Hy as [Hy | Hy]; [by apply Hle|].
        apply list_elem_of_singleton in Hy as ->.
        assert ((m <=? m)%float = true) as Hmm by (by apply Hle).
        float_order.
Qed.

Lemma running_max (xs seen : list float) (m : float) :
  Forall finiteNumber xs →
  (m = neg_infinity ∧ seen = []) ∨ greatestOf m seen →
  let r := foldl (λ m x, if (m <? x)%float then x else m) m xs in
  (r = neg_infinity ∧ seen ++ xs = []) ∨ greatestOf r (seen ++ xs).
Proof.
  revert seen m. induction xs as [|x xs IH]; intros seen m Hfin Hm.
  - simpl. by rewrite app_nil_r.
  - apply Forall_cons in Hfin as [[Hx1 Hx2] Hfin]. simpl.
    replace (seen ++ x :: xs) with ((seen ++ [x]) ++ xs) by (by rewrite <- app_assoc).
    apply IH; [done|]. right.
    destruct Hm as [[-> ->] | [Hin Hle]].
    + rewrite Hx1. split; [by left|]. intros y Hy.
      apply list_elem_of_singleton in Hy as ->. float_order.
    + destruct (m <? x)%float eqn:E.
      * split; [apply elem_of_app; right; by left|]. intros y Hy.
        apply elem_of_app in Hy as [Hy | Hy].
        -- specialize (Hle y Hy). float_order.
        -- apply list_elem_of_singleton in Hy as ->. float_order.
      * split; [apply elem_of_app; by left|]. intros y Hy.
        apply elem_of_app in Hy as [Hy | Hy]; [by apply Hle|].
        apply list_elem_of_singleton in Hy as ->.
        assert ((m <=? m)%float = true) as Hmm by (by apply Hle).
        float_order.
Qed.

Lemma scan_fields (pts : list Vector2.t) (acc : PathBounds) :
  minX (foldl boundsStep acc pts)
  = foldl (λ m x, if (x <? m)%float then x else m) (minX acc) (map Vector2.x pts)
  ∧ maxX (foldl boundsStep acc pts)
    = foldl (λ m x, if (m <? x)%float then x else m) (maxX acc) (map Vector2.x pts)
  ∧ minY (foldl boundsStep acc pts)
    = foldl (λ m x, if (x <? m)%float then x else m) (minY acc) (map Vector2.y pts)
  ∧ maxY (foldl boundsStep acc pts)
    = foldl (λ m x, if (m <? x)%float then x else m) (maxY acc) (map Vector2.y pts).
Proof.
  revert acc. induction pts as [|p pts IH]; intros acc; [done|].
  simpl. destruct (IH (boundsStep acc p)) as (-> & -> & -> & ->). done.
Qed.

(** The bounds of a layer whose points are all finite: each field is the
    least, respectively the greatest, coordinate over all points of all
    paths. *)
Lemma computePathBounds_spec (paths : list Path) :
  concat paths ≠ [] → Forall finitePoint (concat paths) →
  let b := computePathBounds paths in
  leastOf (minX b) (map Vector2.x (concat paths))
  ∧ greatestOf (maxX b) (map Vector2.x (concat paths))
  ∧ leastOf (minY b) (map Vector2.y (concat paths))
  ∧ greatestOf (maxY b) (map Vector2.y (concat paths)).
Proof.
  intros Hne Hfin. unfold computePathBounds. rewrite scanBounds_concat.
  set (pts := concat paths) in *.
  assert (Forall finiteNumber (map Vector2.x pts)) as Hx
    by (apply Forall_fmap; eapply Forall_impl; [exact Hfin | by intros p [? ?]]).
  assert (Forall finiteNumber (map Vector2.y pts)) as Hy
    by (apply Forall_fmap; eapply Forall_impl; [exact Hfin | by intros p [? ?]]).
  assert (map Vector2.x pts ≠ []) as Hnx by (by destruct pts).
  assert (map Vector2.y pts ≠ []) as Hny by (by destruct pts).
  destruct (scan_fields pts initialBounds) as (E1 & E2 & E3 & E4).
  cbn [initialBounds minX maxX minY maxY] in E1, E2, E3, E4.
  pose proof (running_min (map Vector2.x pts) [] infinity Hx (or_introl (conj eq_refl eq_refl)))
    as [[_ ?] | L1]; [done|].
  pose proof (running_max (map Vector2.x pts) [] neg_infinity Hx (or_introl (conj eq_refl eq_refl)))
    as [[_ ?] | L2]; [done|].
  pose proof (running_min (map Vector2.y pts) [] infinity Hy (or_introl (conj eq_refl eq_refl)))
    as [[_ ?] | L3]; [done|].
  pose proof (running_max (map Vector2.y pts) [] neg_infinity Hy (or_introl (conj eq_refl eq_refl)))
    as [[_ ?] | L4]; [done|].
  cbn [app] in L1, L2, L3, L4. rewrite <- E1 in L1. rewrite <- E2 in L2.
  rewrite <- E3 in L3. rewrite <- E4 in L4.
  assert ((minX (foldl boundsStep initialBounds pts) =? infinity)%float = false) as ->.
  { destruct L1 as [Hin _]. rewrite Forall_forall in Hx.
    destruct (Hx _ Hin) as [_ Hlt].
    apply not_true_iff_false. intros Heq.
    apply eqb_eq in Heq as (a & Ha & Hb). apply ltb_lt in Hlt.
    unfold num_lt in Hlt. rewrite Ha, Hb in Hlt. destruct a as [[? ?] ?].
    simpl in Hlt. lia. }
  done.
Qed.

(** *** sliceModel *)

Section WithAtan2.
Variable Math_atan2 : float → float → float.

Lemma createSlice_returns (s : StlSlicer.t) (position : float) (axis : Axis) :
  is_Some (geometry s) → is_Some (boundingBox s) → is_Some (bvhSlicer s) →
  ∃ paths, createSlice Math_atan2 s position axis = Returned paths.
Proof.
  intros [geo Hg] [box Hb] [tree Ht]. unfold createSlice. rewrite Hg, Hb, Ht.
  destruct (buildPaths_total Math_atan2
              (BVHSlicer.sliceAtPlane (BVHSlicer.mk tree geo) position axis) axis
              (Vector3.length (Box3.getSize box))) as [paths ->].
  eauto.
Qed.

Lemma sliceLayers_run (s : StlSlicer.t) (axis : Axis) (start adjusted count : float)
    (onProgress : bool) (n : nat) (fuel i : nat)
    (layers : list LayerData) (progress : list float) :
  is_Some (geometry s) → is_Some (boundingBox s) → is_Some (bvhSlicer s) →
  int_value count = Some (Z.of_nat n) →
  (Z.of_nat n ≤ 2 ^ 53)%Z →
  n - i ≤ fuel →
  ∃ more,
    sliceLayers Math_atan2 fuel s axis start adjusted count onProgress i layers progress
    = Returned (layers ++ more,
                progress ++ (if onProgress
                             then map (progressValue count) (seq i (n - i))
                             else []))
    ∧ length more = n - i
    ∧ ∀ k layer, more !! k = Some layer → layerOf Math_atan2 s axis start adjusted (i + k) layer.
Proof.
  intros Hg Hb Ht Hn Hsmall. revert i layers progress.
  induction fuel as [|fuel IH]; intros i layers progress Hfuel.
  - exists []. assert (n - i = 0) as -> by lia.
    assert (int_lt (Z.of_nat i) count = false) as Hlt
      by (rewrite (int_lt_value _ _ _ Hn); apply Z.ltb_ge; lia).
    simpl. rewrite Hlt, !app_nil_r. destruct onProgress; rewrite ?app_nil_r; done.
  - destruct (decide (i < n)) as [Hi | Hi].
    + assert (int_lt (Z.of_nat i) count = true) as Hlt
        by (rewrite (int_lt_value _ _ _ Hn); apply Z.ltb_lt; lia).
      destruct (createSlice_returns s (slicePosition start adjusted i) axis Hg Hb Ht)
        as [paths Hpaths].
      set (layer := {| index := i; paths := paths; z := slicePosition start adjusted i;
                       bounds := computePathBounds paths |}).
      destruct (IH (S i) (layers ++ [layer])
                   (if onProgress then progress ++ [progressValue count i] else progress))
        as (more & Hrun & Hlen & Hlayers); [lia|].
      exists (layer :: more). split; [|split].
      * cbn [sliceLayers]. rewrite Hlt, Hpaths. fold layer.
        rewrite (increment_below i) by lia. rewrite Hrun.
        rewrite <- app_assoc. cbn [app].
        replace (n - i) with (S (n - S i)) by lia. cbn [seq map].
        destruct onProgress; [by rewrite <- app_assoc | done].
      * simpl. lia.
      * intros [|k] l Hl.
        -- injection Hl as <-. rewrite Nat.add_0_r. done.
        -- replace (i + S k) with (S i + k) by lia. by apply Hlayers.
    + exists []. assert (n - i = 0) as -> by lia.
      assert (int_lt (Z.of_nat i) count = false) as Hlt
        by (rewrite (int_lt_value _ _ _ Hn); apply Z.ltb_ge; lia).
      cbn [sliceLayers]. rewrite Hlt, !app_nil_r.
      destruct onProgress; rewrite ?app_nil_r; done.
Qed.

(** A run on a loaded model whose layer count is the integer [n], one the
    counter can reach. *)
Lemma sliceModel_run (fuel : nat) (s : StlSlicer.t) (axis : Axis)
    (layerThickness : float) (onProgress : bool) (box : Box3.t) (n : nat) :
  loaded s → boundingBox s = Some box →
  let start := fst (axisRange axis box) in
  let end_ := snd (axisRange axis box) in
  let totalHeight := (end_ - start)%float in
  let count := calculatedLayerCount totalHeight layerThickness in
  let adjusted := adjustedLayerThickness totalHeight count in
  int_value count = Some (Z.of_nat n) → (Z.of_nat n ≤ 2 ^ 53)%Z → n ≤ fuel →
  ∃ run,
    sliceModel Math_atan2 fuel s axis layerThickness onProgress = Returned run
    ∧ length (run_layers run) = n
    ∧ (∀ i layer, run_layers run !! i = Some layer →
         layerOf Math_atan2 (run_slicer run) axis start adjusted i layer)
    ∧ run_progress run
      = (if onProgress then map (progressValue count) (seq 0 n) else [])
    ∧ boundingBox (run_slicer run) = boundingBox s
    ∧ bvhSlicer (run_slicer run) = bvhSlicer s
    ∧ (positionAttr <$> geometry (run_slicer run)) = (positionAttr <$> geometry s)
    ∧ ((∃ geo, geometry s = Some geo ∧ is_Some (indexAttr geo)) → run_slicer run = s).
Proof.
  intros ((geo & positions & Hgeo & Hpos) & _ & Hbvh) Hbox
         start end_ totalHeight count adjusted Hn Hsmall Hfuel.
  unfold sliceModel. rewrite Hgeo, Hbox, Hpos. cbv zeta.
  set (geo' := match indexAttr geo with
               | Some _ => geo
               | None => {| positionAttr := Some positions;
                            indexAttr := Some (identityIndices (positionCount positions)) |}
               end).
  set (s' := {| geometry := Some geo'; boundingBox := Some box;
                bvhSlicer := bvhSlicer s |}).
  assert (is_Some (indexAttr geo')) as [idx Hidx]
    by (unfold geo'; destruct (indexAttr geo) eqn:E; [rewrite E|]; eauto).
  rewrite Hidx.
  destruct (axisRange axis box) as [start0 end0] eqn:Hrange.
  cbn [fst snd] in start, end_.
  destruct (sliceLayers_run s' axis start adjusted count onProgress n fuel 0 [] [])
    as (more & Hrun & Hlen & Hlayers);
    [by eexists | by eexists | done | done | done | lia |].
  subst start end_. fold totalHeight. fold count. fold adjusted.
  rewrite Hrun. eexists. split; [reflexivity|]. cbn [run_layers run_progress run_slicer].
  rewrite Nat.sub_0_r in *.
  split; [done|]. split; [exact Hlayers|]. split; [done|].
  split; [cbn; congruence|]. split; [done|]. split.
  - cbn. unfold geo'. destruct (indexAttr geo); [done|]. cbn. by rewrite Hpos.
  - intros (geo0 & Hgeo0 & [idx0 Hidx0]).
    assert (geo0 = geo) as -> by congruence.
    unfold s', geo'. rewrite Hidx0. destruct s. cbn in *. congruence.
Qed.

(** Once the counter no longer advances while the loop test still passes,
    the loop never returns. *)
Lemma sliceLayers_stalled (s : StlSlicer.t) (axis : Axis) (start adjusted count : float)
    (onProgress : bool) (fuel i : nat) (layers : list LayerData)
    (progress : list float) (r : list LayerData * list float) :
  increment i = i → int_lt (Z.of_nat i) count = true →
  sliceLayers Math_atan2 fuel s axis start adjusted count onProgress i layers progress
  ≠ Returned r.
Proof.
  intros Hstall Hlt. revert layers progress.
  induction fuel as [|fuel IH]; intros layers progress;
    cbn [sliceLayers]; rewrite Hlt; [done|].
  destruct (createSlice _ _ _ _) as [paths| |]; [|done..].
  rewrite Hstall. apply IH.
Qed.

(** In a run that returns, the counter advanced by one at every
    iteration. *)
Lemma counter_advanced (s : StlSlicer.t) (axis : Axis) (start adjusted count : float)
    (onProgress : bool) (fuel i : nat) (layers : list LayerData)
    (progress : list float) (r : list LayerData * list float) :
  (Z.of_nat i ≤ 2 ^ 53)%Z → int_lt (Z.of_nat i) count = true →
  sliceLayers Math_atan2 fuel s axis start adjusted count onProgress (increment i)
    layers progress = Returned r →
  increment i = S i ∧ (Z.of_nat (S i) ≤ 2 ^ 53)%Z.
Proof.
  intros Hi Hlt Hrun.
  destruct (decide (Z.of_nat i = 2 ^ 53)%Z) as [Heq | Hne].
  - exfalso. pose proof (increment_stalls i Heq) as Hstall. rewrite Hstall in Hrun.
    by eapply sliceLayers_stalled.
  - split; [apply increment_below|]; lia.
Qed.

(** Whatever the layer count is, a run that returns has built its layers
    one per index from 0 on and reported once after each. *)
Lemma sliceLayers_inv (s : StlSlicer.t) (axis : Axis) (start adjusted count : float)
    (onProgress : bool) (fuel i : nat) (layers : list LayerData)
    (progress : list float) (ls : list LayerData) (ps : list float) :
  (Z.of_nat i ≤ 2 ^ 53)%Z →
  sliceLayers Math_atan2 fuel s axis start adjusted count onProgress i layers progress
  = Returned (ls, ps) →
  ∃ more,
    ls = layers ++ more
    ∧ (∀ k layer, more !! k = Some layer → layerOf Math_atan2 s axis start adjusted (i + k) layer)
    ∧ ps = progress ++ (if onProgress
                        then map (progressValue count) (seq i (length more))
                        else [])
    ∧ int_lt (Z.of_nat (i + length more)) count = false.
Proof.
  revert i layers progress.
  induction fuel as [|fuel IH]; intros i layers progress Hi.
  - cbn [sliceLayers]. destruct (int_lt _ count) eqn:Hlt; [discriminate|].
    intros [= <- <-]. exists []. rewrite !app_nil_r, Nat.add_0_r.
    split; [done|]. split; [by intros k l [=]|]. split; [|done].
    destruct onProgress; by rewrite ?app_nil_r.
  - cbn [sliceLayers]. destruct (int_lt _ count) eqn:Hlt.
    + destruct (createSlice _ _ _ _) as [paths| |] eqn:Hpaths; try discriminate.
      intros Hrun.
      destruct (counter_advanced _ _ _ _ _ _ _ _ _ _ _ Hi Hlt Hrun) as [Hnext Hi'].
      rewrite Hnext in Hrun.
      apply IH in Hrun as (more & -> & Hlayers & -> & Hstop); [|exact Hi'].
      eexists (_ :: more). split; [by rewrite <- app_assoc|]. split; [|split].
      * intros [|k] l Hl.
        -- injection Hl as <-. rewrite Nat.add_0_r. done.
        -- replace (i + S k) with (S i + k) by lia. by apply Hlayers.
      * cbn [length seq map]. destruct onProgress; [by rewrite <- app_assoc | done].
      * cbn [length]. by replace (i + S (length more)) with (S i + length more) by lia.
    + intros [= <- <-]. exists []. rewrite !app_nil_r, Nat.add_0_r.
      split; [done|]. split; [by intros k l [=]|]. split; [|done].
      destruct onProgress; by rewrite ?app_nil_r.
Qed.

Lemma sliceModel_inv (fuel : nat) (s : StlSlicer.t) (axis : Axis)
    (layerThickness : float) (onProgress : bool) (run : Run) :
  sliceModel Math_atan2 fuel s axis layerThickness onProgress = Returned run →
  ∃ geo positions box,
    geometry s = Some geo ∧ positionAttr geo = Some positions
    ∧ boundingBox s = Some box
    ∧ let start := fst (axisRange axis box) in
      let end_ := snd (axisRange axis box) in
      let totalHeight := (end_ - start)%float in
      let count := calculatedLayerCount totalHeight layerThickness in
      let adjusted := adjustedLayerThickness totalHeight count in
      (∀ i layer, run_layers run !! i = Some layer →
         layerOf Math_atan2 (run_slicer run) axis start adjusted i layer)
      ∧ run_progress run
        = (if onProgress
           then map (progressValue count) (seq 0 (length (run_layers run)))
           else [])
      ∧ int_lt (Z.of_nat (length (run_layers run))) count = false
      ∧ boundingBox (run_slicer run) = boundingBox s
      ∧ bvhSlicer (run_slicer run) = bvhSlicer s
      ∧ (positionAttr <$> geometry (run_slicer run)) = Some (Some positions)
      ∧ (is_Some (indexAttr geo) → run_slicer run = s).
Proof.
  unfold sliceModel.
  destruct (geometry s) as [geo|] eqn:Hgeo; [|discriminate].
  destruct (boundingBox s) as [box|] eqn:Hbox; [|discriminate].
  destruct (positionAttr geo) as [positions|] eqn:Hpos; [|discriminate].
  cbv zeta.
  set (geo' := match indexAttr geo with
               | Some _ => geo
               | None => {| positionAttr := Some positions;
                            indexAttr := Some (identityIndices (positionCount positions)) |}
               end).
  set (s' := {| geometry := Some geo'; boundingBox := Some box;
                bvhSlicer := bvhSlicer s |}).
  destruct (indexAttr geo') as [idx|] eqn:Hidx; [|discriminate].
  destruct (axisRange axis box) as [start end_] eqn:Hrange.
  destruct (sliceLayers _ _ _ _ _ _ _ _ _ _ _) as [[layers progress]| |] eqn:Hrun;
    try discriminate.
  intros [= <-]. exists geo, positions, box.
  split; [done|]. split; [done|]. split; [done|].
  rewrite Hrange. cbn [fst snd run_layers run_progress run_slicer].
  apply sliceLayers_inv in Hrun as (more & Hls & Hlayers & Hps & Hstop);
    [|change (Z.of_nat 0) with 0%Z; lia].
  cbn [app] in Hls, Hps. subst layers progress. cbn [Nat.add] in Hstop, Hlayers.
  split; [exact Hlayers|]. split; [done|]. split; [done|].
  split; [done|]. split; [done|]. split.
  - cbn. unfold geo'. destruct (indexAttr geo); [by rewrite Hpos | done].
  - intros [idx0 Hidx0]. unfold s', geo'. rewrite Hidx0.
    destruct s. cbn in *. congruence.
Qed.

(** Every layer of a completed run was built after the loop test passed
    for its index. *)
Lemma sliceLayers_passed (s : StlSlicer.t) (axis : Axis) (start adjusted count : float)
    (onProgress : bool) (fuel i : nat) (layers : list LayerData)
    (progress : list float) (ls : list LayerData) (ps : list float) :
  (Z.of_nat i ≤ 2 ^ 53)%Z →
  sliceLayers Math_atan2 fuel s axis start adjusted count onProgress i layers progress
  = Returned (ls, ps) →
  ∀ k, length layers ≤ k < length ls →
       int_lt (Z.of_nat (i + (k - length layers))) count = true.
Proof.
  revert i layers progress.
  induction fuel as [|fuel IH]; intros i layers progress Hi.
  - cbn [sliceLayers]. destruct (int_lt _ count) eqn:Hlt; [discriminate|].
    intros [= <- <-] k Hk. lia.
  - cbn [sliceLayers]. destruct (int_lt _ count) eqn:Hlt.
    + destruct (createSlice _ _ _ _) as [paths| |] eqn:Hpaths; try discriminate.
      intros Hrun k Hk.
      destruct (counter_advanced _ _ _ _ _ _ _ _ _ _ _ Hi Hlt Hrun) as [Hnext Hi'].
      rewrite Hnext in Hrun.
      destruct (decide (k = length layers)) as [-> | Hne].
      * by rewrite Nat.sub_diag, Nat.add_0_r.
      * specialize (IH _ _ _ Hi' Hrun k). rewrite length_app in IH. cbn [length] in IH.
        replace (i + (k - length layers)) with (S i + (k - (length layers + 1))) by lia.
        apply IH. lia.
    + intros [= <- <-] k Hk. lia.
Qed.

Lemma sliceModel_passed (fuel : nat) (s : StlSlicer.t) (axis : Axis)
    (layerThickness : float) (onProgress : bool) (run : Run) (box : Box3.t) :
  sliceModel Math_atan2 fuel s axis layerThickness onProgress = Returned run →
  boundingBox s = Some box →
  ∀ k, k < length (run_layers run) →
    int_lt (Z.of_nat k)
      (calculatedLayerCount (snd (axisRange axis box) - fst (axisRange axis box))
                            layerThickness) = true.
Proof.
  unfold sliceModel.
  destruct (geometry s) as [geo|] eqn:Hgeo; [|discriminate].
  destruct (boundingBox s) as [box'|] eqn:Hbox; [|discriminate].
  destruct (positionAttr geo) as [positions|] eqn:Hpos; [|discriminate].
  cbv zeta.
  destruct (indexAttr _) as [idx|] eqn:Hidx; [|discriminate].
  destruct (axisRange axis box') as [start end_] eqn:Hrange.
  destruct (sliceLayers _ _ _ _ _ _ _ _ _ _ _) as [[layers progress]| |] eqn:Hrun;
    try discriminate.
  intros [= <-] [= <-] k Hk. rewrite Hrange. cbn [fst snd run_layers] in *.
  assert (Z.of_nat 0 ≤ 2 ^ 53)%Z as H0 by (change (Z.of_nat 0) with 0%Z; lia).
  pose proof (sliceLayers_passed _ _ _ _ _ _ _ _ _ _ _ _ H0 Hrun k) as H.
  cbn [length Nat.add] in H. rewrite Nat.sub_0_r in H. apply H. lia.
Qed.

Lemma createSlice_empty (s : StlSlicer.t) (position : float) (axis : Axis)
    (geo : BufferGeometry) (tree : MeshBVH) :
  geometry s = Some geo → bvhSlicer s = Some tree → is_Some (boundingBox s) →
  BVHSlicer.sliceAtPlane (BVHSlicer.mk tree geo) position axis = [] →
  createSlice Math_atan2 s position axis = Returned [].
Proof.
  intros Hg Ht [box Hb] He. unfold createSlice. by rewrite Hg, Ht, He, Hb.
Qed.

(** C6.  In every layer a run returns, [bounds] is [computePathBounds] of
    the layer's own paths, which are the paths [createSlice] built at the
    layer's position.  The scan gives all-zero bounds when the paths hold no
    point and, when all points are finite, the least and the greatest
    coordinate over every point of every path.  When the plane of the layer
    intersects no triangle, [createSlice] returned without throwing, the
    layer has no path and its bounds are all zero. *)
Theorem layer_bounds_are_scanned (fuel : nat) (s : StlSlicer.t) (axis : Axis)
    (layerThickness : float) (onProgress : bool) (run : Run) :
  sliceModel Math_atan2 fuel s axis layerThickness onProgress = Returned run →
  ∀ layer, layer ∈ run_layers run →
    bounds layer = computePathBounds (paths layer)
    ∧ createSlice Math_atan2 (run_slicer run) (z layer) axis = Returned (paths layer)
    ∧ (concat (paths layer) = [] → bounds layer = zeroBounds)
    ∧ (concat (paths layer) ≠ [] → Forall finitePoint (concat (paths layer)) →
       leastOf (minX (bounds layer)) (map Vector2.x (concat (paths layer)))
       ∧ greatestOf (maxX (bounds layer)) (map Vector2.x (concat (paths layer)))
       ∧ leastOf (minY (bounds layer)) (map Vector2.y (concat (paths layer)))
       ∧ greatestOf (maxY (bounds layer)) (map Vector2.y (concat (paths layer))))
    ∧ (∀ geo tree,
         geometry (run_slicer run) = Some geo →
         bvhSlicer (run_slicer run) = Some tree →
         BVHSlicer.sliceAtPlane (BVHSlicer.mk tree geo) (z layer) axis = [] →
         paths layer = [] ∧ bounds layer = zeroBounds).
Proof.
  intros Hrun layer Hin.
  apply sliceModel_inv in Hrun
    as (geo & positions & box & Hgeo & Hpos & Hbox & Hlayers & _ & _ & Hbox' & _).
  apply list_elem_of_lookup in Hin as [i Hi].
  destruct (Hlayers i layer Hi) as (_ & _ & Hslice & Hbounds).
  split; [done|]. split; [done|]. split; [|split].
  - intros Hempty. rewrite Hbounds. by apply computePathBounds_no_points.
  - intros Hne Hfin. rewrite Hbounds. by apply computePathBounds_spec.
  - intros geo' tree Hg Ht Hnone.
    assert (is_Some (boundingBox (run_slicer run))) as Hb by (rewrite Hbox', Hbox; eauto).
    rewrite (createSlice_empty _ _ _ _ _ Hg Ht Hb Hnone) in Hslice.
    injection Hslice as Hp. split; [done|]. by rewrite Hbounds, <- Hp.
Qed.

(** C9.  When a run completes, the bounding box and the hierarchy held by
    the slicer are the ones it was given and the position buffer of the
    geometry is unchanged; when the geometry has an index list the whole
    slicer state is as before the call, and so it is for every model loaded
    by [loadSTL] or [loadFromBuffers]. *)
Theorem sliceModel_leaves_mesh_unchanged (fuel : nat) (s : StlSlicer.t)
    (axis : Axis) (layerThickness : float) (onProgress : bool) (run : Run) :
  sliceModel Math_atan2 fuel s axis layerThickness onProgress = Returned run →
  boundingBox (run_slicer run) = boundingBox s
  ∧ bvhSlicer (run_slicer run) = bvhSlicer s
  ∧ (positionAttr <$> geometry (run_slicer run)) = (positionAttr <$> geometry s)
  ∧ ((∃ geo, geometry s = Some geo ∧ is_Some (indexAttr geo)) → run_slicer run = s)
  ∧ (∀ MeshBVH_new positionArray indexArray boundingBoxMin boundingBoxMax,
       s = loadFromBuffers MeshBVH_new positionArray indexArray
                           boundingBoxMin boundingBoxMax →
       run_slicer run = s)
  ∧ (∀ MeshBVH_new parsed computedBox,
       s = loadSTL MeshBVH_new parsed computedBox → run_slicer run = s).
Proof.
  intros Hrun.
  apply sliceModel_inv in Hrun
    as (geo & positions & box & Hgeo & Hpos & Hbox & _ & _ & _ & Hb & Ht & Hp & Hsame).
  split; [done|]. split; [done|]. split; [by rewrite Hp, Hgeo, <- Hpos|].
  split; [|split].
  - intros (geo0 & Hgeo0 & Hidx). apply Hsame. congruence.
  - intros MeshBVH_new positionArray indexArray bmin bmax ->.
    apply Hsame. cbn in Hgeo. injection Hgeo as <-. cbn. eauto.
  - intros MeshBVH_new parsed computedBox ->.
    apply Hsame. cbn in Hgeo. injection Hgeo as <-. revert Hpos.
    unfold BVHSlicer.ensureIndex.
    destruct (indexAttr parsed) as [idx|] eqn:Hidx.
    + rewrite Hidx. eauto.
    + destruct (positionAttr parsed) as [pos|] eqn:Hpp; cbn.
      * eauto.
      * rewrite Hidx, Hpp. by rewrite Hpp.
Qed.

(** C8.  In a run with a progress callback that completes, the callback
    has been called once after each layer, in order: the call after layer
    [i] (counted from 0) passes [((i + 1) / layerCount) * 100], computed in
    binary64 arithmetic, where [layerCount] is the computed layer count,
    which is the number of layers returned.  The values passed never
    decrease, and the last one is exactly 100. *)
Theorem progress_reports_rise_to_100 (fuel : nat) (s : StlSlicer.t) (axis : Axis)
    (layerThickness : float) (run : Run) :
  sliceModel Math_atan2 fuel s axis layerThickness true = Returned run →
  ∃ box,
    boundingBox s = Some box
    ∧ let count :=
        calculatedLayerCount (snd (axisRange axis box) - fst (axisRange axis box))
                             layerThickness in
      length (run_progress run) = length (run_layers run)
      ∧ (∀ i, i < length (run_layers run) →
           run_progress run !! i = Some (Number_of_nat (i + 1) / count * 100)%float)
      ∧ (run_layers run ≠ [] → Number_of_nat (length (run_layers run)) = count)
      ∧ (∀ i j x y, i ≤ j →
           run_progress run !! i = Some x → run_progress run !! j = Some y →
           (x <=? y)%float = true)
      ∧ (∀ x, last (run_progress run) = Some x → x = 100%float).
Proof.
  intros Hrun.
  destruct (sliceModel_inv _ _ _ _ _ _ Hrun)
    as (geo & positions & box & _ & _ & Hbox & _ & Hprogress & Hstop & _).
  pose proof (sliceModel_passed _ _ _ _ _ _ box Hrun Hbox) as Hpassed.
  exists box. split; [exact Hbox|]. cbv zeta in *.
  set (count := calculatedLayerCount _ layerThickness) in *.
  set (n := length (run_layers run)) in *.
  assert (∀ i, i < n →
            run_progress run !! i = Some (Number_of_nat (i + 1) / count * 100)%float)
    as Hat.
  { intros i Hi. rewrite Hprogress, list_lookup_fmap, lookup_seq_lt by done. reflexivity. }
  assert (0 < n → int_value count = Some (Z.of_nat n)) as Hcount.
  { intros Hn. apply Progress.count_from_tests.
    - replace (Z.of_nat n - 1)%Z with (Z.of_nat (n - 1)) by lia. apply Hpassed. lia.
    - exact Hstop. }
  split; [by rewrite Hprogress, length_map, length_seq|].
  split; [exact Hat|]. split; [|split].
  - intros Hne. assert (0 < n) as Hn by (subst n; destruct (run_layers run); [done | cbn; lia]).
    apply Progress.Number_of_Z_int_value; [by apply Hcount | lia].
  - intros i j x y Hij Hx Hy.
    assert (j < n) as Hj.
    { apply lookup_lt_Some in Hy. by rewrite Hprogress, length_map, length_seq in Hy. }
    rewrite Hat in Hx by lia. rewrite Hat in Hy by lia.
    injection Hx as <-. injection Hy as <-.
    apply (Progress.progress_monotone count (Z.of_nat n)); [apply Hcount| | |]; lia.
  - intros x Hx. rewrite last_lookup in Hx.
    assert (length (run_progress run) = n) as Hlen
      by (by rewrite Hprogress, length_map, length_seq).
    rewrite Hlen in Hx.
    assert (0 < n) as Hn.
    { destruct n; [|lia]. apply lookup_lt_Some in Hx. lia. }
    rewrite Hat in Hx by lia. injection Hx as <-.
    replace (Init.Nat.pred n + 1) with n by lia.
    apply (Progress.progress_final count (Z.of_nat n)); [by apply Hcount | lia].
Qed.

End WithAtan2.

Lemma cube_loaded : loaded Examples.cube.
Proof. split; [|split]; cbn; eauto. Qed.

(** C1.  The cube of side 100 (its vertex coordinates are single-precision
    values), sliced along z with layer thickness 8.5:
    the run returns [12 = max(2, ceil(100 / 8.5))] layers, layer [i] has
    index [i] and lies at [start + i * adjusted] with
    [adjusted = 100 / (12 - 1)], and the first layer lies at [start = 0].
    The last layer does not lie at [end = 100]: its position
    [0 + 11 * adjusted] is 100.00000000000001, above the bounding box, so it
    has no path and all-zero bounds, whereas the plane at [end] cuts 8
    triangles of the cube. *)
Theorem last_layer_overshoots_end (atan2 : float → float → float) :
  ∃ run,
    sliceModel atan2 12 Examples.cube AxisZ 8.5 false = Returned run
    ∧ forallb Examples.single_precision (Examples.coordinates Examples.cube_vertices)
      = true
    ∧ calculatedLayerCount (100 - 0) 8.5 = 12%float
    ∧ length (run_layers run) = 12
    ∧ (∀ i layer, run_layers run !! i = Some layer →
         index layer = i
         ∧ z layer = slicePosition 0 (adjustedLayerThickness (100 - 0) 12) i)
    ∧ ∃ first final,
        head (run_layers run) = Some first ∧ z first = 0%float
        ∧ last (run_layers run) = Some final
        ∧ z final = 100.00000000000001%float
        ∧ (100 <? z final)%float = true
        ∧ paths final = [] ∧ bounds final = zeroBounds
        ∧ length (BVHSlicer.sliceAtPlane
                    (BVHSlicer.mk Examples.cube_bvh Examples.cube_geometry) 100 AxisZ)
          = 8.
Proof.
  destruct (sliceModel_run atan2 12 Examples.cube AxisZ 8.5 false Examples.cube_box 12)
    as (run & Hrun & Hlen & Hlayers & _ & _ & _ & _ & Hsame);
    [apply cube_loaded | reflexivity | vm_compute; reflexivity | lia | lia |].
  rewrite Hsame in Hlayers
    by (exists Examples.cube_geometry; split; [reflexivity | cbn; eauto]).
  exists run. split; [exact Hrun|]. split; [vm_compute; reflexivity|].
  split; [vm_compute; reflexivity|]. split; [exact Hlen|]. split.
  { intros i layer Hi. destruct (Hlayers i layer Hi) as (Hidx & Hz & _).
    split; [exact Hidx|]. rewrite Hz. reflexivity. }
  destruct (lookup_lt_is_Some_2 (run_layers run) 0) as [first Hfirst]; [lia|].
  destruct (lookup_lt_is_Some_2 (run_layers run) 11) as [final Hfinal]; [lia|].
  exists first, final.
  destruct (Hlayers 0 first Hfirst) as (_ & Hz0 & _).
  destruct (Hlayers 11 final Hfinal) as (_ & Hz & Hslice & Hbounds).
  assert (z final = 100.00000000000001%float) as Hz'
    by (rewrite Hz; vm_compute; reflexivity).
  rewrite Hz' in Hslice.
  assert (createSlice atan2 Examples.cube 100.00000000000001 AxisZ = Returned [])
    as Hnone by (vm_compute; reflexivity).
  rewrite Hnone in Hslice. injection Hslice as Hpaths.
  split; [rewrite head_lookup; exact Hfirst|].
  split; [rewrite Hz0; vm_compute; reflexivity|].
  split; [rewrite last_lookup, Hlen; exact Hfinal|]. split; [exact Hz'|].
  split; [rewrite Hz'; vm_compute; reflexivity|]. split; [congruence|].
  split; [rewrite Hbounds, <- Hpaths; reflexivity|]. vm_compute; reflexivity.
Qed.

(** The cube sliced along z with layer thickness 25: for any [atan2] the
    run returns (4 layers), so the theorems on completed runs apply. *)
Lemma cube_run (atan2 : float → float → float) (onProgress : bool) :
  ∃ run, sliceModel atan2 5 Examples.cube AxisZ 25 onProgress = Returned run
         ∧ length (run_layers run) = 4.
Proof.
  destruct (sliceModel_run atan2 5 Examples.cube AxisZ 25 onProgress Examples.cube_box 4)
    as (run & Hrun & Hlen & _);
    [apply cube_loaded | reflexivity | vm_compute; reflexivity | lia | lia |].
  exists run. exact (conj Hrun Hlen).
Qed.

Lemma layer_bounds_are_scanned_witness :
  loaded Examples.cube
  ∧ ∀ atan2, ∃ run,
      sliceModel atan2 5 Examples.cube AxisZ 25 true = Returned run
      ∧ length (run_layers run) = 4
      ∧ ∀ layer, layer ∈ run_layers run →
          bounds layer = computePathBounds (paths layer)
          ∧ (concat (paths layer) = [] → bounds layer = zeroBounds).
Proof.
  split; [apply cube_loaded|]. intros atan2.
  destruct (cube_run atan2 true) as (run & Hrun & Hlen).
  exists run. split; [exact Hrun|]. split; [exact Hlen|]. intros layer Hin.
  destruct (layer_bounds_are_scanned atan2 5 Examples.cube AxisZ 25 true run Hrun
              layer Hin) as (Hbounds & _ & Hzero & _).
  exact (conj Hbounds Hzero).
Defined.

Lemma sliceModel_leaves_mesh_unchanged_witness :
  loaded Examples.cube
  ∧ ∀ atan2, ∃ run,
      sliceModel atan2 5 Examples.cube AxisZ 25 true = Returned run
      ∧ boundingBox (run_slicer run) = Some Examples.cube_box
      ∧ bvhSlicer (run_slicer run) = Some Examples.cube_bvh
      ∧ geometry (run_slicer run) = Some Examples.cube_geometry.
Proof.
  split; [apply cube_loaded|]. intros atan2.
  destruct (cube_run atan2 true) as (run & Hrun & _).
  exists run. split; [exact Hrun|].
  destruct (sliceModel_leaves_mesh_unchanged atan2 5 Examples.cube AxisZ 25 true run Hrun)
    as (Hbox & Hbvh & _ & Hsame & _).
  rewrite Hsame by (exists Examples.cube_geometry; split; [reflexivity | cbn; eauto]).
  repeat split; reflexivity.
Defined.

(** The theorem at the cube sliced along z with thickness 25: four layers,
    and the reports are 25, 50, 75, 100. *)
Lemma progress_reports_rise_to_100_witness :
  loaded Examples.cube
  ∧ ∀ atan2, ∃ run,
      sliceModel atan2 5 Examples.cube AxisZ 25 true = Returned run
      ∧ run_progress run = [25; 50; 75; 100]%float
      ∧ (∀ x, last (run_progress run) = Some x → x = 100%float).
Proof.
  split; [apply cube_loaded|]. intros atan2.
  destruct (sliceModel_run atan2 5 Examples.cube AxisZ 25 true Examples.cube_box 4)
    as (run & Hrun & _ & _ & Hprogress & _);
    [apply cube_loaded | reflexivity | vm_compute; reflexivity | lia | lia |].
  exists run. split; [exact Hrun|]. split; [exact Hprogress|].
  destruct (progress_reports_rise_to_100 atan2 5 Examples.cube AxisZ 25 run Hrun)
    as (box & _ & _ & _ & _ & _ & Hlast).
  exact Hlast.
Defined.

End SliceProps.

(* ===================================================================== *)
(** ** Further properties

  The hierarchy and the triangles ([MeshProps]), the point graph, the
  order of the start nodes, the provenance of the points and the fallback
  ([GraphProps]), the steps and the points of the paths of the graph
  passes ([StepProps]), the tolerances ([Tolerances]), the runs of
  [sliceModel] and the getters ([RunProps]), and the worker with its
  client ([WorkerProps]). *)
(* ===================================================================== *)

Module MeshProps.
Import JsMath FloatOrder Rounding BVHSlicer Vocabulary BVHSlicerProps.

(** *** The pruned traversal *)

Lemma vertexInBox_axis (box : Box3.t) (v : Vector3.t) (axis : Axis) :
  vertexInBox box v = true →
  (axisCoord axis (Box3.min box) <=? axisCoord axis v)%float = true
  ∧ (axisCoord axis v <=? axisCoord axis (Box3.max box))%float = true.
Proof.
  unfold vertexInBox. cbn [forallb]. rewrite !andb_true_iff.
  intros ([? ?] & [? ?] & [? ?] & _). by destruct axis.
Qed.

Lemma straddles_bounds (a b position lo hi : float) :
  straddles a b position = true →
  (lo <=? a)%float = true → (a <=? hi)%float = true →
  (lo <=? b)%float = true → (b <=? hi)%float = true →
  (lo <=? position)%float = true ∧ (position <=? hi)%float = true.
Proof.
  unfold straddles. rewrite orb_true_iff, !andb_true_iff.
  intros [[H1 H2] | [H1 H2]] Ha Ha' Hb Hb'; split.
  - exact (leb_trans _ _ _ Ha H1).
  - exact (leb_trans _ _ _ H2 Hb').
  - exact (leb_trans _ _ _ Hb H2).
  - exact (leb_trans _ _ _ H1 Ha').
Qed.

Lemma checkEdge_bounds (position : float) (axis : Axis) (box : Box3.t)
    (v w : Vector3.t) :
  is_Some (checkEdge position axis v w) →
  vertexInBox box v = true → vertexInBox box w = true →
  intersectsBounds position axis box = true.
Proof.
  unfold checkEdge. destruct (straddles _ _ _) eqn:Hs; [|by intros [? ?]].
  intros _ Hv Hw.
  destruct (vertexInBox_axis box v axis Hv), (vertexInBox_axis box w axis Hw).
  unfold intersectsBounds. apply andb_true_iff.
  by eapply straddles_bounds.
Qed.

Lemma intersectsTriangle_raw (position : float) (axis : Axis) (tri : Triangle) :
  is_Some (intersectsTriangle position axis tri) →
  rawIntersections position axis tri ≠ [].
Proof.
  unfold intersectsTriangle.
  destruct (rawIntersections position axis tri); [cbn; by intros [? [=]] | done].
Qed.

Lemma intersectsTriangle_bounds (position : float) (axis : Axis) (box : Box3.t)
    (tri : Triangle) :
  is_Some (intersectsTriangle position axis tri) →
  triangleInBox box tri = true →
  intersectsBounds position axis box = true.
Proof.
  intros Hsome Hin. apply intersectsTriangle_raw in Hsome.
  unfold triangleInBox in Hin. apply andb_true_iff in Hin as [Hin Hc].
  apply andb_true_iff in Hin as [Ha Hb].
  unfold rawIntersections in Hsome.
  destruct (checkEdge position axis (tri_a tri) (tri_b tri)) eqn:E1;
    [eapply checkEdge_bounds; [rewrite E1| |]; eauto|].
  destruct (checkEdge position axis (tri_b tri) (tri_c tri)) eqn:E2;
    [eapply checkEdge_bounds; [rewrite E2| |]; eauto|].
  destruct (checkEdge position axis (tri_c tri) (tri_a tri)) eqn:E3;
    [eapply checkEdge_bounds; [rewrite E3| |]; eauto|].
  done.
Qed.

Lemma omap_pruned (position : float) (axis : Axis) (box : Box3.t) (tris : list Triangle) :
  forallb (triangleInBox box) tris = true →
  intersectsBounds position axis box = false →
  omap (intersectsTriangle position axis) tris = [].
Proof.
  intros Hall Hout. induction tris as [|tri tris IH]; [done|].
  cbn in Hall. apply andb_true_iff in Hall as [Hin Hall]. cbn.
  destruct (intersectsTriangle position axis tri) eqn:E.
  - assert (intersectsBounds position axis box = true) as Hb
      by (eapply intersectsTriangle_bounds; [rewrite E|]; eauto).
    congruence.
  - by apply IH.
Qed.

Lemma shapecast_all (position : float) (axis : Axis) (bvh : MeshBVH) :
  boxesBound bvh = true →
  shapecast bvh (intersectsBounds position axis) (intersectsTriangle position axis)
  = omap (intersectsTriangle position axis) (trianglesOfBVH bvh).
Proof.
  induction bvh as [box tris | box l IHl r IHr]; cbn [boxesBound shapecast trianglesOfBVH].
  - intros Hall. destruct (intersectsBounds position axis box) eqn:Hb; [done|].
    symmetry. by eapply omap_pruned.
  - rewrite !andb_true_iff. intros [[Hall Hl] Hr].
    destruct (intersectsBounds position axis box) eqn:Hb.
    + by rewrite IHl, IHr, omap_app.
    + symmetry. by eapply omap_pruned.
Qed.

Lemma shapecast_sublist (position : float) (axis : Axis) (bvh : MeshBVH) :
  sublist (shapecast bvh (intersectsBounds position axis) (intersectsTriangle position axis))
          (omap (intersectsTriangle position axis) (trianglesOfBVH bvh)).
Proof.
  induction bvh as [box tris | box l IHl r IHr]; cbn [shapecast trianglesOfBVH].
  - destruct (intersectsBounds position axis box); [done | apply sublist_nil_l].
  - destruct (intersectsBounds position axis box); [|apply sublist_nil_l].
    rewrite omap_app. by apply sublist_app.
Qed.

Lemma intersectsTriangle_length (position : float) (axis : Axis) (tri : Triangle)
    (seg : list Vector3.t) :
  intersectsTriangle position axis tri = Some seg → length seg = 2.
Proof.
  unfold intersectsTriangle.
  destruct (length (rawIntersections position axis tri) =? 2)%nat eqn:E2.
  - intros [= <-]. by apply Nat.eqb_eq.
  - destruct (length (rawIntersections position axis tri) =? 3)%nat; [|done].
    destruct (length (dedupPoints _) =? 2)%nat eqn:Ed; [|done].
    intros [= <-]. by apply Nat.eqb_eq.
Qed.

Lemma sliceAtPlane_sublist (s : BVHSlicer.t) (position : float) (axis : Axis) :
  sublist (sliceAtPlane s position axis)
          (omap (intersectsTriangle position axis) (trianglesOfBVH (bvh s))).
Proof.
  unfold sliceAtPlane. destruct (positionAttr _); [|apply sublist_nil_l].
  destruct (indexAttr _); [|apply sublist_nil_l]. apply shapecast_sublist.
Qed.

Lemma sliceAtPlane_from_triangles (s : BVHSlicer.t) (position : float) (axis : Axis)
    (seg : list Vector3.t) :
  seg ∈ sliceAtPlane s position axis →
  ∃ tri, tri ∈ trianglesOfBVH (bvh s)
         ∧ intersectsTriangle position axis tri = Some seg.
Proof.
  intros Hin. eapply elem_of_sublist in Hin; [|apply sliceAtPlane_sublist].
  by apply list_elem_of_omap in Hin.
Qed.

(** X9.  When every box of the hierarchy contains the triangles stored
    beneath it, the traversal pruned by [intersectsBounds] loses nothing:
    [sliceAtPlane] returns exactly the segments that testing every
    triangle of the hierarchy, in order, would give. *)
Theorem sliceAtPlane_accelerated (s : BVHSlicer.t) (position : float) (axis : Axis) :
  boxesBound (bvh s) = true →
  is_Some (positionAttr (geometry s)) → is_Some (indexAttr (geometry s)) →
  sliceAtPlane s position axis
  = omap (intersectsTriangle position axis) (trianglesOfBVH (bvh s)).
Proof.
  intros Hb [p Hp] [i Hi]. unfold sliceAtPlane. rewrite Hp, Hi. by apply shapecast_all.
Qed.

(** X8.  Whatever the hierarchy, [sliceAtPlane] returns, in traversal
    order, segments that [intersectsTriangle] yields for triangles of the
    hierarchy, and every one of them has exactly two points.  It returns
    no segment when the geometry lacks its position or its index attribute,
    or when the position is [NaN]. *)
Theorem sliceAtPlane_segments (s : BVHSlicer.t) (position : float) (axis : Axis) :
  sublist (sliceAtPlane s position axis)
          (omap (intersectsTriangle position axis) (trianglesOfBVH (bvh s)))
  ∧ (∀ seg, seg ∈ sliceAtPlane s position axis →
       length seg = 2
       ∧ ∃ tri, tri ∈ trianglesOfBVH (bvh s)
                ∧ intersectsTriangle position axis tri = Some seg)
  ∧ (positionAttr (geometry s) = None ∨ indexAttr (geometry s) = None →
     sliceAtPlane s position axis = [])
  ∧ (is_nan position = true → sliceAtPlane s position axis = []).
Proof.
  split; [apply sliceAtPlane_sublist|]. split; [|split].
  - intros seg Hin. destruct (sliceAtPlane_from_triangles _ _ _ _ Hin) as (tri & Htri & Hseg).
    split; [by eapply intersectsTriangle_length | eauto].
  - unfold sliceAtPlane. intros [-> | ->]; [done|]. by destruct (positionAttr _).
  - intros Hnan. unfold sliceAtPlane. destruct (positionAttr _); [|done].
    destruct (indexAttr _); [|done].
    assert (∀ box, intersectsBounds position axis box = false) as Hout.
    { intros box. unfold intersectsBounds. apply andb_false_iff. right.
      apply not_true_iff_false. intros H. apply leb_not_nan_l in H. congruence. }
    destruct (bvh s); cbn [shapecast]; by rewrite Hout.
Qed.

(** The theorem at the hierarchy of the cube, cut at half height. *)
Lemma sliceAtPlane_accelerated_witness :
  boxesBound Examples.cube_bvh = true
  ∧ sliceAtPlane (BVHSlicer.mk Examples.cube_bvh Examples.cube_geometry) 50 AxisZ
    = omap (intersectsTriangle 50 AxisZ) (trianglesOfBVH Examples.cube_bvh).
Proof.
  split; [vm_compute; reflexivity|].
  apply sliceAtPlane_accelerated;
    [vm_compute; reflexivity | eexists; reflexivity | eexists; reflexivity].
Defined.

(** *** A triangle against the plane *)

Lemma sameSide_straddles (position a b : float) :
  sameSide position a b = true → straddles a b position = false.
Proof.
  unfold sameSide, straddles. rewrite orb_true_iff, !andb_true_iff.
  intros [[H1 H2] | [H1 H2]]; apply orb_false_iff; split; apply andb_false_iff.
  - right. apply leb_false. apply ltb_lt in H2. float_order.
  - left. apply leb_false. apply ltb_lt in H1. float_order.
  - left. apply leb_false. apply ltb_lt in H1. float_order.
  - right. apply leb_false. apply ltb_lt in H2. float_order.
Qed.

Lemma crosses_straddles (position a b : float) :
  crosses position a b = true → straddles a b position = true.
Proof.
  unfold crosses, straddles. rewrite !orb_true_iff, !andb_true_iff.
  intros [[H1 H2] | [H1 H2]]; [left | right]; split; by apply ltb_leb.
Qed.

Lemma checkEdge_sameSide (position : float) (axis : Axis) (start end_ : Vector3.t) :
  sameSide position (axisCoord axis start) (axisCoord axis end_) = true →
  checkEdge position axis start end_ = None.
Proof. intros H. unfold checkEdge. by rewrite (sameSide_straddles _ _ _ H). Qed.

Lemma checkEdge_crosses (position : float) (axis : Axis) (start end_ : Vector3.t) :
  crosses position (axisCoord axis start) (axisCoord axis end_) = true →
  longEnough axis start end_ = true →
  checkEdge position axis start end_ = Some (crossing position axis start end_).
Proof.
  intros H Hlong. unfold checkEdge, longEnough in *. rewrite (crosses_straddles _ _ _ H).
  apply negb_true_iff in Hlong. by rewrite Hlong.
Qed.

(** X10.  A triangle whose three vertices lie strictly on one side of the
    plane yields no segment.  A triangle with one vertex strictly on one
    side and the other two strictly on the other yields exactly one
    segment, from the crossing of one of the two edges at the lone vertex
    to the crossing of the other, provided both edges pass the guard on the
    denominator. *)
Theorem triangle_crossing_the_plane (position : float) (axis : Axis) (tri : Triangle) :
  let v1 := tri_a tri in
  let v2 := tri_b tri in
  let v3 := tri_c tri in
  let a := axisCoord axis v1 in
  let b := axisCoord axis v2 in
  let c := axisCoord axis v3 in
  (sameSide position a b = true → sameSide position b c = true →
   intersectsTriangle position axis tri = None)
  ∧ (crosses position a b = true → crosses position c a = true →
     longEnough axis v1 v2 = true → longEnough axis v3 v1 = true →
     intersectsTriangle position axis tri
     = Some [crossing position axis v1 v2; crossing position axis v3 v1])
  ∧ (crosses position a b = true → crosses position b c = true →
     longEnough axis v1 v2 = true → longEnough axis v2 v3 = true →
     intersectsTriangle position axis tri
     = Some [crossing position axis v1 v2; crossing position axis v2 v3])
  ∧ (crosses position b c = true → crosses position c a = true →
     longEnough axis v2 v3 = true → longEnough axis v3 v1 = true →
     intersectsTriangle position axis tri
     = Some [crossing position axis v2 v3; crossing position axis v3 v1]).
Proof.
  intros v1 v2 v3 a b c.
  assert (∀ x y z, crosses position x y = true → crosses position z x = true →
                   sameSide position y z = true) as Hthird.
  { intros x y z. unfold crosses, sameSide.
    rewrite !orb_true_iff, !andb_true_iff.
    intros [[H1 H2] | [H1 H2]] [[H3 H4] | [H3 H4]]; auto.
    - apply ltb_lt in H1, H4. exfalso. float_order.
    - apply ltb_lt in H2, H3. exfalso. float_order. }
  assert (∀ x y z, sameSide position x y = true → sameSide position y z = true →
                   sameSide position z x = true) as Hall.
  { intros x y z. unfold sameSide. rewrite !orb_true_iff, !andb_true_iff.
    intros [[H1 H2] | [H1 H2]] [[H3 H4] | [H3 H4]]; auto.
    - apply ltb_lt in H2, H3. exfalso. float_order.
    - apply ltb_lt in H2, H3. exfalso. float_order. }
  assert (∀ x y, crosses position x y = true → crosses position y x = true) as Hsym.
  { intros x y. unfold crosses. rewrite !orb_true_iff. tauto. }
  assert (∀ x y, sameSide position x y = true → sameSide position y x = true) as Hside.
  { intros x y. unfold sameSide. rewrite !orb_true_iff, !andb_true_iff. tauto. }
  unfold intersectsTriangle, rawIntersections. fold v1 v2 v3.
  split; [|split; [|split]].
  - intros Hab Hbc. pose proof (Hall _ _ _ Hab Hbc) as Hca.
    by rewrite !checkEdge_sameSide.
  - intros Hab Hca L1 L3. pose proof (Hthird _ _ _ Hab Hca) as Hbc.
    by rewrite (checkEdge_sameSide _ _ v2 v3), !checkEdge_crosses.
  - intros Hab Hbc L1 L2.
    pose proof (Hthird _ _ _ (Hsym _ _ Hab) (Hsym _ _ Hbc)) as Hac.
    apply Hside in Hac.
    by rewrite (checkEdge_sameSide _ _ v3 v1), !checkEdge_crosses.
  - intros Hbc Hca L2 L3. pose proof (Hthird _ _ _ Hca Hbc) as Hab.
    by rewrite (checkEdge_sameSide _ _ v1 v2), !checkEdge_crosses.
Qed.

End MeshProps.

Module GraphProps.
Import JsMath FloatOrder StlSlicer Termination Vocabulary FloatFacts PathProps.

(** *** The graph of the segments *)

Lemma getNodeIndex_spec (tol : float) (g g' : Graph) (p : Vector2.t) (i : nat) :
  consistent tol g → getNodeIndex tol g p = (i, g') →
  consistent tol g'
  ∧ nodeMap g' !! getPointKey tol p = Some i
  ∧ nodeMap g ⊆ nodeMap g'
  ∧ (g' = g
     ∨ (i = length (nodes g)
        ∧ nodes g' = nodes g ++ [{| position := p; connections := []; used := false |}])).
Proof.
  intros (H1 & H2 & H3 & H4). unfold getNodeIndex.
  destruct (nodeMap g !! getPointKey tol p) as [k|] eqn:Hk.
  - intros [= <- <-]. split; [done|]. split; [done|]. split; [done|]. by left.
  - intros [= <- <-]. cbn [nodes nodeMap]. split; [|split; [|split]].
    + split; [|split; [|split]]; cbn [nodes nodeMap].
      * intros i n Hi. apply lookup_app_Some in Hi as [Hi | [Hlen Hi]].
        -- specialize (H1 i n Hi). rewrite lookup_insert_ne; [done|]. congruence.
        -- apply list_lookup_singleton_Some in Hi as [Hi <-]. cbn [position].
           unfold Vector2.clone. rewrite lookup_insert_eq. f_equal. lia.
      * intros key i Hi. destruct (decide (key = getPointKey tol p)) as [-> | Hne].
        -- rewrite lookup_insert_eq in Hi. injection Hi as <-.
           eexists. split; [by apply list_lookup_middle|]. done.
        -- rewrite lookup_insert_ne in Hi by done.
           destruct (H2 key i Hi) as (n & Hn & Hkey). exists n.
           split; [|done]. apply lookup_app_l_Some. done.
      * intros i n j Hi Hj. apply lookup_app_Some in Hi as [Hi | [Hlen Hi]].
        -- destruct (H3 i n j Hi Hj) as (Hne & m & Hm & Him).
           split; [done|]. exists m. split; [|done]. by apply lookup_app_l_Some.
        -- apply list_lookup_singleton_Some in Hi as [_ <-]. cbn in Hj.
           by apply not_elem_of_nil in Hj.
      * intros i n Hi. apply lookup_app_Some in Hi as [Hi | [Hlen Hi]]; [by eapply H4|].
        apply list_lookup_singleton_Some in Hi as [_ <-]. cbn. split; [constructor | done].
    + by rewrite lookup_insert_eq.
    + by apply insert_subseteq.
    + right. done.
Qed.

Lemma lookup_connect (i1 i2 k : nat) (ns : list Node) :
  i1 ≠ i2 →
  alter (addConnection i1) i2 (alter (addConnection i2) i1 ns) !! k
  = (if decide (k = i1) then addConnection i2
     else if decide (k = i2) then addConnection i1 else id) <$> ns !! k.
Proof.
  intros Hne. rewrite !list_lookup_alter.
  destruct (decide (i2 = k)) as [<- | H2].
  - rewrite decide_False by done. rewrite decide_False by done.
    rewrite decide_True by done. done.
  - destruct (decide (i1 = k)) as [<- | H1].
    + rewrite decide_True by done. done.
    + rewrite decide_False by done. rewrite decide_False by done.
      by destruct (ns !! k).
Qed.

Lemma elem_of_addConnection (j k : nat) (n : Node) :
  k ∈ connections (addConnection j n) ↔ k = j ∨ k ∈ connections n.
Proof.
  unfold addConnection. cbn [connections]. case_bool_decide as Hj.
  - split; [by right|]. by intros [-> | ?].
  - rewrite elem_of_app, list_elem_of_singleton. tauto.
Qed.

Lemma NoDup_addConnection (j : nat) (n : Node) :
  NoDup (connections n) → NoDup (connections (addConnection j n)).
Proof.
  unfold addConnection. cbn [connections]. case_bool_decide as Hj; [done|].
  intros Hnd. apply NoDup_app. split; [done|]. split; [|apply NoDup_singleton].
  intros x Hx Hx'. apply list_elem_of_singleton in Hx' as ->. done.
Qed.

Lemma connect_consistent (tol : float) (g : Graph) (i1 i2 : nat) :
  consistent tol g → i1 ≠ i2 → i1 < length (nodes g) → i2 < length (nodes g) →
  consistent tol
    {| nodes := alter (addConnection i1) i2 (alter (addConnection i2) i1 (nodes g));
       nodeMap := nodeMap g |}.
Proof.
  intros (H1 & H2 & H3 & H4) Hne Hl1 Hl2.
  assert (∀ k n', alter (addConnection i1) i2 (alter (addConnection i2) i1 (nodes g)) !! k
                  = Some n' →
            ∃ n, nodes g !! k = Some n ∧ position n' = position n ∧ used n' = used n
                 ∧ (NoDup (connections n) → NoDup (connections n'))
                 ∧ ∀ j, j ∈ connections n' ↔
                        (k = i1 ∧ j = i2) ∨ (k = i2 ∧ j = i1) ∨ j ∈ connections n) as Hlook.
  { intros k n' Hk. rewrite lookup_connect in Hk by done.
    destruct (nodes g !! k) as [n|] eqn:Hn; [|done]. cbn in Hk. injection Hk as <-.
    exists n. split; [done|].
    destruct (decide (k = i1)) as [-> | Hk1]; [|destruct (decide (k = i2)) as [-> | Hk2]].
    - split; [done|]. split; [done|]. split; [apply NoDup_addConnection|].
      intros j. rewrite elem_of_addConnection. intuition congruence.
    - split; [done|]. split; [done|]. split; [apply NoDup_addConnection|].
      intros j. rewrite elem_of_addConnection. intuition congruence.
    - split; [done|]. split; [done|]. split; [done|]. intros j. cbn. intuition congruence. }
  assert (∀ k n, nodes g !! k = Some n →
            ∃ n', alter (addConnection i1) i2 (alter (addConnection i2) i1 (nodes g)) !! k
                  = Some n' ∧ position n' = position n
                  ∧ ∀ j, j ∈ connections n' ↔
                        (k = i1 ∧ j = i2) ∨ (k = i2 ∧ j = i1) ∨ j ∈ connections n) as Hback.
  { intros k n Hn. rewrite lookup_connect by done. rewrite Hn. cbn. eexists. split; [done|].
    destruct (decide (k = i1)) as [-> | Hk1]; [|destruct (decide (k = i2)) as [-> | Hk2]].
    - split; [done|]. intros j. rewrite elem_of_addConnection. intuition congruence.
    - split; [done|]. intros j. rewrite elem_of_addConnection. intuition congruence.
    - split; [done|]. intros j. cbn. intuition congruence. }
  split; [|split; [|split]]; cbn [nodes nodeMap].
  - intros k n' Hk. destruct (Hlook k n' Hk) as (n & Hn & Hp & Hrest). rewrite Hp. by apply H1.
  - intros key k Hk. destruct (H2 key k Hk) as (n & Hn & Hkey).
    destruct (Hback k n Hn) as (n' & Hn' & Hp & _). exists n'. by rewrite Hp.
  - intros k n' j Hk Hj. destruct (Hlook k n' Hk) as (n & Hn & _ & _ & _ & Hc).
    destruct (proj1 (Hc j) Hj) as [[E1 E2] | [[E1 E2] | Hj']]; [subst k j | subst k j |].
    + split; [done|]. destruct (lookup_lt_is_Some_2 _ _ Hl2) as [m Hm].
      destruct (Hback i2 m Hm) as (m' & Hm' & _ & Hc'). exists m'. split; [done|].
      apply Hc'. right. left. done.
    + split; [done|]. destruct (lookup_lt_is_Some_2 _ _ Hl1) as [m Hm].
      destruct (Hback i1 m Hm) as (m' & Hm' & _ & Hc'). exists m'. split; [done|].
      apply Hc'. left. done.
    + destruct (H3 k n j Hn Hj') as (Hne' & m & Hm & Hkm). split; [done|].
      destruct (Hback j m Hm) as (m' & Hm' & _ & Hc'). exists m'. split; [done|].
      apply Hc'. right. right. done.
  - intros k n' Hk. destruct (Hlook k n' Hk) as (n & Hn & _ & Hu & Hnd & _).
    destruct (H4 k n Hn). split; [by apply Hnd | congruence].
Qed.

Lemma joins_mono (tol : float) (g g' : Graph) (seg : Segment) (i j : nat) :
  nodeMap g ⊆ nodeMap g' → joins tol g seg i j → joins tol g' seg i j.
Proof.
  intros Hsub [H1 H2]. split; eapply lookup_weaken; eauto.
Qed.

Lemma nodeAt_lookup (ns : list Node) (i : nat) (n : Node) :
  ns !! i = Some n → nodeAt ns i = n.
Proof. unfold nodeAt. by intros ->. Qed.

Lemma consistent_lt (tol : float) (g : Graph) (key : PointKey) (i : nat) :
  consistent tol g → nodeMap g !! key = Some i → i < length (nodes g).
Proof.
  intros (_ & H2 & _) Hi. destruct (H2 key i Hi) as (n & Hn & _).
  by eapply lookup_lt_Some.
Qed.

Lemma getNodeIndex_graphOf (tol : float) (g g' : Graph) (p : Vector2.t) (i : nat)
    (segments : list Segment) :
  (∃ seg e, seg ∈ segments ∧ p = segmentEnd seg e) →
  (∀ i n, nodes g !! i = Some n →
     ∃ seg e, seg ∈ segments ∧ position n = segmentEnd seg e) →
  getNodeIndex tol g p = (i, g') →
  (∀ i n, nodes g' !! i = Some n →
     ∃ seg e, seg ∈ segments ∧ position n = segmentEnd seg e)
  ∧ (∀ k n, nodes g !! k = Some n → nodes g' !! k = Some n)
  ∧ (∀ k n, nodes g' !! k = Some n → nodes g !! k = Some n ∨ connections n = [])
  ∧ length (nodes g') ≤ S (length (nodes g)).
Proof.
  intros Hp Hpos. unfold getNodeIndex.
  destruct (nodeMap g !! getPointKey tol p) as [k|].
  - intros [= <- <-]. split; [done|]. split; [done|]. split; [by left | lia].
  - intros [= <- <-]. cbn [nodes]. split; [|split; [|split]].
    + intros i n Hi. apply lookup_app_Some in Hi as [Hi | [_ Hi]]; [by eapply Hpos|].
      apply list_lookup_singleton_Some in Hi as [_ <-]. done.
    + intros k n Hk. by apply lookup_app_l_Some.
    + intros k n Hk. apply lookup_app_Some in Hk as [Hk | [_ Hk]]; [by left|].
      apply list_lookup_singleton_Some in Hk as [_ <-]. by right.
    + rewrite length_app. simpl. lia.
Qed.

Lemma addSegment_spec (tol : float) (g : Graph) (segments : list Segment) (seg : Segment) :
  consistent tol g → graphOf tol segments g →
  consistent tol (addSegment tol g seg)
  ∧ graphOf tol (segments ++ [seg]) (addSegment tol g seg)
  ∧ length (nodes (addSegment tol g seg)) ≤ length (nodes g) + 2.
Proof.
  intros Hc (Hpos & Hsegs & Hconn). unfold addSegment.
  destruct (getNodeIndex tol g (fst seg)) as [i1 g1] eqn:E1.
  destruct (getNodeIndex tol g1 (snd seg)) as [i2 g2] eqn:E2.
  destruct (getNodeIndex_spec tol g g1 _ i1 Hc E1) as (Hc1 & Hk1 & Hsub1 & _).
  destruct (getNodeIndex_spec tol g1 g2 _ i2 Hc1 E2) as (Hc2 & Hk2 & Hsub2 & _).
  assert (∀ i n, nodes g !! i = Some n →
            ∃ s e, s ∈ segments ++ [seg] ∧ position n = segmentEnd s e) as Hpos0.
  { intros i n Hi. destruct (Hpos i n Hi) as (s & e & Hs & He).
    exists s, e. split; [apply elem_of_app; by left | done]. }
  destruct (getNodeIndex_graphOf tol g g1 (fst seg) i1 (segments ++ [seg]))
    as (Hpos1 & Hkeep1 & Hnew1 & Hlen1); [|done|done|].
  { exists seg, false. split; [apply elem_of_app; right; by left | done]. }
  destruct (getNodeIndex_graphOf tol g1 g2 (snd seg) i2 (segments ++ [seg]))
    as (Hpos2 & Hkeep2 & Hnew2 & Hlen2); [|done|done|].
  { exists seg, true. split; [apply elem_of_app; right; by left | done]. }
  assert (nodeMap g ⊆ nodeMap g2) as Hsub by (etrans; eauto).
  assert (joins tol g2 seg i1 i2) as Hjoin
    by (split; [eapply lookup_weaken; eauto | done]).
  assert (∀ k n j, nodes g2 !! k = Some n → j ∈ connections n →
            ∃ s, s ∈ segments ∧ (joins tol g2 s k j ∨ joins tol g2 s j k)) as Hconn2.
  { intros k n j Hk Hj. destruct (Hnew2 k n Hk) as [Hk1' | Hnil];
      [|rewrite Hnil in Hj; by apply not_elem_of_nil in Hj].
    destruct (Hnew1 k n Hk1') as [Hk0 | Hnil];
      [|rewrite Hnil in Hj; by apply not_elem_of_nil in Hj].
    destruct (Hconn k n j Hk0 Hj) as (s & Hs & Hjs). exists s. split; [done|].
    destruct Hjs; [left | right]; by eapply joins_mono. }
  assert (∀ s, s ∈ segments →
            ∃ i j, joins tol g2 s i j ∧ (i ≠ j → j ∈ connections (nodeAt (nodes g2) i)))
    as Hsegs2.
  { intros s Hs. destruct (Hsegs s Hs) as (i & j & Hj & Hij). exists i, j.
    split; [by eapply joins_mono|]. intros Hne. specialize (Hij Hne).
    destruct Hj as [Hi _]. pose proof (consistent_lt _ _ _ _ Hc Hi) as Hlt.
    destruct (lookup_lt_is_Some_2 _ _ Hlt) as [n Hn].
    rewrite (nodeAt_lookup _ _ _ Hn) in Hij.
    by rewrite (nodeAt_lookup _ _ n (Hkeep2 _ _ (Hkeep1 _ _ Hn))). }
  destruct (i1 =? i2)%nat eqn:Heq.
  - apply Nat.eqb_eq in Heq as <-. split; [done|]. split; [|lia].
    split; [done|]. split.
    + intros s Hs. apply elem_of_app in Hs as [Hs | Hs]; [by apply Hsegs2|].
      apply list_elem_of_singleton in Hs as ->. exists i1, i1. done.
    + intros k n j Hk Hj. destruct (Hconn2 k n j Hk Hj) as (s & Hs & Hjs).
      exists s. split; [apply elem_of_app; by left | done].
  - apply Nat.eqb_neq in Heq.
    pose proof (consistent_lt _ _ _ _ Hc2 (proj1 Hjoin)) as Hl1.
    pose proof (consistent_lt _ _ _ _ Hc2 (proj2 Hjoin)) as Hl2.
    split; [by apply connect_consistent|]. split; [|cbn [nodes]; rewrite !length_alter; lia].
    set (g3 := {| nodes := _; nodeMap := nodeMap g2 |}).
    assert (∀ k n', nodes g3 !! k = Some n' →
              ∃ n, nodes g2 !! k = Some n ∧ position n' = position n
                   ∧ ∀ j, j ∈ connections n' ↔
                          (k = i1 ∧ j = i2) ∨ (k = i2 ∧ j = i1) ∨ j ∈ connections n)
      as Hlook.
    { intros k n' Hk. subst g3. cbn [nodes] in Hk. rewrite lookup_connect in Hk by done.
      destruct (nodes g2 !! k) as [n|] eqn:Hn; [|done]. cbn in Hk. injection Hk as <-.
      exists n. split; [done|].
      destruct (decide (k = i1)) as [-> | Hd1]; [|destruct (decide (k = i2)) as [-> | Hd2]].
      - split; [done|]. intros j. rewrite elem_of_addConnection. intuition congruence.
      - split; [done|]. intros j. rewrite elem_of_addConnection. intuition congruence.
      - split; [done|]. intros j. cbn. intuition congruence. }
    assert (∀ k n, nodes g2 !! k = Some n →
              ∃ n', nodes g3 !! k = Some n'
                    ∧ ∀ j, j ∈ connections n' ↔
                          (k = i1 ∧ j = i2) ∨ (k = i2 ∧ j = i1) ∨ j ∈ connections n)
      as Hback.
    { intros k n Hn. subst g3. cbn [nodes]. rewrite lookup_connect by done.
      rewrite Hn. cbn. eexists. split; [done|].
      destruct (decide (k = i1)) as [-> | Hd1]; [|destruct (decide (k = i2)) as [-> | Hd2]].
      - intros j. rewrite elem_of_addConnection. intuition congruence.
      - intros j. rewrite elem_of_addConnection. intuition congruence.
      - intros j. cbn. intuition congruence. }
    assert (∀ i j, i < length (nodes g2) →
              j ∈ connections (nodeAt (nodes g2) i) ∨ (i = i1 ∧ j = i2) →
              j ∈ connections (nodeAt (nodes g3) i)) as Hgrow.
    { intros i j Hlt Hj. destruct (lookup_lt_is_Some_2 _ _ Hlt) as [n Hn].
      destruct (Hback i n Hn) as (n' & Hn' & Hc').
      rewrite (nodeAt_lookup _ _ _ Hn) in Hj. rewrite (nodeAt_lookup _ _ _ Hn').
      apply Hc'. tauto. }
    split; [|split].
    + intros k n' Hk. destruct (Hlook k n' Hk) as (n & Hn & Hp & _). rewrite Hp.
      by eapply Hpos2.
    + intros s Hs. apply elem_of_app in Hs as [Hs | Hs].
      * destruct (Hsegs2 s Hs) as (i & j & Hj & Hij). exists i, j. split; [done|].
        intros Hne. apply Hgrow; [|left; by apply Hij].
        eapply consistent_lt; [exact Hc2 | exact (proj1 Hj)].
      * apply list_elem_of_singleton in Hs as ->. exists i1, i2. split; [done|].
        intros _. apply Hgrow; [done | by right].
    + intros k n' j Hk Hj. destruct (Hlook k n' Hk) as (n & Hn & _ & Hc').
      destruct (proj1 (Hc' j) Hj) as [[-> ->] | [[-> ->] | Hj']].
      * exists seg. split; [apply elem_of_app; right; by left | by left].
      * exists seg. split; [apply elem_of_app; right; by left | by right].
      * destruct (Hconn2 k n j Hn Hj') as (s & Hs & Hjs).
        exists s. split; [apply elem_of_app; by left | done].
Qed.

Lemma buildGraph_snoc (tol : float) (segments : list Segment) (seg : Segment) :
  buildGraph tol (segments ++ [seg]) = addSegment tol (buildGraph tol segments) seg.
Proof. unfold buildGraph. by rewrite foldl_app. Qed.

Lemma buildGraph_spec (tol : float) (segments : list Segment) :
  consistent tol (buildGraph tol segments)
  ∧ graphOf tol segments (buildGraph tol segments)
  ∧ length (nodes (buildGraph tol segments)) ≤ 2 * length segments.
Proof.
  induction segments as [|seg segments IH] using rev_ind.
  - split; [|split; [|cbn; lia]].
    + split; [|split; [|split]]; cbn; intros; by rewrite ?lookup_nil, ?lookup_empty in *.
    + split; [|split]; cbn; intros; first [by rewrite lookup_nil in * | by apply not_elem_of_nil in H].
  - destruct IH as (Hc & Hg & Hlen). rewrite buildGraph_snoc.
    destruct (addSegment_spec tol _ segments seg Hc Hg) as (Hc' & Hg' & Hlen').
    split; [done|]. split; [done|]. rewrite length_app. simpl. lia.
Qed.

(** X11.  The graph built from the segments is consistent: the map and the
    node array describe one numbering, in which two points share a node
    exactly when they share a key; connections are in range, never join a
    node to itself, are symmetric and hold no duplicate; no node is marked
    used.  Every node lies at an end of a segment, every segment joins the
    nodes of its two ends, which are connected unless they are one node,
    every connection comes from a segment, and there are at most two nodes
    per segment. *)
Theorem buildGraph_is_consistent (tol : float) (segments : list Segment) :
  consistent tol (buildGraph tol segments)
  ∧ graphOf tol segments (buildGraph tol segments)
  ∧ length (nodes (buildGraph tol segments)) ≤ 2 * length segments.
Proof. apply buildGraph_spec. Qed.

(** *** The order of the start nodes *)

Lemma startCompare_before (nodes : list Node) (a b : nat) :
  (startCompare nodes a b < 0)%Z ↔ startsBefore nodes a b.
Proof.
  unfold startCompare, startsBefore, startClass. cbv zeta.
  generalize (length (connections (nodeAt nodes a))) as da.
  generalize (length (connections (nodeAt nodes b))) as db. intros db da.
  destruct (Nat.eqb_spec da 1), (Nat.eqb_spec db 1), (Nat.eqb_spec da 2),
           (Nat.eqb_spec db 2); cbn [andb negb]; lia.
Qed.

Lemma inOrder_cons {A : Type} (R : A → A → Prop) (a : A) (l : list A) :
  inOrder R (a :: l) ↔ Forall (R a) l ∧ inOrder R l.
Proof.
  split.
  - intros H. split.
    + apply Forall_lookup. intros j b Hb. apply (H 0 (S j)); [lia | done | done].
    + intros i j x y Hij Hx Hy. apply (H (S i) (S j)); [lia | done | done].
  - intros [Hall Hl] [|i] [|j] x y Hij Hx Hy; try lia; cbn in Hx, Hy.
    + injection Hx as <-. rewrite Forall_lookup in Hall. by apply (Hall j).
    + apply (Hl i j); [lia | done | done].
Qed.

Section Sorting.
Variable nodes : list Node.

Lemma sort_insert_elements (a : nat) (sorted : list nat) :
  sort_insert (startCompare nodes) a sorted ≡ₚ a :: sorted.
Proof.
  induction sorted as [|b rest IH]; [done|].
  cbn. destruct (_ <? 0)%Z; [done|]. rewrite IH. apply Permutation_swap.
Qed.

Lemma sort_insert_inOrder (a : nat) (sorted : list nat) :
  a ∉ sorted → inOrder (startsBefore nodes) sorted →
  inOrder (startsBefore nodes) (sort_insert (startCompare nodes) a sorted).
Proof.
  induction sorted as [|b rest IH]; intros Hin Hs.
  - intros i j x y Hij Hx Hy. cbn in *. destruct i, j; try lia; done.
  - cbn [sort_insert]. apply inOrder_cons in Hs as [Hb Hrest].
    apply not_elem_of_cons in Hin as [Hne Hin].
    destruct (_ <? 0)%Z eqn:E.
    + apply Z.ltb_lt, startCompare_before in E.
      apply inOrder_cons. split; [|by apply inOrder_cons].
      apply Forall_cons. split; [done|].
      eapply Forall_impl; [exact Hb|]. intros c Hc.
      unfold startsBefore in *. lia.
    + apply Z.ltb_ge in E.
      assert (startsBefore nodes b a) as Hba.
      { destruct (decide (startsBefore nodes a b)) as [H | H].
        - apply startCompare_before in H. lia.
        - unfold startsBefore in *. lia. }
      apply inOrder_cons. split; [|by apply IH].
      rewrite sort_insert_elements. by apply Forall_cons.
Qed.

Lemma sort_by_spec (l : list nat) (sorted : list nat) :
  NoDup (sorted ++ l) → inOrder (startsBefore nodes) sorted →
  foldl (λ sorted a, sort_insert (startCompare nodes) a sorted) sorted l ≡ₚ sorted ++ l
  ∧ inOrder (startsBefore nodes)
            (foldl (λ sorted a, sort_insert (startCompare nodes) a sorted) sorted l).
Proof.
  revert sorted. induction l as [|a l IH]; intros sorted Hnd Hs.
  - cbn. by rewrite app_nil_r.
  - cbn [foldl].
    assert (a ∉ sorted) as Ha.
    { apply NoDup_app in Hnd as (_ & Hdis & _). intros Hin. apply (Hdis a Hin). left. }
    destruct (IH (sort_insert (startCompare nodes) a sorted)) as [Hp Ho].
    + rewrite sort_insert_elements. cbn. by rewrite Permutation_middle.
    + by apply sort_insert_inOrder.
    + split; [|done]. rewrite Hp, sort_insert_elements. cbn.
      by rewrite Permutation_middle.
Qed.

(** X12.  The start nodes are tried in an order that holds every node
    index exactly once, nodes with one connection first, then nodes with
    two, then the others, each group by ascending index: the comparator is
    negative on every pair taken in that order. *)
Theorem startOrder_sorted :
  startOrder nodes ≡ₚ seq 0 (length nodes)
  ∧ inOrder (startsBefore nodes) (startOrder nodes)
  ∧ (∀ i j a b, i < j → startOrder nodes !! i = Some a → startOrder nodes !! j = Some b →
       (startCompare nodes a b < 0)%Z).
Proof.
  unfold startOrder, sort_by.
  destruct (sort_by_spec (seq 0 (length nodes)) []) as [Hp Ho].
  - apply NoDup_seq.
  - intros i j a b _ Ha. by rewrite lookup_nil in Ha.
  - split; [done|]. split; [done|].
    intros i j a b Hij Ha Hb. apply startCompare_before. by apply (Ho i j).
Qed.

End Sorting.

(** *** Where the points of the paths come from *)

Section Provenance.
Variable P : Vector2.t → Prop.

Lemma nodesAt_setUsed (u : bool) (i : nat) (nodes : list Node) :
  nodesAt P nodes → nodesAt P (alter (setUsed u) i nodes).
Proof.
  intros H k n Hk. rewrite length_alter. rewrite list_lookup_alter in Hk.
  destruct (decide (i = k)) as [-> | Hne]; [|by apply (H k n)].
  destruct (nodes !! k) as [n0|] eqn:E; [|done]. injection Hk as <-.
  by apply (H k n0).
Qed.

Lemma nodesAt_markAll (u : bool) (indices : list nat) (nodes : list Node) :
  nodesAt P nodes → nodesAt P (markAll u indices nodes).
Proof.
  unfold markAll. revert nodes.
  induction indices as [|i indices IH]; intros nodes H; [done|].
  simpl. apply IH. by apply nodesAt_setUsed.
Qed.

Lemma nodesAt_position (nodes : list Node) (i : nat) :
  nodesAt P nodes → i < length nodes → P (position (nodeAt nodes i)).
Proof.
  intros H Hi. destruct (lookup_lt_is_Some_2 _ _ Hi) as [n Hn].
  rewrite (nodeAt_lookup _ _ _ Hn). by apply (H i n).
Qed.

Lemma nodesAt_connection (nodes : list Node) (i j : nat) :
  nodesAt P nodes → j ∈ connections (nodeAt nodes i) → P (position (nodeAt nodes j)).
Proof.
  intros H Hj. unfold nodeAt at 1 in Hj.
  destruct (nodes !! i) as [n|] eqn:Hn; [|by apply not_elem_of_nil in Hj].
  apply nodesAt_position; [done|]. by apply (H i n).
Qed.

Section WithAtan2.
Variable Math_atan2 : float → float → float.

Lemma bestAngle_fold (cur : Vector2.t) (nodes : list Node) (inAngle : float)
    (candidates : list nat) (Q : nat → Prop) (best : option nat * float) :
  (∀ b, fst best = Some b → Q b) → Forall Q candidates →
  ∀ nx, fst (foldl (bestAngleStep Math_atan2 cur nodes inAngle) best candidates) = Some nx →
        Q nx.
Proof.
  revert best. induction candidates as [|c candidates IH]; intros best Hbest Hall; [done|].
  apply Forall_cons in Hall as [Hc Hall]. simpl. apply IH; [|done].
  unfold bestAngleStep. destruct (_ <? snd best)%float; [|done]. by intros b [= <-].
Qed.

Lemma chooseBestConnection_Some (nodes : list Node) (prevIdx : option nat)
    (currentIdx : nat) (exclude : list nat) (nx : nat) :
  chooseBestConnection Math_atan2 nodes prevIdx currentIdx exclude = Some nx →
  nx ∈ connections (nodeAt nodes currentIdx) ∧ nx ∉ exclude.
Proof.
  unfold chooseBestConnection.
  set (candidates := filter _ _).
  assert (Forall (λ c, c ∈ connections (nodeAt nodes currentIdx) ∧ c ∉ exclude) candidates)
    as Hall.
  { apply Forall_forall. intros c Hc. apply list_elem_of_filter in Hc. tauto. }
  destruct candidates as [|first [|second rest]] eqn:E.
  - done.
  - intros [= <-]. by apply Forall_cons in Hall as [? _].
  - destruct prevIdx as [prevI|].
    + intros H. eapply bestAngle_fold in H; [exact H | by intros b [=] | exact Hall].
    + intros [= <-]. by apply Forall_cons in Hall as [? _].
Qed.

Lemma traceStep_provenance (nSegments startIdx : nat) (t : Trace) (r : LoopStep Trace) :
  nodesAt P (tr_nodes t) → Forall P (tr_path t) →
  traceStep Math_atan2 nSegments startIdx t = r →
  match r with
  | Continue t' | Break t' => nodesAt P (tr_nodes t') ∧ Forall P (tr_path t')
  end.
Proof.
  intros Hn Hp. unfold traceStep.
  destruct (chooseBestConnection _ _ _ _ _) as [nx|] eqn:E; [|by intros <-].
  apply chooseBestConnection_Some in E as [Hc _].
  destruct (nx =? startIdx)%nat; [by intros <-|].
  assert (Forall P (tr_path t ++ [Vector2.clone (position (nodeAt (tr_nodes t) nx))])) as Hp'.
  { apply Forall_app. split; [done|]. apply Forall_singleton.
    by eapply nodesAt_connection. }
  destruct (_ <? _)%nat; intros <-; cbn [tr_nodes tr_path];
    (split; [by apply nodesAt_setUsed | done]).
Qed.

Lemma traceFrom_provenance (tol minLen : float) (nSegments startIdx : nat)
    (st st' : list Node * list Path) :
  pathsAt P st → traceFrom Math_atan2 tol minLen nSegments startIdx st = Some st' →
  pathsAt P st'.
Proof.
  unfold traceFrom, pathsAt. destruct st as [nodes acc]. cbn [fst snd].
  intros [Hn Ha]. destruct (used (nodeAt nodes startIdx)) eqn:Hu; [by intros [= <-]|].
  destruct (2 <? _)%nat; [by intros [= <-]|].
  destruct (while_loop _ _ _) as [t|] eqn:Hloop; [|done]. cbn. intros [= <-].
  assert (nodesAt P (tr_nodes t) ∧ Forall P (tr_path t)) as [Hn' Hp'].
  { eapply (while_loop_inv (λ t, nodesAt P (tr_nodes t) ∧ Forall P (tr_path t))
                            (λ t, nodesAt P (tr_nodes t) ∧ Forall P (tr_path t)));
      [| | |exact Hloop].
    - cbn. split; [by apply nodesAt_setUsed|]. apply Forall_singleton.
      apply nodesAt_position; [done|]. by apply nodeAt_unused_lt.
    - intros s s' [H1 H2] Hs. exact (traceStep_provenance _ _ _ _ H1 H2 Hs).
    - intros s s' [H1 H2] Hs. exact (traceStep_provenance _ _ _ _ H1 H2 Hs). }
  unfold finishTrace. destruct (_ && _); cbn [fst snd].
  - split; [done|]. apply Forall_app. split; [done|]. apply Forall_singleton.
    destruct (tr_complete t); [|done].
    destruct (head (tr_path t)) as [first|] eqn:Hh; [|done].
    destruct (last (tr_path t)); [|done].
    destruct (_ <? _)%float; [|done].
    apply Forall_app. split; [done|]. apply Forall_singleton.
    apply head_Some_elem_of in Hh. rewrite Forall_forall in Hp'. by apply Hp'.
  - split; [by apply nodesAt_markAll | done].
Qed.

Lemma findContours_provenance (tol minLen : float) (nSegments : nat)
    (st st' : list Node * list Path) :
  pathsAt P st → findContours Math_atan2 tol minLen nSegments st = Some st' → pathsAt P st'.
Proof.
  intros Hst. unfold findContours. apply for_each_inv; [done|].
  intros a s s' _ Hs. by apply traceFrom_provenance.
Qed.

End WithAtan2.

Lemma extendStep_provenance (nodes : list Node) (forward : bool) (e e' : Extension) :
  nodesAt P nodes → Forall P (ex_path e) →
  extendStep nodes forward e = Continue e' → Forall P (ex_path e').
Proof.
  intros Hn Hp. unfold extendStep.
  destruct (findBestNextNode _ _ _) as [nx|] eqn:E; [|done].
  apply findBestNextNode_Some in E as [_ Hlt]. intros [= <-]. cbn [ex_path].
  pose proof (nodesAt_position nodes nx Hn Hlt) as Hnx.
  destruct forward; [|by apply Forall_cons].
  apply Forall_app. split; [done | by apply Forall_singleton].
Qed.

Lemma extend_loop_provenance (nodes : list Node) (forward : bool) (fuel : nat)
    (e r : Extension) :
  nodesAt P nodes → Forall P (ex_path e) →
  while_loop fuel (extendStep nodes forward) e = Some r → Forall P (ex_path r).
Proof.
  intros Hn Hp.
  apply (while_loop_inv (λ e, Forall P (ex_path e)) (λ e, Forall P (ex_path e))); [done| |].
  - intros s s' Hs. by apply extendStep_provenance.
  - intros s s' Hs. unfold extendStep. destruct (findBestNextNode _ _ _); [done|].
    by intros [= <-].
Qed.

Lemma closeIfConnected_provenance (tol : float) (g : Graph) (nodes : list Node)
    (path : Path) :
  Forall P path → Forall P (closeIfConnected tol g nodes path).
Proof.
  intros Hp. unfold closeIfConnected.
  destruct (head path) as [first|] eqn:Hh; [|done].
  destruct (last path); [|done]. destruct (_ <? _)%float; [done|].
  destruct (nodeMap g !! _); [|done]. destruct (nodeMap g !! _); [|done].
  case_bool_decide; [|done].
  apply Forall_app. split; [done|]. apply Forall_singleton.
  apply head_Some_elem_of in Hh. rewrite Forall_forall in Hp. by apply Hp.
Qed.

Lemma extendFrom_provenance (tol minLen : float) (g : Graph) (i : nat)
    (st st' : list Node * list Path) :
  pathsAt P st → extendFrom tol minLen g i st = Some st' → pathsAt P st'.
Proof.
  unfold extendFrom, pathsAt. destruct st as [nodes acc]. cbn [fst snd].
  intros [Hn Ha]. destruct (used (nodeAt nodes i)) eqn:Hu; [by intros [= <-]|].
  destruct (while_loop _ (extendStep nodes true) _) as [fwd|] eqn:Hf; [|done].
  cbn [mbind option_bind].
  destruct (while_loop _ (extendStep nodes false) _) as [bwd|] eqn:Hb; [|done].
  cbn [mbind option_bind]. intros [= <-].
  apply extend_loop_provenance in Hf; [|done|].
  2:{ cbn. apply Forall_singleton. apply nodesAt_position; [done|].
      by apply nodeAt_unused_lt. }
  apply extend_loop_provenance in Hb; [|done | by cbn].
  unfold finishExtension. destruct (_ && _); cbn [fst snd]; [|done].
  split; [by do 2 apply nodesAt_markAll|].
  apply Forall_app. split; [done|]. apply Forall_singleton.
  apply closeIfConnected_provenance. apply Forall_app. done.
Qed.

Lemma handleRemainingSegments_provenance (tol minLen : float) (g : Graph)
    (st st' : list Node * list Path) :
  pathsAt P st → handleRemainingSegments tol minLen g st = Some st' → pathsAt P st'.
Proof.
  intros Hst. unfold handleRemainingSegments.
  destruct (_ =? 0)%nat; [by intros [= <-]|].
  apply for_each_inv; [done|]. intros a s s' _ Hs. by apply extendFrom_provenance.
Qed.

Section Fallback.
Variable radius : float.
Variable segments : list Segment.
Hypothesis Hends : ∀ seg e, seg ∈ segments → P (segmentEnd seg e).

Lemma chainStep_provenance (atTail : bool) (c : Chain) (r : LoopStep Chain) :
  Forall P (ch_path c) → chainStep radius segments atTail c = r →
  match r with Continue c' | Break c' => Forall P (ch_path c') end.
Proof using Hends.
  intros Hp. unfold chainStep.
  destruct (if atTail then _ else _); [|by intros <-].
  destruct (findClosestSegment _ _ _ _) as [m|]; [|by intros <-].
  destruct (segments !! segIdx m) as [seg|] eqn:Hseg; [|by intros <-].
  intros <-. cbn [ch_path]. apply list_elem_of_lookup_2 in Hseg.
  pose proof (Hends seg (negb (endIdx m)) Hseg) as Hother.
  destruct atTail; [|by apply Forall_cons].
  apply Forall_app. split; [done | by apply Forall_singleton].
Qed.

Lemma chain_loop_provenance (atTail : bool) (fuel : nat) (c r : Chain) :
  Forall P (ch_path c) →
  while_loop fuel (chainStep radius segments atTail) c = Some r → Forall P (ch_path r).
Proof using Hends.
  intros Hp.
  apply (while_loop_inv (λ c, Forall P (ch_path c)) (λ c, Forall P (ch_path c))); [done| |].
  - intros s s' Hs Hstep. exact (chainStep_provenance _ _ _ Hs Hstep).
  - intros s s' Hs Hstep. exact (chainStep_provenance _ _ _ Hs Hstep).
Qed.

Lemma chainFrom_provenance (entry : nat * Segment) (st st' : list nat * list Path) :
  entry.2 ∈ segments → Forall (Forall P) (snd st) →
  chainFrom radius segments entry st = Some st' → Forall (Forall P) (snd st').
Proof using Hends.
  unfold chainFrom. destruct entry as [i seg], st as [usedSegments acc]. cbn [fst snd].
  intros Hseg Ha. case_bool_decide; [by intros [= <-]|].
  destruct (while_loop _ (chainStep _ _ true) _) as [fwd|] eqn:Hf; [|done].
  cbn [mbind option_bind].
  destruct (while_loop _ (chainStep _ _ false) _) as [bwd|] eqn:Hb; [|done].
  cbn [mbind option_bind]. intros [= <-]. cbn [snd].
  apply chain_loop_provenance in Hf.
  2:{ cbn. repeat constructor; [apply (Hends seg false Hseg) | apply (Hends seg true Hseg)]. }
  apply chain_loop_provenance in Hb; [|done].
  match goal with |- context [if ?b then _ else _] => destruct b end; [|done].
  apply Forall_app. split; [done | by apply Forall_singleton].
Qed.

Lemma chainSegments_provenance (paths : list Path) :
  chainSegments radius segments = Some paths → Forall (Forall P) paths.
Proof using Hends.
  unfold chainSegments.
  destruct (for_each _ _ _) as [st|] eqn:Hrun; [|done]. intros [= <-].
  eapply (for_each_inv (λ st : list nat * list Path, Forall (Forall P) (snd st)));
    [| |exact Hrun]; [done|].
  intros [i seg] s s' Hin Hs. apply chainFrom_provenance; [|done].
  apply elem_of_lookup_imap in Hin as (k & x & [= -> ->] & Hx).
  cbn. by eapply list_elem_of_lookup_2.
Qed.

End Fallback.

Lemma finalCleanup_provenance (tol : float) (path : Path) :
  Forall P path → Forall P (finalCleanup tol path).
Proof.
  intros Hp. unfold finalCleanup. destruct (_ <? 3)%nat; [done|].
  destruct (head path) as [first|] eqn:Hh; [|done].
  destruct (last path); [|done]. destruct (_ && _); [|done].
  apply Forall_app. split; [done|]. apply Forall_singleton.
  apply head_Some_elem_of in Hh. rewrite Forall_forall in Hp. by apply Hp.
Qed.

End Provenance.

Lemma graph_nodesAt (tol : float) (segments : list Segment) :
  nodesAt (λ p, ∃ seg e, seg ∈ segments ∧ p = segmentEnd seg e)
          (nodes (buildGraph tol segments)).
Proof.
  destruct (buildGraph_spec tol segments) as ((_ & _ & H3 & _) & (Hpos & _) & _).
  intros i n Hn. split; [by eapply Hpos|].
  intros j Hj. destruct (H3 i n j Hn Hj) as (_ & m & Hm & _). by eapply lookup_lt_Some.
Qed.

Lemma tracePaths_provenance (atan2 : float → float → float) (segments : list Segment)
    (diagonal : float) (paths : list Path) :
  tracePaths atan2 segments diagonal = Some paths →
  Forall (Forall (λ p, ∃ seg e, seg ∈ segments ∧ p = segmentEnd seg e)) paths.
Proof.
  unfold tracePaths, graphPaths.
  destruct (findContours _ _ _ _ _) as [st1|] eqn:H1; [|done]. cbn [mbind option_bind].
  destruct (handleRemainingSegments _ _ _ _) as [st2|] eqn:H2; [|done].
  cbn [mbind option_bind].
  apply findContours_provenance
    with (P := λ p, ∃ seg e, seg ∈ segments ∧ p = segmentEnd seg e) in H1;
    [|split; [apply graph_nodesAt | by cbn]].
  apply handleRemainingSegments_provenance
    with (P := λ p, ∃ seg e, seg ∈ segments ∧ p = segmentEnd seg e) in H2; [|done].
  destruct (_ =? 0)%nat; [|intros [= <-]; apply H2].
  apply chainSegments_provenance. eauto.
Qed.

Lemma segmentsOfEdges_projected (axis : Axis) (zeroTol : float)
    (edges : list (list Vector3.t)) (seg : Segment) (e : bool) :
  seg ∈ segmentsOfEdges axis zeroTol edges →
  projected edges axis (segmentEnd seg e).
Proof.
  unfold segmentsOfEdges. intros Hin.
  apply list_elem_of_omap in Hin as (edge & Hedge & Hseg).
  unfold segmentOfEdge in Hseg. destruct edge as [|e0 [|e1 [|]]]; try done.
  destruct (_ <? _)%float; [|done]. injection Hseg as <-.
  exists [e0; e1]. destruct e; cbn.
  - exists e1. split; [done|]. split; [|done]. right. left.
  - exists e0. split; [done|]. split; [|done]. left.
Qed.

Lemma buildPaths_from_segments (atan2 : float → float → float)
    (edges : list (list Vector3.t)) (axis : Axis) (diagonal : float) (paths : list Path) :
  buildPaths atan2 edges axis diagonal = Some paths →
  ∀ path p, path ∈ paths → p ∈ path →
    ∃ seg e, seg ∈ segmentsOfEdges axis (ZERO_LENGTH_TOL diagonal) edges
             ∧ p = segmentEnd seg e.
Proof.
  unfold buildPaths. destruct (length edges =? 0)%nat.
  { intros [= <-] path p Hpath. by apply not_elem_of_nil in Hpath. }
  destruct (length (segmentsOfEdges _ _ _) =? 0)%nat.
  { intros [= <-] path p Hpath. by apply not_elem_of_nil in Hpath. }
  destruct (tracePaths _ _ _) as [found|] eqn:Hfound; [|done]. intros [= <-].
  apply tracePaths_provenance in Hfound.
  intros path p Hpath Hp. apply list_elem_of_fmap in Hpath as (raw & -> & Hraw).
  rewrite Forall_forall in Hfound. specialize (Hfound raw Hraw).
  apply (finalCleanup_provenance _ (TOLERANCE diagonal)) in Hfound.
  rewrite Forall_forall in Hfound. by apply Hfound.
Qed.

Lemma buildPaths_projected (atan2 : float → float → float)
    (edges : list (list Vector3.t)) (axis : Axis) (diagonal : float) (paths : list Path) :
  buildPaths atan2 edges axis diagonal = Some paths →
  ∀ path p, path ∈ paths → p ∈ path → projected edges axis p.
Proof.
  intros H path p Hpath Hp.
  destruct (buildPaths_from_segments _ _ _ _ _ H path p Hpath Hp) as (seg & e & Hseg & ->).
  by eapply segmentsOfEdges_projected.
Qed.

(** X13.  [buildPaths] invents no point: every point of every path it
    returns is an end of one of the segments it kept, that is the
    projection of a point of one of the edges it was given. *)
Theorem buildPaths_points_are_projections (atan2 : float → float → float)
    (edges : list (list Vector3.t)) (axis : Axis) (diagonal : float) (paths : list Path) :
  buildPaths atan2 edges axis diagonal = Some paths →
  ∀ path p, path ∈ paths → p ∈ path →
    projected edges axis p
    ∧ ∃ seg e, seg ∈ segmentsOfEdges axis (ZERO_LENGTH_TOL diagonal) edges
               ∧ p = segmentEnd seg e.
Proof.
  intros H path p Hpath Hp. split.
  - by eapply buildPaths_projected.
  - by eapply buildPaths_from_segments.
Qed.

(** The theorem at the two short edges, whose three points are ends of the
    edges. *)
Lemma buildPaths_points_are_projections_witness :
  (∀ atan2, buildPaths atan2 Examples.two_short_edges AxisZ 1000
            = Some [[Vector2.mk 0 0; Vector2.mk 0.2 0; Vector2.mk 0.45 0]])
  ∧ (∀ (atan2 : float → float → float) path p,
       path ∈ [[Vector2.mk 0 0; Vector2.mk 0.2 0; Vector2.mk 0.45 0]] → p ∈ path →
       projected Examples.two_short_edges AxisZ p).
Proof.
  assert (∀ atan2, buildPaths atan2 Examples.two_short_edges AxisZ 1000
                   = Some [[Vector2.mk 0 0; Vector2.mk 0.2 0; Vector2.mk 0.45 0]]) as H
    by (intros atan2; vm_compute; reflexivity).
  split; [exact H|]. intros atan2 path p Hpath Hp.
  exact (proj1 (buildPaths_points_are_projections atan2 Examples.two_short_edges AxisZ
                  1000 _ (H atan2) path p Hpath Hp)).
Defined.

(** *** The nearest segment end and the final cleanup *)

Lemma ltb_false_trans (d bd d' : float) :
  (d <? bd)%float = true → (d' <? bd)%float = false → (d' <? d)%float = false.
Proof.
  intros H1 H2. apply not_true_iff_false. intros H3.
  apply not_true_iff_false in H2. apply H2. by eapply ltb_trans.
Qed.

(** The scan of [findClosestSegment] over the entries [(i, segments[i])]:
    the best distance is the radius or that of the best match, and no
    scanned candidate is strictly nearer. *)
Lemma closest_scan (radius : float) (segments : list Segment) (point : Vector2.t)
    (excludeSet : list nat) (entries : list (nat * Segment))
    (best : option ClosestMatch * float) (scanned : list (nat * Segment)) :
  (match fst best with
   | Some m => ∃ seg, segments !! segIdx m = Some seg
                      ∧ snd best = Vector2.distanceTo point (segmentEnd seg (endIdx m))
   | None => snd best = radius
   end) →
  (∀ i seg e, (i, seg) ∈ scanned → i ∉ excludeSet →
     (Vector2.distanceTo point (segmentEnd seg e) <? snd best)%float = false) →
  (∀ i seg, (i, seg) ∈ entries → segments !! i = Some seg) →
  let result := foldl (closestSegStep point excludeSet) best entries in
  (match fst result with
   | Some m => ∃ seg, segments !! segIdx m = Some seg
                      ∧ snd result = Vector2.distanceTo point (segmentEnd seg (endIdx m))
   | None => snd result = radius
   end)
  ∧ (∀ i seg e, (i, seg) ∈ scanned ++ entries → i ∉ excludeSet →
       (Vector2.distanceTo point (segmentEnd seg e) <? snd result)%float = false).
Proof.
  revert best scanned.
  induction entries as [|[i seg] entries IH]; intros best scanned Hbest Hscan Hent.
  { cbn. rewrite app_nil_r. done. }
  cbn [foldl]. replace (scanned ++ (i, seg) :: entries)
    with ((scanned ++ [(i, seg)]) ++ entries) by (by rewrite <- app_assoc).
  assert (segments !! i = Some seg) as Hseg by (apply Hent; left).
  apply IH; [| |intros; apply Hent; by right].
  - assert (∀ (b : option ClosestMatch * float) (e0 : bool),
              (match fst b with
               | Some m => ∃ seg, segments !! segIdx m = Some seg
                            ∧ snd b = Vector2.distanceTo point (segmentEnd seg (endIdx m))
               | None => snd b = radius
               end) →
              match fst (closestEndStep point i seg b e0) with
              | Some m => ∃ seg0, segments !! segIdx m = Some seg0
                            ∧ snd (closestEndStep point i seg b e0)
                              = Vector2.distanceTo point (segmentEnd seg0 (endIdx m))
              | None => snd (closestEndStep point i seg b e0) = radius
              end) as Hshape.
    { intros b e0 Hb. unfold closestEndStep.
      destruct (_ <? snd b)%float; [|done]. cbn [fst snd segIdx endIdx]. eauto. }
    unfold closestSegStep. case_bool_decide; [done|]. cbn [foldl].
    by apply Hshape, Hshape.
  - intros i' seg' e Hin Hex.
    assert (∀ (b : option ClosestMatch * float) (e0 : bool) d,
              (d <? snd b)%float = false →
              (d <? snd (closestEndStep point i seg b e0))%float = false) as Hkeep.
    { intros b e0 d Hd. unfold closestEndStep.
      destruct (Vector2.distanceTo point (segmentEnd seg e0) <? snd b)%float eqn:E;
        [|exact Hd]. cbn [snd]. exact (ltb_false_trans _ _ _ E Hd). }
    assert (∀ (b : option ClosestMatch * float) (e0 : bool),
              (Vector2.distanceTo point (segmentEnd seg e0)
               <? snd (closestEndStep point i seg b e0))%float = false) as Hself.
    { intros b e0. unfold closestEndStep.
      destruct (Vector2.distanceTo point (segmentEnd seg e0) <? snd b)%float eqn:E;
        [|exact E]. cbn [snd]. apply ltb_irrefl. }
    unfold closestSegStep. case_bool_decide as Hi.
    + apply elem_of_app in Hin as [Hin | Hin]; [by apply (Hscan i')|].
      apply list_elem_of_singleton in Hin as [= -> ->]. done.
    + cbn [foldl]. apply elem_of_app in Hin as [Hin | Hin].
      * apply Hkeep, Hkeep. by apply (Hscan i').
      * apply list_elem_of_singleton in Hin as [= -> ->].
        destruct e; [apply Hself | apply Hkeep, Hself].
Qed.

(** X14.  A match of [findClosestSegment] is an end of a segment outside
    the excluded set that lies strictly within the radius of the point, and
    no end of a segment outside the excluded set is strictly nearer;
    [findClosestSegment] finds no match only when no such end lies strictly
    within the radius. *)
Theorem findClosestSegment_nearest (radius : float) (segments : list Segment)
    (point : Vector2.t) (excludeSet : list nat) :
  match findClosestSegment radius segments point excludeSet with
  | Some m =>
      (segIdx m ∉ excludeSet)
      ∧ ∃ seg, segments !! segIdx m = Some seg
          ∧ (Vector2.distanceTo point (segmentEnd seg (endIdx m)) <? radius)%float = true
          ∧ noneNearer segments point excludeSet
                       (Vector2.distanceTo point (segmentEnd seg (endIdx m)))
  | None => noneNearer segments point excludeSet radius
  end.
Proof.
  pose proof (closest_scan radius segments point excludeSet
                (imap (λ i seg, (i, seg)) segments) (None, radius) []) as Hscan.
  cbv zeta in Hscan. cbn [app fst snd] in Hscan.
  destruct Hscan as [Hbest Hnone]; [done | | |].
  { intros i seg e Hin. by apply not_elem_of_nil in Hin. }
  { intros i seg Hin. by apply elem_of_lookup_imap in Hin as (i' & seg' & [= -> ->] & H). }
  assert (∀ bound,
            (∀ i seg e, (i, seg) ∈ imap (λ i seg, (i, seg)) segments → i ∉ excludeSet →
               (Vector2.distanceTo point (segmentEnd seg e) <? bound)%float = false) →
            noneNearer segments point excludeSet bound) as Hall.
  { intros bound H i seg e Hseg Hex. apply (H i); [|done].
    apply elem_of_lookup_imap. eauto. }
  destruct (findClosestSegment radius segments point excludeSet) as [m|] eqn:E.
  - destruct (findClosestSegment_Some _ _ _ _ _ E) as [Hex (seg & Hseg & Hd)].
    split; [done|]. exists seg. split; [done|]. split; [done|].
    unfold findClosestSegment in E. rewrite E in Hbest.
    destruct Hbest as (seg' & Hseg' & Hbest). rewrite Hseg in Hseg'. injection Hseg' as <-.
    rewrite <- Hbest. by apply Hall.
  - unfold findClosestSegment in E. rewrite E in Hbest. rewrite <- Hbest. by apply Hall.
Qed.

(** X16.  The final cleanup returns the path as it is or with its first
    point appended, and cleaning a cleaned path changes nothing: a path is
    closed at most once. *)
Theorem finalCleanup_idempotent (tol : float) (path : Path) :
  finalCleanup tol (finalCleanup tol path) = finalCleanup tol path
  ∧ (finalCleanup tol path = path
     ∨ ∃ first, head path = Some first ∧ finalCleanup tol path = path ++ [first]).
Proof.
  assert (finalCleanup tol path = path
          ∨ ∃ first, head path = Some first ∧ 3 ≤ length path
                     ∧ finalCleanup tol path = path ++ [first]) as Hcases.
  { unfold finalCleanup. destruct (length path <? 3)%nat eqn:Hlen; [by left|].
    apply Nat.ltb_ge in Hlen.
    destruct (head path) as [first|]; [|by left].
    destruct (last path); [|by left]. destruct (_ && _); [|by left].
    right. by exists first. }
  destruct Hcases as [H | (first & Hh & Hlen & ->)].
  - rewrite !H. split; [done | by left].
  - split; [|right; by exists first].
    unfold finalCleanup.
    assert (head (path ++ [first]) = Some first) as -> by (by destruct path).
    rewrite last_snoc.
    assert ((0 <? Vector2.distanceTo first first)%float = false) as ->.
    { apply not_true_iff_false. intros H. apply ltb_lt in H. unfold num_lt, fkey in H.
      change (Prim2SF 0) with (S754_zero false) in H.
      destruct (distanceTo_self first) as [E | E]; rewrite E in H; cbn in H; [lia | done]. }
    by destruct (length (path ++ [first]) <? 3)%nat.
Qed.

(** *** The fallback walks a segment once *)

Section Fallback.
Variable radius : float.
Variable segments : list Segment.

Lemma chain_loop_count (used0 : list nat) (atTail : bool) (fuel : nat) (c r : Chain) :
  chainCount used0 c →
  while_loop fuel (chainStep radius segments atTail) c = Some r →
  chainCount used0 r.
Proof.
  intros Hc. apply (while_loop_inv (chainCount used0) (chainCount used0)); [done| |].
  - intros s s' Hs Hstep.
    apply chainStep_continue in Hstep as (_ & m & seg & _ & _ & _ & Hu & Hp).
    unfold chainCount in *. rewrite Hu, Hp, length_app. cbn [length].
    destruct atTail; [rewrite length_app|]; cbn [length]; lia.
  - intros s s' Hs Hstep. by apply chainStep_break_used in Hstep as ->.
Qed.

Lemma chainFrom_count (entry : nat * Segment) (st st' : list nat * list Path) :
  segmentsWalked (snd st) ≤ length (fst st) →
  chainFrom radius segments entry st = Some st' →
  segmentsWalked (snd st') ≤ length (fst st').
Proof.
  unfold chainFrom. destruct entry as [i seg], st as [used0 acc]. cbn [fst snd].
  intros Hsum. case_bool_decide; [by intros [= <-]|].
  destruct (while_loop _ (chainStep _ _ true) _) as [fwd|] eqn:Hf; [|done].
  cbn [mbind option_bind].
  destruct (while_loop _ (chainStep _ _ false) _) as [bwd|] eqn:Hb; [|done].
  cbn [mbind option_bind]. intros [= <-]. cbn [fst snd].
  apply (chain_loop_count used0) in Hf;
    [|unfold chainCount; cbn [ch_used ch_path]; rewrite length_app; cbn [length]; lia].
  apply (chain_loop_count used0) in Hb; [|done]. unfold chainCount in Hb.
  match goal with |- context [if ?b then _ else _] => destruct b eqn:E end.
  - unfold segmentsWalked in *. rewrite sum_list_with_app. cbn [sum_list_with].
    destruct (ch_path bwd) as [|? [|? [|? ?]]]; try discriminate E.
    cbn [length] in *. lia.
  - lia.
Qed.

Lemma chainSegments_count (paths : list Path) :
  chainSegments radius segments = Some paths →
  segmentsWalked paths ≤ length segments.
Proof.
  unfold chainSegments.
  destruct (for_each _ _ _) as [st|] eqn:Hrun; [|done]. intros [= <-].
  assert (usedOk (length segments) (fst st) ∧ segmentsWalked (snd st) ≤ length (fst st))
    as [[Hnd Hlt] Hsum].
  { eapply (for_each_inv (λ st : list nat * list Path,
              usedOk (length segments) (fst st)
              ∧ segmentsWalked (snd st) ≤ length (fst st))); [| |exact Hrun].
    - split; [split; [apply NoDup_nil_2 | apply Forall_nil_2] | cbn; lia].
    - intros a s s' Ha [Hok Hs] Hstep. split; [|by eapply chainFrom_count].
      destruct (chainFrom_total radius segments a s Ha Hok) as (s'' & Hs'' & Hok'').
      congruence. }
  pose proof (NoDup_bounded_length _ _ Hnd Hlt). lia.
Qed.

End Fallback.

Lemma segmentsWalked_atLeast3 (paths : list Path) :
  atLeast3 paths → 2 * length paths ≤ segmentsWalked paths.
Proof.
  unfold atLeast3, segmentsWalked. induction 1 as [|p paths Hp _ IH]; cbn; lia.
Qed.

Section WithAtan2.
Variable Math_atan2 : float → float → float.

(** X15.  When the passes over the graph find no path, the paths returned
    are the chains of the fallback after the final cleanup, and the
    fallback walks every segment at most once: the chains kept have
    together walked no more segments than there are, so there is at most
    one chain for every two segments. *)
Theorem fallback_walks_each_segment_once (edges : list (list Vector3.t)) (axis : Axis)
    (diagonal : float) :
  let segments := segmentsOfEdges axis (ZERO_LENGTH_TOL diagonal) edges in
  graphPaths Math_atan2 segments diagonal = Some [] →
  ∃ chains,
    chainSegments (FALLBACK_RADIUS diagonal) segments = Some chains
    ∧ (segments ≠ [] →
       buildPaths Math_atan2 edges axis diagonal
       = Some (map (finalCleanup (TOLERANCE diagonal)) chains))
    ∧ segmentsWalked chains ≤ length segments
    ∧ 2 * length chains ≤ length segments.
Proof.
  intros segments Hnone.
  destruct (chainSegments_total (FALLBACK_RADIUS diagonal) segments) as [chains Hchains].
  exists chains. split; [exact Hchains|].
  pose proof (chainSegments_count _ _ _ Hchains) as Hcount.
  pose proof (segmentsWalked_atLeast3 _ (chainSegments_atLeast3 _ _ _ Hchains)) as H3.
  split; [|split; [exact Hcount | lia]].
  intros Hne. unfold buildPaths. fold segments.
  destruct edges as [|edge edges]; [done|]. cbn [length Nat.eqb].
  destruct segments as [|seg rest] eqn:Hsegs; [done|]. cbn [length Nat.eqb].
  unfold tracePaths. rewrite Hnone. cbn [mbind option_bind length Nat.eqb].
  by rewrite Hchains.
Qed.

End WithAtan2.

(** The theorem at the two short edges: one chain of three points, which
    has walked both segments. *)
Lemma fallback_walks_each_segment_once_witness :
  let segments := segmentsOfEdges AxisZ (ZERO_LENGTH_TOL 1000) Examples.two_short_edges in
  (∀ atan2, graphPaths atan2 segments 1000 = Some [])
  ∧ (∀ atan2 : float → float → float,
       ∃ chains,
         chainSegments (FALLBACK_RADIUS 1000) segments = Some chains
         ∧ segmentsWalked chains ≤ length segments).
Proof.
  intros segments.
  assert (∀ atan2, graphPaths atan2 segments 1000 = Some []) as H
    by (intros atan2; vm_compute; reflexivity).
  split; [exact H|]. intros atan2.
  destruct (fallback_walks_each_segment_once atan2 Examples.two_short_edges AxisZ 1000
              (H atan2)) as (chains & Hchains & _ & Hcount & _).
  exists chains. exact (conj Hchains Hcount).
Defined.

End GraphProps.

(** ** [convertTo2D] in [buildPaths] *)

Module ProjectionProps.
Import JsMath FloatOrder StlSlicer Termination Vocabulary FloatFacts PathProps GraphProps.






End ProjectionProps.

(** ** Paths of the graph passes run along the segments *)

Module StepProps.
Import JsMath FloatOrder StlSlicer Termination Vocabulary FloatFacts PathProps GraphProps.

Lemma stepwise_nil (R : Vector2.t → Vector2.t → Prop) : stepwise R [].
Proof. intros k p q Hp. destruct k; discriminate Hp. Qed.

Lemma stepwise_singleton (R : Vector2.t → Vector2.t → Prop) (p : Vector2.t) :
  stepwise R [p].
Proof. intros [|k] a b Ha Hb; discriminate Hb. Qed.

Lemma stepwise_app (R : Vector2.t → Vector2.t → Prop) (l1 l2 : Path) :
  stepwise R l1 → stepwise R l2 →
  (∀ a b, last l1 = Some a → head l2 = Some b → R a b) →
  stepwise R (l1 ++ l2).
Proof.
  intros H1 H2 Hj k p q Hp Hq.
  destruct (decide (S k < length l1)) as [Hlt | Hge].
  - rewrite lookup_app_l in Hp by lia. rewrite lookup_app_l in Hq by lia.
    by apply (H1 k).
  - destruct (decide (k < length l1)) as [Hk | Hk].
    + rewrite lookup_app_l in Hp by lia. rewrite lookup_app_r in Hq by lia.
      replace (S k - length l1) with 0 in Hq by lia.
      apply Hj.
      * rewrite last_lookup. by replace (Init.Nat.pred (length l1)) with k by lia.
      * by rewrite head_lookup.
    + rewrite lookup_app_r in Hp by lia. rewrite lookup_app_r in Hq by lia.
      replace (S k - length l1) with (S (k - length l1)) in Hq by lia.
      by apply (H2 (k - length l1)).
Qed.

Lemma stepwise_snoc (R : Vector2.t → Vector2.t → Prop) (path : Path) (q : Vector2.t) :
  stepwise R path → (∀ p, last path = Some p → R p q) → stepwise R (path ++ [q]).
Proof.
  intros H Hq. apply stepwise_app; [done | apply stepwise_singleton|].
  intros a b Ha [= <-]. by apply Hq.
Qed.

Lemma stepwise_cons (R : Vector2.t → Vector2.t → Prop) (path : Path) (p : Vector2.t) :
  stepwise R path → (∀ q, head path = Some q → R p q) → stepwise R (p :: path).
Proof.
  intros H Hp. change (p :: path) with ([p] ++ path).
  apply stepwise_app; [apply stepwise_singleton | done|].
  intros a b [= <-]. apply Hp.
Qed.

Lemma connections_nodeAt_setUsed (u : bool) (i j : nat) (nodes : list Node) :
  connections (nodeAt (alter (setUsed u) i nodes) j) = connections (nodeAt nodes j).
Proof.
  unfold nodeAt. rewrite list_lookup_alter.
  destruct (decide (i = j)) as [-> | Hne]; destruct (nodes !! j); reflexivity.
Qed.

Section Following.
Variable tol : float.
Variable segments : list Segment.
Variable g : Graph.

Lemma joined_sym (p q : Vector2.t) :
  joined tol segments p q → joined tol segments q p.
Proof. intros (seg & Hseg & H). exists seg. split; [done|]. tauto. Qed.

Lemma joined_keys (p q p' q' : Vector2.t) :
  getPointKey tol p = getPointKey tol p' → getPointKey tol q = getPointKey tol q' →
  joined tol segments p q → joined tol segments p' q'.
Proof.
  intros Hp Hq (seg & Hseg & H). exists seg. split; [done|].
  rewrite <- Hp, <- Hq. exact H.
Qed.

Lemma linked_setUsed (u : bool) (i : nat) (nodes : list Node) :
  linked tol segments g nodes → linked tol segments g (alter (setUsed u) i nodes).
Proof.
  intros [H1 H2]. split.
  - intros a b. rewrite connections_nodeAt_setUsed, !position_nodeAt_setUsed. apply H1.
  - intros key s. rewrite position_nodeAt_setUsed. apply H2.
Qed.

Lemma linked_markAll (u : bool) (indices : list nat) (nodes : list Node) :
  linked tol segments g nodes → linked tol segments g (markAll u indices nodes).
Proof.
  unfold markAll. revert nodes.
  induction indices as [|i indices IH]; intros nodes H; [done|].
  simpl. apply IH. by apply linked_setUsed.
Qed.

Section WithAtan2.
Variable Math_atan2 : float → float → float.

Lemma traceStep_follows (nSegments startIdx : nat) (t : Trace) :
  following tol segments g startIdx t →
  match traceStep Math_atan2 nSegments startIdx t with
  | Continue t' => following tol segments g startIdx t'
  | Break t' => followed tol segments g t'
  end.
Proof.
  intros (Hl & Hs & Hc & Hh & Hlast). unfold traceStep.
  destruct (chooseBestConnection _ _ _ _ _) as [nx|] eqn:E.
  2:{ split; [done|]. split; [done|]. rewrite Hc. done. }
  apply chooseBestConnection_Some in E as [Hconn _].
  pose proof (proj1 Hl _ _ Hconn) as Hj.
  destruct (nx =? startIdx)%nat eqn:Hnx.
  { apply Nat.eqb_eq in Hnx as ->. split; [done|]. split; [done|].
    cbn [tr_complete tr_path]. intros _ first final Hf Hfin.
    rewrite Hh in Hf. rewrite Hlast in Hfin. injection Hf as <-. injection Hfin as <-.
    exact Hj. }
  set (point := Vector2.clone (position (nodeAt (tr_nodes t) nx))).
  assert (following tol segments g startIdx
            {| tr_nodes := alter (setUsed true) nx (tr_nodes t);
               tr_path := tr_path t ++ [point];
               tr_indices := tr_indices t ++ [nx];
               tr_current := nx;
               tr_prev := Some (tr_current t);
               tr_complete := false;
               tr_length :=
                 match last (tr_path t) with
                 | Some before => (tr_length t + Vector2.distanceTo point before)%float
                 | None => tr_length t
                 end |}) as Ht'.
  { split; [by apply linked_setUsed|]. cbn [tr_path tr_nodes tr_current tr_complete].
    split; [|split; [done|split]].
    - apply stepwise_snoc; [done|]. intros p Hp. rewrite Hlast in Hp.
      injection Hp as <-. exact Hj.
    - rewrite position_nodeAt_setUsed. destruct (tr_path t); [done|]. exact Hh.
    - by rewrite last_snoc, position_nodeAt_setUsed. }
  destruct (_ <? _)%nat; [|exact Ht'].
  destruct Ht' as (Hl' & Hs' & Hc' & _). split; [done|]. split; [done|].
  cbn [tr_complete] in *. done.
Qed.

Lemma traceFrom_follows (minLen : float) (nSegments startIdx : nat)
    (st st' : list Node * list Path) :
  pathsFollow tol segments g st →
  traceFrom Math_atan2 tol minLen nSegments startIdx st = Some st' →
  pathsFollow tol segments g st'.
Proof.
  unfold traceFrom, pathsFollow. destruct st as [nodes acc]. cbn [fst snd].
  intros [Hn Ha]. destruct (used (nodeAt nodes startIdx)) eqn:Hu; [by intros [= <-]|].
  destruct (2 <? _)%nat; [by intros [= <-]|].
  destruct (while_loop _ _ _) as [t|] eqn:Hloop; [|done]. cbn. intros [= <-].
  assert (followed tol segments g t) as (Hl & Hs & Hclose).
  { revert Hloop.
    apply (while_loop_inv (following tol segments g startIdx) (followed tol segments g)).
    - split; [by apply linked_setUsed|]. cbn [tr_path tr_nodes tr_current tr_complete].
      split; [apply stepwise_singleton|]. split; [done|].
      by rewrite position_nodeAt_setUsed.
    - intros s s' Hs Hstep. pose proof (traceStep_follows nSegments startIdx s Hs) as H.
      by rewrite Hstep in H.
    - intros s s' Hs Hstep. pose proof (traceStep_follows nSegments startIdx s Hs) as H.
      by rewrite Hstep in H. }
  unfold finishTrace. destruct (_ && _); cbn [fst snd].
  - split; [done|]. apply Forall_app. split; [done|]. apply Forall_singleton.
    destruct (tr_complete t) eqn:Hc; [|done].
    destruct (head (tr_path t)) as [first|] eqn:Hh; [|done].
    destruct (last (tr_path t)) as [final|] eqn:Hf; [|done].
    destruct (_ <? _)%float; [|done].
    apply stepwise_snoc; [done|]. intros p Hp. rewrite Hf in Hp. injection Hp as <-.
    by apply Hclose.
  - split; [by apply linked_markAll | done].
Qed.

Lemma findContours_follows (minLen : float) (nSegments : nat)
    (st st' : list Node * list Path) :
  pathsFollow tol segments g st →
  findContours Math_atan2 tol minLen nSegments st = Some st' →
  pathsFollow tol segments g st'.
Proof.
  intros Hst. unfold findContours. apply for_each_inv; [done|].
  intros a s s' _ Hs. by apply traceFrom_follows.
Qed.

End WithAtan2.

Lemma bestNext_conn (nodes : list Node) (visited conns : list nat)
    (best : option nat * option nat) (Q : nat → Prop) (nx : nat) :
  (∀ b, fst best = Some b → Q b) → Forall Q conns →
  fst (foldl (bestNextStep nodes visited) best conns) = Some nx → Q nx.
Proof.
  revert best. induction conns as [|c conns IH]; intros best Hbest Hall; [apply Hbest|].
  apply Forall_cons in Hall as [Hc Hall]. simpl. apply IH; [|done].
  unfold bestNextStep. case_bool_decide; [done|].
  destruct (used (nodeAt nodes c)); [done|].
  destruct (snd best) as [bestScore|].
  - destruct (_ <? bestScore)%nat; [|done]. by intros b [= <-].
  - by intros b [= <-].
Qed.

Lemma findBestNextNode_conn (nodes : list Node) (cur : nat) (visited : list nat) (nx : nat) :
  findBestNextNode nodes cur visited = Some nx → nx ∈ connections (nodeAt nodes cur).
Proof.
  apply (bestNext_conn nodes visited _ _ (λ j, j ∈ connections (nodeAt nodes cur)));
    [by intros b [=]|].
  by apply Forall_forall.
Qed.

Lemma extend_forward_follows (nodes : list Node) (fuel : nat) (e r : Extension) :
  linked tol segments g nodes →
  stepwise (joined tol segments) (ex_path e) →
  last (ex_path e) = Some (position (nodeAt nodes (ex_idx e))) →
  while_loop fuel (extendStep nodes true) e = Some r →
  stepwise (joined tol segments) (ex_path r) ∧ head (ex_path r) = head (ex_path e).
Proof.
  intros Hl Hs Hlast.
  apply (while_loop_inv
           (λ x, stepwise (joined tol segments) (ex_path x)
                 ∧ last (ex_path x) = Some (position (nodeAt nodes (ex_idx x)))
                 ∧ head (ex_path x) = head (ex_path e))
           (λ x, stepwise (joined tol segments) (ex_path x)
                 ∧ head (ex_path x) = head (ex_path e))); [done| |].
  - intros s s' (Hs1 & Hs2 & Hs3). unfold extendStep.
    destruct (findBestNextNode _ _ _) as [nx|] eqn:E; [|done].
    apply findBestNextNode_conn in E. intros [= <-]. cbn [ex_path ex_idx].
    split; [|split].
    + apply stepwise_snoc; [done|]. intros p Hp. rewrite Hs2 in Hp. injection Hp as <-.
      by apply (proj1 Hl).
    + by rewrite last_snoc.
    + rewrite <- Hs3. destruct (ex_path s); [|done]. done.
  - intros s s' (Hs1 & Hs2 & Hs3). unfold extendStep.
    destruct (findBestNextNode _ _ _); [done|]. by intros [= <-].
Qed.

Lemma extend_backward_follows (nodes : list Node) (i : nat) (fuel : nat)
    (e r : Extension) :
  linked tol segments g nodes →
  ex_path e = [] → ex_idx e = i →
  while_loop fuel (extendStep nodes false) e = Some r →
  stepwise (joined tol segments) (ex_path r)
  ∧ (∀ p, last (ex_path r) = Some p →
       joined tol segments p (position (nodeAt nodes i))).
Proof.
  intros Hl Hnil Hi.
  apply (while_loop_inv
           (λ x, stepwise (joined tol segments) (ex_path x)
                 ∧ ((ex_path x = [] ∧ ex_idx x = i)
                    ∨ head (ex_path x) = Some (position (nodeAt nodes (ex_idx x))))
                 ∧ (∀ p, last (ex_path x) = Some p →
                      joined tol segments p (position (nodeAt nodes i))))
           (λ x, stepwise (joined tol segments) (ex_path x)
                 ∧ (∀ p, last (ex_path x) = Some p →
                      joined tol segments p (position (nodeAt nodes i))))).
  - rewrite Hnil. split; [apply stepwise_nil|]. split; [by left | by intros p [=]].
  - intros s s' (Hs1 & Hs2 & Hs3). unfold extendStep.
    destruct (findBestNextNode _ _ _) as [nx|] eqn:E; [|done].
    apply findBestNextNode_conn in E. apply (proj1 Hl) in E. apply joined_sym in E.
    intros [= <-]. cbn [ex_path ex_idx]. split; [|split; [by right|]].
    + apply stepwise_cons; [done|]. intros q Hq.
      destruct Hs2 as [[Hn _] | Hs2]; [by rewrite Hn in Hq|].
      rewrite Hs2 in Hq. by injection Hq as <-.
    + destruct Hs2 as [[Hn Hidx] | Hs2].
      * rewrite Hn. cbn. intros p [= <-]. by rewrite <- Hidx.
      * intros p Hp. apply Hs3. destruct (ex_path s) as [|a l]; [done|].
        by rewrite last_cons_cons in Hp.
  - intros s s' (Hs1 & Hs2 & Hs3). unfold extendStep.
    destruct (findBestNextNode _ _ _); [done|]. by intros [= <-].
Qed.

Lemma closeIfConnected_follows (nodes : list Node) (path : Path) :
  linked tol segments g nodes →
  stepwise (joined tol segments) path →
  stepwise (joined tol segments) (closeIfConnected tol g nodes path).
Proof.
  intros [Hl Hk] Hs. unfold closeIfConnected.
  destruct (head path) as [first|] eqn:Hh; [|done].
  destruct (last path) as [final|] eqn:Hf; [|done]. destruct (_ <? _)%float; [done|].
  destruct (nodeMap g !! getPointKey tol first) as [s|] eqn:Es; [|done].
  destruct (nodeMap g !! getPointKey tol final) as [e|] eqn:Ee; [|done].
  case_bool_decide as Hconn; [|done].
  apply stepwise_snoc; [done|]. intros p Hp. rewrite Hf in Hp. injection Hp as <-.
  apply joined_sym.
  eapply joined_keys; [| |exact (Hl _ _ Hconn)]; by apply Hk.
Qed.

Lemma extendFrom_follows (minLen : float) (i : nat) (st st' : list Node * list Path) :
  pathsFollow tol segments g st → extendFrom tol minLen g i st = Some st' →
  pathsFollow tol segments g st'.
Proof.
  unfold extendFrom, pathsFollow. destruct st as [nodes acc]. cbn [fst snd].
  intros [Hn Ha]. destruct (used (nodeAt nodes i)) eqn:Hu; [by intros [= <-]|].
  destruct (while_loop _ (extendStep nodes true) _) as [fwd|] eqn:Hf; [|done].
  cbn [mbind option_bind].
  destruct (while_loop _ (extendStep nodes false) _) as [bwd|] eqn:Hb; [|done].
  cbn [mbind option_bind]. intros [= <-].
  apply extend_forward_follows in Hf as [Hfs Hfh];
    [|done | apply stepwise_singleton | done].
  apply (extend_backward_follows nodes i) in Hb as [Hbs Hbl]; [|done..].
  unfold finishExtension. destruct (_ && _); cbn [fst snd]; [|done].
  split; [by do 2 apply linked_markAll|].
  apply Forall_app. split; [done|]. apply Forall_singleton.
  apply closeIfConnected_follows; [by do 2 apply linked_markAll|].
  apply stepwise_app; [done | done|].
  intros a b Ha' Hb'. rewrite Hfh in Hb'. cbn in Hb'. injection Hb' as <-.
  by apply Hbl.
Qed.

Lemma handleRemainingSegments_follows (minLen : float) (st st' : list Node * list Path) :
  pathsFollow tol segments g st → handleRemainingSegments tol minLen g st = Some st' →
  pathsFollow tol segments g st'.
Proof.
  intros Hst. unfold handleRemainingSegments.
  destruct (_ =? 0)%nat; [by intros [= <-]|].
  apply for_each_inv; [done|]. intros a s s' _ Hs. by apply extendFrom_follows.
Qed.

End Following.

Lemma graph_linked (tol : float) (segments : list Segment) :
  linked tol segments (buildGraph tol segments) (nodes (buildGraph tol segments)).
Proof.
  destruct (buildGraph_spec tol segments) as ((H1 & H2 & H3 & _) & (_ & _ & Hconn) & _).
  assert (∀ key s, nodeMap (buildGraph tol segments) !! key = Some s →
            getPointKey tol (position (nodeAt (nodes (buildGraph tol segments)) s)) = key)
    as Hkey.
  { intros key s Hs. destruct (H2 key s Hs) as (n & Hn & Hk).
    by rewrite (nodeAt_lookup _ _ _ Hn). }
  split; [|exact Hkey].
  intros i j Hj. unfold nodeAt at 1 in Hj.
  destruct (nodes (buildGraph tol segments) !! i) as [n|] eqn:Hn;
    [|by apply not_elem_of_nil in Hj]. cbn in Hj.
  destruct (Hconn i n j Hn Hj) as (seg & Hseg & Hjoin).
  exists seg. split; [done|].
  destruct Hjoin as [[Hi Hj'] | [Hj' Hi]]; [left | right];
    split; by apply Hkey.
Qed.

Lemma graphPaths_follow (atan2 : float → float → float) (segments : list Segment)
    (diagonal : float) (found : list Path) :
  graphPaths atan2 segments diagonal = Some found →
  Forall (stepwise (joined (TOLERANCE diagonal) segments)) found.
Proof.
  unfold graphPaths.
  destruct (findContours _ _ _ _ _) as [st1|] eqn:H1; [|done]. cbn [mbind option_bind].
  destruct (handleRemainingSegments _ _ _ _) as [st2|] eqn:H2; [|done].
  cbn [mbind option_bind]. intros [= <-].
  eapply findContours_follows in H1; [|split; [apply graph_linked | by cbn]].
  eapply handleRemainingSegments_follows in H2; [|exact H1].
  apply H2.
Qed.

(** X21.  When the two passes over the graph produce paths, every step of
    such a path runs along a segment of the slice: two consecutive points
    have the keys of the two ends of one segment.  When at least one path
    is produced, [buildPaths] returns these paths after the final
    clean-up. *)
Theorem graph_paths_follow_segments (atan2 : float → float → float)
    (edges : list (list Vector3.t)) (axis : Axis) (diagonal : float)
    (found : list Path) :
  let segments := segmentsOfEdges axis (ZERO_LENGTH_TOL diagonal) edges in
  graphPaths atan2 segments diagonal = Some found →
  Forall (stepwise (joined (TOLERANCE diagonal) segments)) found
  ∧ (found ≠ [] →
     buildPaths atan2 edges axis diagonal
     = Some (map (finalCleanup (TOLERANCE diagonal)) found)).
Proof.
  intros segments Hfound. split; [by apply (graphPaths_follow atan2)|].
  intros Hne. by apply buildPaths_of_graphPaths.
Qed.

Lemma graph_paths_follow_segments_witness :
  let segments :=
    segmentsOfEdges AxisZ (ZERO_LENGTH_TOL 1000) Examples.square_edges in
  graphPaths Examples.axis_atan2 segments 1000
  = Some [[Vector2.mk 0 0; Vector2.mk 10 0; Vector2.mk 10 10; Vector2.mk 0 10;
             Vector2.mk 0 0]]
  ∧ Forall (stepwise (joined (TOLERANCE 1000) segments))
           [[Vector2.mk 0 0; Vector2.mk 10 0; Vector2.mk 10 10; Vector2.mk 0 10;
             Vector2.mk 0 0]].
Proof.
  cbv zeta. split; [vm_compute; reflexivity|].
  apply (graph_paths_follow_segments Examples.axis_atan2 Examples.square_edges
           AxisZ 1000).
  vm_compute. reflexivity.
Defined.

Section Visiting.
Variable tol : float.
Variable n : nat.

Lemma distinctNodes_setUsed (u : bool) (i : nat) (nodes : list Node) :
  distinctNodes tol n nodes → distinctNodes tol n (alter (setUsed u) i nodes).
Proof.
  intros (Hlen & Hkeys & Hconn). split; [by rewrite length_alter|]. split.
  - intros a b Ha Hb. rewrite !position_nodeAt_setUsed. by apply Hkeys.
  - intros a b. rewrite connections_nodeAt_setUsed. apply Hconn.
Qed.

Lemma distinctNodes_markAll (u : bool) (indices : list nat) (nodes : list Node) :
  distinctNodes tol n nodes → distinctNodes tol n (markAll u indices nodes).
Proof.
  unfold markAll. revert nodes.
  induction indices as [|i indices IH]; intros nodes H; [done|].
  simpl. apply IH. by apply distinctNodes_setUsed.
Qed.

Lemma visiting_distinct (startIdx : nat) (t : Trace) :
  visiting tol n startIdx t → distinctPoints tol (tr_path t).
Proof.
  intros ((_ & Hkeys & _) & Hnd & Hrange & _ & ->). unfold distinctPoints.
  induction (tr_indices t) as [|i l IH]; [constructor|].
  apply NoDup_cons in Hnd as [Hi Hnd]. apply Forall_cons in Hrange as [Hir Hrange].
  cbn [map]. apply NoDup_cons. split; [|by apply IH].
  intros Hin. apply Hi.
  rewrite map_map in Hin. apply list_elem_of_In in Hin.
  apply in_map_iff in Hin as (j & Hj & Hjl).
  apply list_elem_of_In in Hjl. rewrite Forall_forall in Hrange.
  by rewrite <- (Hkeys j i (Hrange j Hjl) Hir Hj).
Qed.

Section WithAtan2.
Variable Math_atan2 : float → float → float.

Lemma traceStep_visits (nSegments startIdx : nat) (t : Trace) :
  visiting tol n startIdx t →
  match traceStep Math_atan2 nSegments startIdx t with
  | Continue t' | Break t' => visiting tol n startIdx t'
  end.
Proof.
  intros (Hn & Hnd & Hrange & Hstart & Hpath). unfold traceStep.
  destruct (chooseBestConnection _ _ _ _ _) as [nx|] eqn:E; [|done].
  apply chooseBestConnection_Some in E as [Hconn Hex].
  destruct (nx =? startIdx)%nat eqn:Hnx; [done|].
  apply Nat.eqb_neq in Hnx.
  assert (nx ∉ tr_indices t) as Hnew.
  { intros Hin. apply Hex. apply list_elem_of_filter. done. }
  set (point := Vector2.clone (position (nodeAt (tr_nodes t) nx))).
  assert (visiting tol n startIdx
            {| tr_nodes := alter (setUsed true) nx (tr_nodes t);
               tr_path := tr_path t ++ [point];
               tr_indices := tr_indices t ++ [nx];
               tr_current := nx;
               tr_prev := Some (tr_current t);
               tr_complete := false;
               tr_length :=
                 match last (tr_path t) with
                 | Some before => (tr_length t + Vector2.distanceTo point before)%float
                 | None => tr_length t
                 end |}) as Ht'.
  { split; [by apply distinctNodes_setUsed|]. cbn [tr_path tr_nodes tr_indices].
    split; [|split; [|split]].
    - apply NoDup_app. split; [done|]. split; [|apply NoDup_singleton].
      intros x Hx Hx'. apply list_elem_of_singleton in Hx' as ->. done.
    - apply Forall_app. split; [done|]. apply Forall_singleton.
      destruct Hn as (_ & _ & Hc). by apply (Hc (tr_current t)).
    - apply elem_of_app. by left.
    - rewrite map_app, Hpath. cbn [map]. f_equal.
      + apply map_ext. intros a. by rewrite position_nodeAt_setUsed.
      + by rewrite position_nodeAt_setUsed. }
  by destruct (_ <? _)%nat.
Qed.

Lemma traceFrom_visits (minLen : float) (nSegments startIdx : nat)
    (st st' : list Node * list Path) :
  startIdx < n →
  distinctNodes tol n (fst st) ∧ Forall (simplePath tol) (snd st) →
  traceFrom Math_atan2 tol minLen nSegments startIdx st = Some st' →
  distinctNodes tol n (fst st') ∧ Forall (simplePath tol) (snd st').
Proof.
  unfold traceFrom. destruct st as [nodes acc]. cbn [fst snd].
  intros Hstart [Hn Ha].
  destruct (used (nodeAt nodes startIdx)) eqn:Hu; [by intros [= <-]|].
  destruct (2 <? _)%nat; [by intros [= <-]|].
  destruct (while_loop _ _ _) as [t|] eqn:Hloop; [|done]. cbn. intros [= <-].
  assert (visiting tol n startIdx t) as Ht.
  { revert Hloop.
    apply (while_loop_inv (visiting tol n startIdx) (visiting tol n startIdx)).
    - split; [by apply distinctNodes_setUsed|]. cbn [tr_path tr_nodes tr_indices].
      split; [apply NoDup_singleton|]. split; [by apply Forall_singleton|].
      split; [by apply list_elem_of_singleton|].
      cbn [map]. by rewrite position_nodeAt_setUsed.
    - intros s s' Hs Hstep. pose proof (traceStep_visits nSegments startIdx s Hs) as H.
      by rewrite Hstep in H.
    - intros s s' Hs Hstep. pose proof (traceStep_visits nSegments startIdx s Hs) as H.
      by rewrite Hstep in H. }
  pose proof (visiting_distinct startIdx t Ht) as Hd.
  unfold finishTrace. destruct (_ && _); cbn [fst snd].
  - split; [apply Ht|]. apply Forall_app. split; [done|]. apply Forall_singleton.
    destruct (tr_complete t); [|by left].
    destruct (head (tr_path t)) as [first|] eqn:Hh; [|by left].
    destruct (last (tr_path t)) as [final|]; [|by left].
    destruct (_ <? _)%float; [|by left].
    right. by exists (tr_path t), first.
  - split; [|done]. apply distinctNodes_markAll. apply Ht.
Qed.

End WithAtan2.
End Visiting.

Lemma startOrder_elements (nodes : list Node) (i : nat) :
  i ∈ startOrder nodes → i < length nodes.
Proof.
  unfold startOrder, sort_by. intros Hi.
  destruct (sort_by_spec nodes (seq 0 (length nodes)) []) as [Hp _].
  - apply NoDup_seq.
  - intros a b x y _ Ha. by rewrite lookup_nil in Ha.
  - rewrite Hp in Hi. cbn in Hi. apply elem_of_seq in Hi. lia.
Qed.

Lemma graph_distinctNodes (tol : float) (segments : list Segment) :
  distinctNodes tol (length (nodes (buildGraph tol segments)))
                (nodes (buildGraph tol segments)).
Proof.
  destruct (buildGraph_spec tol segments) as ((H1 & _ & H3 & _) & _).
  split; [done|]. split.
  - intros i j Hi Hj Hk.
    destruct (lookup_lt_is_Some_2 _ _ Hi) as [a Ha].
    destruct (lookup_lt_is_Some_2 _ _ Hj) as [b Hb].
    rewrite (nodeAt_lookup _ _ _ Ha), (nodeAt_lookup _ _ _ Hb) in Hk.
    pose proof (H1 i a Ha) as Hia. pose proof (H1 j b Hb) as Hjb.
    rewrite Hk in Hia. congruence.
  - intros i j Hj. unfold nodeAt in Hj.
    destruct (nodes (buildGraph tol segments) !! i) as [a|] eqn:Ha;
      [|by apply not_elem_of_nil in Hj]. cbn in Hj.
    destruct (H3 i a j Ha Hj) as (_ & m & Hm & _).
    by apply lookup_lt_Some in Hm.
Qed.

Lemma findContours_simple (atan2 : float → float → float) (tol minLen : float)
    (nSegments : nat) (nodes0 : list Node) (st : list Node * list Path) :
  distinctNodes tol (length nodes0) nodes0 →
  findContours atan2 tol minLen nSegments (nodes0, []) = Some st →
  Forall (simplePath tol) (snd st).
Proof.
  intros Hn. unfold findContours. cbn [fst]. intros Hrun.
  apply (for_each_inv
           (λ st, distinctNodes tol (length nodes0) (fst st)
                  ∧ Forall (simplePath tol) (snd st))) in Hrun; [apply Hrun | by split |].
  intros a s s' Ha Hs. apply traceFrom_visits; [|done].
  by apply startOrder_elements.
Qed.

(** X22.  A path traced by the first pass over the graph of the segments
    passes through no merged point twice: the keys of its points are
    pairwise distinct, apart from the last point of a closed path, which
    repeats the first. *)
Theorem first_pass_paths_are_simple (atan2 : float → float → float)
    (segments : list Segment) (diagonal : float) (st : list Node * list Path) :
  findContours atan2 (TOLERANCE diagonal) (MIN_PATH_LENGTH diagonal) (length segments)
    (nodes (buildGraph (TOLERANCE diagonal) segments), []) = Some st →
  Forall (simplePath (TOLERANCE diagonal)) (snd st).
Proof. apply findContours_simple, graph_distinctNodes. Qed.

Lemma first_pass_paths_are_simple_witness :
  let segments :=
    segmentsOfEdges AxisZ (ZERO_LENGTH_TOL 1000) Examples.square_edges in
  ∃ st,
    findContours Examples.axis_atan2 (TOLERANCE 1000) (MIN_PATH_LENGTH 1000)
      (length segments) (nodes (buildGraph (TOLERANCE 1000) segments), []) = Some st
    ∧ snd st = [[Vector2.mk 0 0; Vector2.mk 10 0; Vector2.mk 10 10; Vector2.mk 0 10;
                 Vector2.mk 0 0]]
    ∧ Forall (simplePath (TOLERANCE 1000)) (snd st).
Proof.
  cbv zeta. eexists. split; [vm_compute; reflexivity|]. split; [reflexivity|].
  apply (first_pass_paths_are_simple Examples.axis_atan2
           (segmentsOfEdges AxisZ (ZERO_LENGTH_TOL 1000) Examples.square_edges) 1000).
  vm_compute. reflexivity.
Defined.

End StepProps.

Module Tolerances.
Import Reals Lra JsMath RealValue Rounding Progress FloatOrder FloatFacts StlSlicer Vocabulary.

Lemma safeDiag_cases (diagonal : float) :
  is_nan diagonal = false →
  (1e-10 <=? safeDiag diagonal)%float = true.
Proof.
  intros Hnan. unfold safeDiag, Math_max. rewrite Hnan. cbn [orb is_nan].
  change (is_nan 1e-10) with false. cbv iota.
  assert (fkey 1e-10 = Some (1, -86, 7737125245533627)%Z) as K by reflexivity.
  apply is_nan_false in Hnan as [a Ha].
  destruct (diagonal <? 1e-10)%float eqn:E1; [by vm_compute|].
  destruct (1e-10 <? diagonal)%float eqn:E2; [by apply ltb_leb|].
  destruct (get_sign diagonal); [by vm_compute|].
  float_order.
Qed.

Lemma tolerance_le (x c1 c2 : float) (mc1 mc2 : positive) (ec1 ec2 : Z) :
  (1e-10 <=? x)%float = true →
  Prim2SF c1 = S754_finite false mc1 ec1 → Prim2SF c2 = S754_finite false mc2 ec2 →
  (c1 <=? c2)%float = true →
  (x * c1 <=? x * c2)%float = true.
Proof.
  intros Hx Hc1 Hc2 Hle.
  apply leb_le in Hx. unfold num_le, fkey in Hx.
  replace (Prim2SF 1e-10) with (S754_finite false 7737125245533627 (-86)) in Hx
    by reflexivity.
  pose proof (FloatAxioms.Prim2SF_valid x) as Hvx.
  destruct (Prim2SF x) as [s|s| |s m e] eqn:Ex; cbn in Hx; try done.
  - destruct Hx as [Hx | [=]]; lia.
  - destruct s; [destruct Hx as [Hx | [=]]; lia|].
    apply leb_le. unfold num_le, fkey. rewrite !mul_spec, Ex, Hc1, Hc2. cbn. by right.
  - destruct s; [destruct Hx as [Hx | [=]]; lia|].
    pose proof (mul_rounds x c1 m mc1 e ec1 Ex Hc1) as R1.
    pose proof (mul_rounds x c2 m mc2 e ec2 Ex Hc2) as R2.
    assert (B2R (Prim2SF c1) <= B2R (Prim2SF c2))%R as Hc.
    { rewrite Hc1, Hc2. apply key_le_B2R.
      - rewrite <- Hc1. apply FloatAxioms.Prim2SF_valid.
      - rewrite <- Hc2. apply FloatAxioms.Prim2SF_valid.
      - apply leb_le in Hle. unfold num_le, fkey in Hle. by rewrite Hc1, Hc2 in Hle. }
    assert (0 < B2R (Prim2SF x))%R as Hpos by (rewrite Ex; apply B2R_pos).
    destruct (rounds_mono _ _ _ _ R1 R2) as (a & b & Ha & Hb & Hab); [nra|].
    by eapply leb_of_keys.
Qed.

Lemma tolerance_positive (x c : float) (mc : positive) (ec : Z) :
  (1e-10 <=? x)%float = true →
  Prim2SF c = S754_finite false mc ec →
  (1e-10 * c <=? x * c)%float = true.
Proof.
  intros Hx Hc.
  pose proof Hx as Hx'. apply leb_le in Hx. unfold num_le, fkey in Hx.
  replace (Prim2SF 1e-10) with (S754_finite false 7737125245533627 (-86)) in Hx
    by reflexivity.
  pose proof (FloatAxioms.Prim2SF_valid x) as Hvx.
  destruct (Prim2SF x) as [s|s| |s m e] eqn:Ex; cbn in Hx; try done.
  - destruct Hx as [Hx | [=]]; lia.
  - destruct s; [destruct Hx as [Hx | [=]]; lia|].
    assert (x = infinity) as -> by (apply Prim2SF_inj; by rewrite Ex).
    assert (Prim2SF (infinity * c) = S754_infinity false) as Hinf
      by (by rewrite mul_spec, Hc).
    apply leb_le. unfold num_le, fkey. rewrite Hinf.
    assert (Prim2SF 1e-10 = S754_finite false 7737125245533627 (-86)) as E10 by reflexivity.
    pose proof (mul_rounds 1e-10 c _ mc _ ec E10 Hc) as R1.
    destruct (rounds_shape _ _ R1) as [-> | [-> | (m' & e' & ->)]];
      cbn [sf_key]; unfold lex_lt; [left; lia | by right | left; lia].
  - destruct s; [destruct Hx as [Hx | [=]]; lia|].
    assert (Prim2SF 1e-10 = S754_finite false 7737125245533627 (-86)) as E10 by reflexivity.
    pose proof (mul_rounds 1e-10 c _ mc _ ec E10 Hc) as R1.
    pose proof (mul_rounds x c m mc e ec Ex Hc) as R2.
    assert (B2R (Prim2SF 1e-10) <= B2R (Prim2SF x))%R as Hle.
    { rewrite E10, Ex. apply key_le_B2R; [done | done | done]. }
    assert (0 < B2R (Prim2SF c))%R as Hpos by (rewrite Hc; apply B2R_pos).
    destruct (rounds_mono _ _ _ _ R1 R2) as (a & b & Ha & Hb & Hab); [nra|].
    by eapply leb_of_keys.
Qed.

(** X17.  For every diagonal that is a number, the four tolerances of
    [buildPaths] are ordered: the zero-length tolerance is positive and at
    most the merge tolerance, which is at most the fallback radius, which
    is at most the minimum path length (all in binary64 arithmetic). *)
Theorem tolerances_are_ordered (diagonal : float) :
  is_nan diagonal = false →
  (0 <? ZERO_LENGTH_TOL diagonal)%float = true
  ∧ (ZERO_LENGTH_TOL diagonal <=? TOLERANCE diagonal)%float = true
  ∧ (TOLERANCE diagonal <=? FALLBACK_RADIUS diagonal)%float = true
  ∧ (FALLBACK_RADIUS diagonal <=? MIN_PATH_LENGTH diagonal)%float = true.
Proof.
  intros Hnan. pose proof (safeDiag_cases diagonal Hnan) as Hx.
  unfold ZERO_LENGTH_TOL, TOLERANCE, FALLBACK_RADIUS, MIN_PATH_LENGTH.
  split; [|split; [|split]].
  - eapply ltb_leb_trans; [|eapply (tolerance_positive _ 1e-6); [done | reflexivity]].
    by vm_compute.
  - eapply tolerance_le; [done | reflexivity | reflexivity | by vm_compute].
  - eapply tolerance_le; [done | reflexivity | reflexivity | by vm_compute].
  - eapply tolerance_le; [done | reflexivity | reflexivity | by vm_compute].
Qed.

(** The theorem at diagonal 1000. *)
Lemma tolerances_are_ordered_witness :
  is_nan 1000 = false
  ∧ (0 <? ZERO_LENGTH_TOL 1000)%float = true
  ∧ (ZERO_LENGTH_TOL 1000 <=? TOLERANCE 1000)%float = true
  ∧ (TOLERANCE 1000 <=? FALLBACK_RADIUS 1000)%float = true
  ∧ (FALLBACK_RADIUS 1000 <=? MIN_PATH_LENGTH 1000)%float = true.
Proof. split; [reflexivity|]. apply (tolerances_are_ordered 1000). reflexivity. Defined.

End Tolerances.

Module RunProps.
Import JsMath FloatOrder StlSlicer Termination Vocabulary FloatFacts Rounding PathProps SliceProps MeshProps GraphProps.

(** *** How [sliceModel] fails *)

Section WithAtan2.
Variable Math_atan2 : float → float → float.

Lemma createSlice_thrown (s : StlSlicer.t) (position : float) (axis : Axis) (message : string) :
  createSlice Math_atan2 s position axis = Thrown message →
  ∀ position', createSlice Math_atan2 s position' axis = Thrown message.
Proof.
  unfold createSlice. destruct (geometry s) as [geo|]; [|done].
  destruct (bvhSlicer s) as [tree|]; [|done].
  destruct (boundingBox s) as [box|]; [|done].
  intros H. exfalso. by destruct (buildPaths _ _ _ _).
Qed.

Lemma sliceLayers_thrown (s : StlSlicer.t) (axis : Axis) (start adjusted count : float)
    (onProgress : bool) (fuel i : nat) (layers : list LayerData)
    (progress : list float) (message : string) :
  sliceLayers Math_atan2 fuel s axis start adjusted count onProgress i layers progress
  = Thrown message →
  ∀ position, createSlice Math_atan2 s position axis = Thrown message.
Proof.
  revert i layers progress. induction fuel as [|fuel IH]; intros i layers progress.
  - cbn [sliceLayers]. by destruct (int_lt _ _).
  - cbn [sliceLayers]. destruct (int_lt _ _); [|done].
    destruct (createSlice _ _ _ _) as [paths|msg|] eqn:Hc; [apply IH| |done].
    intros [= ->]. by eapply createSlice_thrown.
Qed.

Lemma sliceModel_thrown (fuel : nat) (s : StlSlicer.t) (axis : Axis)
    (layerThickness : float) (onProgress : bool) (message : string) :
  sliceModel Math_atan2 fuel s axis layerThickness onProgress = Thrown message →
  ¬ loaded s
  ∧ (message = "No model loaded"%string
     ∨ message = "Invalid geometry: missing position attribute"%string).
Proof.
  unfold sliceModel.
  destruct (geometry s) as [geo|] eqn:Hg.
  2:{ intros [= <-]. split; [|by left]. intros [(? & ? & ? & _) _]. congruence. }
  destruct (boundingBox s) as [box|] eqn:Hb.
  2:{ intros [= <-]. split; [|by left]. intros (_ & [? ?] & _). congruence. }
  destruct (positionAttr geo) as [positions|] eqn:Hp.
  2:{ intros [= <-]. split; [|by right].
      intros [(g & p & Hg' & Hp') _]. congruence. }
  cbv zeta.
  set (geo' := match indexAttr geo with Some _ => geo | None => _ end).
  assert (is_Some (indexAttr geo')) as [idx Hidx]
    by (subst geo'; destruct (indexAttr geo) eqn:E; [rewrite E|]; cbn; eauto).
  rewrite Hidx. destruct (axisRange axis box) as [start end_].
  destruct (sliceLayers _ _ _ _ _ _ _ _ _ _ _) as [[ls ps]|msg|] eqn:Hrun; [done| |done].
  intros [= <-]. pose proof (sliceLayers_thrown _ _ _ _ _ _ _ _ _ _ _ Hrun 0%float) as Hc.
  unfold createSlice in Hc. cbn [geometry bvhSlicer boundingBox] in Hc.
  destruct (bvhSlicer s) as [tree|] eqn:Ht.
  + exfalso. by destruct (buildPaths _ _ _ _).
  + injection Hc as <-. split; [|by left]. intros (_ & _ & [? ?]). congruence.
Qed.

(** X2.  [sliceModel] throws ["No model loaded"] when the slicer holds no
    geometry or no bounding box, and ["Invalid geometry: missing position
    attribute"] when its geometry has no positions.  Whenever it throws, no
    model is loaded and the message is one of these two: the check on the
    created indices never fails, and a loaded model never makes it
    throw. *)
Theorem sliceModel_throws (fuel : nat) (s : StlSlicer.t) (axis : Axis)
    (layerThickness : float) (onProgress : bool) :
  (geometry s = None ∨ boundingBox s = None →
   sliceModel Math_atan2 fuel s axis layerThickness onProgress = Thrown "No model loaded")
  ∧ (∀ geo, geometry s = Some geo → is_Some (boundingBox s) → positionAttr geo = None →
     sliceModel Math_atan2 fuel s axis layerThickness onProgress
     = Thrown "Invalid geometry: missing position attribute")
  ∧ (∀ message,
       sliceModel Math_atan2 fuel s axis layerThickness onProgress = Thrown message →
       ¬ loaded s
       ∧ (message = "No model loaded"%string
          ∨ message = "Invalid geometry: missing position attribute"%string)).
Proof.
  split; [|split].
  - unfold sliceModel. intros [-> | H]; [done|]. rewrite H. by destruct (geometry s).
  - intros geo Hg [box Hb] Hp. unfold sliceModel. by rewrite Hg, Hb, Hp.
  - apply sliceModel_thrown.
Qed.

End WithAtan2.

(** *** The layers of a completed run *)

Lemma int_lt_0_above_2 (c : float) :
  (2 <? c)%float = true → int_lt 0 c = true.
Proof.
  intros Hc. apply ltb_lt in Hc. unfold num_lt, fkey in Hc.
  replace (Prim2SF 2) with (S754_finite false 4503599627370496 (-51)) in Hc by reflexivity.
  unfold int_lt. destruct (Prim2SF c) as [s|s| |s m e]; cbn in Hc; try done.
  - lia.
  - destruct s; [lia | done].
  - destruct s; [lia|]. cbn [cond_Zopp].
    destruct (0 <=? e)%Z eqn:He.
    + apply Z.ltb_lt. apply Z.leb_le in He.
      assert (0 < 2 ^ e)%Z by (apply Z.pow_pos_nonneg; lia). lia.
    + apply Z.ltb_lt. lia.
Qed.

Lemma count_cases (q T : float) (n : nat) :
  int_lt (Z.of_nat n) (calculatedLayerCount q T) = false →
  (∀ k, k < n → int_lt (Z.of_nat k) (calculatedLayerCount q T) = true) →
  (n = 0 ∧ calculatedLayerCount q T = nan)
  ∨ (2 ≤ n ∧ calculatedLayerCount q T = Number_of_nat n).
Proof.
  intros Hstop Hpassed. destruct n as [|n].
  - left. split; [done|]. unfold calculatedLayerCount in *.
    change (Z.of_nat 0) with 0%Z in Hstop.
    destruct (Progress.Math_max_2_cases (Math_ceil (q / T))) as [-> | [H2 | [Hc Hlt]]]; [done| |].
    + rewrite H2 in Hstop. by vm_compute in Hstop.
    + rewrite Hc in Hstop. by rewrite (int_lt_0_above_2 _ Hlt) in Hstop.
  - right.
    assert (int_value (calculatedLayerCount q T) = Some (Z.of_nat (S n))) as Hv.
    { apply Progress.count_from_tests; [|done].
      replace (Z.of_nat (S n) - 1)%Z with (Z.of_nat n) by lia. apply Hpassed. lia. }
    assert (Number_of_nat (S n) = calculatedLayerCount q T) as Hn
      by (apply Progress.Number_of_Z_int_value; [done | lia]).
    split; [|done].
    destruct n as [|n]; [|lia]. exfalso.
    unfold calculatedLayerCount in *.
    destruct (Progress.Math_max_2_cases (Math_ceil (q / T))) as [H | [H | [H Hlt]]].
    + rewrite H in Hn. by vm_compute in Hn.
    + rewrite H in Hn. by vm_compute in Hn.
    + rewrite H in Hn. rewrite <- Hn in Hlt. by vm_compute in Hlt.
Qed.

Lemma slicePosition_0 (start adjusted : float) :
  finiteSF (Prim2SF adjusted) → is_nan start = false →
  (slicePosition start adjusted 0 =? start)%float = true.
Proof.
  intros Hadj Hstart. apply is_nan_false in Hstart as [a Ha].
  apply eqb_eq. unfold slicePosition, fkey in *.
  change (Number_of_nat 0) with 0%float.
  rewrite add_spec, mul_spec. replace (Prim2SF 0) with (S754_zero false) by reflexivity.
  destruct (Prim2SF adjusted) as [sa|sa| |sa ma ea]; try done;
  destruct (Prim2SF start) as [[]|[]| |ss ms es]; try done; cbn in *; eauto.
  all: destruct sa; cbn; eauto.
Qed.

Section WithAtan2.
Variable Math_atan2 : float → float → float.

(** X3.  In a completed run, layer [i] has index [i] and lies at
    [start + i * adjusted].  The run returns no layer at all, when the
    computed layer count is [NaN], or at least two layers, as many as the
    computed count.  When the adjusted thickness is finite and [start] is a
    number, the first layer lies at [start]. *)
Theorem sliceModel_layers_in_order (fuel : nat) (s : StlSlicer.t) (axis : Axis)
    (layerThickness : float) (onProgress : bool) (run : Run) :
  sliceModel Math_atan2 fuel s axis layerThickness onProgress = Returned run →
  ∃ box,
    boundingBox s = Some box
    ∧ let start := fst (axisRange axis box) in
      let end_ := snd (axisRange axis box) in
      let count := calculatedLayerCount (end_ - start) layerThickness in
      let adjusted := adjustedLayerThickness (end_ - start) count in
      (∀ i layer, run_layers run !! i = Some layer →
         index layer = i ∧ z layer = (start + Number_of_nat i * adjusted)%float)
      ∧ ((run_layers run = [] ∧ count = nan)
         ∨ (2 ≤ length (run_layers run)
            ∧ count = Number_of_nat (length (run_layers run))))
      ∧ (finiteSF (Prim2SF adjusted) → is_nan start = false →
         ∀ first, head (run_layers run) = Some first → (z first =? start)%float = true).
Proof.
  intros Hrun.
  destruct (sliceModel_inv _ _ _ _ _ _ _ Hrun)
    as (geo & positions & box & _ & _ & Hbox & Hlayers & _ & Hstop & _).
  pose proof (sliceModel_passed _ _ _ _ _ _ _ box Hrun Hbox) as Hpassed.
  exists box. split; [exact Hbox|]. cbv zeta in *. split; [|split].
  - intros i layer Hi. destruct (Hlayers i layer Hi) as (Hidx & Hz & _). done.
  - destruct (count_cases _ _ _ Hstop Hpassed) as [[Hn Hc] | [Hn Hc]].
    + left. split; [|done]. by destruct (run_layers run).
    + by right.
  - intros Hadj Hstart first Hfirst. rewrite head_lookup in Hfirst.
    destruct (Hlayers 0 first Hfirst) as (_ & -> & _). by apply slicePosition_0.
Qed.

End WithAtan2.

(** *** Layer thicknesses that are not positive numbers *)

Lemma is_nan_eq (x : float) : is_nan x = true → x = nan.
Proof.
  intros H. apply Progress.Prim2SF_inj. apply is_nan_key in H. unfold fkey in H.
  by destruct (Prim2SF x).
Qed.

Lemma count_of_nan (totalHeight : float) :
  calculatedLayerCount totalHeight nan = nan.
Proof.
  unfold calculatedLayerCount.
  assert ((totalHeight / nan)%float = nan) as ->.
  { apply Progress.Prim2SF_inj. rewrite div_spec.
    change (Prim2SF nan) with S754_nan. by destruct (Prim2SF totalHeight). }
  reflexivity.
Qed.

Lemma count_values (q T : float) :
  calculatedLayerCount q T = nan
  ∨ calculatedLayerCount q T = infinity
  ∨ ∃ n, 2 ≤ n ∧ int_value (calculatedLayerCount q T) = Some (Z.of_nat n).
Proof.
  pose proof (Progress.count_integral q T) as Hint.
  unfold calculatedLayerCount in *.
  destruct (Progress.Math_max_2_cases (Math_ceil (q / T))) as [H | [H | [H Hlt]]].
  - by left.
  - right. right. exists 2. split; [lia|]. by rewrite H.
  - rewrite H in *. set (c := Math_ceil (q / T)) in *.
    pose proof Hlt as Hlt'. apply ltb_lt in Hlt'. unfold num_lt, fkey in Hlt'.
    replace (Prim2SF 2) with (S754_finite false 4503599627370496 (-51)) in Hlt'
      by reflexivity.
    destruct (Prim2SF c) as [s|s| |s m e] eqn:Ec; cbn [sf_key] in Hlt'; try done.
    + unfold lex_lt in Hlt'. lia.
    + destruct s; [unfold lex_lt in Hlt'; lia|]. right. left.
      apply Progress.Prim2SF_inj. by rewrite Ec.
    + destruct Hint as [z Hz]. right. right.
      assert (2 < z)%Z as Hz2.
      { destruct (Z_lt_le_dec 2 z) as [|Hle]; [done|]. exfalso.
        assert (int_lt 2 c = false) as H2
          by (rewrite (int_lt_value _ _ _ Hz); apply Z.ltb_ge; lia).
        assert (int_lt 0 c = true) as H0 by (by apply int_lt_0_above_2).
        rewrite (int_lt_value _ _ _ Hz) in H0. apply Z.ltb_lt in H0.
        assert (z = 1 ∨ z = 2)%Z as [-> | ->] by lia.
        - assert (c = Number_of_Z 1) as Hc
            by (symmetry; apply Progress.Number_of_Z_int_value; [done | lia]).
          rewrite Hc in Hlt. by vm_compute in Hlt.
        - assert (c = Number_of_Z 2) as Hc
            by (symmetry; apply Progress.Number_of_Z_int_value; [done | lia]).
          rewrite Hc in Hlt. by vm_compute in Hlt. }
      exists (Z.to_nat z). split; [lia|]. rewrite Hz. f_equal. lia.
Qed.

Lemma count_of_zero (totalHeight : float) :
  (0 <? totalHeight)%float = true →
  calculatedLayerCount totalHeight 0 = infinity.
Proof.
  intros H. unfold calculatedLayerCount.
  assert ((totalHeight / 0)%float = infinity) as ->.
  { apply Progress.Prim2SF_inj. rewrite div_spec.
    apply ltb_lt in H. unfold num_lt, fkey in H.
    change (Prim2SF 0) with (S754_zero false) in *.
    change (Prim2SF infinity) with (S754_infinity false).
    destruct (Prim2SF totalHeight) as [s|s| |s m e]; cbn in H; try done; try lia.
    all: destruct s; [lia | done]. }
  reflexivity.
Qed.

Section WithAtan2.
Variable Math_atan2 : float → float → float.

Lemma sliceModel_of_count_nan (fuel : nat) (s : StlSlicer.t) (axis : Axis)
    (layerThickness : float) (onProgress : bool) (box : Box3.t) :
  (∃ geo positions, geometry s = Some geo ∧ positionAttr geo = Some positions) →
  boundingBox s = Some box →
  calculatedLayerCount (snd (axisRange axis box) - fst (axisRange axis box))
                       layerThickness = nan →
  ∃ run,
    sliceModel Math_atan2 fuel s axis layerThickness onProgress = Returned run
    ∧ run_layers run = [] ∧ run_progress run = [].
Proof.
  intros (geo & positions & Hg & Hp) Hb Hnan.
  unfold sliceModel. rewrite Hg, Hb, Hp. cbv zeta.
  set (geo' := match indexAttr geo with Some _ => geo | None => _ end).
  assert (is_Some (indexAttr geo')) as [idx Hidx]
    by (subst geo'; destruct (indexAttr geo) eqn:E; [rewrite E|]; cbn; eauto).
  rewrite Hidx. destruct (axisRange axis box) as [start end_]. cbn [fst snd] in Hnan.
  rewrite Hnan.
  assert (∀ s' adj, sliceLayers Math_atan2 fuel s' axis start adj nan onProgress 0 [] []
                    = Returned ([], [])) as -> by (by destruct fuel).
  eauto.
Qed.

Lemma sliceLayers_endless (s : StlSlicer.t) (axis : Axis) (start adjusted : float)
    (onProgress : bool) (fuel i : nat) (layers : list LayerData) (progress : list float) :
  is_Some (geometry s) → is_Some (boundingBox s) → is_Some (bvhSlicer s) →
  sliceLayers Math_atan2 fuel s axis start adjusted infinity onProgress i layers progress
  = OutOfFuel.
Proof.
  intros Hg Hb Ht. revert i layers progress.
  induction fuel as [|fuel IH]; intros i layers progress; [done|].
  cbn [sliceLayers]. change (int_lt (Z.of_nat i) infinity) with true. cbv iota.
  destruct (createSlice_returns Math_atan2 s (slicePosition start adjusted i) axis Hg Hb Ht)
    as [paths ->].
  apply IH.
Qed.

Lemma sliceModel_of_count_infinity (fuel : nat) (s : StlSlicer.t) (axis : Axis)
    (layerThickness : float) (onProgress : bool) (box : Box3.t) :
  loaded s → boundingBox s = Some box →
  calculatedLayerCount (snd (axisRange axis box) - fst (axisRange axis box))
                       layerThickness = infinity →
  sliceModel Math_atan2 fuel s axis layerThickness onProgress = OutOfFuel.
Proof.
  intros ((geo & positions & Hg & Hp) & _ & Ht) Hb Hinf.
  unfold sliceModel. rewrite Hg, Hb, Hp. cbv zeta.
  set (geo' := match indexAttr geo with Some _ => geo | None => _ end).
  assert (is_Some (indexAttr geo')) as [idx Hidx]
    by (subst geo'; destruct (indexAttr geo) eqn:E; [rewrite E|]; cbn; eauto).
  rewrite Hidx. destruct (axisRange axis box) as [start end_]. cbn [fst snd] in Hinf.
  rewrite Hinf.
  rewrite sliceLayers_endless; [done|cbn; eauto..].
Qed.

(** X4.  With a layer thickness that is [NaN], on a slicer holding a
    geometry with positions and a bounding box, [sliceModel] returns at
    once with no layer and without any progress report. *)
Theorem sliceModel_nan_thickness (fuel : nat) (s : StlSlicer.t) (axis : Axis)
    (layerThickness : float) (onProgress : bool) :
  (∃ geo positions, geometry s = Some geo ∧ positionAttr geo = Some positions) →
  is_Some (boundingBox s) →
  is_nan layerThickness = true →
  ∃ run,
    sliceModel Math_atan2 fuel s axis layerThickness onProgress = Returned run
    ∧ run_layers run = [] ∧ run_progress run = [].
Proof.
  intros Hgeo [box Hb] Hnan. apply is_nan_eq in Hnan as ->.
  apply (sliceModel_of_count_nan fuel s axis nan onProgress box Hgeo Hb).
  apply count_of_nan.
Qed.

(** X5.  With layer thickness 0 on a loaded model of positive height
    along the axis, the computed layer count is infinite and the loop over
    the layers never ends: however many iterations are allowed, the run
    has neither returned nor thrown. *)
Theorem sliceModel_zero_thickness (fuel : nat) (s : StlSlicer.t) (axis : Axis)
    (onProgress : bool) (box : Box3.t) :
  loaded s → boundingBox s = Some box →
  (0 <? snd (axisRange axis box) - fst (axisRange axis box))%float = true →
  sliceModel Math_atan2 fuel s axis 0 onProgress = OutOfFuel.
Proof.
  intros Hloaded Hb Hheight.
  apply (sliceModel_of_count_infinity fuel s axis 0 onProgress box Hloaded Hb).
  by apply count_of_zero.
Qed.

(** A layer count beyond [2^53] is never reached: the counter stalls at
    [2^53] and the loop test passes for ever. *)
Lemma sliceLayers_beyond (s : StlSlicer.t) (axis : Axis) (start adjusted count : float)
    (onProgress : bool) (n : Z) (fuel i : nat) (layers : list LayerData)
    (progress : list float) :
  is_Some (geometry s) → is_Some (boundingBox s) → is_Some (bvhSlicer s) →
  int_value count = Some n → (2 ^ 53 < n)%Z → (Z.of_nat i ≤ 2 ^ 53)%Z →
  sliceLayers Math_atan2 fuel s axis start adjusted count onProgress i layers progress
  = OutOfFuel.
Proof.
  intros Hg Hb Ht Hn Hbig. revert i layers progress.
  induction fuel as [|fuel IH]; intros i layers progress Hi; cbn [sliceLayers];
    rewrite (int_lt_value _ _ _ Hn);
    (replace (Z.of_nat i <? n)%Z with true by (symmetry; apply Z.ltb_lt; lia));
    [done|].
  destruct (createSlice_returns Math_atan2 s (slicePosition start adjusted i) axis Hg Hb Ht)
    as [paths ->].
  apply IH. by apply Counter.increment_bounded.
Qed.

Lemma sliceModel_of_count_beyond (fuel : nat) (s : StlSlicer.t) (axis : Axis)
    (layerThickness : float) (onProgress : bool) (box : Box3.t) (n : Z) :
  loaded s → boundingBox s = Some box →
  int_value (calculatedLayerCount (snd (axisRange axis box) - fst (axisRange axis box))
                                  layerThickness) = Some n →
  (2 ^ 53 < n)%Z →
  sliceModel Math_atan2 fuel s axis layerThickness onProgress = OutOfFuel.
Proof.
  intros ((geo & positions & Hg & Hp) & _ & Ht) Hb Hn Hbig.
  unfold sliceModel. rewrite Hg, Hb, Hp. cbv zeta.
  set (geo' := match indexAttr geo with Some _ => geo | None => _ end).
  assert (is_Some (indexAttr geo')) as [idx Hidx]
    by (subst geo'; destruct (indexAttr geo) eqn:E; [rewrite E|]; cbn; eauto).
  rewrite Hidx. destruct (axisRange axis box) as [start end_]. cbn [fst snd] in Hn.
  rewrite (sliceLayers_beyond _ _ _ _ _ _ n); [done | cbn; eauto .. | done | done |].
  change (Z.of_nat 0) with 0%Z. lia.
Qed.

(** X20.  On a loaded model the computed layer count decides how a run
    ends.  When the count is infinite, or an integer above [2^53], which
    the counter never reaches, the run never ends.  Otherwise the count is
    [NaN] or an integer from 2 to [2^53], and the run returns, with no
    layer in the first case and with as many layers as the count in the
    second, as soon as that many iterations are allowed. *)
Theorem sliceModel_returns_unless_endless (s : StlSlicer.t) (axis : Axis)
    (layerThickness : float) (onProgress : bool) (box : Box3.t) :
  loaded s → boundingBox s = Some box →
  let count :=
    calculatedLayerCount (snd (axisRange axis box) - fst (axisRange axis box))
                         layerThickness in
  ((count = infinity ∨ ∃ n, int_value count = Some n ∧ (2 ^ 53 < n)%Z)
   ∧ ∀ fuel, sliceModel Math_atan2 fuel s axis layerThickness onProgress = OutOfFuel)
  ∨ (∃ n,
       (count = nan ∧ n = 0
        ∨ 2 ≤ n ∧ (Z.of_nat n ≤ 2 ^ 53)%Z ∧ int_value count = Some (Z.of_nat n))
       ∧ ∀ fuel, n ≤ fuel →
           ∃ run, sliceModel Math_atan2 fuel s axis layerThickness onProgress
                  = Returned run
                  ∧ length (run_layers run) = n).
Proof.
  intros Hloaded Hbox count. subst count.
  destruct (count_values (snd (axisRange axis box) - fst (axisRange axis box))
              layerThickness) as [Hnan | [Hinf | (n & Hn & Hint)]].
  - right. exists 0. split; [by left|]. intros fuel _.
    destruct (sliceModel_of_count_nan fuel s axis layerThickness onProgress box)
      as (run & Hrun & Hlayers & _); [apply Hloaded | done | done |].
    exists run. by rewrite Hlayers.
  - left. split; [by left|]. intros fuel.
    by apply (sliceModel_of_count_infinity fuel s axis layerThickness onProgress box).
  - destruct (Z_le_gt_dec (Z.of_nat n) (2 ^ 53)) as [Hsmall | Hbig].
    + right. exists n. split; [by right|]. intros fuel Hfuel.
      destruct (sliceModel_run Math_atan2 fuel s axis layerThickness onProgress box n
                  Hloaded Hbox Hint Hsmall Hfuel) as (run & Hrun & Hlen & _).
      eauto.
    + left. split; [right; exists (Z.of_nat n); split; [done | lia]|]. intros fuel.
      apply (sliceModel_of_count_beyond fuel s axis layerThickness onProgress box
               (Z.of_nat n)); [done | done | done | lia].
Qed.

End WithAtan2.

(** *** The dimensions of the model *)

Lemma aligned_le (mx : positive) (ex : Z) (my : positive) (ey : Z) :
  valid_binary (S754_finite false mx ex) = true →
  valid_binary (S754_finite false my ey) = true →
  (ey < ex ∨ (ey = ex ∧ Zpos my ≤ Zpos mx))%Z →
  (Zpos (fst (shl_align my ey (Z.min ex ey)))
   ≤ Zpos (fst (shl_align mx ex (Z.min ex ey))))%Z.
Proof.
  intros Hx Hy Hle.
  destruct (valid_bounds _ _ Hx) as (Hmx & Hnx & Hex).
  destruct (valid_bounds _ _ Hy) as (Hmy & Hny & Hey).
  destruct (shl_align_spec mx ex (Z.min ex ey)) as [Hsx Hvx].
  destruct (shl_align_spec my ey (Z.min ex ey)) as [Hsy Hvy].
  rewrite Hvx, Hvy, Hsx, Hsy.
  destruct Hle as [Hlt | [-> Hm]].
  - replace (Z.min ex (Z.min ex ey)) with ey by lia.
    replace (Z.min ey (Z.min ex ey)) with ey by lia.
    rewrite Z.sub_diag, Z.pow_0_r.
    assert (2 ^ 1 ≤ 2 ^ (ex - ey))%Z by (apply Z.pow_le_mono_r; lia).
    assert (2 ^ 52 ≤ Zpos mx)%Z by lia. nia.
  - rewrite !Z.min_id, Z.sub_diag, Z.pow_0_r. lia.
Qed.

Lemma binary_normalize_not_negative (m e : Z) :
  (0 ≤ m)%Z → not_negative (binary_normalize prec emax m e false).
Proof.
  intros Hm. destruct m as [|p|p]; [done| |lia].
  cbn [binary_normalize]. unfold binary_round.
  destruct (shl_align _ _ _) as [mz ez].
  pose proof (binary_round_aux_sign false (Zpos mz) ez loc_Exact) as Hs.
  destruct (binary_round_aux _ _ _ _ _ _) as [s|s| |s ? ?]; cbn; try done; by subst s.
Qed.

(** [hi - lo] is not negative unless [hi < lo]. *)
Lemma sub_not_negative (hi lo : float) :
  (hi <? lo)%float = false → (hi - lo <? 0)%float = false.
Proof.
  rewrite ltb_zero_false, sub_spec. intros Hlt. apply ltb_false in Hlt.
  unfold num_lt, fkey in Hlt.
  pose proof (FloatAxioms.Prim2SF_valid hi) as Hvx.
  pose proof (FloatAxioms.Prim2SF_valid lo) as Hvy.
  destruct (Prim2SF hi) as [sx|sx| |sx mx ex], (Prim2SF lo) as [sy|sy| |sy my ey];
    cbn [sf_key SF64sub SFsub not_negative] in Hlt |- *; try done.
  9:{ unfold SF64sub, SFsub. apply binary_normalize_not_negative.
      change (IntDef.Z.min ex ey) with (Z.min ex ey).
      unfold lex_lt in Hlt. destruct sx, sy; cbn [cond_Zopp].
      - assert (ex < ey ∨ (ex = ey ∧ Zpos mx ≤ Zpos my))%Z as Hle by lia.
        pose proof (aligned_le my ey mx ex Hvy Hvx Hle) as H.
        rewrite (Z.min_comm ey ex) in H. lia.
      - exfalso. apply Hlt. lia.
      - lia.
      - assert (ey < ex ∨ (ey = ex ∧ Zpos my ≤ Zpos mx))%Z as Hle by lia.
        pose proof (aligned_le mx ex my ey Hvx Hvy Hle) as H. lia. }
  all: try (destruct sx); try (destruct sy); cbn [negb] in Hlt |- *; try done.
  all: exfalso; apply Hlt; unfold lex_lt; lia.
Qed.

(** X7.  [getDimensions] returns [null] exactly when no bounding box is
    held.  Otherwise it returns the size of the box, which is all zero for
    an empty box and [max - min] along each axis for the others; no
    dimension is ever negative. *)
Theorem getDimensions_not_negative (s : StlSlicer.t) :
  (boundingBox s = None → getDimensions s = None)
  ∧ (∀ box, boundingBox s = Some box →
       ∃ dims, getDimensions s = Some dims
         ∧ (width dims <? 0)%float = false
         ∧ (height dims <? 0)%float = false
         ∧ (depth dims <? 0)%float = false
         ∧ (Box3.isEmpty box = true →
            dims = {| width := 0; height := 0; depth := 0 |})
         ∧ (Box3.isEmpty box = false →
            dims = {| width := Vector3.x (Box3.max box) - Vector3.x (Box3.min box);
                      height := Vector3.y (Box3.max box) - Vector3.y (Box3.min box);
                      depth := Vector3.z (Box3.max box) - Vector3.z (Box3.min box) |})).
Proof.
  unfold getDimensions. split; [by intros ->|]. intros box ->.
  eexists. split; [reflexivity|]. unfold Box3.getSize.
  destruct (Box3.isEmpty box) eqn:He; cbn [width height depth Vector3.x Vector3.y Vector3.z].
  - repeat split; try done.
  - unfold Box3.isEmpty in He. apply orb_false_iff in He as [He Hz].
    apply orb_false_iff in He as [Hx Hy].
    repeat split; try done; by apply sub_not_negative.
Qed.

(** *** From the triangles to the paths *)

Section WithAtan2.
Variable Math_atan2 : float → float → float.

Lemma createSlice_provenance (s : StlSlicer.t) (position : float) (axis : Axis)
    (paths : list Path) :
  createSlice Math_atan2 s position axis = Returned paths →
  ∀ path p, path ∈ paths → p ∈ path →
    3 ≤ length path
    ∧ ∃ tree tri seg v,
        bvhSlicer s = Some tree ∧ tri ∈ trianglesOfBVH tree
        ∧ BVHSlicer.intersectsTriangle position axis tri = Some seg
        ∧ v ∈ seg ∧ p = convertTo2D (Some (ofVector3 v)) axis.
Proof.
  unfold createSlice.
  destruct (geometry s) as [geo|]; [|done].
  destruct (bvhSlicer s) as [tree|]; [|done].
  destruct (boundingBox s) as [box|]; [|done].
  destruct (buildPaths _ _ _ _) as [found|] eqn:Hfound; [|done].
  intros [= <-] path p Hpath Hp. split.
  - apply buildPaths_atLeast3 in Hfound. unfold atLeast3 in Hfound.
    rewrite Forall_forall in Hfound. by apply Hfound.
  - destruct (buildPaths_projected _ _ _ _ _ Hfound path p Hpath Hp)
      as (edge & v & Hedge & Hv & ->).
    destruct (sliceAtPlane_from_triangles _ _ _ _ Hedge) as (tri & Htri & Hseg).
    exists tree, tri, edge, v. done.
Qed.

(** X6.  Every path of every layer of a completed run has at least three
    points, and every one of its points is the projection of a point of a
    segment that [intersectsTriangle] yields, at the position of the layer,
    for a triangle of the hierarchy the slicer holds. *)
Theorem layer_points_come_from_triangles (fuel : nat) (s : StlSlicer.t) (axis : Axis)
    (layerThickness : float) (onProgress : bool) (run : Run) :
  sliceModel Math_atan2 fuel s axis layerThickness onProgress = Returned run →
  ∀ layer path p, layer ∈ run_layers run → path ∈ paths layer → p ∈ path →
    3 ≤ length path
    ∧ ∃ tree tri seg v,
        bvhSlicer s = Some tree ∧ tri ∈ trianglesOfBVH tree
        ∧ BVHSlicer.intersectsTriangle (z layer) axis tri = Some seg
        ∧ v ∈ seg ∧ p = convertTo2D (Some (ofVector3 v)) axis.
Proof.
  intros Hrun layer path p Hlayer Hpath Hp.
  destruct (sliceModel_inv _ _ _ _ _ _ _ Hrun)
    as (geo & positions & box & _ & _ & _ & Hlayers & _ & _ & _ & Ht & _).
  apply list_elem_of_lookup in Hlayer as [i Hi].
  destruct (Hlayers i layer Hi) as (_ & _ & Hslice & _).
  destruct (createSlice_provenance _ _ _ _ Hslice path p Hpath Hp)
    as (Hlen & tree & tri & seg & v & Htree & Hrest).
  split; [done|]. exists tree, tri, seg, v. by rewrite <- Ht.
Qed.

(** X1.  [buildPaths] returns for every input, whatever [Math.atan2]
    returns: none of its [while] loops runs forever.  It returns no path
    when no edge gives a segment. *)
Theorem buildPaths_always_returns (edges : list (list Vector3.t)) (axis : Axis)
    (diagonal : float) :
  ∃ paths,
    buildPaths Math_atan2 edges axis diagonal = Some paths
    ∧ (segmentsOfEdges axis (ZERO_LENGTH_TOL diagonal) edges = [] → paths = []).
Proof.
  destruct (buildPaths_total Math_atan2 edges axis diagonal) as [paths Hp].
  exists paths. split; [done|]. intros Hnone. unfold buildPaths in Hp.
  rewrite Hnone in Hp. destruct (length edges =? 0)%nat; by injection Hp as <-.
Qed.

End WithAtan2.

(** *** The theorems at the cube *)

Lemma sliceModel_layers_in_order_witness :
  loaded Examples.cube
  ∧ ∀ atan2, ∃ run,
      sliceModel atan2 5 Examples.cube AxisZ 25 true = Returned run
      ∧ length (run_layers run) = 4
      ∧ (∀ i layer, run_layers run !! i = Some layer → index layer = i)
      ∧ 2 ≤ length (run_layers run).
Proof.
  split; [apply cube_loaded|]. intros atan2.
  destruct (cube_run atan2 true) as (run & Hrun & Hlen).
  exists run. split; [exact Hrun|]. split; [exact Hlen|].
  destruct (sliceModel_layers_in_order atan2 5 Examples.cube AxisZ 25 true run Hrun)
    as (box & _ & Hlayers & _).
  split; [|rewrite Hlen; lia].
  intros i layer Hi. exact (proj1 (Hlayers i layer Hi)).
Defined.

Lemma sliceModel_nan_thickness_witness :
  is_nan nan = true
  ∧ ∀ atan2, ∃ run,
      sliceModel atan2 0 Examples.cube AxisZ nan true = Returned run
      ∧ run_layers run = [] ∧ run_progress run = [].
Proof.
  split; [reflexivity|]. intros atan2.
  apply (sliceModel_nan_thickness atan2 0 Examples.cube AxisZ nan true).
  - exists Examples.cube_geometry, (Examples.coordinates Examples.cube_vertices).
    split; reflexivity.
  - eexists. reflexivity.
  - reflexivity.
Defined.

Lemma sliceModel_zero_thickness_witness :
  loaded Examples.cube
  ∧ (0 <? 100 - 0)%float = true
  ∧ ∀ atan2 fuel, sliceModel atan2 fuel Examples.cube AxisZ 0 true = OutOfFuel.
Proof.
  split; [apply cube_loaded|]. split; [reflexivity|]. intros atan2 fuel.
  apply (sliceModel_zero_thickness atan2 fuel Examples.cube AxisZ true Examples.cube_box);
    [apply cube_loaded | reflexivity | reflexivity].
Defined.

Lemma sliceModel_returns_unless_endless_witness :
  loaded Examples.cube
  ∧ calculatedLayerCount (100 - 0) 25 = 4%float
  ∧ int_value (calculatedLayerCount (100 - 0) 1e-15) = Some (10 ^ 17)%Z
  ∧ ∀ atan2,
      (∃ run, sliceModel atan2 4 Examples.cube AxisZ 25 true = Returned run
              ∧ length (run_layers run) = 4)
      ∧ ∀ fuel, sliceModel atan2 fuel Examples.cube AxisZ 1e-15 true = OutOfFuel.
Proof.
  split; [apply cube_loaded|]. split; [reflexivity|].
  split; [vm_compute; reflexivity|]. intros atan2. split.
  - destruct (sliceModel_returns_unless_endless atan2 Examples.cube AxisZ 25 true
                Examples.cube_box cube_loaded eq_refl)
      as [[[Hinf | (n & Hint & Hbig)] _] | (n & [[Hnan _] | (_ & _ & Hint)] & Hrun)].
    + vm_compute in Hinf. discriminate Hinf.
    + assert (int_value (calculatedLayerCount
                           (snd (axisRange AxisZ Examples.cube_box)
                            - fst (axisRange AxisZ Examples.cube_box)) 25)
              = Some 4%Z) as Hfour by (vm_compute; reflexivity).
      rewrite Hfour in Hint. injection Hint as <-. lia.
    + vm_compute in Hnan. discriminate Hnan.
    + assert (int_value (calculatedLayerCount
                           (snd (axisRange AxisZ Examples.cube_box)
                            - fst (axisRange AxisZ Examples.cube_box)) 25)
              = Some 4%Z) as Hfour by (vm_compute; reflexivity).
      rewrite Hfour in Hint. injection Hint as Hn.
      assert (n = 4) as -> by lia.
      apply Hrun. lia.
  - destruct (sliceModel_returns_unless_endless atan2 Examples.cube AxisZ 1e-15 true
                Examples.cube_box cube_loaded eq_refl)
      as [[_ Hnever] | (n & [[Hnan _] | (_ & Hsmall & Hint)] & _)].
    + exact Hnever.
    + vm_compute in Hnan. discriminate Hnan.
    + assert (int_value (calculatedLayerCount
                           (snd (axisRange AxisZ Examples.cube_box)
                            - fst (axisRange AxisZ Examples.cube_box)) 1e-15)
              = Some (10 ^ 17)%Z) as Hmany by (vm_compute; reflexivity).
      rewrite Hmany in Hint. injection Hint as Hn. lia.
Defined.

Lemma layer_points_come_from_triangles_witness :
  loaded Examples.cube
  ∧ ∀ atan2, ∃ run,
      sliceModel atan2 5 Examples.cube AxisZ 25 true = Returned run
      ∧ ∀ layer path p, layer ∈ run_layers run → path ∈ paths layer → p ∈ path →
          3 ≤ length path
          ∧ ∃ tri seg v,
              tri ∈ trianglesOfBVH Examples.cube_bvh
              ∧ BVHSlicer.intersectsTriangle (z layer) AxisZ tri = Some seg
              ∧ v ∈ seg ∧ p = convertTo2D (Some (ofVector3 v)) AxisZ.
Proof.
  split; [apply cube_loaded|]. intros atan2.
  destruct (cube_run atan2 true) as (run & Hrun & _).
  exists run. split; [exact Hrun|]. intros layer path p Hlayer Hpath Hp.
  destruct (layer_points_come_from_triangles atan2 5 Examples.cube AxisZ 25 true run Hrun
              layer path p Hlayer Hpath Hp)
    as (Hlen & tree & tri & seg & v & Htree & Htri & Hrest).
  split; [exact Hlen|]. exists tri, seg, v.
  injection Htree as <-. exact (conj Htri Hrest).
Defined.

End RunProps.

Module WorkerProps.
Import JsMath FloatOrder StlSlicer Termination Vocabulary FloatFacts SliceProps RunProps.
Import SlicerWorker SlicerWorkerClient.

Lemma deserialize_serialize (layer : LayerData) :
  deserializeLayer (serializeLayer layer) = layer.
Proof.
  destruct layer as [i ps z b]. unfold deserializeLayer, serializeLayer. cbn. f_equal.
  rewrite <- list_fmap_compose. rewrite <- (list_fmap_id ps) at 2.
  apply list_fmap_ext. intros _ path _. cbn.
  rewrite <- list_fmap_compose. rewrite <- (list_fmap_id path) at 2.
  apply list_fmap_ext. intros _ [x y] _. done.
Qed.

Lemma deserialize_serialize_all (layers : list LayerData) :
  map deserializeLayer (map serializeLayer layers) = layers.
Proof.
  induction layers as [|layer layers IH]; [done|].
  cbn [map]. by rewrite deserialize_serialize, IH.
Qed.

Lemma map_fixed {A : Type} (f : A → A) (l : list A) :
  Forall (λ x, f x = x) l → map f l = l.
Proof. induction 1 as [|x l Hx _ IH]; [done|]. cbn. by rewrite Hx, IH. Qed.

Lemma receive_progress (sliceId : float) (onProgress : bool) (percents : list float)
    (h : Handle) :
  is_nan sliceId = false → terminated h = false →
  foldl (receive sliceId onProgress) h (map (MsgProgress sliceId) percents)
  = {| reported := if onProgress then reported h ++ percents else reported h;
       promise := promise h; terminated := false |}.
Proof.
  intros Hid. revert h. induction percents as [|p percents IH]; intros h Ht.
  - cbn. destruct h as [r pr t]. cbn in *. subst t.
    destruct onProgress; by rewrite ?app_nil_r.
  - cbn [map foldl]. rewrite IH.
    + unfold receive. rewrite Ht. cbn [messageId].
      assert ((sliceId =? sliceId)%float = true) as ->.
      { apply eqb_eq. apply is_nan_false in Hid as [a Ha]. eauto. }
      cbn [negb reported promise]. destruct onProgress; [by rewrite <- app_assoc | done].
    + unfold receive. rewrite Ht. cbn [messageId].
      by destruct (negb _).
Qed.

Section WithLibraries.
Variable Math_atan2 : float → float → float.
Variable MeshBVH_new : BufferGeometry → MeshBVH.

Lemma loadFromBuffers_loaded (positionArray : list float) (indexArray : list nat)
    (boundingBoxMin boundingBoxMax : Vector3.t) :
  loaded (loadFromBuffers MeshBVH_new positionArray indexArray
                          boundingBoxMin boundingBoxMax).
Proof. split; [|split]; cbn; eauto. Qed.

(** X18.  When the worker has answered a request, it has posted one
    progress message per layer and then exactly one result message, all
    carrying the identifier of the request, and no error message: a run on
    the buffers of a request never throws. *)
Theorem worker_answers_with_one_result (fuel : nat) (request : SlicerWorkerRequest)
    (messages : list SlicerWorkerMessage) :
  onmessage Math_atan2 MeshBVH_new fuel request = Some messages →
  ∃ percents layers,
    messages = map (MsgProgress (sliceId request)) percents
               ++ [MsgResult (sliceId request) layers]
    ∧ length percents = length layers
    ∧ Forall (λ msg, messageId msg = sliceId request) messages
    ∧ (∀ id message, MsgError id message ∉ messages).
Proof.
  unfold onmessage.
  destruct (sliceModel _ _ _ _ _ _) as [run|message|] eqn:Hrun; [| |done].
  - intros [= <-].
    destruct (sliceModel_inv _ _ _ _ _ _ _ Hrun)
      as (geo & positions & box & _ & _ & _ & _ & Hprogress & _).
    exists (run_progress run), (map serializeLayer (run_layers run)).
    split; [done|]. split; [by rewrite Hprogress, !length_map, length_seq|]. split.
    + apply Forall_app. split; [|by apply Forall_singleton].
      apply Forall_forall. intros msg Hmsg.
      by apply list_elem_of_fmap in Hmsg as (p & -> & _).
    + intros id message Hin. apply elem_of_app in Hin as [Hin | Hin].
      * by apply list_elem_of_fmap in Hin as (p & [=] & _).
      * by apply list_elem_of_singleton in Hin.
  - exfalso. destruct (sliceModel_thrown _ _ _ _ _ _ _ Hrun) as [Hnot _].
    apply Hnot, loadFromBuffers_loaded.
Qed.

(** X19.  Slicing in the worker gives what [sliceModel] gives on the main
    thread.  For a slicer whose geometry has positions and an index that
    typed arrays hold unchanged and whose hierarchy is the one built from
    that geometry, and for an identifier that is a number: when
    [sliceModel] on the slicer completes, [sliceInWorker] on its geometry
    and bounding box resolves its promise with the very layers of that run,
    after passing the progress reports of that run to the callback, if
    there is one, and terminating the worker. *)
Theorem sliceInWorker_matches_sliceModel (fuel : nat) (s : StlSlicer.t)
    (geometry : BufferGeometry) (box : Box3.t) (axis : Axis)
    (layerThickness sliceId : float) (onProgress : bool) (run : Run) :
  getGeometry s = Some geometry → getBoundingBox s = Some box →
  bvhSlicer s = Some (MeshBVH_new geometry) →
  is_Some (positionAttr geometry) → is_Some (indexAttr geometry) →
  typedBuffers geometry →
  is_nan sliceId = false →
  sliceModel Math_atan2 fuel s axis layerThickness true = Returned run →
  sliceInWorker Math_atan2 MeshBVH_new fuel geometry box axis layerThickness
                sliceId onProgress
  = Returned (Some {| reported := if onProgress then run_progress run else [];
                      promise := Some (Resolved (run_layers run));
                      terminated := true |}).
Proof.
  unfold getGeometry, getBoundingBox.
  intros Hg Hb Ht [positions Hp] [idx Hi] [Hf32 Hu32] Hid Hrun.
  unfold sliceInWorker, SlicerWorkerClient.request. rewrite Hp, Hi.
  rewrite (map_fixed _ _ (Hf32 positions Hp)), (map_fixed _ _ (Hu32 idx Hi)).
  unfold onmessage. cbn [positionArray indexArray boundingBoxMin boundingBoxMax
                         SlicerWorker.axis SlicerWorker.layerThickness
                         SlicerWorker.sliceId vectorOf].
  assert (loadFromBuffers MeshBVH_new positions idx
            (Vector3.mk (Vector3.x (Box3.min box)) (Vector3.y (Box3.min box))
                        (Vector3.z (Box3.min box)))
            (Vector3.mk (Vector3.x (Box3.max box)) (Vector3.y (Box3.max box))
                        (Vector3.z (Box3.max box))) = s) as ->.
  { unfold loadFromBuffers, BVHSlicer.create, BVHSlicer.ensureIndex.
    cbn [positionAttr indexAttr BVHSlicer.geometry BVHSlicer.bvh].
    destruct s as [g b t]. cbn in Hg, Hb, Ht. subst g b t.
    destruct geometry as [gp gi]. cbn in Hp, Hi. subst gp gi.
    by destruct box as [[? ? ?] [? ? ?]]. }
  rewrite Hrun. cbn [fmap option_fmap option_map]. do 2 f_equal.
  rewrite foldl_app, receive_progress by done. cbn [foldl].
  unfold receive. cbn [terminated messageId reported promise].
  assert ((sliceId =? sliceId)%float = true) as ->.
  { apply eqb_eq. apply is_nan_false in Hid as [a Ha]. eauto. }
  cbn [negb]. by rewrite deserialize_serialize_all.
Qed.

End WithLibraries.

Lemma cube_typed : typedBuffers Examples.cube_geometry.
Proof.
  split.
  - intros positions [= <-].
    repeat (apply Forall_cons; split; [vm_compute; reflexivity|]). apply Forall_nil_2.
  - intros idx [= <-].
    repeat (apply Forall_cons; split; [vm_compute; reflexivity|]). apply Forall_nil_2.
Qed.

Lemma cube_answer (atan2 : float → float → float) (run : Run) :
  sliceModel atan2 5 Examples.cube AxisZ 25 true = Returned run →
  onmessage atan2 Examples.cube_bvh_new 5 Examples.cube_request
  = Some (map (MsgProgress 1) (run_progress run)
          ++ [MsgResult 1 (map serializeLayer (run_layers run))]).
Proof.
  intros Hrun. unfold onmessage.
  change (loadFromBuffers Examples.cube_bvh_new
            (positionArray Examples.cube_request) (indexArray Examples.cube_request)
            (vectorOf (boundingBoxMin Examples.cube_request))
            (vectorOf (boundingBoxMax Examples.cube_request))) with Examples.cube.
  change (SlicerWorker.axis Examples.cube_request) with AxisZ.
  change (SlicerWorker.layerThickness Examples.cube_request) with 25%float.
  rewrite Hrun. reflexivity.
Qed.

(** The theorems at the cube, sliced in the worker along z with layer
    thickness 25. *)
Lemma worker_answers_with_one_result_witness :
  loaded Examples.cube
  ∧ ∀ atan2, ∃ messages,
      onmessage atan2 Examples.cube_bvh_new 5 Examples.cube_request = Some messages
      ∧ ∃ percents layers,
          messages = map (MsgProgress 1) percents ++ [MsgResult 1 layers]
          ∧ length percents = length layers.
Proof.
  split; [apply cube_loaded|]. intros atan2.
  destruct (cube_run atan2 true) as (run & Hrun & _).
  pose proof (cube_answer atan2 run Hrun) as Hmessages.
  eexists. split; [exact Hmessages|].
  destruct (worker_answers_with_one_result atan2 Examples.cube_bvh_new 5
              Examples.cube_request _ Hmessages)
    as (percents & layers & Heq & Hlen & _).
  exists percents, layers. exact (conj Heq Hlen).
Defined.

Lemma sliceInWorker_matches_sliceModel_witness :
  typedBuffers Examples.cube_geometry
  ∧ ∀ atan2, ∃ run,
      sliceModel atan2 5 Examples.cube AxisZ 25 true = Returned run
      ∧ sliceInWorker atan2 Examples.cube_bvh_new 5 Examples.cube_geometry
                      Examples.cube_box AxisZ 25 1 true
        = Returned (Some {| reported := run_progress run;
                            promise := Some (Resolved (run_layers run));
                            terminated := true |}).
Proof.
  split; [apply cube_typed|]. intros atan2.
  destruct (cube_run atan2 true) as (run & Hrun & _).
  exists run. split; [exact Hrun|].
  apply (sliceInWorker_matches_sliceModel atan2 Examples.cube_bvh_new 5 Examples.cube
           Examples.cube_geometry Examples.cube_box AxisZ 25 1 true run).
  - reflexivity.
  - reflexivity.
  - reflexivity.
  - eexists. reflexivity.
  - eexists. reflexivity.
  - apply cube_typed.
  - reflexivity.
  - exact Hrun.
Defined.

End WorkerProps.
